(** * Arithmetic dynamics on projective space: a shallow embedding

  The development follows
  [src/sage/dynamics/arithmetic_dynamics/projective_ds.py]: the orbit of a
  point, the period sieve [possible_periods], the orbit-graph builders
  [_preperiodic_points_to_cyclegraph] and [cyclegraph], the p-adic lifter
  [lift_to_rational_periodic] with its helper [_multipliermod], and the
  iteration count of [green_function] in error-bounded mode.

  Python exceptions are values of [exn]; a method that may raise returns
  [result].  Loops over [range] are structural recursions on the number of
  remaining iterations; the work-list loop of the lifter takes fuel, and a
  run that uses it up has the value [None].  The real numbers of
  [RealField(prec)] are taken exact. *)

From Stdlib Require Import Reals Lra.
From Stdlib Require Import ZArith QArith Qcanon Lia Bool String.
From stdpp Require Import base list strings gmap sets sorting.

Open Scope Z_scope.

(** ** Exceptions and fallible computations *)

Inductive exn : Type :=
| TypeError (msg : string)
| ValueError (msg : string)
| IndexError
| ZeroDivisionError
| NotImplementedError (msg : string).

Inductive result (A : Type) : Type :=
| Ok (a : A)
| Raise (e : exn).

Arguments Ok {A} a.
Arguments Raise {A} e.

Definition rbind {A B : Type} (r : result A) (k : A -> result B) : result B :=
match r with
| Ok a => k a
| Raise e => Raise e
end.

Notation "'do' x <- r ; k" := (rbind r (fun x => k))
  (at level 10, x name, r at level 100, k at level 200).
Notation "'do' ' p <- r ; k" := (rbind r (fun x => match x with p => k end))
  (at level 10, p pattern, r at level 100, k at level 200).

#[global] Instance exn_eq_dec : EqDecision exn.
Proof. solve_decision. Defined.

#[global] Instance result_eq_dec {A : Type} `{EqDecision A} :
  EqDecision (result A).
Proof. solve_decision. Defined.

(** [[k(x) for x in l]] with a [k] that may raise: the first exception
    ends the loop. *)
Fixpoint result_map {A B : Type} (k : A -> result B) (l : list A)
  : result (list B) :=
  match l with
  | [] => Ok []
  | x :: l' => do y <- k x; do ys <- result_map k l'; Ok (y :: ys)
  end.

(** ** Orbits: [DynamicalSystem_projective.orbit] and [nth_iterate]

  The method is written once for every base ring, so the points and the
  two operations it calls on them are the section's variables:
  [call Q check] is [self(Q, check)], which raises when the image is not
  a valid point and [check] is set, and [normalize_coordinates] is the
  in-place normalisation, here a function to the normalised point. *)

(** The second argument of [orbit]: an integer [N], or a pair [[m, k]]. *)
Inductive orbit_bounds : Type :=
| Single (N : Z)
| Bounds (m k : Z).

Section Orbit.
Context {Point : Type}.
Variable call : Point -> bool -> result Point.
Variable normalize_coordinates : Point -> result Point.

(** [if normalize: Q.normalize_coordinates()] *)
Definition normalize_if (normalize : bool) (Q : Point) : result Point :=
  if normalize then normalize_coordinates Q else Ok Q.

(** One pass of either loop body: [Q = self(Q, check)] and the optional
    normalisation. *)
Definition orbit_step (check normalize : bool) (Q : Point) : result Point :=
  do Q' <- call Q check; normalize_if normalize Q'.

(** [for i in range(1, N[0]+1)]: advance to the first point of the orbit. *)
Fixpoint orbit_skip (check normalize : bool) (n : nat) (Q : Point)
  : result Point :=
  match n with
  | O => Ok Q
  | S n' => do Q' <- orbit_step check normalize Q;
            orbit_skip check normalize n' Q'
  end.

(** [for i in range(N[0]+1, N[1]+1)]: [orb] grows at its end. *)
Fixpoint orbit_collect (check normalize : bool) (n : nat) (Q : Point)
    (orb : list Point) : result (list Point) :=
  match n with
  | O => Ok orb
  | S n' => do Q' <- orbit_step check normalize Q;
            orbit_collect check normalize n' Q' (orb ++ [Q'])
  end.

Definition orbit (P : Point) (N : orbit_bounds) (check normalize : bool)
  : result (list Point) :=
  let '(m, k) := match N with Single n => (0, n) | Bounds m k => (m, k) end in
  if (m <? 0) || (k <? 0) then
    Raise (TypeError "orbit bounds must be non-negative")
  else if m >? k then Ok []
  else
    do Q <- normalize_if normalize P;
    do Q <- orbit_skip check normalize (Z.to_nat m) Q;
    orbit_collect check normalize (Z.to_nat (k - m)) Q [Q].

(** [nth_iterate]: the first entry of [orbit(P, [n, n+1])]. *)
Definition nth_iterate (P : Point) (n : Z) (check normalize : bool)
  : result Point :=
  if n <? 0 then Raise (TypeError "must be a forward orbit")
  else
    do orb <- orbit P (Bounds n (n + 1)) check normalize;
    match orb with
    | Q :: _ => Ok Q
    | [] => Raise IndexError
    end.

(** The [i]-th image of a point, defined on its own: the point itself
    (normalised when asked) and then [i] steps of the map. *)
Fixpoint nth_image (check normalize : bool) (i : nat) (P : Point)
  : result Point :=
  match i with
  | O => normalize_if normalize P
  | S i' => do Q <- nth_image check normalize i' P;
            orbit_step check normalize Q
  end.

(** The list [[P, f(P), ..., f^n(P)]] of the docstring, built from
    [nth_image]; the first image that raises ends the collection. *)
Fixpoint image_list (check normalize : bool) (n : nat) (P : Point)
  : result (list Point) :=
  match n with
  | O => do Q <- nth_image check normalize 0 P; Ok [Q]
  | S n' => do l <- image_list check normalize n' P;
            do Q <- nth_image check normalize (S n') P;
            Ok (l ++ [Q])
  end.
End Orbit.


(** ** The period sieve: [possible_periods] over [ZZ] or [QQ] *)

(** Modelled from the spec: [is_prime] and [primes] of [sage.arith] are not
    under src/.  [primes(start, stop)] runs through the primes [q] with
    [start <= q < stop] in increasing order ("primes are tried in
    increasing order"). *)
Definition is_prime (n : Z) : bool :=
  (1 <? n) && forallb (fun d => negb (n mod d =? 0)) (seqZ 2 (n - 2)).

Definition primes (start stop : Z) : list Z :=
  filter (fun q => is_prime q = true) (seqZ start (stop - start)).

(** The keyword [prime_bound]: an integer upper bound, or a pair. *)
Inductive prime_bound_arg : Type :=
| UpTo (b : Z)
| Between (a b : Z).

(** The keywords of [possible_periods]; [ncpus] only sets the size of the
    worker pool and is left to [p_iter_fork] below. *)
Record periods_kwds : Type := {
  prime_bound : prime_bound_arg;
  bad_primes : option (list Z)
}.

Definition default_periods_kwds : periods_kwds :=
  {| prime_bound := Between 1 20; bad_primes := None |}.

Section PeriodSieve.
Context {System Reduced : Type}.
(** [self.domain().base_ring() in [ZZ, QQ]] *)
Variable base_ring_ZZ_or_QQ : System -> bool.
Variable primes_of_bad_reduction : System -> result (list Z).
(** [self.change_ring(GF(q))]; it raises when a coefficient has no image
    in [GF(q)]. *)
Variable change_ring_GF : System -> Z -> result Reduced.
(** [morphism.possible_periods()] of the system over a finite field, the
    function the workers run; it may raise. *)
Variable possible_periods_GF : Reduced -> result (list Z).
(** [p_iter_fork(num_cpus, 0)]: applied to a function and its inputs it
    yields the pairs (input, output), in the order the workers finish; what
    it does when a worker raises is its own, and [list(...)] hands an
    exception of the pool on to the caller. *)
Variable p_iter_fork :
  (Reduced -> result (list Z)) -> list Reduced
  -> result (list (Reduced * list Z)).

(** The primes the sieve reduces at: [q in primes(lo, hi + 1)] with
    [not (q in badprimes)]. *)
Definition good_primes (lo hi : Z) (badprimes : list Z) : list Z :=
  filter (fun q => q ∉ badprimes) (primes lo (hi + 1)).

(** [primebound]: [[1, b]] for an integer [b], the pair itself otherwise. *)
Definition bounds_of (pb : prime_bound_arg) : Z * Z :=
  match pb with
  | UpTo b => (1, b)
  | Between a b => (a, b)
  end.

(** The good primes of a call. *)
Definition good_primes_of (kwds : periods_kwds) (badprimes : list Z) : list Z :=
  good_primes (bounds_of (prime_bound kwds)).1 (bounds_of (prime_bound kwds)).2
    badprimes.

(** [for result in parallel_results]: the running intersection, with the
    flag [firstgood]; [periods] is unbound until the flag is set. *)
Fixpoint intersect_results (results : list (Reduced * list Z))
    (firstgood : bool) (periods : gset Z) : bool * gset Z :=
  match results with
  | [] => (firstgood, periods)
  | result :: rest =>
      let possible_periods := result.2 in
      if firstgood
      then intersect_results rest true (periods ∩ list_to_set possible_periods)
      else intersect_results rest true (list_to_set possible_periods)
  end.

(** [badprimes]: the keyword, or [self.primes_of_bad_reduction()]. *)
Definition bad_primes_of (f : System) (kwds : periods_kwds)
  : result (list Z) :=
  match bad_primes kwds with
  | None => primes_of_bad_reduction f
  | Some l => Ok l
  end.

Definition possible_periods (f : System) (kwds : periods_kwds)
  : result (list Z) :=
  if negb (base_ring_ZZ_or_QQ f) then
    Raise (NotImplementedError "must be ZZ or QQ")
  else
    let primebound := bounds_of (prime_bound kwds) in
    do badprimes <- bad_primes_of f kwds;
    do parallel_data <-
      result_map (change_ring_GF f)
        (good_primes primebound.1 primebound.2 badprimes);
    do parallel_results <- p_iter_fork possible_periods_GF parallel_data;
    let '(firstgood, periods) := intersect_results parallel_results false ∅ in
    if firstgood then Ok (merge_sort Z.le (elements periods))
    else Raise (ValueError "no primes of good reduction in that range").
End PeriodSieve.

(** ** Orbit graphs *)

(** Modelled from the spec: [DiGraph] of [sage.graphs] is not under src/.
    A graph is its vertices, "distinct ... points (under
    normalized-coordinate equality)", and its edges; [DiGraph(d, loops=True)]
    on a dictionary [d] of lists takes the keys and the listed neighbours as
    vertices and an edge from each key to each of its neighbours.  A point
    equal to a vertex already present is that vertex. *)
Record DiGraph (Point : Type) : Type := {
  vertices : list Point;
  edges : list (Point * Point)
}.
Arguments vertices {Point} _.
Arguments edges {Point} _.

#[global] Instance DiGraph_eq_dec {Point : Type} `{EqDecision Point} :
  EqDecision (DiGraph Point).
Proof. solve_decision. Defined.

Section Graphs.
Context {Point : Type}.
(** [==] on points *)
Variable point_eq : Point -> Point -> bool.
(** [self(val)], with the default [check=True] *)
Variable call : Point -> result Point.
Variable normalize_coordinates : Point -> result Point.

(** [D.index(val)]: the first position holding a point equal to [val]. *)
Fixpoint index (D : list Point) (val : Point) : option nat :=
  match D with
  | [] => None
  | d :: D' => if point_eq d val then Some O else S <$> index D' val
  end.

(** A Python [dict] keyed by points: entries in insertion order; an
    assignment to a key equal to one present keeps the key and replaces
    the value. *)
Fixpoint dict_setitem {V : Type} (d : list (Point * V)) (k : Point) (v : V)
  : list (Point * V) :=
  match d with
  | [] => [(k, v)]
  | (k', v') :: d' =>
      if point_eq k' k then (k', v) :: d' else (k', v') :: dict_setitem d' k v
  end.

Definition dict_of_pairs {V : Type} (kvs : list (Point * V))
  : list (Point * V) :=
  fold_left (fun d kv => dict_setitem d kv.1 kv.2) kvs [].

Definition vertex_of (vs : list Point) (v : Point) : Point :=
  match index vs v with
  | Some i => default v (vs !! i)
  | None => v
  end.

Definition add_vertex (vs : list Point) (v : Point) : list Point :=
  match index vs v with
  | Some _ => vs
  | None => vs ++ [v]
  end.

Definition has_edge (es : list (Point * Point)) (e : Point * Point) : bool :=
  existsb (fun e' => point_eq e'.1 e.1 && point_eq e'.2 e.2) es.

Definition add_edge (es : list (Point * Point)) (e : Point * Point)
  : list (Point * Point) :=
  if has_edge es e then es else es ++ [e].

Definition DiGraph_of_dict (d : list (Point * list Point)) : DiGraph Point :=
  let vs :=
    fold_left (fun vs kv => fold_left add_vertex kv.2 (add_vertex vs kv.1))
      d [] in
  let es :=
    fold_left
      (fun es kv =>
         fold_left
           (fun es v => add_edge es (vertex_of vs kv.1, vertex_of vs v))
           kv.2 es)
      d [] in
  {| vertices := vs; edges := es |}.

(** The three lists of [_preperiodic_points_to_cyclegraph]. *)
Record builder_state : Type := {
  bV : list Point;
  bE : list (list Point);
  bD : list Point
}.

(** One pass of [for val in preper]. *)
Definition builder_step (st : builder_state) (val : Point)
  : result builder_state :=
  let '(V, D) :=
    match index (bD st) val with
    | Some i => (bV st ++ [default val (bD st !! i)], bD st)
    | None => (bV st ++ [val], bD st ++ [val])
    end in
  do Q <- call val;
  do Q <- normalize_coordinates Q;
  let '(E, D) :=
    match index D Q with
    | Some i => (bE st ++ [[default Q (D !! i)]], D)
    | None => (bE st ++ [[Q]], D ++ [Q])
    end in
  Ok {| bV := V; bE := E; bD := D |}.

Fixpoint builder_loop (st : builder_state) (preper : list Point)
  : result builder_state :=
  match preper with
  | [] => Ok st
  | val :: rest => do st' <- builder_step st val; builder_loop st' rest
  end.

Definition _preperiodic_points_to_cyclegraph (preper : list Point)
  : result (DiGraph Point) :=
  do st <- builder_loop {| bV := []; bE := []; bD := [] |} preper;
  Ok (DiGraph_of_dict (dict_of_pairs (zip (bV st) (bE st)))).

(** [cyclegraph] over a finite field, for a domain that is a projective
    space: [points] is the enumeration [for P in self.domain()]; an
    evaluation that raises [ValueError] leaves the vertex without an edge. *)
Fixpoint cyclegraph_loop (points : list Point) (V : list Point)
    (E : list (list Point)) : result (list Point * list (list Point)) :=
  match points with
  | [] => Ok (V, E)
  | P :: rest =>
      let V := V ++ [P] in
      match (do Q <- call P; normalize_coordinates Q) with
      | Ok Q => cyclegraph_loop rest V (E ++ [[Q]])
      | Raise (ValueError _) => cyclegraph_loop rest V (E ++ [[]])
      | Raise e => Raise e
      end
  end.

Definition cyclegraph (points : list Point) : result (DiGraph Point) :=
  do '(V, E) <- cyclegraph_loop points [] [];
  Ok (DiGraph_of_dict (dict_of_pairs (zip V E))).
End Graphs.

(** ** Polynomial maps of projective space

    A system on [P^N] is its [N+1] defining polynomials in [N+1] variables.
    A polynomial is the list of its terms, a term a coefficient with the
    exponent vector of its monomial.  Coordinates are rationals ([Qc]), or
    residues modulo [m] kept as integers in [[0, m)]. *)

Definition polynomial (C : Type) : Type := list (C * list nat).

(** The largest index whose entry passes [keep], as the loops
    [index = N; while v[index] == 0: index -= 1] find it. *)
Fixpoint last_index_from {A : Type} (keep : A -> bool) (l : list A) (i : nat)
  : option nat :=
  match l with
  | [] => None
  | x :: l' =>
      match last_index_from keep l' (S i) with
      | Some j => Some j
      | None => if keep x then Some i else None
      end
  end.

Definition last_index {A : Type} (keep : A -> bool) (l : list A) : option nat :=
  last_index_from keep l O.

(** *** Rational coordinates *)

Definition Qc_eqb (a b : Qc) : bool := bool_decide (a = b).

Fixpoint eval_monomial_QQ (e : list nat) (x : list Qc) : Qc :=
  match e, x with
  | n :: e', xi :: x' => (xi ^ n * eval_monomial_QQ e' x')%Qc
  | _, _ => 1%Qc
  end.

Definition eval_polynomial_QQ (f : polynomial Qc) (x : list Qc) : Qc :=
  fold_right (fun t acc => (t.1 * eval_monomial_QQ t.2 x + acc)%Qc) 0%Qc f.

(** Modelled from the spec: the point classes of [sage.schemes.projective]
    are not under src/.  A point is "a tuple of field elements up to
    simultaneous nonzero scaling"; constructed with [check=True] over a
    field it must have a nonzero entry and is scaled so that its last such
    entry is [1]; [==] compares the cross products of the coordinates;
    [normalize_coordinates] fixes the last nonzero coordinate to [1];
    [scale_by] refuses the factor [0]. *)
Definition point_QQ (v : list Qc) (check : bool) : result (list Qc) :=
  if check then
    match last_index (fun c => negb (Qc_eqb c 0%Qc)) v with
    | None => Raise (ValueError "does not define a valid point since all entries are 0")
    | Some last => Ok ((fun u => (u / default 1%Qc (v !! last))%Qc) <$> v)
    end
  else Ok v.

Definition scale_by_QQ (v : list Qc) (t : Qc) : result (list Qc) :=
  if Qc_eqb t 0%Qc then Raise (ValueError "Cannot scale by 0")
  else Ok ((fun u => (u * t)%Qc) <$> v).

Definition normalize_coordinates_QQ (v : list Qc) : result (list Qc) :=
  match last_index (fun c => negb (Qc_eqb c 0%Qc)) v with
  | None => Raise IndexError
  | Some i => scale_by_QQ v (1 / default 1%Qc (v !! i))%Qc
  end.

(** [all(self[i]*right[j] == self[j]*right[i] for i < j)] *)
Fixpoint point_eq_QQ (a b : list Qc) : bool :=
  match a, b with
  | ai :: a', bi :: b' =>
      forallb (fun ab => Qc_eqb (ai * ab.2)%Qc (ab.1 * bi)%Qc) (zip a' b')
      && point_eq_QQ a' b'
  | _, _ => true
  end.

(** [self(x, check)] over the rationals *)
Definition call_QQ (F : list (polynomial Qc)) (x : list Qc) (check : bool)
  : result (list Qc) :=
  point_QQ ((fun f => eval_polynomial_QQ f x) <$> F) check.

(** *** Coordinates modulo [m] *)

Fixpoint eval_monomial_mod (m : Z) (e : list nat) (x : list Z) : Z :=
  match e, x with
  | n :: e', xi :: x' => (xi ^ Z.of_nat n * eval_monomial_mod m e' x') mod m
  | _, _ => 1 mod m
  end.

Definition eval_polynomial_mod (m : Z) (f : polynomial Z) (x : list Z) : Z :=
  fold_right (fun t acc => (t.1 * eval_monomial_mod m t.2 x + acc) mod m) 0 f.

(** The image of a rational in [Z/m]: numerator times the inverse of the
    denominator, which has to be a unit. *)
Definition Qc_mod (c : Qc) (m : Z) : result Z :=
  let n := Qnum c in
  let d := Zpos (Qden c) in
  if Z.gcd d m =? 1 then Ok ((n * Z.invmod d m) mod m)
  else Raise ZeroDivisionError.

(** [self.change_ring(R)] for [R = Zmod(m)], [ZZ.quo(m)] or [GF(m)] *)
Definition change_ring_mod (F : list (polynomial Qc)) (m : Z)
  : result (list (polynomial Z)) :=
  result_map
    (result_map (fun t : Qc * list nat => do c <- Qc_mod t.1 m; Ok (c, t.2)))
    F.

(** Modelled from the spec: over a ring that is not a field the checked
    constructor only refuses the tuple of zeros. *)
Definition point_mod (v : list Z) (check : bool) : result (list Z) :=
  if check && forallb (fun c => c =? 0) v then
    Raise (ValueError "does not define a valid point since all entries are 0")
  else Ok v.

Definition call_mod (m : Z) (F : list (polynomial Z)) (x : list Z)
    (check : bool) : result (list Z) :=
  point_mod ((fun f => eval_polynomial_mod m f x) <$> F) check.

Fixpoint point_eq_mod (m : Z) (a b : list Z) : bool :=
  match a, b with
  | ai :: a', bi :: b' =>
      forallb (fun ab => (ai * ab.2) mod m =? (ab.1 * bi) mod m) (zip a' b')
      && point_eq_mod m a' b'
  | _, _ => true
  end.

(** *** Coordinates in a prime field [GF(q)] *)

(** Over the field [GF(q)] the checked constructor normalises: the last
    nonzero coordinate becomes [1]. *)
Definition point_GF (q : Z) (v : list Z) (check : bool) : result (list Z) :=
  if check then
    match last_index (fun c => negb (c =? 0)) v with
    | None => Raise (ValueError "does not define a valid point since all entries are 0")
    | Some last =>
        Ok ((fun u => (u * Z.invmod (default 1 (v !! last)) q) mod q) <$> v)
    end
  else Ok v.

Definition call_GF (q : Z) (F : list (polynomial Z)) (x : list Z)
    (check : bool) : result (list Z) :=
  point_GF q ((fun f => eval_polynomial_mod q f x) <$> F) check.

Definition normalize_coordinates_GF (q : Z) (v : list Z) : result (list Z) :=
  match last_index (fun c => negb (c =? 0)) v with
  | None => Raise IndexError
  | Some i => Ok ((fun u => (u * Z.invmod (default 1 (v !! i)) q) mod q) <$> v)
  end.

(** [cartesian_product_iterator([R] * n)] for [R = GF(q)], last entry
    running fastest. *)
Fixpoint tuples (q : Z) (n : nat) : list (list Z) :=
  match n with
  | O => [[]]
  | S n' => t ← tuples q n'; (fun c => t ++ [c]) <$> seqZ 0 q
  end.

(** Modelled from the spec: the enumeration [for P in self.domain()] of
    "every point in the (finite) reduced projective space": for [k] from
    [0] to [N], the tuples with [N-k] free entries, then [1], then [k]
    zeros. *)
Definition points_of_projective_space (q : Z) (N : nat) : list (list Z) :=
  k ← seq 0 (S N); (fun v => v ++ [1] ++ replicate k 0) <$> tuples q (N - k).

(** *** The methods on these coordinates *)

(** Points of [P^N(QQ)] written with integers or fractions. *)
Definition qz (z : Z) : Qc := Q2Qc (inject_Z z).
Definition qfrac (n : Z) (d : positive) : Qc := Q2Qc (n # d).

Definition orbit_QQ (F : list (polynomial Qc)) (P : list Qc)
    (N : orbit_bounds) (check normalize : bool) : result (list (list Qc)) :=
  orbit (call_QQ F) normalize_coordinates_QQ P N check normalize.

Definition nth_iterate_QQ (F : list (polynomial Qc)) (P : list Qc) (n : Z)
    (check normalize : bool) : result (list Qc) :=
  nth_iterate (call_QQ F) normalize_coordinates_QQ P n check normalize.

(** [normalize_coordinates] is not reached with [normalize=False]; over
    [Z/m] it is left out. *)
Definition nth_iterate_mod (m : Z) (F : list (polynomial Z)) (P : list Z)
    (n : Z) (check : bool) : result (list Z) :=
  nth_iterate (call_mod m F) (fun Q => Ok Q) P n check false.

Definition preperiodic_points_to_cyclegraph_QQ (F : list (polynomial Qc))
    (preper : list (list Qc)) : result (DiGraph (list Qc)) :=
  _preperiodic_points_to_cyclegraph point_eq_QQ (fun P => call_QQ F P true)
    normalize_coordinates_QQ preper.

(** [cyclegraph] of a system over [GF(q)] on projective space. *)
Definition cyclegraph_GF (q : Z) (F : list (polynomial Z))
  : result (DiGraph (list Z)) :=
  cyclegraph (point_eq_mod q) (fun P => call_GF q F P true)
    (normalize_coordinates_GF q)
    (points_of_projective_space q (length F - 1)).

(** ** Rational arithmetic of the lifter *)

(** [a / b] raises on [b = 0]. *)
Definition Qc_div (a b : Qc) : result Qc :=
  if Qc_eqb b 0%Qc then Raise ZeroDivisionError else Ok (a / b)%Qc.

(** Modelled from the spec: [gcd] and [lcm] of [sage.arith] are not under
    src/.  On rationals the greatest common divisor is that of the
    numerators over the least common multiple of the denominators. *)
Definition lcm_denominators (v : list Qc) : Z :=
  foldr (fun (c : Qc) acc => Z.lcm (Zpos (Qden c)) acc) 1 v.

Definition gcd_numerators (v : list Qc) : Z :=
  foldr (fun (c : Qc) acc => Z.gcd (Qnum c) acc) 0 v.

Definition gcd_QQ (v : list Qc) : Qc :=
  (qz (gcd_numerators v) / qz (lcm_denominators v))%Qc.

Definition gcd_ZZ (v : list Z) : Z := foldr Z.gcd 0 v.

(** [T.clear_denominators()] *)
Definition clear_denominators_QQ (v : list Qc) : result (list Qc) :=
  scale_by_QQ v (qz (lcm_denominators v)).

(** [index = N; while Q[index] % p == 0: index -= 1] on the coordinates
    read from the last one down; running off the tuple is an [IndexError]. *)
Fixpoint scan_down (p : Z) (reversed : list Qc) : result nat :=
  match reversed with
  | [] => Raise IndexError
  | c :: rest =>
      do r <- Qc_mod c p;
      if r =? 0 then scan_down p rest else Ok (length rest)
  end.

Definition last_unit_index (p : Z) (v : list Qc) : result nat :=
  scan_down p (rev v).

(** A coordinate, with the [IndexError] of a missing one. *)
Definition coordinate {A : Type} (v : list A) (i : nat) : result A :=
  match v !! i with
  | Some c => Ok c
  | None => Raise IndexError
  end.

(** ** Matrices *)

Definition identity_matrix_QQ (N : nat) : list (list Qc) :=
  (fun i => (fun j => if Nat.eqb i j then 1%Qc else 0%Qc) <$> seq 0 N)
    <$> seq 0 N.

Definition column {A : Type} (d : A) (M : list (list A)) (j : nat) : list A :=
  (fun row => default d (row !! j)) <$> M.

Definition dot_QQ (u v : list Qc) : Qc :=
  foldr (fun ab acc => (ab.1 * ab.2 + acc)%Qc) 0%Qc (zip u v).

Definition matrix_mul_QQ (A B : list (list Qc)) : list (list Qc) :=
  (fun row =>
     (fun j => dot_QQ row (column 0%Qc B j))
       <$> seq 0 (length (default [] (head B))))
    <$> A.

(** [M % m] on a rational matrix: entry by entry. *)
Definition matrix_mod_QQ (M : list (list Qc)) (m : Z) : result (list (list Qc)) :=
  result_map (result_map (fun c => do r <- Qc_mod c m; Ok (qz r))) M.

(** [l.change_ring(Zmod(m))] *)
Definition matrix_change_ring_mod (M : list (list Qc)) (m : Z)
  : result (list (list Z)) :=
  result_map (result_map (fun c => Qc_mod c m)) M.

(** Modelled from the spec: determinant and inverse of [sage.matrix] are
    not under src/; the determinant is expanded along the first row and
    the inverse is the adjugate times the inverse of the determinant. *)
Fixpoint determinant_rec (size : nat) (M : list (list Z)) : Z :=
  match size, M with
  | S size', row :: rest =>
      foldr Z.add 0
        ((fun j =>
            (if Nat.even j then 1 else -1) * default 0 (row !! j)
            * determinant_rec size' (delete j <$> rest))
           <$> seq 0 (length row))
  | _, _ => 1
  end.

Definition determinant_mod (m : Z) (M : list (list Z)) : Z :=
  determinant_rec (length M) M mod m.

Definition minor (M : list (list Z)) (i j : nat) : list (list Z) :=
  delete j <$> delete i M.

Definition inverse_mod (m : Z) (M : list (list Z)) : result (list (list Z)) :=
  let d := determinant_mod m M in
  if Z.gcd d m =? 1 then
    Ok ((fun i =>
           (fun j =>
              ((if Nat.even (i + j) then 1 else -1)
               * determinant_rec (length M - 1) (minor M j i)
               * Z.invmod d m) mod m)
             <$> seq 0 (length M))
          <$> seq 0 (length M))
  else Raise ZeroDivisionError.

Definition matrix_vector_mod (m : Z) (M : list (list Z)) (v : list Z) : list Z :=
  (fun row => foldr (fun ab acc => (ab.1 * ab.2 + acc) mod m) 0 (zip row v))
    <$> M.

(** ** [_multipliermod] *)

(** The partial derivative of a polynomial in the variable [v]. *)
Definition partial_derivative (v : nat) (f : polynomial Qc) : polynomial Qc :=
  (fun t =>
     ((t.1 * qz (Z.of_nat (default O (t.2 !! v))))%Qc,
      alter Nat.pred v t.2))
    <$> f.

(** Modelled from the spec: [dehomogenize] and [jacobian] are not under
    src/.  [self.dehomogenize((i, j)).jacobian()] at [Q.dehomogenize(i)]:
    the derivatives of the quotients [f_m / f_j], [m <> j], in the
    variables [x_v], [v <> i], at the point [Q / Q_i]. *)
Definition jacobian_dehomogenized (F : list (polynomial Qc)) (i j : nat)
    (Q : list Qc) : result (list (list Qc)) :=
  do Qi <- coordinate Q i;
  do a <- result_map (fun c => Qc_div c Qi) Q;
  do fj <- coordinate F j;
  let fja := eval_polynomial_QQ fj a in
  result_map
    (fun fm =>
       let fma := eval_polynomial_QQ fm a in
       result_map
         (fun v =>
            Qc_div
              (eval_polynomial_QQ (partial_derivative v fm) a * fja
               - fma * eval_polynomial_QQ (partial_derivative v fj) a)%Qc
              (fja * fja)%Qc)
         (delete i (seq 0 (length F))))
    (delete j F).

(** [R = self(Q, False)], divided by the gcd of its coordinates and
    reduced modulo [p^k]. *)
Definition multiplier_image (F : list (polynomial Qc)) (p k : Z) (Q : list Qc)
  : result (list Qc) :=
  do R <- call_QQ F Q false;
  do g <- Qc_div 1%Qc (gcd_QQ R);
  do R <- scale_by_QQ R g;
  result_map (fun c => do r <- Qc_mod c (p ^ k); Ok (qz r)) R.

(** [for i in range(0, n)]: [index] is [indexlist[i]]. *)
Fixpoint multipliermod_loop (F : list (polynomial Qc)) (p k : Z) (n : nat)
    (Q : list Qc) (index : nat) (l : list (list Qc))
  : result (list (list Qc)) :=
  match n with
  | O => Ok l
  | S n' =>
      do R <- multiplier_image F p k Q;
      do index' <- last_unit_index p R;
      do J <- jacobian_dehomogenized F index index' Q;
      do l' <- matrix_mod_QQ (matrix_mul_QQ J l) (p ^ k);
      multipliermod_loop F p k n' R index' l'
  end.

Definition _multipliermod (F : list (polynomial Qc)) (P : list Qc) (n p k : Z)
  : result (list (list Qc)) :=
  let N := (length F - 1)%nat in
  let l := identity_matrix_QQ N in
  do g <- Qc_div 1%Qc (gcd_QQ P);
  do Q <- scale_by_QQ P g;
  do index <- last_unit_index p Q;
  multipliermod_loop F p k (Z.to_nat n) Q index l.

(** ** [lift_to_rational_periodic] *)

(** An entry of [points]: [[point mod p, period, current p-adic precision]]. *)
Record candidate : Type := {
  cand_point : list Qc;
  cand_period : Z;
  cand_precision : Z
}.

#[global] Instance candidate_eq_dec : EqDecision candidate.
Proof. solve_decision. Defined.

(** What one pass of [while k < L and bad == 0] leaves: the point and the
    precision to go on with, or [bad = 1]; in both cases the candidates
    appended to [points] on the way. *)
Inductive step_outcome : Type :=
| Advanced (T : list Qc) (k : Z) (appended : list candidate)
| Dropped (appended : list candidate).

#[global] Instance step_outcome_eq_dec : EqDecision step_outcome.
Proof. solve_decision. Defined.

(** [l = self._multipliermod(T, n, p, 2*k)], [l -= l.parent().one()],
    [lp = l.change_ring(Zmod(p**k))] and [ldet = lp.determinant()]. *)
Definition jacobian_minus_identity (F : list (polynomial Qc)) (T : list Qc)
    (n p k : Z) : result (list (list Z) * Z) :=
  do l <- _multipliermod F T n p (2 * k);
  let l := zip_with (zip_with Qcminus) l (identity_matrix_QQ (length l)) in
  do lp <- matrix_change_ring_mod l (p ^ k);
  Ok (lp, determinant_mod (p ^ k) lp).

(** [T.scale_by(1 / T[qindex])] *)
Definition scale_to_index (T : list Qc) (qindex : nat) : result (list Qc) :=
  do Tq <- coordinate T qindex;
  do t <- Qc_div 1%Qc Tq;
  scale_by_QQ T t.

(** The first lines of the Hensel branch: [T] with its denominators
    cleared and rescaled at [qindex], and the [n]-th iterate [S] of its
    reduction modulo [p^(2k)], rescaled at [qindex] too ([S0] here, [S]
    being the successor of [nat]). *)
Definition hensel_iterate (F : list (polynomial Qc)) (T : list Qc)
    (n p k : Z) (qindex : nat) : result (list Qc * list Qc) :=
  let RQ := p ^ (2 * k) in
  do T <- clear_denominators_QQ T;
  do newT <- result_map (fun c => Qc_mod c RQ) T;
  do fp <- change_ring_mod F RQ;
  do S0 <- nth_iterate_mod RQ fp newT n true;
  let S0 := qz <$> S0 in
  do T <- scale_to_index T qindex;
  do S0 <- scale_to_index S0 qindex;
  Ok (T, S0).

(** [for i in range(N + 1)]: [newS[i] = S[i] - T[i]], with [bad = 1] and
    [break] at the first [i != N] where [newS[i] % (p**k) != 0].  The
    result is [bad]. *)
Fixpoint hensel_residual_bad (p k : Z) (N i : nat) (ST : list (Qc * Qc))
  : result bool :=
  match ST with
  | [] => Ok false
  | st :: rest =>
      do r <- Qc_mod (st.1 - st.2)%Qc (p ^ k);
      if negb (r =? 0) && negb (Nat.eqb i N) then Ok true
      else hensel_residual_bad p k N (S i) rest
  end.

(** The Newton step proper, from [S = PS.point(newS, False)] to
    [T.normalize_coordinates()]. *)
Definition newton_step (p k : Z) (qindex : nat) (lp : list (list Z))
    (T S0 : list Qc) : result (list Qc) :=
  let newS := zip_with Qcminus S0 T in
  do t <- Qc_div (qz (-1)) (qz (p ^ k));
  do S1 <- scale_by_QQ newS t;
  do vecs <- result_map (fun c => Qc_mod c (p ^ k)) S1;
  let vecs := delete qindex vecs in
  do lpinv <- inverse_mod (p ^ k) lp;
  let newvecs := matrix_vector_mod (p ^ k) lpinv vecs in
  let newS := (qz <$> take qindex newvecs) ++ [qz 0]
              ++ (qz <$> drop qindex newvecs) in
  do newS <- result_map (fun c => do r <- Qc_mod c (p ^ k); Ok (qz r)) newS;
  let newT := zip_with (fun t s => (t + s * qz (p ^ k))%Qc) T newS in
  normalize_coordinates_QQ newT.

Definition hensel_step (F : list (polynomial Qc)) (T : list Qc) (n p k L : Z)
    (qindex : nat) (lp : list (list Z)) : result step_outcome :=
  do '(T, S0) <- hensel_iterate F T n p k qindex;
  do bad <- hensel_residual_bad p k (length F - 1) 0 (zip S0 T);
  if bad then Ok (Dropped [])
  else
    do T <- newton_step p k qindex lp T S0;
    Ok (Advanced T (Z.min (2 * k) L) []).

(** [newT[i] = newT[i] + shift[shiftindex] * p**k] for [i != qindex]. *)
Fixpoint apply_shift (m pk : Z) (qindex i : nat) (newT shift : list Z)
  : list Z :=
  match newT with
  | [] => []
  | t :: newT' =>
      if Nat.eqb i qindex then t :: apply_shift m pk qindex (S i) newT' shift
      else
        match shift with
        | s :: shift' =>
            ((t + s * pk) mod m) :: apply_shift m pk qindex (S i) newT' shift'
        | [] => t :: apply_shift m pk qindex (S i) newT' []
        end
  end.

(** The lifts of [T] to precision [k + 1]: one for each [shift] of
    [xmrange([p for i in range(N)])]. *)
Definition one_digit_lifts (T : list Qc) (p k : Z) (N qindex : nat)
  : result (list (list Z)) :=
  let RQ := p ^ (k + 1) in
  result_map
    (fun shift =>
       do newT <- result_map (fun c => Qc_mod c RQ) T;
       Ok (apply_shift RQ (p ^ k) qindex 0 newT shift))
    (tuples p N).

(** [TT == newT] for [TT = fp.nth_iterate(newT, n, normalize=False)]. *)
Definition periodic_mod (m : Z) (fp : list (polynomial Z)) (n : Z)
    (newT : list Z) : result bool :=
  do TT <- nth_iterate_mod m fp newT n true;
  Ok (point_eq_mod m TT newT).

(** [for shift in shifts]: the lifts that pass the test, in order. *)
Fixpoint surviving_lifts (m : Z) (fp : list (polynomial Z)) (n : Z)
    (lifts : list (list Z)) : result (list (list Z)) :=
  match lifts with
  | [] => Ok []
  | newT :: rest =>
      do keep <- periodic_mod m fp n newT;
      do others <- surviving_lifts m fp n rest;
      Ok (if keep then newT :: others else others)
  end.

Definition branch_step (F : list (polynomial Qc)) (T : list Qc) (n p k : Z)
    (qindex : nat) : result step_outcome :=
  let RQ := p ^ (k + 1) in
  do fp <- change_ring_mod F RQ;
  do lifts <- one_digit_lifts T p k (length F - 1) qindex;
  do newq <- surviving_lifts RQ fp n lifts;
  match newq with
  | [] => Ok (Dropped [])
  | first :: others =>
      Ok (Advanced (qz <$> first) (k + 1)
            ((fun newT => {| cand_point := qz <$> newT;
                             cand_period := n;
                             cand_precision := k + 1 |}) <$> others))
  end.

(** One pass of the body of [while k < L and bad == 0]. *)
Definition lift_step (F : list (polynomial Qc)) (T : list Qc) (n p k L : Z)
    (qindex : nat) : result step_outcome :=
  do '(lp, ldet) <- jacobian_minus_identity F T n p k;
  if negb (ldet mod p =? 0) then hensel_step F T n p k L qindex lp
  else branch_step F T n p k qindex.

(** [while k < L and bad == 0].  The precision grows with every pass when
    it is positive, so [L - k] passes are enough; [None] stands for a loop
    that would not end. *)
Fixpoint lift_loop (fuel : nat) (F : list (polynomial Qc)) (T : list Qc)
    (n p k L : Z) (qindex : nat) (appended : list candidate)
  : option (result (option (list Qc) * list candidate)) :=
  if k <? L then
    match fuel with
    | O => None
    | S fuel' =>
        match lift_step F T n p k L qindex with
        | Raise e => Some (Raise e)
        | Ok (Dropped more) => Some (Ok (None, appended ++ more))
        | Ok (Advanced T' k' more) =>
            lift_loop fuel' F T' n p k' L qindex (appended ++ more)
        end
    end
  else Some (Ok (Some T, appended)).

(** [while not done and k <= n]: the exact check of the reconstructed
    point [P]; [newP] is its [k-1]-st image. *)
Fixpoint verify_periodic (F : list (polynomial Qc)) (P : list Qc)
    (remaining : nat) (k : Z) (newP : list Qc)
    (good_points : list (list Qc * Z)) : result (list (list Qc * Z)) :=
  match remaining with
  | O => Ok good_points
  | S remaining' =>
      do newP <- call_QQ F newP true;
      if point_eq_QQ newP P then
        if existsb (fun g => point_eq_QQ g.1 P && (g.2 =? k)) good_points
        then Ok good_points
        else Ok (good_points ++ [(newP, k)])
      else verify_periodic F P remaining' (k + 1) newP good_points
  end.

Section Lifter.
(** [L = R((R(2 ** (N/2 + 1) * sqrt(N+1) * B**2).log()) / R(p).log() + 1).trunc()],
    computed in [RealField()] from [B], [N] and [p]. *)
Variable precision_target : Qc -> nat -> Z -> Z.
(** [M.LLL()] of [sage.matrix] *)
Variable LLL : list (list Z) -> list (list Z).

(** The matrix [M]: the point in row [0], [p^L] on the diagonal below.
    [M] is a matrix of integers and [p**L] is a rational number when [L] is
    negative: the assignment [M[i+1, i] = p**L] then raises, unless [p] is
    [1] or [-1], whose powers are integers ([p = 0] is refused at the start
    of the method). *)
Definition lattice_matrix (T : list Qc) (p L : Z) : result (list (list Z)) :=
  if (L <? 0) && (p =? 0) then Raise ZeroDivisionError
  else if (L <? 0) && negb (Z.abs p =? 1)
  then Raise (TypeError "no conversion of this rational to integer")
  else
    Ok (((fun c : Qc => Qnum c) <$> T)
        :: ((fun i => (fun j => if Nat.eqb i j then p ^ Z.abs L else 0)
                        <$> seq 0 (length T))
              <$> seq 0 (length T))).

(** From [M = matrix(N + 2, N + 1)] to the end of the pass: the shortest
    vector found is tested against the height bound and then verified. *)
Definition reconstruct_and_verify (F : list (polynomial Qc)) (T : list Qc)
    (n p L : Z) (B : Qc) (good_points : list (list Qc * Z))
  : result (list (list Qc * Z)) :=
  do T <- clear_denominators_QQ T;
  do M <- lattice_matrix T p L;
  let M := LLL M in
  do row <- coordinate M 1;
  do Q <- result_map (coordinate row) (seq 0 (length F));
  let g := gcd_ZZ Q in
  let newB := (B * qz g)%Qc in
  if existsb (fun c => bool_decide (newB < qz (Z.abs c))%Qc) Q
  then Ok good_points
  else
    let P := qz <$> Q in
    verify_periodic F P (Z.to_nat n) 1 P good_points.

(** One pass of [while points]: the candidate [q] popped from [points]. *)
Definition process_candidate (F : list (polynomial Qc)) (q : candidate)
    (p L : Z) (B : Qc) (good_points : list (list Qc * Z))
  : option (result (list candidate * list (list Qc * Z))) :=
  match
    (do qindex <- last_unit_index p (cand_point q);
     do T <- scale_to_index (cand_point q) qindex;
     Ok (qindex, T))
  with
  | Raise e => Some (Raise e)
  | Ok (qindex, T) =>
      let n := cand_period q in
      let k := cand_precision q in
      match lift_loop (Z.to_nat (L - k)) F T n p k L qindex [] with
      | None => None
      | Some (Raise e) => Some (Raise e)
      | Some (Ok (None, appended)) => Some (Ok (appended, good_points))
      | Some (Ok (Some T, appended)) =>
          Some (do good_points <- reconstruct_and_verify F T n p L B good_points;
                Ok (appended, good_points))
      end
  end.

(** [while points]: the head of the list is the end of the Python list,
    where [pop] takes and [append] adds. *)
Fixpoint lift_candidates (fuel : nat) (F : list (polynomial Qc))
    (points : list candidate) (p L : Z) (B : Qc)
    (good_points : list (list Qc * Z))
  : option (result (list (list Qc * Z))) :=
  match points with
  | [] => Some (Ok good_points)
  | q :: rest =>
      match fuel with
      | O => None
      | S fuel' =>
          match process_candidate F q p L B good_points with
          | None => None
          | Some (Raise e) => Some (Raise e)
          | Some (Ok (appended, good_points)) =>
              lift_candidates fuel' F (rev appended ++ rest) p L B good_points
          end
      end
  end.

(** [points_modp]: pairs of a point over [GF(p)], its coordinates in
    [[0, p)], and a period; [p] is the characteristic of their field and [B]
    the height bound. *)
Definition lift_to_rational_periodic (fuel : nat) (F : list (polynomial Qc))
    (points_modp : list (list Z * Z)) (p : Z) (B : Qc)
  : option (result (list (list Qc * Z))) :=
  match points_modp with
  | [] => Some (Ok [])
  | _ :: _ =>
      if p =? 0 then Some (Raise (TypeError "must be positive characteristic"))
      else
        let N := (length F - 1)%nat in
        let L := precision_target B N p in
        let points :=
          (fun pm => {| cand_point := qz <$> pm.1;
                        cand_period := pm.2;
                        cand_precision := 1 |}) <$> points_modp in
        lift_candidates fuel F (rev points) p L B []
  end.
End Lifter.

(** ** The two external computations, on the projective line

    The theorems on the lifter hold for every [precision_target] and every
    [LLL]; the examples run it with the following two. *)

(** The value of the formula for [L] in exact arithmetic, for a prime [p]
    and a bound [B <> 0]: with [X = 2^(N/2+1) * sqrt(N+1) * B^2], it is
    [trunc(log_p X + 1)], that is [1 + floor(log_p X)] when [X >= 1/p] and
    [1 + ceil(log_p X)], a negative number, when [X < 1/p].  The comparisons
    are made on [X^2 = 2^(N+2) * (N+1) * B^4].  [RealField()] computes the
    two logarithms with 53 bits: where [X] is a power of [p], or within
    rounding distance of one, the quotient of the rounded logarithms can
    fall just below the integer and the code then has one less than this
    value. *)
Fixpoint powers_below (fuel : nat) (p : Z) (X2 : Qc) (j : Z) : Z :=
  match fuel with
  | O => j
  | S fuel' =>
      if bool_decide (qz (p ^ (2 * (j + 1))) <= X2)%Qc
      then powers_below fuel' p X2 (j + 1)
      else j
  end.

Definition precision_target_exact (B : Qc) (N : nat) (p : Z) : Z :=
  let X2 := (qz (2 ^ (Z.of_nat N + 2) * (Z.of_nat N + 1)) * B ^ 4)%Qc in
  if bool_decide (1 <= X2)%Qc
  then 1 + powers_below (Z.to_nat (Z.log2_up (Qnum X2)) + 1) p X2 0
  else if bool_decide (1 <= qz (p ^ 2) * X2)%Qc then 0
  else 1 - powers_below (Z.to_nat (Z.log2_up (Qnum (/ X2))) + 1) p (/ X2) 0.

(** Lagrange's reduction of a lattice of the plane given by three
    generators, as [LLL] returns it: a zero row, then a basis with the
    shorter vector first. *)
Definition row_sub (u v : Z * Z) (q : Z) : Z * Z :=
  (u.1 - q * v.1, u.2 - q * v.2).

Definition norm2 (u : Z * Z) : Z := u.1 * u.1 + u.2 * u.2.

(** Euclid's algorithm on the second entries: the second row returned
    ends in [0]. *)
Fixpoint eliminate (fuel : nat) (u v : Z * Z) : (Z * Z) * (Z * Z) :=
  match fuel with
  | O => (u, v)
  | S fuel' =>
      if v.2 =? 0 then (u, v) else eliminate fuel' v (row_sub u v (u.2 / v.2))
  end.

Fixpoint lagrange (fuel : nat) (b1 b2 : Z * Z) : (Z * Z) * (Z * Z) :=
  match fuel with
  | O => (b1, b2)
  | S fuel' =>
      if norm2 b2 <? norm2 b1 then lagrange fuel' b2 b1
      else
        let mu := (2 * (b1.1 * b2.1 + b1.2 * b2.2) + norm2 b1)
                  / (2 * norm2 b1) in
        if mu =? 0 then (b1, b2) else lagrange fuel' b1 (row_sub b2 b1 mu)
  end.

Definition LLL_line (M : list (list Z)) : list (list Z) :=
  match M with
  | [[a0; a1]; [b0; b1]; [c0; c1]] =>
      let fuel := (Z.to_nat (Z.log2_up (Z.abs a1 + Z.abs b1 + Z.abs c1
                                        + Z.abs a0 + Z.abs b0 + Z.abs c0)) * 4
                   + 8)%nat in
      let '(u, v) := eliminate fuel (a0, a1) (b0, b1) in
      let '(u, w) := eliminate fuel u (c0, c1) in
      let g := Z.gcd v.1 w.1 in
      let '(r1, r2) := lagrange fuel u (g, 0) in
      [[0; 0]; [r1.1; r1.2]; [r2.1; r2.2]]
  | _ => M
  end.

Definition lift_to_rational_periodic_line :=
  lift_to_rational_periodic precision_target_exact LLL_line.

(** ** The finite-field side of the sieve, on the projective line *)

Definition partial_derivative_mod (q : Z) (v : nat) (f : polynomial Z)
  : polynomial Z :=
  (fun t =>
     ((t.1 * Z.of_nat (default O (t.2 !! v))) mod q, alter Nat.pred v t.2))
    <$> f.

Definition div_mod (q a b : Z) : Z := (a * Z.invmod b q) mod q.

(** [self.dehomogenize((i, j)).jacobian()] at [Q.dehomogenize(i)], over
    [GF(q)]; [Q_i] and [f_j(Q)] are not zero where [multiplier] asks. *)
Definition jacobian_dehomogenized_GF (q : Z) (F : list (polynomial Z))
    (i j : nat) (Q : list Z) : list (list Z) :=
  let Qi := default 1 (Q !! i) in
  let a := (fun c => div_mod q c Qi) <$> Q in
  let fj := default [] (F !! j) in
  let fja := eval_polynomial_mod q fj a in
  (fun fm =>
     let fma := eval_polynomial_mod q fm a in
     (fun v =>
        div_mod q
          (eval_polynomial_mod q (partial_derivative_mod q v fm) a * fja
           - fma * eval_polynomial_mod q (partial_derivative_mod q v fj) a)
          (fja * fja))
       <$> delete i (seq 0 (length F)))
    <$> delete j F.

Definition matrix_mul_mod (q : Z) (A B : list (list Z)) : list (list Z) :=
  (fun row =>
     (fun j =>
        foldr (fun ab acc => (ab.1 * ab.2 + acc) mod q) 0
          (zip row (column 0 B j)))
       <$> seq 0 (length (default [] (head B))))
    <$> A.

Definition identity_matrix_mod (N : nat) : list (list Z) :=
  (fun i => (fun j => if Nat.eqb i j then 1 else 0) <$> seq 0 N) <$> seq 0 N.

(** [multiplier(P, n, check=False)] over [GF(q)]: the product of the
    Jacobians of the dehomogenised map along [n] steps of the orbit,
    the chart changing with the last nonzero coordinate. *)
Fixpoint multiplier_loop (q : Z) (F : list (polynomial Z)) (n : nat)
    (Q : list Z) (index : nat) (l : list (list Z)) : result (list (list Z)) :=
  match n with
  | O => Ok l
  | S n' =>
      do R <- call_GF q F Q true;
      do R <- normalize_coordinates_GF q R;
      match last_index (fun c => negb (c =? 0)) R with
      | None => Raise IndexError
      | Some index' =>
          let J := jacobian_dehomogenized_GF q F index index' Q in
          multiplier_loop q F n' R index' (matrix_mul_mod q J l)
      end
  end.

Definition multiplier_GF (q : Z) (F : list (polynomial Z)) (P : list Z) (n : Z)
  : result (list (list Z)) :=
  do Q <- normalize_coordinates_GF q P;
  match last_index (fun c => negb (c =? 0)) Q with
  | None => Raise IndexError
  | Some index =>
      multiplier_loop q F (Z.to_nat n) Q index
        (identity_matrix_mod (length F - 1))
  end.

(** [k] steps of the reduced map. *)
Fixpoint iterate_GF (q : Z) (F : list (polynomial Z)) (k : nat) (P : list Z)
  : result (list Z) :=
  match k with
  | O => Ok P
  | S k' => do Q <- call_GF q F P true; iterate_GF q F k' Q
  end.

(** The least [k] in [1 .. bound] passing [test]. *)
Definition least_from_1 (bound : nat) (test : Z -> bool) : option Z :=
  head (filter (fun k => test k = true) (seqZ 1 (Z.of_nat bound))).

(** Modelled from the spec: [_fast_possible_periods] of
    [projective_ds_helper] is not under src/.  The reduced map sends "every
    point in the (finite) reduced projective space" to "its single image,
    decomposed into simple cycles"; the possible periods are "the provable
    superset of possible minimal periods of rational periodic points": for a
    cycle of length [m] whose multiplier is a unit of order [r], the lengths
    [m] and [m * r], and also [m * r * q] for [q = 2] or [3] (on the line the
    power of [q] is at most one, and none for [q > 3]).  The docstring of
    [possible_periods] over a finite field shows these values.  A point
    where the reduction is not defined starts no orbit; with good reduction
    there is none. *)
Definition periods_of_point (q : Z) (F : list (polynomial Z)) (P : list Z)
  : list Z :=
  let size := Z.to_nat (q + 1) in
  match iterate_GF q F size P with
  | Raise _ => []
  | Ok Q =>
      match
        least_from_1 size
          (fun k => bool_decide (iterate_GF q F (Z.to_nat k) Q = Ok Q))
      with
      | None => []
      | Some period =>
          match multiplier_GF q F Q period with
          | Ok [[lam]] =>
              match
                least_from_1 (Z.to_nat q)
                  (fun r => (lam ^ r) mod q =? 1 mod q)
              with
              | Some r =>
                  if (q =? 2) || (q =? 3)
                  then [period; period * r; period * r * q]
                  else [period; period * r]
              | None => [period]
              end
          | _ => [period]
          end
      end
  end.

Definition fast_possible_periods_line (q : Z) (F : list (polynomial Z))
  : list Z :=
  merge_sort Z.le
    (elements
       (list_to_set (points_of_projective_space q 1 ≫= periods_of_point q F)
        : gset Z)).

(** Modelled from the spec: over [QQ], [primes_of_bad_reduction] multiplies
    the forms by the lcm of their denominators and keeps a prime when the
    ideal of the reduced forms has positive dimension; the Groebner bases it
    asks for are not under src/.  A prime is "bad, e.g. divides the
    resultant": for the two quadratic forms of a map of degree 2 of the
    line, the primes dividing the resultant of the cleared forms. *)
Definition cleared_system (F : list (polynomial Qc)) : list (polynomial Z) :=
  let m :=
    foldr (fun (f : polynomial Qc) acc => Z.lcm (lcm_denominators (f.*1)) acc)
      1 F in
  (fun f : polynomial Qc =>
     (fun t : Qc * list nat => (Qnum (t.1 * qz m)%Qc, t.2)) <$> f) <$> F.

Definition coefficient_of (f : polynomial Z) (e : list nat) : Z :=
  foldr (fun t acc => if bool_decide (t.2 = e) then t.1 + acc else acc) 0 f.

(** The resultant of [a2 x^2 + a1 x y + a0 y^2] and
    [b2 x^2 + b1 x y + b0 y^2]. *)
Definition resultant_quadratic (F : list (polynomial Z)) : Z :=
  let f := default [] (F !! 0%nat) in
  let g := default [] (F !! 1%nat) in
  let a2 := coefficient_of f [2; 0]%nat in
  let a1 := coefficient_of f [1; 1]%nat in
  let a0 := coefficient_of f [0; 2]%nat in
  let b2 := coefficient_of g [2; 0]%nat in
  let b1 := coefficient_of g [1; 1]%nat in
  let b0 := coefficient_of g [0; 2]%nat in
  (a2 * b0 - a0 * b2) ^ 2 - (a2 * b1 - a1 * b2) * (a1 * b0 - a0 * b1).

(** [n.support()]: the primes dividing [n], by trial division. *)
Fixpoint remove_factor (fuel : nat) (d n : Z) : Z :=
  match fuel with
  | O => n
  | S fuel' => if n mod d =? 0 then remove_factor fuel' d (n / d) else n
  end.

Fixpoint support_from (fuel : nat) (d n : Z) : list Z :=
  match fuel with
  | O => []
  | S fuel' =>
      if n <=? 1 then []
      else if n <? d * d then [n]
      else if n mod d =? 0
      then d :: support_from fuel' (d + 1)
                  (remove_factor (Z.to_nat (Z.log2 n)) d n)
      else support_from fuel' (d + 1) n
  end.

Definition support (n : Z) : list Z :=
  support_from (Z.to_nat (Z.sqrt (Z.abs n)) + 1) 2 (Z.abs n).

Definition primes_of_bad_reduction_quadratic (F : list (polynomial Qc))
  : result (list Z) :=
  let res := resultant_quadratic (cleared_system F) in
  if res =? 0 then Raise (TypeError "not a morphism") else Ok (support res).

(** [possible_periods] of a map of degree 2 of the line over [QQ], with
    [ncpus=1]: the pool is a single worker that answers in the order of its
    inputs. *)
Definition reduced_system : Type := Z * list (polynomial Z).

Definition change_ring_GF_line (F : list (polynomial Qc)) (q : Z)
  : result reduced_system :=
  do G <- change_ring_mod F q; Ok (q, G).

Definition possible_periods_GF_line (R : reduced_system)
  : result (list Z) :=
  Ok (fast_possible_periods_line R.1 R.2).

(** A pool that answers in the order of its inputs; this one hands on the
    first exception of a worker. *)
Definition p_iter_serial {A B : Type} (g : A -> result B) (l : list A)
  : result (list (A * B)) :=
  result_map (fun x => do y <- g x; Ok (x, y)) l.

Definition possible_periods_line (F : list (polynomial Qc))
    (kwds : periods_kwds) : result (list Z) :=
  possible_periods (fun _ => true) primes_of_bad_reduction_quadratic
    change_ring_GF_line possible_periods_GF_line p_iter_serial F kwds.

(** ** The Green function: the number of terms for an error bound *)

(** [x.ceil()]: [up x] is the integer just above [x]. *)
Definition ceil (x : R) : Z := 1 - up (- x).

(** [x.log(d)] *)
Definition log_base (d x : R) : R := (ln x / ln d)%R.

Definition binomial (n k : nat) : nat :=
  (fact n / (fact k * fact (n - k)))%nat.

(** The lower bound [L]: [Res] is the lcm of the denominators and [maxh] the
    largest local height of the coefficients of the lifts of [x_k^D]; a
    [maxh] of [0] is replaced by [1]. *)
Definition lower_bound (archimedean : bool) (dim d : Z) (Res : Z) (maxh : R)
  : R :=
  let D := (dim + 1) * (d - 1) + 1 in
  let maxh := if Req_dec_T maxh 0 then 1%R else maxh in
  if archimedean then
    Rabs (ln (IZR Res
              / (IZR (dim + 1)
                 * INR (binomial (Z.to_nat (dim + D - d)) (Z.to_nat (D - d)))
                 * maxh)))
  else Rabs (ln (IZR Res / maxh)).

(** The number [N] computed when [error_bound] is given, from the upper
    bound [U] and the data of the lower bound. *)
Definition iteration_count (archimedean : bool) (dim d : Z) (err U : R)
    (Res : Z) (maxh : R) : result Z :=
  if Rlt_dec 0 err then
    let L := lower_bound archimedean dim d Res maxh in
    let C := Rmax U L in
    if Req_dec_T C 0 then Ok 1
    else Ok (ceil (Rabs (log_base (IZR d) (C / (err * IZR (d - 1))))))
  else Raise (ValueError "error bound must be positive").

Section GreenSeries.
Context {Point : Type}.
(** [R(m).log()], [m] the largest absolute value of the coordinates *)
Variable log_max_abs : Point -> R.
(** [Q.scale_by(1/Q[j])] then [Q = F(Q, False)] *)
Variable next_iterate : Point -> Point.
(** [BR.absolute_degree()] of the base ring *)
Variable absolute_degree : Z.

(** [for i in range(N+1)]: the rounds from [i] on. *)
Fixpoint green_loop (d N i : Z) (remaining : nat) (Q : Point) (localht : R)
  : R :=
  match remaining with
  | O => localht
  | S remaining' =>
      let localht :=
        (localht + (1 / IZR d) ^ Z.to_nat i * log_max_abs Q)%R in
      let Q := if i <? N then next_iterate Q else Q in
      green_loop d N (i + 1) remaining' Q localht
  end.

Definition green_series (d N : Z) (Q : Point) : R :=
  green_loop d N 0 (Z.to_nat (N + 1)) Q 0%R.

(** [green_function(P, v, error_bound=err)] once the bounds are known:
    the sum is returned divided by [BR.absolute_degree()], which is [1] over
    the rationals. *)
Definition green_function_error_bound (archimedean : bool) (dim d : Z)
    (err U : R) (Res : Z) (maxh : R) (Q : Point) : result R :=
  do N <- iteration_count archimedean dim d err U Res maxh;
  Ok (1 / IZR absolute_degree * green_series d N Q)%R.

(** The terms of the series: [(1/d)^i * log ||f^i(Q)||] for [i = 0 .. N]. *)
Definition series_terms (d N : Z) (Q : Point) : list R :=
  (fun i => ((1 / IZR d) ^ i * log_max_abs (Nat.iter i next_iterate Q))%R)
    <$> seq 0 (Z.to_nat N + 1).
End GreenSeries.

(** The count in the words of the specification:
    [ceil(log_d(max(U, L) / err))]. *)
Definition specified_iteration_count (d : Z) (err U L : R) : Z :=
  ceil (log_base (IZR d) (Rmax U L / err)).

(** ** The vocabulary of the statements *)

(** *** Systems of the docstrings *)

(** The docstring's [f = [x^2 + y^2, y^2]] at [(1 : 2)] with [check=False]:
    the five points of [f.orbit(P, 4)]. *)
Definition orbit_example : list (polynomial Qc) :=
  [ [(qz 1, [2; 0]%nat); (qz 1, [0; 2]%nat)]; [(qz 1, [0; 2]%nat)] ].

(** The docstring's [f = [x^3, x*y^2]] at [(0 : 1)]: the image is not a
    point, and with the default [check=True] the call for [N = 3] raises
    instead of returning a list. *)
Definition indeterminacy_example : list (polynomial Qc) :=
  [ [(qz 1, [3; 0]%nat)]; [(qz 1, [1; 2]%nat)] ].

(** A system with bad reduction at [3]: [f = [x^2 + 3*y^2, x*y]] reduces to
    [[x^2, x*y]], which is not defined at [(0 : 1)]. *)
Definition bad_reduction_example : list (polynomial Qc) :=
  [ [(qz 1, [2; 0]%nat); (qz 3, [0; 2]%nat)]; [(qz 1, [1; 1]%nat)] ].

(** Its reduction modulo [3]. *)
Definition bad_reduction_example_mod_3 : list (polynomial Z) :=
  [ [(1, [2; 0]%nat); (0, [0; 2]%nat)]; [(1, [1; 1]%nat)] ].

(** [f = [x^2 - y^2, y^2]] *)
Definition lift_example_1 : list (polynomial Qc) :=
  [ [(qz 1, [2; 0]%nat); (qz (-1), [0; 2]%nat)]; [(qz 1, [0; 2]%nat)] ].

(** [f = [-5*x^2 + 4*y^2, 4*x*y]] *)
Definition lift_example_2 : list (polynomial Qc) :=
  [ [(qz (-5), [2; 0]%nat); (qz 4, [0; 2]%nat)]; [(qz 4, [1; 1]%nat)] ].

(** [f = [16*x^2 - 29*y^2, 16*y^2]] *)
Definition lift_example_3 : list (polynomial Qc) :=
  [ [(qz 16, [2; 0]%nat); (qz (-29), [0; 2]%nat)]; [(qz 16, [0; 2]%nat)] ].

(** [f = [x^2 - 29/16*y^2, y^2]] *)
Definition possible_periods_example : list (polynomial Qc) :=
  [ [(qz 1, [2; 0]%nat); (qfrac (-29) 16, [0; 2]%nat)];
    [(qz 1, [0; 2]%nat)] ].

(** [f = [x^2, x^2 + y^2]]: modulo [5] the point [(1 : 0)] goes to
    [(1 : 1)]. *)
Definition last_coordinate_example : list (polynomial Qc) :=
  [ [(qz 1, [2; 0]%nat)]; [(qz 1, [2; 0]%nat); (qz 1, [0; 2]%nat)] ].

(** [f = [x^2 + 7*z^2, y^2, z^2]] on the plane: modulo [3] the point
    [(2 : 1 : 1)] is fixed, with the multiplier [1] in the first
    direction. *)
Definition branching_example : list (polynomial Qc) :=
  [ [(qz 1, [2; 0; 0]%nat); (qz 7, [0; 0; 2]%nat)];
    [(qz 1, [0; 2; 0]%nat)];
    [(qz 1, [0; 0; 2]%nat)] ].


(** The docstring's system [x^2 - 2 y^2, y^2] and its six rational
    preperiodic points. *)
Definition cyclegraph_example : list (polynomial Qc) :=
  [ [(qz 1, [2; 0]%nat); (qz (-2), [0; 2]%nat)]; [(qz 1, [0; 2]%nat)] ].

(** [[P(-2, 1), P(1, 0), P(0, 1), P(1, 1), P(2, 1), P(-1, 1)]] *)
Definition cyclegraph_example_points : list (list Qc) :=
  [ [qz (-2); qz 1]; [qz 1; qz 0]; [qz 0; qz 1]; [qz 1; qz 1];
    [qz 2; qz 1]; [qz (-1); qz 1] ].

(** *** The sieve *)

Section PeriodSieveVocabulary.
Context {System Reduced : Type}.
Variable change_ring_GF : System -> Z -> result Reduced.
Variable possible_periods_GF : Reduced -> result (list Z).

(** The periods found at a prime: those of the system reduced there. *)
Definition periods_at (f : System) (q : Z) (x : Z) : Prop :=
  exists F l, change_ring_GF f q = Ok F /\ possible_periods_GF F = Ok l /\
    x ∈ l.

(** The system reduces at every good prime of the call. *)
Definition reduces_at_good_primes (f : System) (kwds : periods_kwds)
    (badprimes : list Z) : Prop :=
  forall q, q ∈ good_primes_of kwds badprimes ->
    exists F, change_ring_GF f q = Ok F.

(** The workers return at the reductions at the good primes of the call. *)
Definition workers_return (f : System) (kwds : periods_kwds)
    (badprimes : list Z) : Prop :=
  forall q F, q ∈ good_primes_of kwds badprimes ->
    change_ring_GF f q = Ok F -> exists l, possible_periods_GF F = Ok l.


End PeriodSieveVocabulary.

(** *** Orbit graphs *)

Section GraphVocabulary.
Context {Point : Type}.
Variable point_eq : Point -> Point -> bool.
Variable call : Point -> result Point.
Variable normalize_coordinates : Point -> result Point.
(** The valid points: the tuples that are not all zero. *)
Variable valid : Point -> Prop.

Local Notation "a ≈ b" := (point_eq a b = true) (at level 70).

(** The image of a point as the builders compute it: [Q = self(val)] and
    [Q.normalize_coordinates()]. *)
Definition normalized_image (val : Point) : result Point :=
  do Q <- call val; normalize_coordinates Q.

(** No two entries of a list are equal points. *)
Definition distinct_classes (D : list Point) : Prop :=
  forall i j a b, D !! i = Some a -> D !! j = Some b -> a ≈ b -> i = j.

(** The edge a dictionary entry [(u, [w])] stands for. *)
Definition edge_of (kv : Point * list Point) : Point * Point :=
  (kv.1, default kv.1 (head kv.2)).

(** Keys and neighbours are drawn from [D], one neighbour per key. *)
Definition entries_in (D : list Point) (d : list (Point * list Point)) : Prop :=
  forall kv, kv ∈ d -> kv.1 ∈ D /\ exists w, kv.2 = [w] /\ w ∈ D.

(** [D[D.index(x)]], or [x] itself appended to [D]. *)
Definition intern (D : list Point) (x : Point) : Point * list Point :=
  match index point_eq D x with
  | Some i => (default x (D !! i), D)
  | None => (x, D ++ [x])
  end.

(** What holds of the three lists after the points [done] of [preper]. *)
Definition builder_inv (preper : list Point) (st : @builder_state Point)
    (done : list Point) : Prop :=
  Forall valid (bD st) /\ distinct_classes (bD st) /\
  length (bV st) = length (bE st) /\
  (forall kv, kv ∈ zip (bV st) (bE st) ->
     kv.1 ∈ bD st /\
     exists w Q, kv.2 = [w] /\ w ∈ bD st /\
       normalized_image kv.1 = Ok Q /\ w ≈ Q) /\
  (forall val, val ∈ done ->
     exists kv, kv ∈ zip (bV st) (bE st) /\ kv.1 ≈ val) /\
  (forall d, d ∈ bD st -> exists val, val ∈ preper /\ d ≈ val).

(** The list is complete: the image of each listed point is equal to a
    listed point. *)
Definition complete (preper : list Point) : Prop :=
  forall val, val ∈ preper ->
    exists Q w, normalized_image val = Ok Q /\ w ∈ preper /\ Q ≈ w.

(** The neighbour list [cyclegraph] records for a point: its normalised
    image, or nothing when the evaluation raised [ValueError]. *)
Definition recorded_neighbours (P : Point) (e : list Point) : Prop :=
  match normalized_image P with
  | Ok Q => e = [Q]
  | Raise _ => e = []
  end.

End GraphVocabulary.

(** Completeness of a list, checked by evaluation. *)
Definition completeb {Point : Type} (point_eq : Point -> Point -> bool)
    (call normalize_coordinates : Point -> result Point)
    (preper : list Point) : bool :=
  forallb
    (fun val =>
       match normalized_image call normalize_coordinates val with
       | Ok Q => existsb (point_eq Q) preper
       | Raise _ => false
       end)
    preper.

(** *** The lifter *)


(** The number of entries of a shift that [apply_shift] uses on [newT]:
    one for each coordinate but [qindex], [i] being the index of the first
    coordinate. *)
Fixpoint shift_arity {A : Type} (qindex i : nat) (newT : list A) : nat :=
  match newT with
  | [] => O
  | _ :: rest =>
      ((if Nat.eqb i qindex then 0 else 1) + shift_arity qindex (S i) rest)%nat
  end.

(** [newT] lifts [Tmod] by one digit: a tuple of residues modulo [p^(k+1)]
    that is [Tmod] modulo [p^k], with the coordinate [qindex] left as it
    is. *)
Definition one_digit_lift (p k : Z) (qindex : nat) (Tmod newT : list Z)
  : Prop :=
  Forall2 (fun c t => 0 <= c < p ^ (k + 1) /\ c mod p ^ k = t mod p ^ k)
    newT Tmod /\
  newT !! qindex = Tmod !! qindex.

(** The lift is periodic of period [n] for the system modulo [m]: its
    [n]-th image, every image being a point, is the lift again, as a
    point. *)
Definition periodic_lift (m : Z) (fp : list (polynomial Z)) (n : Z)
    (newT : list Z) : Prop :=
  0 <= n /\
  exists TT,
    nth_image (call_mod m fp) (fun Q => Ok Q) true false (Z.to_nat n) newT
    = Ok TT /\
    point_eq_mod m TT newT = true.


(** The polynomials of a system on [P^N] are forms of one degree [d] in
    [N + 1] variables. *)
Definition is_homogeneous (F : list (polynomial Qc)) (d : nat) : bool :=
  forallb
    (forallb (fun t : Qc * list nat =>
                Nat.eqb (length t.2) (length F) && Nat.eqb (sum_list t.2) d))
    F.

(** The multiple of a tuple by [lam]. *)
Definition scale (lam : Qc) (v : list Qc) : list Qc :=
  (fun u => (u * lam)%Qc) <$> v.

(** A tuple with a nonzero entry. *)
Definition nonzero_point (v : list Qc) : Prop :=
  exists i x, v !! i = Some x /\ x <> 0%Qc.

(** A valid point of the space of a system: as many coordinates as the
    system has forms, not all zero. *)
Definition valid_QQ (F : list (polynomial Qc)) (P : list Qc) : Prop :=
  length P = length F /\ nonzero_point P.

(** The same, as a test. *)
Definition valid_QQb (F : list (polynomial Qc)) (P : list Qc) : bool :=
  Nat.eqb (length P) (length F) && existsb (fun c => negb (Qc_eqb c 0%Qc)) P.

(** [f^m(P)], each image taken with the default [check=True]. *)
Definition iterate_QQ (F : list (polynomial Qc)) (m : nat) (P : list Qc)
  : result (list Qc) :=
  nth_image (call_QQ F) normalize_coordinates_QQ true false m P.

(** The exact check of the last loop succeeded for the pair: the point is
    the [m]-th image of a reconstructed point [P] and equals it. *)
Definition verified (F : list (polynomial Qc)) (g : list Qc * Z) : Prop :=
  1 <= g.2 /\
  exists P, length P = length F /\
    iterate_QQ F (Z.to_nat g.2) P = Ok g.1 /\ point_eq_QQ g.1 P = true.

(** Orbit closure: applying the system [m] times to [R] gives a point
    equal to [R]. *)
Definition orbit_closes (F : list (polynomial Qc)) (R : list Qc) (m : Z)
  : Prop :=
  1 <= m /\
  exists R', iterate_QQ F (Z.to_nat m) R = Ok R' /\ point_eq_QQ R' R = true.

(** ** Further systems of the docstrings and of the examples *)

(** [f = [x^2 - x*y, x*y]]: defined at [(1 : 1)], whose image [(0 : 1)] is
    the point where both forms vanish. *)
Definition second_image_example : list (polynomial Qc) :=
  [ [(qz 1, [2; 0]%nat); (qz (-1), [1; 1]%nat)]; [(qz 1, [1; 1]%nat)] ].

(** ** The lifter: how many candidates a call can go through *)

(** A candidate of precision [k] is popped once and can leave behind, pass
    after pass, at most [p^N - 1] candidates of the next precision: with
    [L] the precision target, [(p^N)^(L - k)] bounds the candidates that
    come out of it, itself included. *)
Definition lift_weight (p : Z) (N : nat) (L k : Z) : nat :=
  ((Z.to_nat p ^ N) ^ Z.to_nat (L - k))%nat.

Definition lift_budget (p : Z) (N : nat) (L : Z) (points : list candidate)
  : nat :=
  foldr (fun q acc => (lift_weight p N L (cand_precision q) + acc)%nat) O
    points.

(** ** The lifter: what the returned pairs are *)

(** The tuple of integers [Q] passed the height test of the lifter:
    no entry is larger than [B * gcd(Q)] in absolute value. *)
Definition within_height (B : Qc) (Q : list Z) : Prop :=
  Forall (fun c => (qz (Z.abs c) <= B * qz (gcd_ZZ Q))%Qc) Q.

(** The tuple of integers [Q] is what the lifter reads in row [1] of the
    reduced matrix [M.LLL()]: [M] has in row [0] a lifted point [T], its
    denominators cleared, and [p^L] on the diagonal below. *)
Definition reconstructed_at (LLL : list (list Z) -> list (list Z))
    (F : list (polynomial Qc)) (p L : Z) (Q : list Z) : Prop :=
  exists (T0 T : list Qc) (M : list (list Z)) (row : list Z),
    clear_denominators_QQ T0 = Ok T /\
    lattice_matrix T p L = Ok M /\
    coordinate (LLL M) 1 = Ok row /\
    result_map (coordinate row) (seq 0 (length F)) = Ok Q.

(** A pair of [good_points] is a point of the space equal, as a point, to
    such a row [Q], which is not the zero tuple and passed the height test:
    the entries of the primitive tuple [Q / gcd(Q)] are at most [B] in
    absolute value. *)
Definition of_bounded_height (LLL : list (list Z) -> list (list Z))
    (F : list (polynomial Qc)) (p L : Z) (B : Qc) (g : list Qc * Z) : Prop :=
  exists Q : list Z,
    reconstructed_at LLL F p L Q /\
    (exists c, c ∈ Q /\ c <> 0) /\
    within_height B Q /\
    valid_QQ F g.1 /\
    point_eq_QQ g.1 (qz <$> Q) = true.

(** No two pairs of the list are equal: equal points with equal periods. *)
Definition distinct_pairs (gp : list (list Qc * Z)) : Prop :=
  forall i j g h, gp !! i = Some g -> gp !! j = Some h -> i <> j ->
    ~ (point_eq_QQ g.1 h.1 = true /\ g.2 = h.2).

(** ** [orbit_structure] over a finite field *)

Section OrbitStructure.
Context {Point : Type}.
(** [==] on points *)
Variable point_eq : Point -> Point -> bool.
(** [F(Q)] for [F] the copy of the system with normalised coordinates *)
Variable call : Point -> result Point.
Variable normalize_coordinates : Point -> result Point.

(** [while not Q in orbit]: [orbit] holds the points met so far and the
    counter [index], here [index'], is one more than their number; [I'] is
    [I = orbit.index(Q)]; [None] stands for a loop that would not end. *)
Fixpoint orbit_structure_loop (fuel : nat) (orbit : list Point) (Q : Point)
    (index' : Z) : option (result (Z * Z)) :=
  match index point_eq orbit Q with
  | Some I' => Some (Ok (Z.of_nat I', index' - Z.of_nat I' - 1))
  | None =>
      match fuel with
      | O => None
      | S fuel' =>
          match (do Q' <- call Q; normalize_coordinates Q') with
          | Raise e => Some (Raise e)
          | Ok Q' => orbit_structure_loop fuel' (orbit ++ [Q]) Q' (index' + 1)
          end
      end
  end.

Definition orbit_structure (fuel : nat) (P : Point)
  : option (result (Z * Z)) :=
  match normalize_coordinates P with
  | Raise e => Some (Raise e)
  | Ok Q => orbit_structure_loop fuel [] Q 1
  end.

(** [Q_i]: the normalised point, then [i] times the normalised image. *)
Definition structure_image (i : nat) (P : Point) : result Point :=
  nth_image (fun Q _ => call Q) normalize_coordinates true true i P.
End OrbitStructure.

(** Over [GF(q)]: the loop iterates the copy of the system made by
    [F.normalize_coordinates()], from which the common factor of the forms
    is removed, and [F_normalized] is the list of the forms of that copy.
    For forms without a common factor, as in the docstrings below, they are
    the forms of the system up to a unit, which the points absorb. *)
Definition orbit_structure_GF (q : Z) (F_normalized : list (polynomial Z))
    (fuel : nat) (P : list Z) : option (result (Z * Z)) :=
  orbit_structure (point_eq_mod q) (fun Q => call_GF q F_normalized Q true)
    (normalize_coordinates_GF q) fuel P.

(** The docstring's [f = [x^2 - y^2, y^2]] over [GF(13)]. *)
Definition orbit_structure_example : list (polynomial Z) :=
  [ [(1, [2; 0]%nat); (12, [0; 2]%nat)]; [(1, [0; 2]%nat)] ].

(** The docstring's [f = [x^2 + y^2, y^2, z^2 + y*z]] over [GF(5)]. *)
Definition orbit_structure_example_plane : list (polynomial Z) :=
  [ [(1, [2; 0; 0]%nat); (1, [0; 2; 0]%nat)];
    [(1, [0; 2; 0]%nat)];
    [(1, [0; 0; 2]%nat); (1, [0; 1; 1]%nat)] ].

(** ** The sieve with another pool *)

(** A pool whose workers answer in the reverse order of their inputs. *)
Definition p_iter_reversed {A B : Type} (g : A -> result B) (l : list A)
  : result (list (A * B)) :=
  do rs <- p_iter_serial g l; Ok (rev rs).

(** ** [all_rational_preimages] *)

Section AllRationalPreimages.
Context {Point : Type}.
(** [==] on points; a Python [set] of points holds one point of each
    class. *)
Variable point_eq : Point -> Point -> bool.
(** [self.domain().base_ring() in NumberFields()] *)
Variable base_ring_in_NumberFields : bool.
(** [self.rational_preimages(P)] *)
Variable rational_preimages : Point -> result (list Point).

(** [x in preperiodic] *)
Definition in_set (preperiodic : list Point) (x : Point) : bool :=
  existsb (fun s => point_eq s x) preperiodic.

(** [for i in range(len(preimages))]: a preimage not yet in the set is
    appended to [points] and added to the set.  The head of [points] is the
    end of the Python list; the set is kept in the order of insertion. *)
Fixpoint add_preimages (preimages points preperiodic : list Point)
  : list Point * list Point :=
  match preimages with
  | [] => (points, preperiodic)
  | x :: rest =>
      if in_set preperiodic x then add_preimages rest points preperiodic
      else add_preimages rest (x :: points) (preperiodic ++ [x])
  end.

(** [while points != []]; [None] stands for a loop that would not end. *)
Fixpoint all_rational_preimages_loop (fuel : nat)
    (points preperiodic : list Point) : option (result (list Point)) :=
  match points with
  | [] => Some (Ok preperiodic)
  | P :: rest =>
      match fuel with
      | O => None
      | S fuel' =>
          match rational_preimages P with
          | Raise e => Some (Raise e)
          | Ok preimages =>
              let '(points', preperiodic') :=
                add_preimages preimages rest preperiodic in
              all_rational_preimages_loop fuel' points' preperiodic'
          end
      end
  end.

(** [all_rational_preimages(points)] for a list of points; the result is
    [list(preperiodic)], whose order Python leaves open: here the order of
    insertion. *)
Definition all_rational_preimages (fuel : nat) (points : list Point)
  : option (result (list Point)) :=
  if negb base_ring_in_NumberFields then
    Some (Raise (TypeError "field won't return finite list of elements"))
  else all_rational_preimages_loop fuel (rev points) [].
End AllRationalPreimages.

(** A point equal to [x] is in the list. *)
Definition represented {Point : Type} (point_eq : Point -> Point -> bool)
    (S0 : list Point) (x : Point) : Prop :=
  exists s, s ∈ S0 /\ point_eq s x = true.

(** No entry of the list is equal to an earlier one. *)
Definition unequal_in_order {Point : Type} (point_eq : Point -> Point -> bool)
    (S0 : list Point) : Prop :=
  forall i j a b, (i < j)%nat -> S0 !! i = Some a -> S0 !! j = Some b ->
    point_eq a b = false.

(** The rational preimages of a point of [P^N(GF(q))], read off the list
    of all points: those whose image is the point. *)
Definition preimages_GF (q : Z) (F : list (polynomial Z)) (P : list Z)
  : result (list (list Z)) :=
  Ok (filter
        (fun Q =>
           match call_GF q F Q true with
           | Ok R => point_eq_mod q R P
           | Raise _ => false
           end = true)
        (points_of_projective_space q (length F - 1))).

(** ** [rational_periodic_points] over the rationals *)

(** The keywords of [rational_periodic_points]; [ncpus] goes to the pool. *)
Record rational_points_kwds : Type := {
  rp_prime_bound : prime_bound_arg;
  rp_lifting_prime : Z;
  rp_periods : option (list Z);
  rp_bad_primes : option (list Z)
}.

Definition default_rational_points_kwds : rational_points_kwds :=
  {| rp_prime_bound := Between 1 20; rp_lifting_prime := 23;
     rp_periods := None; rp_bad_primes := None |}.

(** [for k in range(n)]: the point is normalised and added to the set
    [periodic], then replaced by its image. *)
Fixpoint collect_cycle (F : list (polynomial Qc)) (k : nat) (pt : list Qc)
    (periodic : list (list Qc)) : result (list (list Qc)) :=
  match k with
  | O => Ok periodic
  | S k' =>
      do pt <- normalize_coordinates_QQ pt;
      let periodic :=
        if in_set point_eq_QQ periodic pt then periodic
        else periodic ++ [pt] in
      do pt <- call_QQ F pt true;
      collect_cycle F k' pt periodic
  end.

(** [for p,n in periodic_points] *)
Fixpoint collect_cycles (F : list (polynomial Qc))
    (periodic_points : list (list Qc * Z)) (periodic : list (list Qc))
  : result (list (list Qc)) :=
  match periodic_points with
  | [] => Ok periodic
  | pn :: rest =>
      do periodic <- collect_cycle F (Z.to_nat pn.2) pn.1 periodic;
      collect_cycles F rest periodic
  end.

(** [for i in range(len(all_points))]: the pairs whose period is possible,
    each once. *)
Fixpoint possible_points (p : Z) (periods : list Z)
    (all_points pos_points : list (list Z * Z)) : list (list Z * Z) :=
  match all_points with
  | [] => pos_points
  | x :: rest =>
      if bool_decide (x.2 ∈ periods)
         && negb (existsb (fun y => point_eq_mod p y.1 x.1 && (y.2 =? x.2))
                    pos_points)
      then possible_points p periods rest (pos_points ++ [x])
      else possible_points p periods rest pos_points
  end.

Section RationalPeriodicPoints.
Context {Reduced : Type}.
Variable primes_of_bad_reduction : list (polynomial Qc) -> result (list Z).
(** [self.change_ring(GF(q))] *)
Variable change_ring_GF : list (polynomial Qc) -> Z -> result Reduced.
(** [possible_periods()] and [possible_periods(True)] of the reduced
    system: the periods, and the points with their periods *)
Variable possible_periods_GF : Reduced -> result (list Z).
Variable points_with_periods : Reduced -> list (list Z * Z).
Variable p_iter_fork :
  (Reduced -> result (list Z)) -> list Reduced
  -> result (list (Reduced * list Z)).
(** [next_prime] of [sage.arith] *)
Variable next_prime : Z -> Z.
(** [e ** self.height_difference_bound()], which may raise *)
Variable height_bound : list (polynomial Qc) -> result Qc.
Variable precision_target : Qc -> nat -> Z -> Z.
Variable LLL : list (list Z) -> list (list Z).

(** [while p in badprimes: p = next_prime(p + 1)]; [None] stands for a
    loop that would not end. *)
Fixpoint lifting_prime (fuel : nat) (badprimes : list Z) (p : Z) : option Z :=
  if bool_decide (p ∈ badprimes) then
    match fuel with
    | O => None
    | S fuel' => lifting_prime fuel' badprimes (next_prime (p + 1))
    end
  else Some p.

(** The branch of [rational_periodic_points] for the base field [QQ];
    the result is [list(periodic)], here in the order of insertion. *)
Definition rational_periodic_points_QQ (fuel : nat)
    (F : list (polynomial Qc)) (kwds : rational_points_kwds)
  : option (result (list (list Qc))) :=
  match
    (do badprimes <-
       match rp_bad_primes kwds with
       | None => primes_of_bad_reduction F
       | Some l => Ok l
       end;
     do periods <-
       match rp_periods kwds with
       | None =>
           possible_periods (fun _ => true) primes_of_bad_reduction
             change_ring_GF possible_periods_GF p_iter_fork F
             {| prime_bound := rp_prime_bound kwds;
                bad_primes := Some badprimes |}
       | Some l => Ok l
       end;
     Ok (badprimes, periods))
  with
  | Raise e => Some (Raise e)
  | Ok (badprimes, periods) =>
      match lifting_prime fuel badprimes (rp_lifting_prime kwds) with
      | None => None
      | Some p =>
          match (do B <- height_bound F; do f <- change_ring_GF F p;
                 Ok (B, f)) with
          | Raise e => Some (Raise e)
          | Ok (B, f) =>
              let all_points := points_with_periods f in
              let pos_points := possible_points p periods all_points [] in
              match
                lift_to_rational_periodic precision_target LLL fuel F
                  pos_points p B
              with
              | None => None
              | Some (Raise e) => Some (Raise e)
              | Some (Ok periodic_points) =>
                  Some (collect_cycles F periodic_points [])
              end
          end
      end
  end.
End RationalPeriodicPoints.

Section RationalPreperiodicPoints.
Context {Reduced : Type}.
Variable primes_of_bad_reduction : list (polynomial Qc) -> result (list Z).
Variable change_ring_GF : list (polynomial Qc) -> Z -> result Reduced.
Variable possible_periods_GF : Reduced -> result (list Z).
Variable points_with_periods : Reduced -> list (list Z * Z).
Variable p_iter_fork :
  (Reduced -> result (list Z)) -> list Reduced
  -> result (list (Reduced * list Z)).
Variable next_prime : Z -> Z.
Variable height_bound : list (polynomial Qc) -> result Qc.
Variable precision_target : Qc -> nat -> Z -> Z.
Variable LLL : list (list Z) -> list (list Z).
(** [self.rational_preimages(P)] *)
Variable rational_preimages : list Qc -> result (list (list Qc)).

(** The branch of [rational_preperiodic_points] for the base field [QQ]:
    with no possible period the list is empty; otherwise the periodic
    points are computed with the primes and periods found, and their
    rational preimages are collected. *)
Definition rational_preperiodic_points_QQ (fuel : nat)
    (F : list (polynomial Qc)) (kwds : rational_points_kwds)
  : option (result (list (list Qc))) :=
  match
    (do badprimes <-
       match rp_bad_primes kwds with
       | None => primes_of_bad_reduction F
       | Some l => Ok l
       end;
     do periods <-
       match rp_periods kwds with
       | None =>
           possible_periods (fun _ => true) primes_of_bad_reduction
             change_ring_GF possible_periods_GF p_iter_fork F
             {| prime_bound := rp_prime_bound kwds;
                bad_primes := Some badprimes |}
       | Some l => Ok l
       end;
     Ok (badprimes, periods))
  with
  | Raise e => Some (Raise e)
  | Ok (badprimes, periods) =>
      if bool_decide (periods = []) then Some (Ok [])
      else
        match
          rational_periodic_points_QQ primes_of_bad_reduction change_ring_GF
            possible_periods_GF points_with_periods p_iter_fork next_prime
            height_bound precision_target LLL fuel F
            {| rp_prime_bound := rp_prime_bound kwds;
               rp_lifting_prime := rp_lifting_prime kwds;
               rp_periods := Some periods;
               rp_bad_primes := Some badprimes |}
        with
        | None => None
        | Some (Raise e) => Some (Raise e)
        | Some (Ok T) =>
            all_rational_preimages point_eq_QQ true rational_preimages fuel T
        end
  end.

(** [rational_preperiodic_graph] over [QQ]: the graph of the list that
    [rational_preperiodic_points] returns. *)
Definition rational_preperiodic_graph_QQ (fuel : nat)
    (F : list (polynomial Qc)) (kwds : rational_points_kwds)
  : option (result (DiGraph (list Qc))) :=
  match rational_preperiodic_points_QQ fuel F kwds with
  | None => None
  | Some (Raise e) => Some (Raise e)
  | Some (Ok preper) => Some (preperiodic_points_to_cyclegraph_QQ F preper)
  end.
End RationalPreperiodicPoints.

(** ** [connected_rational_component] *)

Section ConnectedRationalComponent.
Context {Point : Type}.
Variable point_eq : Point -> Point -> bool.
(** [self(Q)] *)
Variable call : Point -> result Point.
(** [self.rational_preimages(Q)] *)
Variable rational_preimages : Point -> result (list Point).

(** [for Q in nextpoints]: the image of [Q], then its rational preimages,
    go to the end of [newpoints]. *)
Fixpoint gather_neighbours (nextpoints newpoints : list Point)
  : result (list Point) :=
  match nextpoints with
  | [] => Ok newpoints
  | Q :: rest =>
      do Q' <- call Q;
      do pre <- rational_preimages Q;
      gather_neighbours rest (newpoints ++ [Q'] ++ pre)
  end.

(** [for Q in newpoints]: a point not in [points[0]] is appended to it,
    with [level] to [points[1]], and to [nextpoints]. *)
Fixpoint add_new_points (newpoints : list Point) (level : Z)
    (points0 : list Point) (points1 : list Z) (nextpoints : list Point)
  : list Point * list Z * list Point :=
  match newpoints with
  | [] => (points0, points1, nextpoints)
  | Q :: rest =>
      if existsb (fun s => point_eq s Q) points0
      then add_new_points rest level points0 points1 nextpoints
      else add_new_points rest level (points0 ++ [Q]) (points1 ++ [level])
             (nextpoints ++ [Q])
  end.

(** [while not foundall]; [None] stands for a loop that would not end. *)
Fixpoint component_loop (fuel : nat) (n level : Z) (points0 : list Point)
    (points1 : list Z) (nextpoints : list Point)
  : option (result (list Point)) :=
  match fuel with
  | O => None
  | S fuel' =>
      match gather_neighbours nextpoints [] with
      | Raise e => Some (Raise e)
      | Ok newpoints =>
          let '(points0', points1', nextpoints') :=
            add_new_points newpoints level points0 points1 [] in
          if ((level + 1 >? n) && negb (n =? 0))
             || Nat.eqb (length nextpoints') 0
          then Some (Ok points0')
          else component_loop fuel' n (level + 1) points0' points1' nextpoints'
      end
  end.

Definition connected_rational_component (fuel : nat) (P : Point) (n : Z)
  : option (result (list Point)) :=
  component_loop fuel n 1 [P] [0] [P].

(** [Q] is linked to [P] by [k] steps, each to the image or to a listed
    rational preimage of the point before. *)
Inductive linked (P : Point) : nat -> Point -> Prop :=
| linked_start : linked P O P
| linked_image k R Q :
    linked P k R -> call R = Ok Q -> linked P (S k) Q
| linked_preimage k R pre Q :
    linked P k R -> rational_preimages R = Ok pre -> Q ∈ pre ->
    linked P (S k) Q.

(** The list holds a point equal to the image of [Q] and to each of its
    rational preimages. *)
Definition neighbours_in (points0 : list Point) (Q : Point) : Prop :=
  exists Q' pre,
    call Q = Ok Q' /\ rational_preimages Q = Ok pre /\
    represented point_eq points0 Q' /\
    forall x, x ∈ pre -> represented point_eq points0 x.

(** What holds of the lists at the start of a pass at [level]. *)
Definition component_inv (P : Point) (level : Z) (points0 : list Point)
    (points1 : list Z) (nextpoints : list Point) : Prop :=
  length points0 = length points1 /\
  unequal_in_order point_eq points0 /\
  head points0 = Some P /\
  (forall Q, Q ∈ nextpoints -> Q ∈ points0) /\
  (forall Q, Q ∈ points0 -> Q ∈ nextpoints \/ neighbours_in points0 Q) /\
  (forall Ql, Ql ∈ zip points0 points1 ->
     0 <= Ql.2 < level /\ linked P (Z.to_nat Ql.2) Ql.1) /\
  (forall Q, Q ∈ nextpoints -> linked P (Z.to_nat (level - 1)) Q).
End ConnectedRationalComponent.

(** ** [multiplier] over the rationals *)

(** [index = N; while Q[index] == 0: index -= 1] *)
Definition last_nonzero_index (Q : list Qc) : result nat :=
  match last_index (fun c => negb (Qc_eqb c 0%Qc)) Q with
  | Some i => Ok i
  | None => Raise IndexError
  end.

(** [for i in range(0, n)]: [index] is [indexlist[i]]; the Jacobian of the
    dehomogenised map at [Q] is multiplied on the left of [l]. *)
Fixpoint multiplier_loop_QQ (F : list (polynomial Qc)) (n : nat)
    (Q : list Qc) (index : nat) (l : list (list Qc))
  : result (list (list Qc)) :=
  match n with
  | O => Ok l
  | S n' =>
      do R <- call_QQ F Q true;
      do R <- normalize_coordinates_QQ R;
      do index' <- last_nonzero_index R;
      do J <- jacobian_dehomogenized F index index' Q;
      multiplier_loop_QQ F n' R index' (matrix_mul_QQ J l)
  end.

(** The part of [multiplier] after the check. *)
Definition multiplier_product (F : list (polynomial Qc)) (P : list Qc) (n : Z)
  : result (list (list Qc)) :=
  let N := (length F - 1)%nat in
  let l := identity_matrix_QQ N in
  do Q <- normalize_coordinates_QQ P;
  do index <- last_nonzero_index Q;
  multiplier_loop_QQ F (Z.to_nat n) Q index l.

(** [multiplier(P, n, check)]; the first message is formatted with [P] and
    [n]. *)
Definition multiplier_QQ (F : list (polynomial Qc)) (P : list Qc) (n : Z)
    (check : bool) : result (list (list Qc)) :=
  if check then
    do Q <- nth_iterate_QQ F P n true false;
    if negb (point_eq_QQ Q P) then
      Raise (ValueError "is not periodic of the given period")
    else if n <? 1 then
      Raise (ValueError "period must be a positive integer")
    else multiplier_product F P n
  else multiplier_product F P n.

(** [f = [7*x^2 - 28*y^2, 24*x*y]] and [f = [x^2, y^2, 4*z^2]] *)
Definition multiplier_example : list (polynomial Qc) :=
  [ [(qz 7, [2; 0]%nat); (qz (-28), [0; 2]%nat)]; [(qz 24, [1; 1]%nat)] ].

Definition multiplier_example_plane : list (polynomial Qc) :=
  [ [(qz 1, [2; 0; 0]%nat)]; [(qz 1, [0; 2; 0]%nat)];
    [(qz 4, [0; 0; 2]%nat)] ].

(** ** [cyclegraph] on a subscheme *)

Section CyclegraphSubscheme.
Context {Ambient Point : Type}.
Variable point_eq : Point -> Point -> bool.
(** [X.point(P)], which raises [TypeError] off the scheme *)
Variable X_point : Ambient -> result Point.
(** [self(XP)] *)
Variable call : Point -> result Point.
Variable normalize_coordinates : Point -> result Point.

(** [for P in X.ambient_space()]: the point is appended to [V] before its
    image is asked for; the inner [except ValueError] records an empty
    list, while a [TypeError] of the image goes to the outer [except]
    and nothing is appended to [E]. *)
Fixpoint cyclegraph_subscheme_loop (points : list Ambient) (V : list Point)
    (E : list (list Point)) : result (list Point * list (list Point)) :=
  match points with
  | [] => Ok (V, E)
  | P :: rest =>
      match X_point P with
      | Raise (TypeError _) => cyclegraph_subscheme_loop rest V E
      | Raise e => Raise e
      | Ok XP =>
          let V := V ++ [XP] in
          match (do Q <- call XP; normalize_coordinates Q) with
          | Ok Q => cyclegraph_subscheme_loop rest V (E ++ [[Q]])
          | Raise (ValueError _) => cyclegraph_subscheme_loop rest V (E ++ [[]])
          | Raise (TypeError _) => cyclegraph_subscheme_loop rest V E
          | Raise e => Raise e
          end
      end
  end.

Definition cyclegraph_subscheme (points : list Ambient)
  : result (DiGraph Point) :=
  do '(V, E) <- cyclegraph_subscheme_loop points [] [];
  Ok (DiGraph_of_dict point_eq (dict_of_pairs point_eq (zip V E))).

(** The points of the scheme among the ambient points, in order. *)
Fixpoint points_on_scheme (points : list Ambient) : list Point :=
  match points with
  | [] => []
  | P :: rest =>
      match X_point P with
      | Ok XP => XP :: points_on_scheme rest
      | Raise _ => points_on_scheme rest
      end
  end.

(** The image of the point raises [TypeError]. *)
Definition image_leaves_scheme (XP : Point) : bool :=
  match (do Q <- call XP; normalize_coordinates Q) with
  | Raise (TypeError _) => true
  | _ => false
  end.
End CyclegraphSubscheme.

(** ** [nth_iterate_map] *)

Section NthIterateMap.
(** The endomorphisms of the domain: [PHI*F] is the composition of scheme
    morphisms, [H([Coord_ring.gen(i) ...])] the map given by the
    coordinates, and [normalize_coordinates] removes common factors. *)
Context {Map : Type}.
Variable compose : Map -> Map -> Map.
Variable identity : Map.
Variable normalize_coordinates : Map -> Map.

(** [while D]: one pass looks at the last bit of [D] and drops it; [None]
    stands for a loop that would not end. *)
Fixpoint nth_iterate_map_loop (fuel : nat) (D : Z) (PHI F : Map)
    (normalize : bool) : option Map :=
  if D =? 0 then Some PHI
  else
    match fuel with
    | O => None
    | S fuel' =>
        let PHI :=
          if Z.land D 1 =? 1 then
            let PHI := compose PHI F in
            if normalize then normalize_coordinates PHI else PHI
          else PHI in
        let F := if D >? 1 then compose F F else F in
        let F := if normalize then normalize_coordinates F else F in
        nth_iterate_map_loop fuel' (Z.shiftr D 1) PHI F normalize
    end.

Definition nth_iterate_map (fuel : nat) (self : Map) (n : Z)
    (normalize : bool) : option (result Map) :=
  let D := n in
  if D <? 0 then
    Some (Raise (TypeError "iterate number must be a positive integer"))
  else if D =? 1 then Some (Ok self)
  else
    match nth_iterate_map_loop fuel D identity self normalize with
    | Some PHI => Some (Ok PHI)
    | None => None
    end.

(** [k] copies of a map composed: [(... (1 * f) * f ...) * f]. *)
Definition map_power (f : Map) (k : nat) : Map :=
  Nat.iter k (fun g => compose g f) identity.
End NthIterateMap.

(** The map of a system on the rational points, for the examples. *)
Definition map_of_system (F : list (polynomial Qc)) (x : list Qc) : list Qc :=
  (fun f => eval_polynomial_QQ f x) <$> F.

(** ** [_is_preperiodic] over a number field *)

(** The value returned: [(m, n)] with [return_period], a boolean
    without. *)
Inductive preperiodic_answer : Type :=
| Periods (m n : Z)
| Truth (b : bool).

Section IsPreperiodic.
Context {Point Num : Type}.
Variable point_eq : Point -> Point -> bool.
(** [self(Q)] *)
Variable call : Point -> result Point.
(** [<=] on the heights *)
Variable leb : Num -> Num -> bool.
(** [self.canonical_height(P, error_bound=err)],
    [self.height_difference_bound()] and [Q.global_height()] *)
Variable canonical_height : Point -> Num -> result Num.
Variable height_difference_bound : result Num.
Variable global_height : Point -> Num.
(** The four tests on the system and the point *)
Variable codomain_is_projective_space : bool.
Variable is_morphism : bool.
Variable point_in_domain : bool.
Variable base_field_is_number_field_or_QQbar : bool.

(** [while Q not in orbit and H <= B]; [None] stands for a loop that would
    not end. *)
Fixpoint is_preperiodic_loop (fuel : nat) (orbit : list Point) (n : Z)
    (Q : Point) (H B : Num)
  : option (result (list Point * Z * Point * Num)) :=
  if negb (existsb (fun s => point_eq s Q) orbit) && leb H B then
    match fuel with
    | O => None
    | S fuel' =>
        match call Q with
        | Raise e => Some (Raise e)
        | Ok Q' =>
            is_preperiodic_loop fuel' (orbit ++ [Q]) (n + 1) Q'
              (global_height Q') B
        end
    end
  else Some (Ok (orbit, n, Q, H)).

Definition _is_preperiodic (fuel : nat) (P : Point) (err : Num)
    (return_period : bool) : option (result preperiodic_answer) :=
  let wandering :=
    Some (Ok (if return_period then Periods 0 0 else Truth false)) in
  if negb codomain_is_projective_space then
    Some (Raise (NotImplementedError "must be over projective space"))
  else if negb is_morphism then
    Some (Raise (TypeError "must be a morphism"))
  else if negb point_in_domain then
    Some (Raise (TypeError "point must be in domain of map"))
  else if negb base_field_is_number_field_or_QQbar then
    Some (Raise (NotImplementedError
                   "must be over a number field or a number field order or QQbar"))
  else
    match canonical_height P err with
    | Raise e => Some (Raise e)
    | Ok h =>
        if leb h err then
          match (do B <- height_difference_bound; do Q <- call P; Ok (B, Q))
          with
          | Raise e => Some (Raise e)
          | Ok (B, Q) =>
              match is_preperiodic_loop fuel [P] 1 Q (global_height Q) B with
              | None => None
              | Some (Raise e) => Some (Raise e)
              | Some (Ok (orbit, n, Q, H)) =>
                  if leb H B then
                    if return_period then
                      match index point_eq orbit Q with
                      | Some m =>
                          Some (Ok (Periods (Z.of_nat m) (n - Z.of_nat m)))
                      | None => Some (Raise (ValueError "is not in list"))
                      end
                    else Some (Ok (Truth true))
                  else wandering
              end
          end
        else wandering
    end.

(** [f^i(P)] *)
Definition plain_image (i : nat) (P : Point) : result Point :=
  structure_image call (fun Q => Ok Q) i P.
End IsPreperiodic.

(** ** The invariants of the loops *)

Section LoopInvariants.
Context {Point : Type}.
Variable point_eq : Point -> Point -> bool.
Variable call : Point -> result Point.
Variable normalize_coordinates : Point -> result Point.
Variable rational_preimages : Point -> result (list Point).

(** [orbit_structure]: the points met so far are the first images of [P],
    no two of them equal, and [Q] is the next one. *)
Definition structure_inv (P : Point) (orbit : list Point) (Q : Point)
    (index' : Z) : Prop :=
  (forall i d, orbit !! i = Some d ->
     structure_image call normalize_coordinates i P = Ok d) /\
  structure_image call normalize_coordinates (length orbit) P = Ok Q /\
  index' = Z.of_nat (length orbit) + 1 /\
  (forall i j a b, (i < j)%nat -> orbit !! i = Some a -> orbit !! j = Some b ->
     point_eq a b = false).

(** [all_rational_preimages]: what holds when [points] and the set [S0] are
    looked at between two passes of the loop, [inputs] being the points
    given. *)
Definition preimages_inv (inputs points S0 : list Point) : Prop :=
  unequal_in_order point_eq S0 /\
  (forall P, P ∈ points -> P ∈ inputs \/ P ∈ S0) /\
  (forall P, P ∈ inputs \/ P ∈ S0 ->
     P ∈ points \/
     exists pre, rational_preimages P = Ok pre /\
       forall x, x ∈ pre -> represented point_eq S0 x) /\
  (forall s, s ∈ S0 ->
     exists P pre, (P ∈ inputs \/ P ∈ S0) /\
       rational_preimages P = Ok pre /\ s ∈ pre).
End LoopInvariants.

(** A point of [P^N(QQ)] is periodic: some number of applications of the
    map brings it back to a point equal to it. *)
Definition is_periodic_QQ (F : list (polynomial Qc)) (R : list Qc) : Prop :=
  exists n, orbit_closes F R n.

(** The set [periodic] between two cycles: valid points, no two equal, the
    normalised image of each equal to a point of the set. *)
Definition cycles_inv (F : list (polynomial Qc)) (periodic : list (list Qc))
  : Prop :=
  Forall (valid_QQ F) periodic /\
  unequal_in_order point_eq_QQ periodic /\
  forall x, x ∈ periodic ->
    exists Q,
      normalized_image (fun P => call_QQ F P true) normalize_coordinates_QQ x
      = Ok Q /\
      represented point_eq_QQ periodic Q.

(** [f = [x^2 - 3/4*y^2, y^2]] *)
Definition rational_periodic_points_example : list (polynomial Qc) :=
  [ [(qz 1, [2; 0]%nat); (qfrac (-3) 4, [0; 2]%nat)]; [(qz 1, [0; 2]%nat)] ].

(** [rational_preimages] gives the rational preimages of a point: the
    points of each list are valid and sent to the point, and a list holds a
    point equal to each valid point sent to a valid point. *)
Definition rational_preimages_exact (F : list (polynomial Qc))
    (rational_preimages : list Qc -> result (list (list Qc))) : Prop :=
  (forall P pre x, rational_preimages P = Ok pre -> x ∈ pre ->
     valid_QQ F x /\
     exists Q,
       normalized_image (fun P => call_QQ F P true) normalize_coordinates_QQ x
       = Ok Q /\
       point_eq_QQ Q P = true) /\
  (forall P pre x Q, valid_QQ F P -> valid_QQ F x ->
     rational_preimages P = Ok pre ->
     normalized_image (fun P => call_QQ F P true) normalize_coordinates_QQ x
     = Ok Q ->
     point_eq_QQ Q P = true ->
     represented point_eq_QQ pre x).

(** [f = [2*x, y]] and the rational preimages under it: the one point
    [(a/(2*b) : 1)] of [(a : b)], or [(1 : 0)] of [(1 : 0)]. *)
Definition doubling_example : list (polynomial Qc) :=
  [ [(qz 2, [1; 0]%nat)]; [(qz 1, [0; 1]%nat)] ].

Definition doubling_preimages (P : list Qc) : result (list (list Qc)) :=
  match P with
  | [a; b] =>
      if Qc_eqb b 0%Qc then
        if Qc_eqb a 0%Qc then Ok [] else Ok [[1%Qc; 0%Qc]]
      else Ok [[(a / (2 * b))%Qc; 1%Qc]]
  | _ => Ok []
  end.

(** For the examples of [cyclegraph] on a subscheme: the curve
    [x^2 = y^2] in [P^2(GF(3))] and the map [x^2, y^2 + z^2, z^2].
    [X.point] and the point constructor of the codomain are taken to raise
    [TypeError] for a point off the curve. *)
Definition on_curve_example (P : list Z) : bool :=
  eval_polynomial_mod 3 [(1, [2; 0; 0]%nat); (2, [0; 2; 0]%nat)] P =? 0.

Definition curve_point_example (P : list Z) : result (list Z) :=
  if on_curve_example P then Ok P
  else Raise (TypeError "does not lie on the scheme").

Definition curve_map_example (XP : list Z) : result (list Z) :=
  do Q <- call_GF 3
            [ [(1, [2; 0; 0]%nat)];
              [(1, [0; 2; 0]%nat); (1, [0; 0; 2]%nat)];
              [(1, [0; 0; 2]%nat)] ] XP true;
  curve_point_example Q.

(** [f = [x^3 - 3*x*y^2, y^3]] *)
Definition is_preperiodic_example : list (polynomial Qc) :=
  [ [(qz 1, [3; 0]%nat); (qz (-3), [1; 2]%nat)]; [(qz 1, [0; 3]%nat)] ].

(* ================================================================== *)
(** * Properties *)
(* ================================================================== *)

Lemma rbind_Ok_inv {A B : Type} (r : result A) (k : A -> result B) (b : B) :
  rbind r k = Ok b -> exists a, r = Ok a /\ k a = Ok b.
Proof. destruct r as [a|e]; simpl; [eauto | discriminate]. Qed.

(** Closed equations between computed values are decided by evaluation. *)
Ltac by_evaluation := refine (bool_decide_unpack _ _); vm_compute; exact I.

Ltac inv_rbind H :=
  let a := fresh "a" in
  let Ha := fresh "Ha" in
  apply rbind_Ok_inv in H; destruct H as (a & Ha & H).

(** ** Orbits *)

Section OrbitFacts.
Context {Point : Type}.
Variable call : Point -> bool -> result Point.
Variable normalize_coordinates : Point -> result Point.

Abbreviation step := (orbit_step call normalize_coordinates).
Abbreviation skip := (orbit_skip call normalize_coordinates).
Abbreviation collect := (orbit_collect call normalize_coordinates).
Abbreviation image := (nth_image call normalize_coordinates).
Abbreviation images := (image_list call normalize_coordinates).

Lemma orbit_skip_snoc check normalize n Q :
  skip check normalize (S n) Q
  = do Q' <- skip check normalize n Q; step check normalize Q'.
Proof.
  revert Q. induction n as [|n IH]; intros Q.
  - simpl. destruct (step check normalize Q); reflexivity.
  - change (skip check normalize (S (S n)) Q)
      with (do Q' <- step check normalize Q; skip check normalize (S n) Q').
    change (skip check normalize (S n) Q)
      with (do Q' <- step check normalize Q; skip check normalize n Q').
    destruct (step check normalize Q) as [Q1|e]; simpl; [|reflexivity].
    apply IH.
Qed.

Lemma nth_image_skip check normalize n P :
  image check normalize n P
  = do Q <- normalize_if normalize_coordinates normalize P;
    skip check normalize n Q.
Proof.
  induction n as [|n IH].
  - simpl. destruct (normalize_if _ _ _); reflexivity.
  - change (image check normalize (S n) P)
      with (do Q <- image check normalize n P; step check normalize Q).
    rewrite IH.
    destruct (normalize_if normalize_coordinates normalize P) as [Q0|e];
      simpl; [|reflexivity].
    symmetry. apply orbit_skip_snoc.
Qed.

Lemma orbit_collect_images check normalize n : forall P Q0 j orb,
  normalize_if normalize_coordinates normalize P = Ok Q0 ->
  images check normalize j P = Ok orb ->
  forall Q, skip check normalize j Q0 = Ok Q ->
  collect check normalize n Q orb = images check normalize (n + j) P.
Proof.
  induction n as [|n IH]; intros P Q0 j orb HQ0 Horb Q HQ.
  - simpl. symmetry. exact Horb.
  - cbn [orbit_collect].
    replace (S n + j)%nat with (n + S j)%nat by lia.
    destruct (step check normalize Q) as [Q1|e] eqn:Hstep; simpl.
    + apply (IH P Q0 (S j)); [exact HQ0| |].
      * cbn [image_list]. rewrite Horb. cbn [rbind].
        rewrite nth_image_skip, HQ0. cbn [rbind].
        rewrite orbit_skip_snoc, HQ. cbn [rbind]. rewrite Hstep. reflexivity.
      * rewrite orbit_skip_snoc, HQ. cbn [rbind]. exact Hstep.
    + assert (Hfail : images check normalize (S j) P = Raise e).
      { cbn [image_list]. rewrite Horb. cbn [rbind].
        rewrite nth_image_skip, HQ0. cbn [rbind].
        rewrite orbit_skip_snoc, HQ. cbn [rbind]. rewrite Hstep. reflexivity. }
      clear -Hfail. induction n as [|n IHn]; [exact (eq_sym Hfail)|].
      replace (S n + S j)%nat with (S (n + S j)) by lia.
      cbn [image_list]. rewrite <- IHn. reflexivity.
Qed.

Lemma image_list_length check normalize n P l :
  images check normalize n P = Ok l -> length l = S n.
Proof.
  revert l. induction n as [|n IH]; intros l H.
  - simpl in H. inv_rbind H. injection H as <-. reflexivity.
  - cbn [image_list] in H. inv_rbind H. inv_rbind H. injection H as <-.
    rewrite length_app, (IH _ Ha). simpl. lia.
Qed.

Lemma image_list_lookup check normalize n P l :
  images check normalize n P = Ok l ->
  forall i, (i <= n)%nat ->
  exists Q, l !! i = Some Q /\ image check normalize i P = Ok Q.
Proof.
  revert l. induction n as [|n IH]; intros l H i Hi.
  - assert (i = O) by lia. subst i. simpl in H. inv_rbind H.
    injection H as <-. exists a. split; [reflexivity|exact Ha].
  - cbn [image_list] in H. inv_rbind H. inv_rbind H. injection H as <-.
    destruct (decide (i = S n)) as [->|Hne].
    + exists a0. split; [|exact Ha0].
      rewrite lookup_app_r by (rewrite (image_list_length _ _ _ _ _ Ha); lia).
      rewrite (image_list_length _ _ _ _ _ Ha), Nat.sub_diag. reflexivity.
    + destruct (IH _ Ha i ltac:(lia)) as (Q & HQ & HQi).
      exists Q. split; [|exact HQi].
      rewrite lookup_app_l; [exact HQ|].
      rewrite (image_list_length _ _ _ _ _ Ha). lia.
Qed.

Lemma image_list_defined check normalize n P :
  (forall i, (i <= n)%nat -> exists Q, image check normalize i P = Ok Q) ->
  exists l, images check normalize n P = Ok l.
Proof.
  induction n as [|n IH]; intros Hdef.
  - destruct (Hdef O ltac:(lia)) as [Q HQ]. exists [Q].
    cbn [image_list]. rewrite HQ. reflexivity.
  - destruct IH as [l Hl]; [intros i Hi; apply Hdef; lia|].
    destruct (Hdef (S n) ltac:(lia)) as [Q HQ]. exists (l ++ [Q]).
    cbn [image_list]. rewrite Hl. cbn [rbind]. rewrite HQ. reflexivity.
Qed.

Lemma orbit_Single check normalize P N :
  0 <= N ->
  orbit call normalize_coordinates P (Single N) check normalize
  = images check normalize (Z.to_nat N) P.
Proof.
  intros HN. unfold orbit.
  destruct (0 <? 0) eqn:E0; [lia|].
  destruct (N <? 0) eqn:E1; [lia|]. simpl.
  destruct (0 >? N) eqn:E2; [lia|].
  destruct (normalize_if normalize_coordinates normalize P) as [Q0|e] eqn:HQ0.
  - simpl. rewrite Z.sub_0_r.
    rewrite (orbit_collect_images check normalize (Z.to_nat N) P Q0 O [Q0]);
      [f_equal; lia|exact HQ0| |reflexivity].
    simpl. rewrite HQ0. reflexivity.
  - simpl. clear -HQ0. induction (Z.to_nat N) as [|n IH].
    + simpl. rewrite HQ0. reflexivity.
    + cbn [image_list]. rewrite <- IH. reflexivity.
Qed.

Lemma orbit_negative check normalize P m k :
  m < 0 \/ k < 0 ->
  orbit call normalize_coordinates P (Bounds m k) check normalize
  = Raise (TypeError "orbit bounds must be non-negative").
Proof.
  intros H. unfold orbit.
  destruct (m <? 0) eqn:Em; [reflexivity|].
  destruct (k <? 0) eqn:Ek; [reflexivity|]. lia.
Qed.

Lemma orbit_empty check normalize P m k :
  0 <= k < m ->
  orbit call normalize_coordinates P (Bounds m k) check normalize = Ok [].
Proof.
  intros H. unfold orbit.
  destruct (m <? 0) eqn:Em; [lia|].
  destruct (k <? 0) eqn:Ek; [lia|]. simpl.
  destruct (m >? k) eqn:Emk; [reflexivity|lia].
Qed.
(** C10, as the code has it.  Negative bounds raise [TypeError] whatever the
    map does, bounds with [0 <= k < m] give the empty list, and for one
    non-negative integer [N] the call is the collection of the images
    [P, f(P), ..., f^N(P)]: where these are all defined it returns them, a
    list of length [N + 1]; the first evaluation that raises ends it. *)
Theorem orbit_bounds_and_images (P : Point) (check normalize : bool) :
  (forall m k, m < 0 \/ k < 0 ->
     orbit call normalize_coordinates P (Bounds m k) check normalize
     = Raise (TypeError "orbit bounds must be non-negative")) /\
  (forall m k, 0 <= k < m ->
     orbit call normalize_coordinates P (Bounds m k) check normalize = Ok []) /\
  (forall N, 0 <= N ->
     orbit call normalize_coordinates P (Single N) check normalize
     = images check normalize (Z.to_nat N) P /\
     ((forall i, (i <= Z.to_nat N)%nat ->
         exists Q, image check normalize i P = Ok Q) ->
      exists orb,
        orbit call normalize_coordinates P (Single N) check normalize = Ok orb /\
        Z.of_nat (length orb) = N + 1 /\
        forall i, (i <= Z.to_nat N)%nat ->
          exists Q, orb !! i = Some Q /\ image check normalize i P = Ok Q)).
Proof.
  split; [intros m k; apply orbit_negative|].
  split; [intros m k; apply orbit_empty|].
  intros N HN. split; [apply orbit_Single, HN|].
  intros Hdef. rewrite (orbit_Single _ _ _ _ HN).
  destruct (image_list_defined check normalize (Z.to_nat N) P Hdef) as [l Hl].
  exists l. split; [exact Hl|]. split.
  - rewrite (image_list_length _ _ _ _ _ Hl). lia.
  - apply (image_list_lookup _ _ _ _ _ Hl).
Qed.
End OrbitFacts.

Lemma orbit_example_images :
  forall i, (i <= Z.to_nat 4)%nat ->
    exists Q, nth_image (call_QQ orbit_example) normalize_coordinates_QQ
                false false i [qz 1; qz 2] = Ok Q.
Proof.
  intros i Hi.
  assert (Hcases : (i = 0 \/ i = 1 \/ i = 2 \/ i = 3 \/ i = 4)%nat)
    by (change (Z.to_nat 4) with 4%nat in Hi; lia).
  destruct Hcases as [H|[H|[H|[H|H]]]]; subst i; eexists; vm_compute;
    reflexivity.
Qed.

Lemma orbit_bounds_and_images_witness :
  exists orb,
    orbit_QQ orbit_example [qz 1; qz 2] (Single 4) false false = Ok orb /\
    Z.of_nat (length orb) = 4 + 1.
Proof.
  destruct (orbit_bounds_and_images (call_QQ orbit_example)
              normalize_coordinates_QQ [qz 1; qz 2] false false)
    as (_ & _ & Hsingle).
  destruct (Hsingle 4 ltac:(lia)) as [_ Hret].
  destruct (Hret orbit_example_images) as (orb & Horb & Hlen & _).
  exists orb. split; [exact Horb|exact Hlen].
Defined.

Lemma orbit_raises_at_indeterminacy :
  orbit_QQ indeterminacy_example [qz 0; qz 1] (Single 3) true false
  = Raise (ValueError "does not define a valid point since all entries are 0").
Proof. by_evaluation. Qed.

(** ** Orbits: windows and single iterates *)

Section OrbitWindows.
Context {Point : Type}.
Variable call : Point -> bool -> result Point.
Variable normalize_coordinates : Point -> result Point.

Abbreviation step := (orbit_step call normalize_coordinates).
Abbreviation skip := (orbit_skip call normalize_coordinates).
Abbreviation collect := (orbit_collect call normalize_coordinates).
Abbreviation image := (nth_image call normalize_coordinates).
Abbreviation images := (image_list call normalize_coordinates).

Lemma orbit_collect_split check normalize a : forall Q orb b,
  collect check normalize (a + b) Q orb
  = do Qa <- skip check normalize a Q;
    do l <- collect check normalize a Q orb;
    collect check normalize b Qa l.
Proof.
  induction a as [|a IH]; intros Q orb b; [reflexivity|].
  cbn [Nat.add orbit_collect orbit_skip].
  destruct (step check normalize Q) as [Q'|e]; cbn [rbind]; [|reflexivity].
  apply IH.
Qed.

Lemma orbit_collect_acc check normalize n : forall Q pre orb,
  collect check normalize n Q (pre ++ orb)
  = do l <- collect check normalize n Q orb; Ok (pre ++ l).
Proof.
  induction n as [|n IH]; intros Q pre orb; [reflexivity|].
  cbn [orbit_collect].
  destruct (step check normalize Q) as [Q'|e]; cbn [rbind]; [|reflexivity].
  rewrite <- app_assoc. apply IH.
Qed.

Lemma orbit_skip_prefix check normalize n : forall Q Qn,
  skip check normalize n Q = Ok Qn ->
  forall i, (i <= n)%nat -> exists Qi, skip check normalize i Q = Ok Qi.
Proof.
  induction n as [|n IH]; intros Q Qn H i Hi.
  - assert (i = O) by lia. subst i. exists Q. reflexivity.
  - destruct (decide (i = S n)) as [->|Hne]; [exists Qn; exact H|].
    rewrite orbit_skip_snoc in H. inv_rbind H.
    apply (IH Q a Ha). lia.
Qed.

Lemma orbit_collect_from_start check normalize n P Q0 :
  normalize_if normalize_coordinates normalize P = Ok Q0 ->
  collect check normalize n Q0 [Q0] = images check normalize n P.
Proof.
  intros HQ0.
  rewrite (orbit_collect_images call normalize_coordinates check normalize
             n P Q0 O [Q0]); [f_equal; lia|exact HQ0| |reflexivity].
  simpl. rewrite HQ0. reflexivity.
Qed.

Lemma orbit_Bounds check normalize P m k :
  0 <= m <= k ->
  orbit call normalize_coordinates P (Bounds m k) check normalize
  = do l <- orbit call normalize_coordinates P (Single k) check normalize;
    Ok (drop (Z.to_nat m) l).
Proof.
  intros Hmk. unfold orbit.
  destruct (m <? 0) eqn:Em; [lia|]. destruct (k <? 0) eqn:Ek; [lia|].
  destruct (0 <? 0) eqn:E0; [lia|]. cbn [orb].
  destruct (m >? k) eqn:Emk; [lia|]. destruct (0 >? k) eqn:E0k; [lia|].
  destruct (normalize_if normalize_coordinates normalize P) as [Q0|e] eqn:HQ0;
    cbn [rbind]; [|reflexivity].
  change (Z.to_nat 0) with O. cbn [orbit_skip rbind]. rewrite Z.sub_0_r.
  replace (Z.to_nat k) with (Z.to_nat m + Z.to_nat (k - m))%nat by lia.
  rewrite orbit_collect_split.
  destruct (skip check normalize (Z.to_nat m) Q0) as [Qm|e] eqn:Hskip;
    cbn [rbind]; [|reflexivity].
  rewrite (orbit_collect_from_start _ _ _ P Q0 HQ0).
  destruct (image_list_defined call normalize_coordinates check normalize
              (Z.to_nat m) P) as [lm Hlm].
  { intros i Hi. rewrite nth_image_skip, HQ0. cbn [rbind].
    apply (orbit_skip_prefix _ _ _ _ _ Hskip i Hi). }
  rewrite Hlm. cbn [rbind].
  destruct (image_list_lookup call normalize_coordinates _ _ _ _ _ Hlm
              (Z.to_nat m) (le_n _)) as (Q & HQ & Him).
  rewrite nth_image_skip, HQ0 in Him. cbn [rbind] in Him.
  rewrite Hskip in Him. injection Him as <-.
  pose proof (image_list_length call normalize_coordinates _ _ _ _ _ Hlm)
    as Hlen.
  assert (Hsplit : lm = take (Z.to_nat m) lm ++ [Qm]).
  { rewrite <- (take_drop (Z.to_nat m) lm) at 1. f_equal.
    apply list_eq. intros [|i].
    - rewrite lookup_drop, Nat.add_0_r. exact HQ.
    - rewrite lookup_drop. simpl. apply lookup_ge_None_2. lia. }
  rewrite Hsplit at 1. rewrite orbit_collect_acc.
  destruct (collect check normalize (Z.to_nat (k - m)) Qm [Qm]) as [l|e];
    cbn [rbind]; [|reflexivity].
  rewrite drop_app_length'; [reflexivity|].
  rewrite length_take. lia.
Qed.

Lemma nth_image_raise_later check normalize P e i :
  image check normalize i P = Raise e ->
  forall n, (i <= n)%nat -> image check normalize n P = Raise e.
Proof.
  intros Hi n Hn. induction Hn as [|n Hn IH]; [exact Hi|].
  cbn [nth_image]. rewrite IH. reflexivity.
Qed.

Lemma image_list_raise check normalize P e n :
  images check normalize n P = Raise e ->
  image check normalize n P = Raise e.
Proof.
  induction n as [|n IH]; intros H.
  - cbn [image_list] in H.
    destruct (image check normalize 0 P) as [Q|e'] eqn:E; [discriminate|].
    cbn [rbind] in H. injection H as ->. reflexivity.
  - cbn [image_list] in H.
    destruct (images check normalize n P) as [l|e'] eqn:El; cbn [rbind] in H.
    + destruct (image check normalize (S n) P) as [Q|e''] eqn:E;
        [discriminate|]. cbn [rbind] in H. injection H as ->. reflexivity.
    + injection H as ->.
      apply (nth_image_raise_later _ _ _ _ n (IH eq_refl)). lia.
Qed.

(** X1.  For bounds [0 <= m <= k], [orbit(P, [m, k])] is [orbit(P, k)]
    without its first [m] entries, and it raises what [orbit(P, k)] raises:
    a returned list holds the [k - m + 1] images [f^m(P), ..., f^k(P)]. *)
Theorem orbit_window_is_tail_of_orbit (P : Point) (check normalize : bool)
    (m k : Z) :
  0 <= m <= k ->
  orbit call normalize_coordinates P (Bounds m k) check normalize
  = (do l <- orbit call normalize_coordinates P (Single k) check normalize;
     Ok (drop (Z.to_nat m) l)) /\
  forall orb,
    orbit call normalize_coordinates P (Bounds m k) check normalize = Ok orb ->
    Z.of_nat (length orb) = k - m + 1 /\
    forall i, (i <= Z.to_nat (k - m))%nat ->
      exists Q, orb !! i = Some Q /\
                image check normalize (Z.to_nat m + i) P = Ok Q.
Proof.
  intros Hmk. split; [apply orbit_Bounds, Hmk|].
  intros orb. rewrite (orbit_Bounds _ _ _ _ _ Hmk).
  rewrite (orbit_Single call normalize_coordinates) by lia.
  intros H. inv_rbind H. injection H as <-.
  pose proof (image_list_length call normalize_coordinates _ _ _ _ _ Ha)
    as Hlen.
  split; [rewrite length_drop; lia|].
  intros i Hi. rewrite lookup_drop.
  apply (image_list_lookup call normalize_coordinates _ _ _ _ _ Ha). lia.
Qed.

(** For [n >= 0] the method computes the window [[n, n+1]] of the orbit
    and keeps its first point. *)
Lemma nth_iterate_forward (P : Point) (check normalize : bool) n :
  0 <= n ->
  nth_iterate call normalize_coordinates P n check normalize
  = (do Q <- image check normalize (Z.to_nat n) P;
     do _ <- step check normalize Q;
     Ok Q).
Proof.
  intros Hn. unfold nth_iterate.
  destruct (n <? 0) eqn:E; [lia|].
  rewrite orbit_Bounds by lia.
  rewrite (orbit_Single call normalize_coordinates) by lia.
  replace (Z.to_nat (n + 1)) with (S (Z.to_nat n)) by lia.
  cbn [image_list nth_image].
  destruct (images check normalize (Z.to_nat n) P) as [l|e] eqn:Hl.
  + destruct (image_list_lookup call normalize_coordinates _ _ _ _ _ Hl
                (Z.to_nat n) (le_n _)) as (Q & HQ & HQn).
    rewrite HQn. cbn [rbind].
    destruct (step check normalize Q) as [Q'|e]; cbn [rbind];
      [|reflexivity].
    pose proof (image_list_length call normalize_coordinates _ _ _ _ _ Hl)
      as Hlen.
    destruct (drop (Z.to_nat n) (l ++ [Q'])) as [|x t] eqn:Hdrop.
    * apply (f_equal length) in Hdrop.
      rewrite length_drop, length_app in Hdrop. simpl in Hdrop. lia.
    * f_equal. apply (f_equal (fun l => l !! O)) in Hdrop.
      rewrite lookup_drop, Nat.add_0_r, lookup_app_l in Hdrop by lia.
      rewrite HQ in Hdrop. injection Hdrop as <-. reflexivity.
  + rewrite (image_list_raise _ _ _ _ _ Hl). reflexivity.
Qed.

(** X2.  [nth_iterate(P, n)] raises [TypeError] for a negative [n]; for
    [n >= 0] it is the first entry of [orbit(P, [n, n+1])], so the map is
    applied [n + 1] times: the call returns [f^n(P)] when [f^(n+1)(P)] is
    defined too, and raises what that last evaluation raises otherwise. *)
Theorem nth_iterate_applies_the_map_once_more (P : Point)
    (check normalize : bool) :
  (forall n, n < 0 ->
     nth_iterate call normalize_coordinates P n check normalize
     = Raise (TypeError "must be a forward orbit")) /\
  (forall n, 0 <= n ->
     nth_iterate call normalize_coordinates P n check normalize
     = (do Q <- image check normalize (Z.to_nat n) P;
        do _ <- step check normalize Q;
        Ok Q)).
Proof.
  split.
  - intros n Hn. unfold nth_iterate.
    destruct (n <? 0) eqn:E; [reflexivity|lia].
  - intros n Hn. apply nth_iterate_forward, Hn.
Qed.
End OrbitWindows.

Lemma orbit_window_is_tail_of_orbit_witness :
  orbit_QQ orbit_example [qz 1; qz 2] (Bounds 2 4) false false
  = (do l <- orbit_QQ orbit_example [qz 1; qz 2] (Single 4) false false;
     Ok (drop 2 l)) /\
  orbit_QQ orbit_example [qz 1; qz 2] (Bounds 2 4) false false
  = Ok [ [qz 41; qz 16]; [qz 1937; qz 256]; [qz 3817505; qz 65536] ].
Proof.
  split; [|by_evaluation].
  apply (orbit_window_is_tail_of_orbit (call_QQ orbit_example)
           normalize_coordinates_QQ [qz 1; qz 2] false false 2 4). lia.
Defined.

(** The first image of [(1 : 1)] under [[x^2 - x*y, x*y]] is the point
    [(0 : 1)], where the map is not defined: with the default [check=True]
    the one-step call [nth_iterate(P, 1)] raises, with [check=False] it
    returns the image. *)
Example nth_iterate_raises_on_the_image_after :
  call_QQ second_image_example [qz 1; qz 1] true = Ok [qz 0; qz 1] /\
  nth_iterate_QQ second_image_example [qz 1; qz 1] 1 true false
  = Raise (ValueError "does not define a valid point since all entries are 0")
  /\
  nth_iterate_QQ second_image_example [qz 1; qz 1] 1 false false
  = Ok [qz 0; qz 1].
Proof. repeat split; by_evaluation. Qed.

Lemma nth_iterate_applies_the_map_once_more_witness :
  nth_iterate_QQ second_image_example [qz 1; qz 1] (-1) true false
  = Raise (TypeError "must be a forward orbit") /\
  nth_iterate_QQ second_image_example [qz 1; qz 1] 1 true false
  = (do Q <- nth_image (call_QQ second_image_example)
               normalize_coordinates_QQ true false 1 [qz 1; qz 1];
     do _ <- orbit_step (call_QQ second_image_example)
               normalize_coordinates_QQ true false Q;
     Ok Q).
Proof.
  destruct (nth_iterate_applies_the_map_once_more
              (call_QQ second_image_example) normalize_coordinates_QQ
              [qz 1; qz 1] true false) as [Hneg Hpos].
  split; [apply Hneg; lia|apply (Hpos 1); lia].
Defined.

(** ** The period sieve *)

Lemma is_prime_spec (n : Z) : is_prime n = true <-> Z.prime n.
Proof.
  unfold is_prime. rewrite andb_true_iff, Z.ltb_lt, forallb_forall.
  unfold Z.prime.
  split; intros [H1 H2]; (split; [exact H1|]).
  - intros d Hd Hdiv.
    assert (Hin : In d (seqZ 2 (n - 2))).
    { apply list_elem_of_In, elem_of_seqZ. lia. }
    specialize (H2 d Hin). apply negb_true_iff, Z.eqb_neq in H2.
    apply H2, Z.mod_divide; [lia|exact Hdiv].
  - intros d Hin. apply list_elem_of_In, elem_of_seqZ in Hin.
    apply negb_true_iff, Z.eqb_neq. intros Hmod.
    apply (H2 d); [lia|]. apply Z.mod_divide; [lia|exact Hmod].
Qed.

Lemma elem_of_primes (q start stop : Z) :
  q ∈ primes start stop <-> Z.prime q /\ start <= q < stop.
Proof.
  unfold primes. rewrite list_elem_of_filter, elem_of_seqZ, is_prime_spec.
  intuition lia.
Qed.

Lemma StronglySorted_seqZ (m n : Z) : StronglySorted Z.lt (seqZ m n).
Proof.
  destruct (decide (0 <= n)) as [Hn|Hn].
  2:{ rewrite seqZ_nil by lia. constructor. }
  rewrite <- (Z2Nat.id n Hn). generalize (Z.to_nat n) as k. clear.
  intros k. revert m. induction k as [|k IH]; intros m.
  - rewrite seqZ_nil by lia. constructor.
  - rewrite seqZ_cons by lia. constructor.
    + replace (Z.pred (Z.of_nat (S k))) with (Z.of_nat k) by lia. apply IH.
    + apply Forall_seqZ. lia.
Qed.

Lemma StronglySorted_filter_Z (R : relation Z) (P : Z -> Prop)
    `{!forall x, Decision (P x)} (l : list Z) :
  StronglySorted R l -> StronglySorted R (filter P l).
Proof.
  induction 1 as [|x l Hl IH Hx]; [constructor|].
  rewrite filter_cons. destruct (decide (P x)); [|exact IH].
  constructor; [exact IH|].
  rewrite Forall_forall in Hx |- *. intros y Hy.
  apply Hx. apply list_elem_of_filter in Hy. tauto.
Qed.

(** The primes come in increasing order. *)
Lemma primes_increasing (start stop : Z) :
  StronglySorted Z.lt (primes start stop).
Proof. apply StronglySorted_filter_Z, StronglySorted_seqZ. Qed.

Lemma StronglySorted_le_NoDup_lt (l : list Z) :
  StronglySorted Z.le l -> NoDup l -> StronglySorted Z.lt l.
Proof.
  induction 1 as [|x l Hl IH Hx]; intros Hnd; [constructor|].
  apply NoDup_cons in Hnd as [Hx' Hnd]. constructor; [auto|].
  rewrite Forall_forall in Hx |- *. intros y Hy.
  specialize (Hx y Hy). assert (x <> y) by (intros ->; contradiction). lia.
Qed.

Section PeriodSieveFacts.
Context {System Reduced : Type}.
Variable base_ring_ZZ_or_QQ : System -> bool.
Variable primes_of_bad_reduction : System -> result (list Z).
Variable change_ring_GF : System -> Z -> result Reduced.
Variable possible_periods_GF : Reduced -> result (list Z).
Variable p_iter_fork :
  (Reduced -> result (list Z)) -> list Reduced
  -> result (list (Reduced * list Z)).
(** When the workers return, each input comes back once with its output;
    the order is the workers' own. *)
Hypothesis p_iter_fork_perm : forall g l ys,
  result_map g l = Ok ys ->
  exists rs, p_iter_fork g l = Ok rs /\ rs ≡ₚ zip l ys.

Abbreviation sieve := (possible_periods base_ring_ZZ_or_QQ
  primes_of_bad_reduction change_ring_GF possible_periods_GF p_iter_fork).
Abbreviation bad_of := (bad_primes_of primes_of_bad_reduction).
Abbreviation inter := (@intersect_results Reduced).

Lemma intersect_results_true rs : forall S,
  exists T, inter rs true S = (true, T) /\
    forall x, x ∈ T <-> x ∈ S /\ forall r, r ∈ rs -> x ∈ r.2.
Proof.
  induction rs as [|r rs IH]; intros S.
  - exists S. split; [reflexivity|]. intros x. split; [|tauto].
    intros Hx. split; [exact Hx|]. intros r Hr. inversion Hr.
  - destruct (IH (S ∩ list_to_set r.2)) as (T & HT & Hmem).
    exists T. split; [exact HT|]. intros x. rewrite Hmem.
    rewrite elem_of_intersection, elem_of_list_to_set.
    split.
    + intros [[HS Hr] Hrs]. split; [exact HS|].
      intros r' Hr'. apply elem_of_cons in Hr' as [->|Hr']; auto.
    + intros [HS Hall]. repeat split; [exact HS| |].
      * apply Hall. left.
      * intros r' Hr'. apply Hall. right. exact Hr'.
Qed.

Lemma intersect_results_false rs S :
  (rs = [] /\ inter rs false S = (false, S)) \/
  (rs <> [] /\ exists T, inter rs false S = (true, T) /\
     forall x, x ∈ T <-> forall r, r ∈ rs -> x ∈ r.2).
Proof.
  destruct rs as [|r rs]; [left; split; reflexivity|].
  right. split; [discriminate|].
  destruct (intersect_results_true rs (list_to_set r.2)) as (T & HT & Hmem).
  exists T. split; [exact HT|]. intros x. rewrite Hmem, elem_of_list_to_set.
  split.
  - intros [Hr Hrs] r' Hr'. apply elem_of_cons in Hr' as [->|Hr']; auto.
  - intros Hall. split; [apply Hall; left|].
    intros r' Hr'. apply Hall. right. exact Hr'.
Qed.

Lemma sorted_elements_spec (T : gset Z) :
  StronglySorted Z.lt (merge_sort Z.le (elements T)) /\
  forall x, x ∈ merge_sort Z.le (elements T) <-> x ∈ T.
Proof.
  split.
  - apply StronglySorted_le_NoDup_lt.
    + apply StronglySorted_merge_sort; [intros x y z; lia|intros x y; lia].
    + rewrite merge_sort_Permutation. apply NoDup_elements.
  - intros x. rewrite merge_sort_Permutation. apply elem_of_elements.
Qed.

Abbreviation periods_at := (periods_at change_ring_GF possible_periods_GF).

Abbreviation reduces_at_good_primes :=
  (reduces_at_good_primes change_ring_GF).

Abbreviation workers_return :=
  (workers_return change_ring_GF possible_periods_GF).

Lemma result_map_defined {A B : Type} (k : A -> result B) (l : list A) :
  (forall x, x ∈ l -> exists y, k x = Ok y) ->
  exists ys, result_map k l = Ok ys /\ Forall2 (fun x y => k x = Ok y) l ys.
Proof.
  induction l as [|x l IH]; intros Hdef.
  - exists []. split; [reflexivity|constructor].
  - destruct (Hdef x ltac:(left)) as [y Hy].
    destruct IH as (ys & Hys & Hall); [intros z Hz; apply Hdef; right; exact Hz|].
    exists (y :: ys). simpl. rewrite Hy. simpl. rewrite Hys. simpl.
    split; [reflexivity|]. constructor; assumption.
Qed.


(** The call up to the pool: with the base ring accepted and the bad
    primes known, the reductions at the good primes are handed to the
    workers. *)
Lemma possible_periods_after_reduction f kwds badprimes Fs :
  base_ring_ZZ_or_QQ f = true ->
  bad_of f kwds = Ok badprimes ->
  result_map (change_ring_GF f) (good_primes_of kwds badprimes) = Ok Fs ->
  sieve f kwds
  = (do parallel_results <- p_iter_fork possible_periods_GF Fs;
     let '(firstgood, periods) := inter parallel_results false ∅ in
     if firstgood then Ok (merge_sort Z.le (elements periods))
     else Raise (ValueError "no primes of good reduction in that range")).
Proof.
  intros Hbase Hbad HFs. unfold possible_periods. rewrite Hbase, Hbad.
  cbn [negb rbind]. fold (good_primes_of kwds badprimes). rewrite HFs.
  reflexivity.
Qed.

(** What a call computes once the base ring is accepted, the bad primes
    are known, the reductions are defined and the workers return: an error
    exactly on an empty list of good primes, the sorted intersection
    otherwise. *)
Lemma possible_periods_cases f kwds badprimes :
  base_ring_ZZ_or_QQ f = true ->
  bad_of f kwds = Ok badprimes ->
  reduces_at_good_primes f kwds badprimes ->
  workers_return f kwds badprimes ->
  (good_primes_of kwds badprimes = [] /\
   sieve f kwds = Raise (ValueError "no primes of good reduction in that range"))
  \/
  (good_primes_of kwds badprimes <> [] /\
   exists l, sieve f kwds = Ok l /\ StronglySorted Z.lt l /\
     forall x, x ∈ l <->
       forall q, q ∈ good_primes_of kwds badprimes -> periods_at f q x).
Proof.
  intros Hbase Hbad Hred Hwork.
  set (G := good_primes_of kwds badprimes) in *.
  destruct (result_map_defined (change_ring_GF f) G Hred) as (Fs & HFs & HGF).
  rewrite (possible_periods_after_reduction f kwds badprimes Fs Hbase Hbad HFs).
  assert (Hlen : length G = length Fs) by (eapply Forall2_length; eauto).
  destruct (result_map_defined possible_periods_GF Fs) as (ys & Hys & HFy).
  { intros F HF. apply list_elem_of_lookup in HF as [i Hi].
    destruct (Forall2_lookup_r _ _ _ _ _ HGF Hi) as (q & Hq & HqF).
    apply (Hwork q F); [eapply list_elem_of_lookup_2; eauto|exact HqF]. }
  assert (Hlen' : length Fs = length ys) by (eapply Forall2_length; eauto).
  destruct (p_iter_fork_perm possible_periods_GF Fs ys Hys) as (rs & -> & Hrs).
  cbn [rbind].
  destruct (intersect_results_false rs ∅) as [[Hnil ->]|(Hne & T & -> & Hmem)].
  - left. split; [|reflexivity].
    rewrite Hnil in Hrs. apply Permutation_nil_l in Hrs.
    apply (f_equal length) in Hrs. rewrite length_zip in Hrs. simpl in Hrs.
    destruct G; [reflexivity|simpl in Hlen; lia].
  - right. split.
    + intros HG. rewrite HG in Hlen. destruct Fs; [|discriminate].
      apply Permutation_nil_r in Hrs. auto.
    + exists (merge_sort Z.le (elements T)). split; [reflexivity|].
      destruct (sorted_elements_spec T) as [Hs Hel]. split; [exact Hs|].
      intros x. rewrite Hel, Hmem. split.
      * intros Hall q Hq.
        apply list_elem_of_lookup in Hq as [i Hi].
        destruct (Forall2_lookup_l _ _ _ _ _ HGF Hi) as (F & HF & HqF).
        destruct (Forall2_lookup_l _ _ _ _ _ HFy HF) as (y & Hy & HFy').
        exists F, y. split; [exact HqF|]. split; [exact HFy'|].
        apply (Hall (F, y)).
        rewrite Hrs. apply (list_elem_of_lookup_2 _ i).
        apply lookup_zip_with_Some. exists F, y. auto.
      * intros Hall r Hr. rewrite Hrs in Hr.
        apply list_elem_of_lookup in Hr as [i Hi].
        apply lookup_zip_with_Some in Hi as (F & y & -> & HF & Hy).
        destruct (Forall2_lookup_r _ _ _ _ _ HGF HF) as (q & Hq & HqF).
        destruct (Hall q) as (F' & y' & HF' & Hy' & Hx);
          [eapply list_elem_of_lookup_2; eauto|].
        assert (F' = F) by congruence. subst F'.
        pose proof (Forall2_lookup_lr _ _ _ _ _ _ HFy HF Hy) as HFy'.
        simpl in HFy'. simpl. congruence.
Qed.

Lemma elem_of_good_primes_of kwds badprimes q :
  q ∈ good_primes_of kwds badprimes <->
  Z.prime q /\ (q ∉ badprimes) /\
  (bounds_of (prime_bound kwds)).1 <= q <= (bounds_of (prime_bound kwds)).2.
Proof.
  unfold good_primes_of, good_primes.
  rewrite list_elem_of_filter, elem_of_primes. intuition lia.
Qed.


(** C7.  A returned list is strictly increasing and holds exactly the
    periods found at every good prime of the range, a good prime being a
    prime of the range that is not in the bad-prime list; and a call whose
    good primes include those of another, non-empty, call returns a sublist
    of what that call returns. *)
Theorem possible_periods_sorted_intersection_antitone f kwds badprimes :
  base_ring_ZZ_or_QQ f = true ->
  bad_of f kwds = Ok badprimes ->
  reduces_at_good_primes f kwds badprimes ->
  workers_return f kwds badprimes ->
  good_primes_of kwds badprimes <> [] ->
  exists l, sieve f kwds = Ok l /\
    StronglySorted Z.lt l /\
    (forall x, x ∈ l <->
       forall q, Z.prime q -> q ∉ badprimes ->
         (bounds_of (prime_bound kwds)).1 <= q <= (bounds_of (prime_bound kwds)).2 ->
         periods_at f q x) /\
    (forall kwds' badprimes',
       bad_of f kwds' = Ok badprimes' ->
       reduces_at_good_primes f kwds' badprimes' ->
       workers_return f kwds' badprimes' ->
       good_primes_of kwds badprimes ⊆ good_primes_of kwds' badprimes' ->
       exists l', sieve f kwds' = Ok l' /\ l' ⊆ l).
Proof.
  intros Hbase Hbad Hred Hwork Hne.
  destruct (possible_periods_cases f kwds badprimes Hbase Hbad Hred Hwork)
    as [[Hnil _]|(_ & l & Hl & Hsorted & Hmem)]; [contradiction|].
  exists l. split; [exact Hl|]. split; [exact Hsorted|]. split.
  - intros x. rewrite Hmem. split.
    + intros Hall q Hq Hgood Hrange. apply Hall.
      apply elem_of_good_primes_of. auto.
    + intros Hall q Hq. apply elem_of_good_primes_of in Hq as (? & ? & ?).
      apply Hall; assumption.
  - intros kwds' badprimes' Hbad' Hred' Hwork' Hsub.
    destruct (possible_periods_cases f kwds' badprimes' Hbase Hbad' Hred'
                Hwork')
      as [[Hnil' _]|(_ & l' & Hl' & _ & Hmem')].
    + destruct (good_primes_of kwds badprimes) as [|q G] eqn:HG;
        [contradiction|].
      assert (Hq : q ∈ good_primes_of kwds' badprimes')
        by (apply Hsub; left).
      rewrite Hnil' in Hq. inversion Hq.
    + exists l'. split; [exact Hl'|]. intros x Hx.
      apply Hmem. intros q Hq. apply (proj1 (Hmem' x) Hx), Hsub, Hq.
Qed.
End PeriodSieveFacts.

(** Workers that cannot raise return at every reduction. *)
Lemma total_workers_return {System Reduced : Type}
    (change_ring_GF : System -> Z -> result Reduced)
    (g : Reduced -> list Z) f kwds badprimes :
  workers_return change_ring_GF (fun F => Ok (g F)) f kwds badprimes.
Proof. intros q F _ _. eexists. reflexivity. Qed.

(** ** Orbit graphs *)

Section GraphFacts.
Context {Point : Type}.
Variable point_eq : Point -> Point -> bool.
Variable call : Point -> result Point.
Variable normalize_coordinates : Point -> result Point.

Local Notation "a ≈ b" := (point_eq a b = true) (at level 70).

Abbreviation normalized_image :=
  (normalized_image call normalize_coordinates).

Abbreviation distinct_classes := (distinct_classes point_eq).

Lemma index_Some D val i :
  index point_eq D val = Some i -> exists d, D !! i = Some d /\ d ≈ val.
Proof.
  revert i. induction D as [|d D IH]; intros i H; [discriminate|].
  simpl in H. destruct (point_eq d val) eqn:E.
  - injection H as <-. exists d. auto.
  - destruct (index point_eq D val) as [j|] eqn:Ej; [|discriminate].
    injection H as <-. apply (IH j eq_refl).
Qed.

Lemma index_None D val :
  index point_eq D val = None -> forall d, d ∈ D -> point_eq d val = false.
Proof.
  induction D as [|d D IH]; intros H x Hx; [inversion Hx|].
  simpl in H. destruct (point_eq d val) eqn:E; [discriminate|].
  destruct (index point_eq D val) eqn:Ej; [discriminate|].
  apply elem_of_cons in Hx as [->|Hx]; auto.
Qed.

Lemma index_found D val d :
  d ∈ D -> d ≈ val -> exists i, index point_eq D val = Some i.
Proof.
  intros Hd Heq. destruct (index point_eq D val) as [i|] eqn:E; [eauto|].
  rewrite (index_None _ _ E d Hd) in Heq. discriminate.
Qed.

Lemma distinct_classes_eq D a b :
  distinct_classes D -> a ∈ D -> b ∈ D -> a ≈ b -> a = b.
Proof.
  intros HD Ha Hb Hab.
  apply list_elem_of_lookup in Ha as [i Hi].
  apply list_elem_of_lookup in Hb as [j Hj].
  assert (i = j) by (eapply HD; eauto). subst j. congruence.
Qed.

Lemma distinct_classes_snoc D x :
  distinct_classes D ->
  (forall d, d ∈ D -> point_eq d x = false /\ point_eq x d = false) ->
  distinct_classes (D ++ [x]).
Proof.
  intros HD Hx i j a b Hi Hj Hab.
  apply lookup_snoc_Some in Hi as [[Hli Hi]|[Hli <-]];
  apply lookup_snoc_Some in Hj as [[Hlj Hj]|[Hlj <-]].
  - eapply HD; eauto.
  - destruct (Hx a) as [E _]; [eapply list_elem_of_lookup_2; eauto|].
    congruence.
  - destruct (Hx b) as [_ E]; [eapply list_elem_of_lookup_2; eauto|].
    congruence.
  - congruence.
Qed.

Lemma distinct_classes_NoDup D :
  (forall d, d ∈ D -> d ≈ d) -> distinct_classes D -> NoDup D.
Proof.
  intros Hrefl HD. apply NoDup_alt. intros i j x Hi Hj.
  eapply HD; eauto. apply Hrefl. eapply list_elem_of_lookup_2; eauto.
Qed.

Lemma zip_snoc {A B : Type} (l : list A) (k : list B) (a : A) (b : B) :
  length l = length k -> zip (l ++ [a]) (k ++ [b]) = zip l k ++ [(a, b)].
Proof.
  revert k. induction l as [|x l IH]; intros [|y k] Hlen; simpl in *;
    try discriminate; [reflexivity|].
  f_equal. apply IH. lia.
Qed.

Lemma index_self D x :
  distinct_classes D -> x ∈ D -> x ≈ x ->
  exists i, index point_eq D x = Some i /\ D !! i = Some x.
Proof.
  intros HD Hx Hrefl.
  destruct (index_found D x x Hx Hrefl) as [i Hi]. exists i.
  split; [exact Hi|].
  destruct (index_Some _ _ _ Hi) as (d & Hd & Hdx).
  apply list_elem_of_lookup in Hx as [j Hj].
  assert (i = j) by (eapply HD; eauto). subst j. exact Hj.
Qed.

Lemma vertex_of_self D x :
  distinct_classes D -> x ∈ D -> x ≈ x -> vertex_of point_eq D x = x.
Proof.
  intros HD Hx Hrefl. unfold vertex_of.
  destruct (index_self D x HD Hx Hrefl) as (i & -> & ->). reflexivity.
Qed.

Lemma distinct_classes_sub D vs :
  distinct_classes D -> NoDup vs -> vs ⊆ D -> distinct_classes vs.
Proof.
  intros HD Hnd Hsub i j a b Hi Hj Hab.
  assert (a = b).
  { eapply distinct_classes_eq; eauto; apply Hsub;
      eapply list_elem_of_lookup_2; eauto. }
  subst b. eapply NoDup_lookup; eauto.
Qed.

(** [add_vertex] on points drawn from a list of distinct classes. *)
Lemma add_vertex_spec D vs v :
  distinct_classes D -> (forall d, d ∈ D -> d ≈ d) ->
  NoDup vs -> vs ⊆ D -> v ∈ D ->
  NoDup (add_vertex point_eq vs v) /\
  add_vertex point_eq vs v ⊆ D /\
  forall x, x ∈ add_vertex point_eq vs v <-> x ∈ vs \/ x = v.
Proof.
  intros HD Hrefl Hnd Hsub Hv. unfold add_vertex.
  destruct (index point_eq vs v) as [i|] eqn:Hi.
  - destruct (index_Some _ _ _ Hi) as (d & Hd & Hdv).
    assert (Hdvs : d ∈ vs) by (eapply list_elem_of_lookup_2; eauto).
    assert (d = v) by (eapply distinct_classes_eq; eauto). subst d.
    repeat split; auto. intros [?| ->]; auto.
  - assert (Hnot : v ∉ vs).
    { intros Hin. pose proof (index_None _ _ Hi v Hin) as E.
      rewrite (Hrefl v Hv) in E. discriminate. }
    repeat split.
    + apply NoDup_app. repeat split; [exact Hnd| |apply NoDup_singleton].
      intros x Hx Hx'. apply list_elem_of_singleton in Hx'. subst x. auto.
    + intros x Hx. apply elem_of_app in Hx as [Hx|Hx]; [auto|].
      apply list_elem_of_singleton in Hx. subst x. exact Hv.
    + intros Hx. apply elem_of_app in Hx as [Hx|Hx]; [auto|].
      apply list_elem_of_singleton in Hx. auto.
    + intros [Hx| ->]; apply elem_of_app; [auto|].
      right. apply list_elem_of_singleton. reflexivity.
Qed.
(** *** The dictionary [dict(zip(V, E))] *)

Lemma key_cases {V : Type} (d : list (Point * V)) (k : Point) :
  (exists kv, kv ∈ d /\ kv.1 ≈ k) \/
  (forall kv, kv ∈ d -> point_eq kv.1 k = false).
Proof.
  induction d as [|[k' v'] d IH].
  - right. intros kv Hkv. inversion Hkv.
  - destruct (point_eq k' k) eqn:E.
    + left. exists (k', v'). split; [left|exact E].
    + destruct IH as [(kv & Hkv & Heq)|Hnone].
      * left. exists kv. split; [right; exact Hkv|exact Heq].
      * right. intros kv Hkv. apply elem_of_cons in Hkv as [->|Hkv]; auto.
Qed.

Lemma dict_setitem_same {V : Type} (d : list (Point * V)) k v :
  k ≈ k -> (k, v) ∈ d ->
  (forall kv, kv ∈ d -> kv.1 ≈ k -> kv = (k, v)) ->
  dict_setitem point_eq d k v = d.
Proof.
  intros Hrefl. induction d as [|[k' v'] d IH]; intros Hin Hsame.
  - inversion Hin.
  - simpl. destruct (point_eq k' k) eqn:E.
    + specialize (Hsame (k', v') ltac:(left) E). congruence.
    + f_equal. apply IH.
      * apply elem_of_cons in Hin as [Heq|Hin]; [|exact Hin].
        injection Heq as <- <-. congruence.
      * intros kv Hkv. apply Hsame. right. exact Hkv.
Qed.

Lemma dict_setitem_new {V : Type} (d : list (Point * V)) k v :
  (forall kv, kv ∈ d -> point_eq kv.1 k = false) ->
  dict_setitem point_eq d k v = d ++ [(k, v)].
Proof.
  induction d as [|[k' v'] d IH]; intros Hnone; [reflexivity|].
  pose proof (Hnone (k', v') ltac:(left)) as E. simpl in E.
  simpl. rewrite E. f_equal.
  apply IH. intros kv Hkv. apply Hnone. right. exact Hkv.
Qed.

(** On pairs whose equal keys are the same key with the same value, the
    dictionary holds each pair once. *)
Lemma dict_of_pairs_spec {V : Type} (kvs : list (Point * V)) :
  (forall kv, kv ∈ kvs -> kv.1 ≈ kv.1) ->
  (forall kv1 kv2, kv1 ∈ kvs -> kv2 ∈ kvs -> kv1.1 ≈ kv2.1 -> kv1 = kv2) ->
  NoDup (dict_of_pairs point_eq kvs) /\
  forall kv, kv ∈ dict_of_pairs point_eq kvs <-> kv ∈ kvs.
Proof.
  induction kvs as [|[k v] kvs IH] using rev_ind; intros Hrefl Hcons.
  - split; [constructor|]. intros kv. reflexivity.
  - destruct IH as [Hnd Hmem].
    { intros kv Hkv. apply Hrefl, elem_of_app. auto. }
    { intros kv1 kv2 H1 H2. apply Hcons; apply elem_of_app; auto. }
    unfold dict_of_pairs in *. rewrite fold_left_app. simpl.
    set (d := fold_left _ kvs []) in *.
    assert (Hlast : (k, v) ∈ kvs ++ [(k, v)]).
    { apply elem_of_app. right. left. }
    destruct (key_cases d k) as [(kv & Hkv & Heq)|Hnone].
    + assert (kv = (k, v)).
      { apply Hcons; [apply elem_of_app; left; apply Hmem, Hkv|exact Hlast|].
        exact Heq. }
      subst kv. rewrite dict_setitem_same.
      * split; [exact Hnd|]. intros kv. rewrite Hmem, elem_of_app.
        split; [auto|]. intros [H|H]; [exact H|].
        apply list_elem_of_singleton in H. subst kv. apply Hmem, Hkv.
      * apply (Hrefl (k, v) Hlast).
      * exact Hkv.
      * intros kv' Hkv' Heq'. apply Hcons; [|exact Hlast|exact Heq'].
        apply elem_of_app. left. apply Hmem, Hkv'.
    + rewrite dict_setitem_new by exact Hnone. split.
      * apply NoDup_app. repeat split; [exact Hnd| |apply NoDup_singleton].
        intros kv Hkv Hkv'. apply list_elem_of_singleton in Hkv'. subst kv.
        pose proof (Hnone _ Hkv) as E.
        pose proof (Hrefl (k, v) Hlast) as E'. simpl in E, E'. congruence.
      * intros kv. rewrite !elem_of_app, Hmem. reflexivity.
Qed.
(** *** The graph of a dictionary with one neighbour per key *)

Lemma vertices_fold D d :
  distinct_classes D -> (forall x, x ∈ D -> x ≈ x) -> entries_in D d ->
  forall vs0, NoDup vs0 -> vs0 ⊆ D ->
  let vs := fold_left
              (fun vs kv =>
                 fold_left (add_vertex point_eq) kv.2
                   (add_vertex point_eq vs kv.1)) d vs0 in
  NoDup vs /\ vs ⊆ D /\
  forall x, x ∈ vs <->
    x ∈ vs0 \/ exists kv, kv ∈ d /\ (x = kv.1 \/ x ∈ kv.2).
Proof.
  intros HD Hrefl. induction d as [|kv d IH]; intros Hin vs0 Hnd Hsub.
  - simpl. repeat split; auto.
    intros [H|(kv & Hkv & _)]; [exact H|inversion Hkv].
  - destruct (Hin kv ltac:(left)) as (Hu & w & Hw & HwD).
    destruct (add_vertex_spec D vs0 (kv.1) HD Hrefl Hnd Hsub Hu)
      as (Hnd1 & Hsub1 & Hmem1).
    destruct (add_vertex_spec D _ w HD Hrefl Hnd1 Hsub1 HwD)
      as (Hnd2 & Hsub2 & Hmem2).
    cbn [fold_left]. rewrite Hw. cbn [fold_left].
    destruct (IH (fun kv' H => Hin kv' (list_elem_of_further _ _ _ H))
                 _ Hnd2 Hsub2) as (Hnd3 & Hsub3 & Hmem3).
    split; [exact Hnd3|]. split; [exact Hsub3|].
    intros x. rewrite Hmem3, Hmem2, Hmem1. split.
    + intros [[[H|H]|H]|(kv' & Hkv' & H)].
      * left. exact H.
      * right. exists kv. split; [left|left; exact H].
      * right. exists kv. split; [left|right]. rewrite Hw, H. left.
      * right. exists kv'. split; [right; exact Hkv'|exact H].
    + intros [H|(kv' & Hkv' & H)]; [auto|].
      apply elem_of_cons in Hkv' as [->|Hkv'].
      * left. destruct H as [H|H]; [auto|].
        rewrite Hw in H. apply list_elem_of_singleton in H. auto.
      * right. exists kv'. auto.
Qed.

Lemma has_edge_fresh (d1 : list (Point * list Point)) (e : Point * Point) :
  (forall kv, kv ∈ d1 -> point_eq kv.1 e.1 = false) ->
  has_edge point_eq (edge_of <$> d1) e = false.
Proof.
  intros Hfresh. unfold has_edge. induction d1 as [|kv d1 IH]; [reflexivity|].
  simpl. pose proof (Hfresh kv ltac:(left)) as E. rewrite E. simpl.
  apply IH. intros kv' Hkv'. apply Hfresh. right. exact Hkv'.
Qed.

Lemma edges_fold vs d2 : forall d1,
  distinct_classes vs -> (forall x, x ∈ vs -> x ≈ x) ->
  entries_in vs (d1 ++ d2) ->
  NoDup (d1 ++ d2) ->
  (forall kv1 kv2, kv1 ∈ d1 ++ d2 -> kv2 ∈ d1 ++ d2 -> kv1.1 ≈ kv2.1 ->
     kv1 = kv2) ->
  fold_left
    (fun es kv =>
       fold_left
         (fun es v =>
            add_edge point_eq es
              (vertex_of point_eq vs kv.1, vertex_of point_eq vs v))
         kv.2 es)
    d2 (edge_of <$> d1)
  = edge_of <$> (d1 ++ d2).
Proof.
  induction d2 as [|kv d2 IH]; intros d1 Hvs Hrefl Hin Hnd Hkeys.
  - simpl. rewrite app_nil_r. reflexivity.
  - assert (Hkv : kv ∈ d1 ++ kv :: d2) by (apply elem_of_app; right; left).
    destruct (Hin kv Hkv) as (Hu & w & Hw & HwD).
    cbn [fold_left]. rewrite Hw. cbn [fold_left].
    rewrite (vertex_of_self vs (kv.1) Hvs Hu (Hrefl _ Hu)).
    rewrite (vertex_of_self vs w Hvs HwD (Hrefl _ HwD)).
    assert (Hadd : add_edge point_eq (edge_of <$> d1) (kv.1, w)
                   = edge_of <$> (d1 ++ [kv])).
    { unfold add_edge. rewrite has_edge_fresh.
      - rewrite fmap_app. f_equal. simpl. unfold edge_of. rewrite Hw.
        reflexivity.
      - simpl. intros kv' Hkv'.
        destruct (point_eq kv'.1 kv.1) eqn:E; [|reflexivity]. exfalso.
        assert (kv' = kv).
        { apply Hkeys; [apply elem_of_app; auto|exact Hkv|exact E]. }
        subst kv'. apply NoDup_app in Hnd as (_ & Hdisj & _).
        apply (Hdisj kv Hkv'). left. }
    rewrite Hadd, (IH (d1 ++ [kv])); rewrite <- ?app_assoc; auto.
Qed.

Lemma out_edges_none (d : list (Point * list Point)) (k : Point) :
  (forall kv, kv ∈ d -> point_eq kv.1 k = false) ->
  filter (fun e => e.1 ≈ k) (edge_of <$> d) = [].
Proof.
  induction d as [|kv d IH]; intros Hnone; [reflexivity|].
  rewrite fmap_cons, filter_cons.
  pose proof (Hnone kv ltac:(left)) as E.
  destruct (decide ((edge_of kv).1 ≈ k)) as [Heq|_].
  - simpl in Heq. congruence.
  - apply IH. intros kv' Hkv'. apply Hnone. right. exact Hkv'.
Qed.

(** With distinct keys, exactly one edge leaves each key. *)
Lemma out_edges_one (d : list (Point * list Point)) (kv : Point * list Point) :
  NoDup d ->
  (forall kv1 kv2, kv1 ∈ d -> kv2 ∈ d -> kv1.1 ≈ kv2.1 -> kv1 = kv2) ->
  kv ∈ d -> kv.1 ≈ kv.1 ->
  filter (fun e => e.1 ≈ kv.1) (edge_of <$> d) = [edge_of kv].
Proof.
  intros Hnd Hkeys Hkv Hrefl. induction d as [|kv0 d IH]; [inversion Hkv|].
  apply NoDup_cons in Hnd as [Hnotin Hnd].
  rewrite fmap_cons, filter_cons.
  destruct (decide ((edge_of kv0).1 ≈ kv.1)) as [Heq|Hne].
  - assert (kv0 = kv) by (apply Hkeys; [left|exact Hkv|exact Heq]).
    subst kv0. f_equal. apply out_edges_none. intros kv' Hkv'.
    destruct (point_eq kv'.1 kv.1) eqn:E; [|reflexivity]. exfalso.
    assert (kv' = kv) by (apply Hkeys; [right; exact Hkv'|left|exact E]).
    subst kv'. contradiction.
  - apply elem_of_cons in Hkv as [->|Hkv]; [simpl in Hne; contradiction|].
    apply IH; [exact Hnd| |exact Hkv].
    intros kv1 kv2 H1 H2. apply Hkeys; right; assumption.
Qed.
(** *** The builder's loop *)

Section Builder.
(** Equality of points is an equivalence on the valid points (the tuples
    that are not all zero), and the map is defined on classes. *)
Variable valid : Point -> Prop.
Hypothesis point_eq_refl : forall a, valid a -> a ≈ a.
Hypothesis point_eq_sym : forall a b, valid a -> valid b -> a ≈ b -> b ≈ a.
Hypothesis point_eq_trans : forall a b c,
  valid a -> valid b -> valid c -> a ≈ b -> b ≈ c -> a ≈ c.
Hypothesis image_valid : forall a Q,
  valid a -> normalized_image a = Ok Q -> valid Q.
Hypothesis image_respects : forall a b Qb,
  valid a -> valid b -> a ≈ b -> normalized_image b = Ok Qb ->
  exists Qa, normalized_image a = Ok Qa /\ Qa ≈ Qb.

Abbreviation intern := (intern point_eq).

Lemma intern_spec D x :
  Forall valid D -> distinct_classes D -> valid x ->
  (intern D x).1 ∈ (intern D x).2 /\ (intern D x).1 ≈ x /\
  Forall valid (intern D x).2 /\ distinct_classes (intern D x).2 /\
  D ⊆ (intern D x).2 /\
  forall d, d ∈ (intern D x).2 -> d ∈ D \/ d = x.
Proof.
  intros Hval HD Hx. unfold intern.
  destruct (index point_eq D x) as [i|] eqn:Hi.
  - destruct (index_Some _ _ _ Hi) as (d & Hd & Hdx). rewrite Hd. simpl.
    repeat split; auto. eapply list_elem_of_lookup_2; eauto.
  - simpl. repeat split.
    + apply elem_of_app. right. left.
    + apply point_eq_refl, Hx.
    + apply Forall_app. split; [exact Hval|]. constructor; [exact Hx|constructor].
    + apply distinct_classes_snoc; [exact HD|]. intros d Hd.
      pose proof (index_None _ _ Hi d Hd) as E. split; [exact E|].
      destruct (point_eq x d) eqn:E'; [|reflexivity].
      rewrite Forall_forall in Hval.
      rewrite (point_eq_sym x d Hx (Hval d Hd) E') in E. discriminate.
    + intros d Hd. apply elem_of_app. auto.
    + intros d Hd. apply elem_of_app in Hd as [Hd|Hd]; [auto|].
      apply list_elem_of_singleton in Hd. auto.
Qed.

Lemma builder_step_intern st val :
  builder_step point_eq call normalize_coordinates st val
  = do Q <- normalized_image val;
    Ok {| bV := bV st ++ [(intern (bD st) val).1];
          bE := bE st ++ [[(intern (intern (bD st) val).2 Q).1]];
          bD := (intern (intern (bD st) val).2 Q).2 |}.
Proof.
  unfold builder_step, normalized_image, intern.
  destruct (index point_eq (bD st) val); simpl;
    (destruct (call val) as [Q0|e]; simpl; [|reflexivity]);
    (destruct (normalize_coordinates Q0) as [Q|e]; simpl; [|reflexivity]).
  - destruct (index point_eq (bD st) Q); reflexivity.
  - destruct (index point_eq (bD st ++ [val]) Q); reflexivity.
Qed.

Abbreviation builder_inv :=
  (builder_inv point_eq call normalize_coordinates valid).

Lemma builder_step_inv preper st done val Q w :
  builder_inv preper st done ->
  Forall valid preper ->
  val ∈ preper -> normalized_image val = Ok Q -> w ∈ preper -> Q ≈ w ->
  exists st',
    builder_step point_eq call normalize_coordinates st val = Ok st' /\
    builder_inv preper st' (done ++ [val]).
Proof.
  intros (HvalD & HD & Hlen & Hkv & Hdone & Hcls) Hpre Hval HQ Hw HQw.
  rewrite Forall_forall in Hpre.
  assert (Hv : valid val) by auto.
  assert (HvQ : valid Q) by (eapply image_valid; eauto).
  rewrite builder_step_intern, HQ. cbn [rbind]. eexists. split; [reflexivity|].
  destruct (intern_spec (bD st) val HvalD HD Hv)
    as (Hin1 & Heq1 & Hval1 & HD1 & Hsub1 & Hfrom1).
  set (v1 := (intern (bD st) val).1) in *.
  set (D1 := (intern (bD st) val).2) in *.
  destruct (intern_spec D1 Q Hval1 HD1 HvQ)
    as (Hin2 & Heq2 & Hval2 & HD2 & Hsub2 & Hfrom2).
  set (w2 := (intern D1 Q).1) in *.
  set (D2 := (intern D1 Q).2) in *.
  assert (Hvalid2 : forall d, d ∈ D2 -> valid d)
    by (apply Forall_forall; exact Hval2).
  unfold builder_inv. cbn [bV bE bD].
  rewrite (zip_snoc _ _ _ _ Hlen).
  split; [exact Hval2|]. split; [exact HD2|].
  split; [rewrite !length_app; simpl; lia|].
  split; [|split].
  - intros kv Hin. apply elem_of_app in Hin as [Hin|Hin].
    + destruct (Hkv kv Hin) as (Hk & w' & Q' & Hw' & Hw'D & Himg & Hw'Q).
      split; [auto|]. exists w', Q'. auto.
    + apply list_elem_of_singleton in Hin. subst kv. cbn [fst snd].
      split; [auto|].
      assert (Hv1 : valid v1) by apply Hvalid2, Hsub2, Hin1.
      destruct (image_respects v1 val Q Hv1 Hv Heq1 HQ) as (Qv & HQv & HQvQ).
      assert (HvQv : valid Qv) by (eapply image_valid; eauto).
      exists w2, Qv. split; [reflexivity|]. split; [exact Hin2|].
      split; [exact HQv|].
      apply (point_eq_trans w2 Q Qv); auto.
  - intros x Hx. apply elem_of_app in Hx as [Hx|Hx].
    + destruct (Hdone x Hx) as (kv & Hin & Heq). exists kv.
      split; [apply elem_of_app; auto|exact Heq].
    + apply list_elem_of_singleton in Hx. subst x. exists (v1, [w2]).
      split; [apply elem_of_app; right; left|exact Heq1].
  - intros d Hd. destruct (Hfrom2 d Hd) as [Hd1| ->].
    + destruct (Hfrom1 d Hd1) as [Hd0| ->]; [auto|].
      exists val. split; [exact Hval|apply point_eq_refl, Hv].
    + exists w. auto.
Qed.

Abbreviation complete :=
  (complete point_eq call normalize_coordinates).

Lemma builder_loop_inv preper rest : forall st done,
  builder_inv preper st done ->
  Forall valid preper -> complete preper -> rest ⊆ preper ->
  exists st',
    builder_loop point_eq call normalize_coordinates st rest = Ok st' /\
    builder_inv preper st' (done ++ rest).
Proof.
  induction rest as [|val rest IH]; intros st done Hinv Hpre Hcomp Hsub.
  - exists st. rewrite app_nil_r. auto.
  - assert (Hval : val ∈ preper) by (apply Hsub; left).
    destruct (Hcomp val Hval) as (Q & w & HQ & Hw & HQw).
    destruct (builder_step_inv preper st done val Q w Hinv Hpre Hval HQ Hw HQw)
      as (st1 & Hstep & Hinv1).
    destruct (IH st1 (done ++ [val]) Hinv1 Hpre Hcomp) as (st' & Hloop & Hinv').
    { intros x Hx. apply Hsub. right. exact Hx. }
    exists st'. cbn [builder_loop]. rewrite Hstep. cbn [rbind].
    split; [exact Hloop|]. rewrite <- app_assoc in Hinv'. exact Hinv'.
Qed.
(** C9.  On a complete list of valid points the builder returns a graph
    whose vertices are pairwise unequal points, one for each class of equal
    listed points and no others, and exactly one edge leaves each vertex: it
    goes to the vertex equal to the normalised image of its source, which
    may be the source itself. *)
Theorem preperiodic_cyclegraph_vertex_per_class_one_out_edge preper :
  Forall valid preper -> complete preper ->
  exists g,
    _preperiodic_points_to_cyclegraph point_eq call normalize_coordinates preper
      = Ok g /\
    distinct_classes (vertices g) /\
    (forall val, val ∈ preper -> exists v, v ∈ vertices g /\ v ≈ val) /\
    (forall v, v ∈ vertices g -> exists val, val ∈ preper /\ v ≈ val) /\
    (forall v, v ∈ vertices g ->
       exists w Q,
         filter (fun e => e.1 ≈ v) (edges g) = [(v, w)] /\
         w ∈ vertices g /\ normalized_image v = Ok Q /\ w ≈ Q).
Proof.
  intros Hpre Hcomp.
  destruct (builder_loop_inv preper preper {| bV := []; bE := []; bD := [] |} [])
    as (st & Hloop & HvalD & HD & Hlen & Hkv & Hdone & Hcls); auto.
  { unfold builder_inv. simpl. split; [constructor|].
    split; [intros i j a b Hi; discriminate|]. split; [reflexivity|].
    split; [intros kv Hin; inversion Hin|].
    split; intros x Hin; inversion Hin. }
  simpl in Hdone.
  unfold _preperiodic_points_to_cyclegraph. rewrite Hloop. cbn [rbind].
  eexists. split; [reflexivity|].
  set (kvs := zip (bV st) (bE st)) in *.
  assert (HvD : forall d, d ∈ bD st -> valid d)
    by (apply Forall_forall; exact HvalD).
  assert (HvP : forall x, x ∈ preper -> valid x)
    by (apply Forall_forall; exact Hpre).
  assert (HreflD : forall d, d ∈ bD st -> d ≈ d) by auto.
  (* equal keys are one key with one value *)
  assert (Hcons : forall kv1 kv2,
             kv1 ∈ kvs -> kv2 ∈ kvs -> kv1.1 ≈ kv2.1 -> kv1 = kv2).
  { intros [k1 e1] [k2 e2] H1 H2 Heq.
    destruct (Hkv _ H1) as (Hk1 & w1 & Q1 & He1 & Hw1 & HQ1 & HwQ1).
    destruct (Hkv _ H2) as (Hk2 & w2 & Q2 & He2 & Hw2 & HQ2 & HwQ2).
    simpl in *.
    assert (k1 = k2) by (eapply distinct_classes_eq; eauto). subst k2.
    assert (Q1 = Q2) by congruence. subst Q2.
    assert (HvQ : valid Q1) by exact (image_valid k1 Q1 (HvD _ Hk1) HQ1).
    assert (w1 = w2).
    { apply (distinct_classes_eq (bD st)); auto.
      apply (point_eq_trans w1 Q1 w2); auto. }
    congruence. }
  destruct (dict_of_pairs_spec kvs) as [Hnd Hmem]; [|exact Hcons|].
  { intros kv Hin. apply HreflD, (Hkv kv Hin). }
  set (d := dict_of_pairs point_eq kvs) in *.
  assert (HinD : entries_in (bD st) d).
  { intros kv Hin. apply Hmem in Hin.
    destruct (Hkv kv Hin) as (Hk & w & Q & He & Hw & _). eauto. }
  destruct (vertices_fold (bD st) d HD HreflD HinD [] (NoDup_nil_2))
    as (Hndv & Hsubv & Hmemv); [intros x Hx; inversion Hx|].
  unfold DiGraph_of_dict. cbn [vertices edges].
  set (vs := fold_left _ d []) in *.
  assert (Hvs : distinct_classes vs)
    by (eapply distinct_classes_sub; eauto).
  assert (Hreflv : forall x, x ∈ vs -> x ≈ x) by auto.
  assert (Hinv : entries_in vs d).
  { intros kv Hin. destruct (HinD kv Hin) as (_ & w & He & _). split.
    - apply Hmemv. right. exists kv. auto.
    - exists w. split; [exact He|]. apply Hmemv. right. exists kv.
      split; [exact Hin|]. right. rewrite He. left. }
  assert (Hkeys : forall kv1 kv2, kv1 ∈ d -> kv2 ∈ d -> kv1.1 ≈ kv2.1 ->
                  kv1 = kv2).
  { intros kv1 kv2 H1 H2. apply Hcons; apply Hmem; assumption. }
  pose proof (edges_fold vs d [] Hvs Hreflv Hinv Hnd Hkeys) as Hes.
  change (edge_of <$> []) with (@nil (Point * Point)) in Hes.
  change ([] ++ d) with d in Hes. rewrite Hes. clear Hes.
  (* every point of D is a key *)
  assert (Hkey : forall x, x ∈ bD st -> exists kv, kv ∈ d /\ kv.1 = x).
  { intros x Hx. destruct (Hcls x Hx) as (val & Hval & Hxval).
    destruct (Hdone val Hval) as (kv & Hin & Heq).
    exists kv. split; [apply Hmem, Hin|].
    destruct (Hkv kv Hin) as (Hk & _).
    apply (distinct_classes_eq (bD st)); auto.
    apply (point_eq_trans kv.1 val x); auto. }
  split; [exact Hvs|]. split; [|split].
  - intros val Hval. destruct (Hdone val Hval) as (kv & Hin & Heq).
    exists kv.1. split; [|exact Heq].
    apply Hmemv. right. exists kv. split; [apply Hmem, Hin|auto].
  - intros v Hv. apply Hcls, Hsubv, Hv.
  - intros v Hv. destruct (Hkey v (Hsubv v Hv)) as (kv & Hin & <-).
    destruct (Hkv kv (proj1 (Hmem kv) Hin))
      as (Hk & w & Q & He & Hw & HQ & HwQ).
    exists w, Q. split; [|split; [|auto]].
    + rewrite (out_edges_one d kv Hnd Hkeys Hin (HreflD _ Hk)).
      unfold edge_of. rewrite He. reflexivity.
    + destruct (Hinv kv Hin) as (_ & w' & He' & Hw').
      rewrite He in He'. injection He' as <-. exact Hw'.
Qed.
End Builder.

(** *** [cyclegraph] *)

Abbreviation recorded_neighbours :=
  (recorded_neighbours call normalize_coordinates).

Lemma cyclegraph_loop_spec points : forall V E,
  (forall P e, P ∈ points -> normalized_image P = Raise e ->
     exists msg, e = ValueError msg) ->
  exists E',
    cyclegraph_loop call normalize_coordinates points V E
      = Ok (V ++ points, E ++ E') /\
    Forall2 recorded_neighbours points E'.
Proof.
  induction points as [|P points IH]; intros V E Honly.
  - exists []. rewrite !app_nil_r. split; [reflexivity|constructor].
  - cbn [cyclegraph_loop]. fold (normalized_image P).
    assert (Hrest : forall P' e, P' ∈ points ->
              normalized_image P' = Raise e -> exists msg, e = ValueError msg).
    { intros P' e HP'. apply Honly. right. exact HP'. }
    destruct (normalized_image P) as [Q|e] eqn:HP.
    + destruct (IH (V ++ [P]) (E ++ [[Q]]) Hrest) as (E' & -> & Hall).
      exists ([Q] :: E'). rewrite <- !app_assoc. split; [reflexivity|].
      constructor; [|exact Hall]. unfold recorded_neighbours. rewrite HP.
      reflexivity.
    + destruct (Honly P e ltac:(left) HP) as [msg ->].
      destruct (IH (V ++ [P]) (E ++ [[]]) Hrest) as (E' & -> & Hall).
      exists ([] :: E'). rewrite <- !app_assoc. split; [reflexivity|].
      constructor; [|exact Hall]. unfold recorded_neighbours. rewrite HP.
      reflexivity.
Qed.

(** C8, as the code has it.  Where evaluating the map raises only the
    [ValueError] of an indeterminacy, [cyclegraph] raises nothing: it
    returns the graph of the dictionary that gives every point of the domain
    its normalised image as only neighbour, and no neighbour at all where
    the image is not defined. *)
Theorem cyclegraph_catches_indeterminacy points :
  (forall P e, P ∈ points -> normalized_image P = Raise e ->
     exists msg, e = ValueError msg) ->
  exists E,
    cyclegraph point_eq call normalize_coordinates points
      = Ok (DiGraph_of_dict point_eq (dict_of_pairs point_eq (zip points E))) /\
    Forall2 recorded_neighbours points E.
Proof.
  intros Honly. unfold cyclegraph.
  destruct (cyclegraph_loop_spec points [] [] Honly) as (E & -> & Hall).
  exists E. split; [reflexivity|exact Hall].
Qed.
End GraphFacts.

Lemma cyclegraph_catches_indeterminacy_witness :
  exists E,
    cyclegraph_GF 3 bad_reduction_example_mod_3
      = Ok (DiGraph_of_dict (point_eq_mod 3)
              (dict_of_pairs (point_eq_mod 3)
                 (zip (points_of_projective_space 3 1) E))) /\
    E = [[]; [[1; 1]]; [[2; 1]]; [[1; 0]]].
Proof.
  destruct (cyclegraph_catches_indeterminacy (point_eq_mod 3)
              (fun P => call_GF 3 bad_reduction_example_mod_3 P true)
              (normalize_coordinates_GF 3) (points_of_projective_space 3 1))
    as (E & Hg & Hall).
  - intros P e HP.
    change (points_of_projective_space 3 1)
      with [[0; 1]; [1; 1]; [2; 1]; [1; 0]] in HP.
    repeat (apply elem_of_cons in HP as [->|HP]);
      [vm_compute; intros [= <-]; eauto .. | inversion HP].
  - exists E. split; [exact Hg|].
    change (points_of_projective_space 3 1)
      with [[0; 1]; [1; 1]; [2; 1]; [1; 0]] in Hall.
    repeat match goal with
           | H : Forall2 _ (_ :: _) _ |- _ =>
               apply Forall2_cons_inv_l in H as (? & ? & ? & H & ->)
           | H : Forall2 _ [] _ |- _ => apply Forall2_nil_inv_l in H as ->
           end.
    repeat match goal with
           | H : recorded_neighbours _ _ _ _ |- _ =>
               vm_compute in H; subst
           end.
    reflexivity.
Defined.

(** At the bad prime the reduction is not defined at [(0 : 1)], and
    [cyclegraph] still returns a digraph: the vertex [(0 : 1)] is there and
    no edge leaves it. *)
Lemma cyclegraph_at_bad_prime_returns_graph :
  change_ring_mod bad_reduction_example 3 = Ok bad_reduction_example_mod_3 /\
  call_GF 3 bad_reduction_example_mod_3 [0; 1] true
  = Raise (ValueError "does not define a valid point since all entries are 0") /\
  cyclegraph_GF 3 bad_reduction_example_mod_3
  = Ok {| vertices := [[0; 1]; [1; 1]; [2; 1]; [1; 0]];
          edges := [([1; 1], [1; 1]); ([2; 1], [2; 1]); ([1; 0], [1; 0])] |}.
Proof. repeat split; by_evaluation. Qed.

(** ** Homogeneous systems are defined on projective points *)

Lemma Qc_eqb_true (a b : Qc) : Qc_eqb a b = true <-> a = b.
Proof. unfold Qc_eqb. apply bool_decide_eq_true. Qed.

Lemma Qc_eqb_false (a b : Qc) : Qc_eqb a b = false <-> a <> b.
Proof. unfold Qc_eqb. apply bool_decide_eq_false. Qed.

Lemma Qcpower_mul_distr (a b : Qc) (n : nat) :
  ((a * b) ^ n = a ^ n * b ^ n)%Qc.
Proof. induction n as [|n IH]; cbn [Qcpower]; [ring|rewrite IH; ring]. Qed.

Lemma Qcpower_add (a : Qc) (n m : nat) : (a ^ (n + m) = a ^ n * a ^ m)%Qc.
Proof.
  induction n as [|n IH]; cbn [Nat.add Qcpower]; [ring|rewrite IH; ring].
Qed.

Lemma Qcpower_nonzero (a : Qc) (n : nat) : a <> 0%Qc -> (a ^ n)%Qc <> 0%Qc.
Proof.
  intros Ha. induction n as [|n IH]; cbn [Qcpower]; [discriminate|].
  intros H. apply Qcmult_integral in H as [H|H]; contradiction.
Qed.

Lemma eval_monomial_scale lam e : forall x,
  (length e <= length x)%nat ->
  eval_monomial_QQ e (scale lam x)
  = (lam ^ sum_list e * eval_monomial_QQ e x)%Qc.
Proof.
  induction e as [|n e IH]; intros x Hlen.
  - cbn [eval_monomial_QQ sum_list sum_list_with Qcpower]. ring.
  - destruct x as [|xi x]; [simpl in Hlen; lia|].
    cbn [scale fmap list_fmap eval_monomial_QQ sum_list sum_list_with].
    fold (scale lam x). rewrite IH by (simpl in Hlen; lia).
    rewrite Qcpower_mul_distr, Qcpower_add. unfold Datatypes.id.
    generalize (xi ^ n)%Qc (lam ^ n)%Qc (lam ^ sum_list e)%Qc
      (eval_monomial_QQ e x).
    intros; ring.
Qed.

Lemma eval_polynomial_scale lam d n (f : polynomial Qc) x :
  forallb (fun t : Qc * list nat =>
             Nat.eqb (length t.2) n && Nat.eqb (sum_list t.2) d) f = true ->
  length x = n ->
  eval_polynomial_QQ f (scale lam x) = (lam ^ d * eval_polynomial_QQ f x)%Qc.
Proof.
  intros Hf Hx. induction f as [|t f IH].
  { unfold eval_polynomial_QQ. cbn [fold_right]. ring. }
  cbn [forallb] in Hf. apply andb_true_iff in Hf as [Ht Hf].
  apply andb_true_iff in Ht as [Hlen Hdeg].
  apply Nat.eqb_eq in Hlen, Hdeg.
  unfold eval_polynomial_QQ in *. cbn [fold_right]. rewrite (IH Hf).
  rewrite eval_monomial_scale by lia. rewrite Hdeg. ring.
Qed.

Lemma last_index_from_fmap {A : Type} (keep : A -> bool) (f : A -> A) l :
  (forall x, keep (f x) = keep x) ->
  forall i, last_index_from keep (f <$> l) i = last_index_from keep l i.
Proof.
  intros Hf. induction l as [|x l IH]; intros i; [reflexivity|].
  cbn [fmap list_fmap last_index_from]. fold (f <$> l).
  rewrite IH, Hf. reflexivity.
Qed.

Lemma last_index_from_Some {A : Type} (keep : A -> bool) l : forall i j,
  last_index_from keep l i = Some j ->
  (i <= j)%nat /\ exists x, l !! (j - i)%nat = Some x /\ keep x = true.
Proof.
  induction l as [|x l IH]; intros i j H; [discriminate|].
  cbn [last_index_from] in H.
  destruct (last_index_from keep l (S i)) as [j'|] eqn:E.
  - injection H as <-. destruct (IH _ _ E) as (Hle & y & Hy & Hk).
    split; [lia|]. exists y. split; [|exact Hk].
    replace (j' - i)%nat with (S (j' - S i)) by lia. exact Hy.
  - destruct (keep x) eqn:Hk; [|discriminate]. injection H as <-.
    split; [lia|]. exists x. rewrite Nat.sub_diag. auto.
Qed.

Lemma last_index_from_None {A : Type} (keep : A -> bool) l : forall i,
  last_index_from keep l i = None -> forall x, x ∈ l -> keep x = false.
Proof.
  induction l as [|y l IH]; intros i H x Hx; [inversion Hx|].
  cbn [last_index_from] in H.
  destruct (last_index_from keep l (S i)) eqn:E; [discriminate|].
  destruct (keep y) eqn:Hk; [discriminate|].
  apply elem_of_cons in Hx as [->|Hx]; [exact Hk|eapply IH; eauto].
Qed.

(** The checked constructor sees a point, not its coordinates. *)
Lemma point_QQ_scale lam v :
  lam <> 0%Qc -> point_QQ (scale lam v) true = point_QQ v true.
Proof.
  intros Hlam. unfold point_QQ, last_index.
  assert (Hkeep : forall x : Qc,
            negb (Qc_eqb (x * lam) 0%Qc) = negb (Qc_eqb x 0%Qc)).
  { intros x. f_equal. destruct (Qc_eqb x 0%Qc) eqn:E.
    - apply Qc_eqb_true in E. subst x. apply Qc_eqb_true. ring.
    - apply Qc_eqb_false in E. apply Qc_eqb_false. intros H.
      apply Qcmult_integral in H as [H|H]; contradiction. }
  unfold scale at 1.
  rewrite (last_index_from_fmap _ (fun u => (u * lam)%Qc) v Hkeep).
  destruct (last_index_from _ v 0) as [last|] eqn:E; [|reflexivity].
  destruct (last_index_from_Some _ _ _ _ E) as (_ & c & Hc & Hnz).
  rewrite Nat.sub_0_r in Hc. apply negb_true_iff, Qc_eqb_false in Hnz.
  f_equal. unfold scale. rewrite list_lookup_fmap, Hc. simpl.
  rewrite <- list_fmap_compose. apply list_fmap_ext. intros _ u _. simpl.
  field. split; assumption.
Qed.

Lemma call_QQ_scale F d lam x :
  is_homogeneous F d = true -> length x = length F -> lam <> 0%Qc ->
  call_QQ F (scale lam x) true = call_QQ F x true.
Proof.
  intros HF Hx Hlam. unfold call_QQ.
  replace ((fun f => eval_polynomial_QQ f (scale lam x)) <$> F)
    with (scale (lam ^ d) ((fun f => eval_polynomial_QQ f x) <$> F)).
  - apply point_QQ_scale, Qcpower_nonzero, Hlam.
  - unfold scale at 1. rewrite <- list_fmap_compose.
    apply list_fmap_ext. intros i f Hf. cbn [compose].
    unfold is_homogeneous in HF. rewrite forallb_forall in HF.
    rewrite (eval_polynomial_scale lam d (length F) f x); [ring| |exact Hx].
    apply HF, list_elem_of_In. eapply list_elem_of_lookup_2, Hf.
Qed.

Lemma point_eq_QQ_cross a : forall b i j x y x' y',
  point_eq_QQ a b = true -> (i < j)%nat ->
  a !! i = Some x -> b !! i = Some y ->
  a !! j = Some x' -> b !! j = Some y' ->
  (x * y' = x' * y)%Qc.
Proof.
  induction a as [|ai a IH]; intros b i j x y x' y' Heq Hij Hi Hi' Hj Hj';
    [discriminate|].
  destruct b as [|bi b]; [discriminate|].
  cbn [point_eq_QQ] in Heq. apply andb_true_iff in Heq as [Hrow Hrest].
  destruct j as [|j]; [lia|]. destruct i as [|i].
  - injection Hi as <-. injection Hi' as <-. simpl in Hj, Hj'.
    rewrite forallb_forall in Hrow.
    assert (Hin : In (x', y') (zip a b)).
    { apply list_elem_of_In, list_elem_of_lookup. exists j.
      apply lookup_zip_with_Some. eauto. }
    specialize (Hrow _ Hin). apply Qc_eqb_true in Hrow. exact Hrow.
  - simpl in Hi, Hi', Hj, Hj'. apply (IH b i j); auto. lia.
Qed.

Lemma point_eq_QQ_cross_all a b i j x y x' y' :
  point_eq_QQ a b = true ->
  a !! i = Some x -> b !! i = Some y ->
  a !! j = Some x' -> b !! j = Some y' ->
  (x * y' = x' * y)%Qc.
Proof.
  intros Heq Hi Hi' Hj Hj'.
  destruct (lt_eq_lt_dec i j) as [[Hlt| ->]|Hgt].
  - eapply point_eq_QQ_cross; eauto.
  - assert (x = x') by congruence. assert (y = y') by congruence.
    subst. ring.
  - symmetry. eapply point_eq_QQ_cross; eauto.
Qed.

Lemma point_eq_QQ_refl a : point_eq_QQ a a = true.
Proof.
  induction a as [|ai a IH]; [reflexivity|].
  cbn [point_eq_QQ]. rewrite IH, andb_true_r.
  apply forallb_forall. intros [u v] Hin.
  apply list_elem_of_In, list_elem_of_lookup in Hin as [j Hj].
  apply lookup_zip_with_Some in Hj as (u' & v' & Heq & Hu & Hv).
  assert (u' = v') by congruence. subst v'. injection Heq as -> ->.
  apply Qc_eqb_true. cbn [fst snd]. ring.
Qed.

(** Points with equal cross products are multiples of each other. *)
Lemma point_eq_QQ_proportional a b :
  length a = length b -> nonzero_point a -> nonzero_point b ->
  point_eq_QQ a b = true ->
  exists lam, lam <> 0%Qc /\ a = scale lam b.
Proof.
  intros Hlen (j1 & x1 & Hx1 & Hx1nz) (i0 & y0 & Hy0 & Hy0nz) Heq.
  destruct (lookup_lt_is_Some_2 a i0) as [x0 Hx0].
  { rewrite Hlen. eapply lookup_lt_Some, Hy0. }
  destruct (lookup_lt_is_Some_2 b j1) as [y1 Hy1].
  { rewrite <- Hlen. eapply lookup_lt_Some, Hx1. }
  assert (Hx0nz : x0 <> 0%Qc).
  { intros ->.
    pose proof (point_eq_QQ_cross_all a b i0 j1 _ _ _ _ Heq Hx0 Hy0 Hx1 Hy1)
      as Hc.
    assert (Hz : (x1 * y0 = 0)%Qc) by (rewrite <- Hc; ring).
    apply Qcmult_integral in Hz as [Hz|Hz]; contradiction. }
  exists (x0 / y0)%Qc. split.
  - intros Hz. apply Hx0nz.
    replace x0 with (x0 / y0 * y0)%Qc by (field; exact Hy0nz).
    rewrite Hz. ring.
  - apply list_eq. intros j. unfold scale. rewrite list_lookup_fmap.
    destruct (a !! j) as [x|] eqn:Hx.
    + destruct (lookup_lt_is_Some_2 b j) as [y Hy].
      { rewrite <- Hlen. eapply lookup_lt_Some, Hx. }
      rewrite Hy. simpl. f_equal.
      pose proof (point_eq_QQ_cross_all a b i0 j _ _ _ _ Heq Hx0 Hy0 Hx Hy)
        as Hc.
      replace x with (x * y0 / y0)%Qc by (field; exact Hy0nz).
      rewrite <- Hc. field. exact Hy0nz.
    + apply lookup_ge_None in Hx. rewrite Hlen in Hx.
      apply lookup_ge_None in Hx. rewrite Hx. reflexivity.
Qed.

Lemma zero_or_nonzero (x : list Qc) :
  Forall (fun c => c = 0%Qc) x \/ nonzero_point x.
Proof.
  induction x as [|c x [IH|(i & y & Hy & Hnz)]].
  - left. constructor.
  - destruct (decide (c = 0%Qc)) as [->|Hc].
    + left. constructor; [reflexivity|exact IH].
    + right. exists O, c. auto.
  - right. exists (S i), y. auto.
Qed.

Lemma eval_monomial_zero e : forall x,
  length e = length x -> Forall (fun c => c = 0%Qc) x -> sum_list e <> O ->
  eval_monomial_QQ e x = 0%Qc.
Proof.
  induction e as [|n e IH]; intros x Hlen Hx Hsum; [contradiction|].
  destruct x as [|c x]; [discriminate|].
  apply Forall_cons_1 in Hx as [-> Hx]. cbn [eval_monomial_QQ].
  destruct n as [|n].
  - rewrite IH; [ring|simpl in Hlen; lia|exact Hx|exact Hsum].
  - cbn [Qcpower]. ring.
Qed.

Lemma eval_polynomial_zero d n (f : polynomial Qc) x :
  forallb (fun t : Qc * list nat =>
             Nat.eqb (length t.2) n && Nat.eqb (sum_list t.2) d) f = true ->
  length x = n -> d <> O -> Forall (fun c => c = 0%Qc) x ->
  eval_polynomial_QQ f x = 0%Qc.
Proof.
  intros Hf Hx Hd Hzero. induction f as [|t f IH]; [reflexivity|].
  cbn [forallb] in Hf. apply andb_true_iff in Hf as [Ht Hf].
  apply andb_true_iff in Ht as [Hlen Hdeg]. apply Nat.eqb_eq in Hlen, Hdeg.
  unfold eval_polynomial_QQ in *. cbn [fold_right]. rewrite (IH Hf).
  rewrite eval_monomial_zero; [ring|lia|exact Hzero|lia].
Qed.

(** A form of positive degree vanishes at the tuple of zeros, which the
    checked evaluation refuses. *)
Lemma call_QQ_defined_nonzero F d x R :
  is_homogeneous F d = true -> d <> O -> length x = length F ->
  call_QQ F x true = Ok R -> nonzero_point x.
Proof.
  intros HF Hd Hx Hcall.
  destruct (zero_or_nonzero x) as [Hzero|Hnz]; [exfalso|exact Hnz].
  unfold call_QQ, point_QQ in Hcall.
  destruct (last_index _ _) as [last|] eqn:E; [|discriminate].
  destruct (last_index_from_Some _ _ _ _ E) as (_ & c & Hc & Hnz).
  apply list_lookup_fmap_Some_1 in Hc as (f & -> & Hf).
  apply negb_true_iff, Qc_eqb_false in Hnz. apply Hnz.
  apply (eval_polynomial_zero d (length F)); auto.
  unfold is_homogeneous in HF. rewrite forallb_forall in HF.
  apply HF, list_elem_of_In. eapply list_elem_of_lookup_2, Hf.
Qed.

(** A checked image is a point of the space. *)
Lemma call_QQ_image F x R :
  call_QQ F x true = Ok R -> length R = length F /\ nonzero_point R.
Proof.
  unfold call_QQ, point_QQ. intros Hcall.
  destruct (last_index _ _) as [last|] eqn:E; [|discriminate].
  destruct (last_index_from_Some _ _ _ _ E) as (_ & c & Hc & Hnz).
  rewrite Nat.sub_0_r in Hc. apply negb_true_iff, Qc_eqb_false in Hnz.
  injection Hcall as <-. split; [rewrite !length_fmap; reflexivity|].
  exists last, 1%Qc. split; [|discriminate].
  rewrite list_lookup_fmap, Hc. simpl. f_equal. field. exact Hnz.
Qed.

Lemma normalize_coordinates_QQ_defined v :
  nonzero_point v -> exists Q, normalize_coordinates_QQ v = Ok Q.
Proof.
  intros (i & x & Hx & Hnz).
  unfold normalize_coordinates_QQ, last_index.
  destruct (last_index_from _ v O) as [j|] eqn:E.
  - apply last_index_from_Some in E as (_ & y & Hy & Hk).
    rewrite Nat.sub_0_r in Hy. rewrite Hy. cbn [default from_option]. unfold Datatypes.id.
    apply negb_true_iff, Qc_eqb_false in Hk.
    unfold scale_by_QQ.
    destruct (Qc_eqb (1 / y) 0) eqn:E1; [|eexists; reflexivity].
    apply Qc_eqb_true in E1. exfalso. apply Hk.
    assert (E2 : (y * (1 / y) = 1)%Qc) by (field; exact Hk).
    rewrite E1, Qcmult_0_r in E2. discriminate.
  - pose proof (last_index_from_None _ _ _ E x
                  (list_elem_of_lookup_2 _ _ _ Hx)) as Hk.
    apply negb_false_iff, Qc_eqb_true in Hk. contradiction.
Qed.

(** ** The lifter: one pass of the precision loop *)

Lemma hensel_residual_bad_spec p k N ST : forall i b,
  hensel_residual_bad p k N i ST = Ok b ->
  (b = false <->
   forall j st, ST !! j = Some st -> (i + j)%nat <> N ->
     Qc_mod (st.1 - st.2)%Qc (p ^ k) = Ok 0).
Proof.
  induction ST as [|st ST IH]; intros i b H.
  - simpl in H. injection H as <-. split; [|reflexivity].
    intros _ j st Hj. discriminate.
  - cbn [hensel_residual_bad] in H. inv_rbind H.
    destruct (negb (a =? 0) && negb (Nat.eqb i N)) eqn:E.
    + injection H as <-. split; [discriminate|]. intros Hall. exfalso.
      apply andb_true_iff in E as [E1 E2].
      apply negb_true_iff, Z.eqb_neq in E1.
      apply negb_true_iff, Nat.eqb_neq in E2.
      specialize (Hall O st eq_refl). rewrite Nat.add_0_r in Hall.
      specialize (Hall E2). congruence.
    + specialize (IH (S i) b H). rewrite IH. split.
      * intros Hall [|j] st' Hj Hne.
        -- injection Hj as <-. rewrite Nat.add_0_r in Hne.
           apply andb_false_iff in E as [E|E].
           ++ apply negb_false_iff, Z.eqb_eq in E. congruence.
           ++ apply negb_false_iff, Nat.eqb_eq in E. contradiction.
        -- apply (Hall j st' Hj). lia.
      * intros Hall j st' Hj Hne. apply (Hall (S j) st' Hj). lia.
Qed.

(** *** The shifts [xmrange([p for i in range(N)])] *)

Lemma length_bind_const {A B : Type} (f : A -> list B) (l : list A) (c : nat) :
  (forall x, x ∈ l -> length (f x) = c) ->
  length (l ≫= f) = (length l * c)%nat.
Proof.
  induction l as [|x l IH]; intros Hc; [reflexivity|].
  rewrite bind_cons, length_app, IH, (Hc x); [simpl; lia|left|].
  intros y Hy. apply Hc. right. exact Hy.
Qed.

Lemma tuples_length (q : Z) (n : nat) :
  length (tuples q n) = (Z.to_nat q ^ n)%nat.
Proof.
  induction n as [|n IH]; [reflexivity|].
  cbn [tuples]. rewrite (length_bind_const _ _ (Z.to_nat q)).
  - rewrite IH. simpl. lia.
  - intros t _. rewrite length_fmap, length_seqZ. reflexivity.
Qed.

(** There are [p^N] shifts. *)
Lemma tuples_count (p : Z) (N : nat) :
  0 <= p -> Z.of_nat (length (tuples p N)) = p ^ Z.of_nat N.
Proof.
  intros Hp. rewrite tuples_length, Nat2Z.inj_pow, Z2Nat.id by exact Hp.
  reflexivity.
Qed.

(** They are the tuples of [N] digits, *)
Lemma elem_of_tuples (q : Z) (n : nat) (s : list Z) :
  s ∈ tuples q n <-> length s = n /\ Forall (fun c => 0 <= c < q) s.
Proof.
  revert s. induction n as [|n IH]; intros s.
  - simpl. rewrite list_elem_of_singleton. split.
    + intros ->. split; [reflexivity|constructor].
    + intros [Hlen _]. destruct s; [reflexivity|discriminate].
  - cbn [tuples]. rewrite list_elem_of_bind. split.
    + intros (t & Hs & Ht). apply list_elem_of_fmap in Hs as (c & -> & Hc).
      apply IH in Ht as [Hlen Hall]. apply elem_of_seqZ in Hc.
      split; [rewrite length_app; simpl; lia|].
      apply Forall_app. split; [exact Hall|]. constructor; [lia|constructor].
    + intros [Hlen Hall].
      destruct s as [|c t _] using rev_ind; [discriminate|].
      rewrite length_app in Hlen. simpl in Hlen.
      apply Forall_app in Hall as [Ht Hc].
      apply Forall_cons_1 in Hc as [Hc _]. exists t. split.
      * apply list_elem_of_fmap. exists c. split; [reflexivity|].
        apply elem_of_seqZ. lia.
      * apply IH. split; [lia|exact Ht].
Qed.

(** each listed once. *)
Lemma tuples_NoDup (q : Z) (n : nat) : NoDup (tuples q n).
Proof.
  induction n as [|n IH]; [apply NoDup_singleton|].
  cbn [tuples]. apply NoDup_bind; [| |exact IH].
  - intros t1 t2 s _ _ H1 H2.
    apply list_elem_of_fmap in H1 as (c1 & -> & _).
    apply list_elem_of_fmap in H2 as (c2 & Heq & _).
    apply app_inj_tail in Heq as [Heq _]. exact Heq.
  - intros t _. apply NoDup_fmap_2; [|apply NoDup_seqZ].
    intros c1 c2 Heq. apply app_inj_tail in Heq as [_ Heq]. exact Heq.
Qed.

(** *** The branching step *)

Lemma result_map_Forall2 {A B : Type} (k : A -> result B) (l : list A) ys :
  result_map k l = Ok ys -> Forall2 (fun x y => k x = Ok y) l ys.
Proof.
  revert ys. induction l as [|x l IH]; intros ys H.
  - simpl in H. injection H as <-. constructor.
  - simpl in H. inv_rbind H. inv_rbind H. injection H as <-.
    constructor; [exact Ha|apply IH, Ha0].
Qed.

Lemma surviving_lifts_spec m fp n lifts survivors :
  surviving_lifts m fp n lifts = Ok survivors ->
  survivors = filter (fun newT => periodic_mod m fp n newT = Ok true) lifts /\
  Forall (fun newT => exists b, periodic_mod m fp n newT = Ok b) lifts.
Proof.
  revert survivors. induction lifts as [|newT lifts IH]; intros survivors H.
  - simpl in H. injection H as <-. split; [reflexivity|constructor].
  - cbn [surviving_lifts] in H. inv_rbind H. inv_rbind H. injection H as <-.
    destruct (IH _ Ha0) as [-> Hall]. split; [|constructor; eauto].
    rewrite filter_cons. rewrite Ha.
    destruct a; destruct (decide _) as [E|E]; try reflexivity;
      [contradiction|discriminate].
Qed.

Lemma result_map_length {A B : Type} (k : A -> result B) (l : list A) ys :
  result_map k l = Ok ys -> length ys = length l.
Proof.
  intros H. apply result_map_Forall2 in H.
  symmetry. eapply Forall2_length, H.
Qed.

Lemma shift_arity_after {A : Type} qindex (l : list A) : forall i,
  (qindex < i)%nat -> shift_arity qindex i l = length l.
Proof.
  induction l as [|x l IH]; intros i Hi; [reflexivity|].
  cbn [shift_arity length]. rewrite IH by lia.
  destruct (Nat.eqb_spec i qindex); [lia|reflexivity].
Qed.

Lemma shift_arity_within {A : Type} qindex (l : list A) : forall i,
  (i <= qindex < i + length l)%nat ->
  shift_arity qindex i l = (length l - 1)%nat.
Proof.
  induction l as [|x l IH]; intros i Hi; [simpl in Hi; lia|].
  cbn [shift_arity length]. destruct (Nat.eqb_spec i qindex) as [E|E].
  - rewrite shift_arity_after by lia. lia.
  - rewrite IH by (simpl in Hi; lia). simpl in Hi.
    destruct l; [simpl in Hi; lia|simpl; lia].
Qed.

Lemma digit_exists p pk c t :
  0 < p -> 0 < pk -> 0 <= c < p * pk -> 0 <= t < p * pk ->
  c mod pk = t mod pk ->
  exists s, 0 <= s < p /\ (t + s * pk) mod (p * pk) = c.
Proof.
  intros Hp Hpk Hc Ht Heq.
  exists ((c / pk - t / pk) mod p). split; [apply Z.mod_pos_bound; lia|].
  pose proof (Z.div_mod c pk ltac:(lia)) as Ec.
  pose proof (Z.div_mod t pk ltac:(lia)) as Et.
  pose proof (Z.div_mod (c / pk - t / pk) p ltac:(lia)) as Es.
  set (s := (c / pk - t / pk) mod p) in *.
  set (e := (c / pk - t / pk) / p) in *.
  replace (t + s * pk) with (c + (- e) * (p * pk)) by nia.
  rewrite Z.mod_add by lia. apply Z.mod_small. lia.
Qed.

Lemma digit_inj p pk t s s' :
  0 < p -> 0 < pk -> 0 <= s < p -> 0 <= s' < p ->
  (t + s * pk) mod (p * pk) = (t + s' * pk) mod (p * pk) -> s = s'.
Proof.
  intros Hp Hpk Hs Hs' Heq.
  pose proof (Z.div_mod (t + s * pk) (p * pk) ltac:(lia)) as E1.
  pose proof (Z.div_mod (t + s' * pk) (p * pk) ltac:(lia)) as E2.
  rewrite Heq in E1.
  set (a := (t + s * pk) / (p * pk)) in *.
  set (b := (t + s' * pk) / (p * pk)) in *.
  assert (E : (s - s') * pk = (a - b) * p * pk) by nia.
  assert (E' : s - s' = (a - b) * p) by nia.
  assert (a - b = 0) by nia. lia.
Qed.

Section Shift.
Variables (p k : Z) (qindex : nat).
Hypothesis Hp : 0 < p.
Hypothesis Hk : 0 <= k.

Lemma pow_next_digit : p ^ (k + 1) = p * p ^ k.
Proof. clear Hp. rewrite Z.pow_add_r by lia. lia. Qed.

Lemma pow_digit_pos : 0 < p ^ k.
Proof. apply Z.pow_pos_nonneg; lia. Qed.

Ltac pow_facts :=
  pose proof pow_next_digit as Hpow; pose proof pow_digit_pos as Hpk.

Lemma apply_shift_is_lift Tmod : forall i shift,
  Forall (fun t => 0 <= t < p ^ (k + 1)) Tmod ->
  Forall2 (fun c t => 0 <= c < p ^ (k + 1) /\ c mod p ^ k = t mod p ^ k)
    (apply_shift (p ^ (k + 1)) (p ^ k) qindex i Tmod shift) Tmod /\
  forall j, (i + j)%nat = qindex ->
    apply_shift (p ^ (k + 1)) (p ^ k) qindex i Tmod shift !! j = Tmod !! j.
Proof.
  pow_facts. induction Tmod as [|t Tmod IH]; intros i shift Hrange.
  - split; [constructor|reflexivity].
  - apply Forall_cons_1 in Hrange as [Ht Hrange].
    assert (Hdiv : (p ^ k | p ^ (k + 1))) by (exists p; lia).
    cbn [apply_shift]. destruct (Nat.eqb_spec i qindex) as [E|E].
    + destruct (IH (S i) shift Hrange) as [H1 H2].
      split; [constructor; [split; [exact Ht|reflexivity]|exact H1]|].
      intros [|j] Hj; [reflexivity|]. apply H2. lia.
    + destruct shift as [|s shift].
      * destruct (IH (S i) [] Hrange) as [H1 H2].
        split; [constructor; [split; [exact Ht|reflexivity]|exact H1]|].
        intros [|j] Hj; [lia|]. apply H2. lia.
      * destruct (IH (S i) shift Hrange) as [H1 H2].
        split.
        -- constructor; [|exact H1]. split; [apply Z.mod_pos_bound; lia|].
           rewrite (Z.mod_mod_divide _ _ _ Hdiv).
           rewrite Z.mod_add; [reflexivity|lia].
        -- intros [|j] Hj; [lia|]. apply H2. lia.
Qed.

Lemma apply_shift_complete Tmod : forall newT i,
  Forall2 (fun c t => 0 <= c < p ^ (k + 1) /\ c mod p ^ k = t mod p ^ k)
    newT Tmod ->
  (forall j, (i + j)%nat = qindex -> newT !! j = Tmod !! j) ->
  Forall (fun t => 0 <= t < p ^ (k + 1)) Tmod ->
  exists shift,
    length shift = shift_arity qindex i Tmod /\
    Forall (fun c => 0 <= c < p) shift /\
    apply_shift (p ^ (k + 1)) (p ^ k) qindex i Tmod shift = newT.
Proof.
  pow_facts. induction Tmod as [|t Tmod IH]; intros newT i Hall Hq Hrange.
  - apply Forall2_nil_inv_r in Hall as ->. exists []. repeat split. constructor.
  - apply Forall2_cons_inv_r in Hall as (c & newT' & [Hc Hmod] & Hall & ->).
    apply Forall_cons_1 in Hrange as [Ht Hrange].
    destruct (IH newT' (S i) Hall) as (shift & Hlen & Hdig & Heq);
      [intros j Hj; apply (Hq (S j)); lia|exact Hrange|].
    cbn [apply_shift shift_arity]. destruct (Nat.eqb_spec i qindex) as [E|E].
    + exists shift. split; [exact Hlen|]. split; [exact Hdig|].
      specialize (Hq O ltac:(lia)). simpl in Hq. injection Hq as ->.
      rewrite Heq. reflexivity.
    + destruct (digit_exists p (p ^ k) c t Hp Hpk) as (s & Hs & Hcs);
        [lia|lia|exact Hmod|].
      exists (s :: shift). split; [simpl; lia|].
      split; [constructor; assumption|].
      rewrite Heq, Hpow, Hcs. reflexivity.
Qed.

Lemma apply_shift_inj Tmod : forall i shift shift',
  length shift = shift_arity qindex i Tmod ->
  length shift' = shift_arity qindex i Tmod ->
  Forall (fun c => 0 <= c < p) shift ->
  Forall (fun c => 0 <= c < p) shift' ->
  apply_shift (p ^ (k + 1)) (p ^ k) qindex i Tmod shift
  = apply_shift (p ^ (k + 1)) (p ^ k) qindex i Tmod shift' ->
  shift = shift'.
Proof.
  pow_facts.
  induction Tmod as [|t Tmod IH]; intros i shift shift' Hl Hl' Hd Hd' Heq.
  - simpl in Hl, Hl'. destruct shift, shift'; try discriminate. reflexivity.
  - cbn [apply_shift shift_arity] in *.
    destruct (Nat.eqb_spec i qindex) as [E|E].
    + injection Heq as Heq. apply (IH (S i)); auto.
    + destruct shift as [|s shift]; [discriminate|].
      destruct shift' as [|s' shift']; [discriminate|].
      injection Heq as Hs Heq.
      apply Forall_cons_1 in Hd as [Hs1 Hd].
      apply Forall_cons_1 in Hd' as [Hs2 Hd'].
      rewrite Hpow in Hs.
      rewrite (digit_inj p (p ^ k) t s s' Hp Hpk Hs1 Hs2 Hs).
      f_equal. apply (IH (S i)); auto; simpl in Hl, Hl'; lia.
Qed.
End Shift.

Lemma Qc_mod_range c m r : 0 < m -> Qc_mod c m = Ok r -> 0 <= r < m.
Proof.
  intros Hm H. unfold Qc_mod in H.
  destruct (Z.gcd _ _ =? 1); [|discriminate]. injection H as <-.
  apply Z.mod_pos_bound, Hm.
Qed.

Lemma periodic_mod_spec m fp n newT b :
  periodic_mod m fp n newT = Ok b ->
  0 <= n /\
  exists TT,
    nth_image (call_mod m fp) (fun Q => Ok Q) true false (Z.to_nat n) newT
    = Ok TT /\
    b = point_eq_mod m TT newT.
Proof.
  intros H. unfold periodic_mod in H. inv_rbind H. injection H as <-.
  unfold nth_iterate_mod in Ha.
  destruct (Z_lt_le_dec n 0) as [Hn|Hn].
  - unfold nth_iterate in Ha. apply Z.ltb_lt in Hn. rewrite Hn in Ha.
    discriminate.
  - split; [exact Hn|]. rewrite nth_iterate_forward in Ha by exact Hn.
    inv_rbind Ha. inv_rbind Ha. injection Ha as <-.
    exists a0. split; [exact Ha0|reflexivity].
Qed.

(** *** Reductions of rationals modulo [p^k] *)












(** *** The Newton step *)













Section LifterSteps.
Variable precision_target : Qc -> nat -> Z -> Z.
Variable LLL : list (list Z) -> list (list Z).




(** C4.  With the determinant divisible by [p], a pass of the loop that
    raises nothing on a candidate [T] with a coordinate for each form goes
    through the branching step.  The [p^N] shifts give [p^N] different
    lifts, and these are exactly the one-digit-higher lifts of the
    candidate: the tuples of residues modulo [p^(k+1)] equal to it modulo
    [p^k] with the coordinate [qindex] unchanged.  The [n]-th image of each
    lift is computed, and the lifts kept are, in the order of the
    enumeration, exactly those whose [n]-th image modulo [p^(k+1)] is the
    lift again; the first of them is carried on at precision [k + 1] and
    the others are appended to [points] at precision [k + 1]; with none
    kept the candidate is dropped. *)
Theorem branch_step_keeps_periodic_lifts F T n p k L qindex lp ldet out :
  jacobian_minus_identity F T n p k = Ok (lp, ldet) ->
  ldet mod p = 0 ->
  0 < p -> 0 <= k ->
  length T = length F -> (qindex < length F)%nat ->
  lift_step F T n p k L qindex = Ok out ->
  exists fp Tmod lifts kept,
    change_ring_mod F (p ^ (k + 1)) = Ok fp /\
    result_map (fun c => Qc_mod c (p ^ (k + 1))) T = Ok Tmod /\
    one_digit_lifts T p k (length F - 1) qindex = Ok lifts /\
    Z.of_nat (length lifts) = p ^ Z.of_nat (length F - 1) /\
    NoDup lifts /\
    (forall newT, newT ∈ lifts <-> one_digit_lift p k qindex Tmod newT) /\
    (forall newT, newT ∈ lifts ->
       exists TT,
         nth_image (call_mod (p ^ (k + 1)) fp) (fun Q => Ok Q) true false
           (Z.to_nat n) newT = Ok TT) /\
    sublist kept lifts /\
    (forall newT, newT ∈ kept <->
       newT ∈ lifts /\ periodic_lift (p ^ (k + 1)) fp n newT) /\
    match kept with
    | [] => out = Dropped []
    | first :: others =>
        out = Advanced (qz <$> first) (k + 1)
                ((fun newT => {| cand_point := qz <$> newT;
                                 cand_period := n;
                                 cand_precision := k + 1 |}) <$> others)
    end.
Proof.
  intros Hjac Hdet Hp Hk HT0 Hq Hstep.
  unfold lift_step in Hstep. rewrite Hjac in Hstep. cbn [rbind] in Hstep.
  apply Z.eqb_eq in Hdet. rewrite Hdet in Hstep. cbn [negb] in Hstep.
  unfold branch_step in Hstep. inv_rbind Hstep. rename a into fp.
  inv_rbind Hstep. rename a into lifts. inv_rbind Hstep. rename a into newq.
  destruct (surviving_lifts_spec _ _ _ _ _ Ha1) as [-> Htests].
  pose proof (result_map_Forall2 _ _ _ Ha0) as Hlifts.
  assert (Hm : 0 < p ^ (k + 1)) by (apply Z.pow_pos_nonneg; lia).
  (* the candidate reduces modulo p^(k+1): the first shift shows it *)
  assert (Hne : tuples p (length F - 1) <> []).
  { intros Hnil. pose proof (tuples_count p (length F - 1) ltac:(lia)) as Hc.
    rewrite Hnil in Hc. simpl in Hc.
    assert (0 < p ^ Z.of_nat (length F - 1)) by (apply Z.pow_pos_nonneg; lia).
    lia. }
  assert (HT : exists Tmod,
             result_map (fun c => Qc_mod c (p ^ (k + 1))) T = Ok Tmod).
  { destruct (tuples p (length F - 1)) as [|s ss]; [contradiction|].
    apply Forall2_cons_inv_l in Hlifts as (lift & ? & Hs & _ & _).
    inv_rbind Hs. eauto. }
  destruct HT as [Tmod HT].
  assert (Heq : lifts = apply_shift (p ^ (k + 1)) (p ^ k) qindex 0 Tmod
                          <$> tuples p (length F - 1)).
  { clear -Hlifts HT. induction Hlifts as [|s lift ss lifts Hs _ IH];
      [reflexivity|].
    rewrite HT in Hs. cbn [rbind] in Hs. injection Hs as <-.
    rewrite fmap_cons, IH. reflexivity. }
  assert (HlenT : length Tmod = length F).
  { rewrite (result_map_length _ _ _ HT). exact HT0. }
  assert (Hrange : Forall (fun t => 0 <= t < p ^ (k + 1)) Tmod).
  { apply Forall_forall. intros t Ht.
    apply list_elem_of_lookup in Ht as [i Hi].
    destruct (Forall2_lookup_r _ _ _ _ _ (result_map_Forall2 _ _ _ HT) Hi)
      as (c & _ & Hc).
    exact (Qc_mod_range c _ t Hm Hc). }
  assert (Harity : shift_arity qindex 0 Tmod = (length F - 1)%nat).
  { rewrite shift_arity_within by lia. lia. }
  exists fp, Tmod, lifts,
    (filter (fun newT => periodic_mod (p ^ (k + 1)) fp n newT = Ok true) lifts).
  split; [exact Ha|]. split; [exact HT|]. split; [exact Ha0|].
  split; [rewrite Heq, length_fmap; apply tuples_count; lia|].
  split; [|split; [|split; [|split; [apply sublist_filter|split]]]].
  - rewrite Heq. apply NoDup_fmap_2_strong; [|apply tuples_NoDup].
    intros s s' Hs Hs' Hss.
    apply elem_of_tuples in Hs as [Hl Hd], Hs' as [Hl' Hd'].
    apply (apply_shift_inj p k qindex Hp Hk Tmod 0); auto; congruence.
  - intros newT. rewrite Heq, list_elem_of_fmap. split.
    + intros (s & -> & _).
      destruct (apply_shift_is_lift p k qindex Hp Hk Tmod 0 s Hrange)
        as [H1 H2].
      split; [exact H1|]. apply H2. reflexivity.
    + intros [H1 H2].
      destruct (apply_shift_complete p k qindex Hp Hk Tmod newT 0 H1)
        as (s & Hl & Hd & Hs); [intros j Hj; simpl in Hj; subst j; exact H2
                               |exact Hrange|].
      exists s. split; [symmetry; exact Hs|].
      apply elem_of_tuples. split; [congruence|exact Hd].
  - intros newT HnewT. rewrite Forall_forall in Htests.
    destruct (Htests newT HnewT) as [b Hb].
    destruct (periodic_mod_spec _ _ _ _ _ Hb) as (_ & TT & HTT & _). eauto.
  - intros newT. rewrite list_elem_of_filter. rewrite Forall_forall in Htests.
    split; intros [H1 H2].
    + split; [exact H2|].
      destruct (periodic_mod_spec _ _ _ _ _ H1) as (Hn & TT & HTT & Hb). 
      split; [exact Hn|]. exists TT. split; [exact HTT|]. symmetry. exact Hb.
    + split; [|exact H1].
      destruct (Htests newT H1) as [b Hb].
      destruct (periodic_mod_spec _ _ _ _ _ Hb) as (_ & TT & HTT & ->).
      destruct H2 as (_ & TT' & HTT' & Heq').
      rewrite Hb. f_equal. congruence.
  - destruct (filter _ lifts); injection Hstep as <-; reflexivity.
Qed.
End LifterSteps.

(** *** The docstring's systems on the projective line *)

(** The three doctests of [lift_to_rational_periodic] on the line, with
    height bounds [4] and [3]:
    [[[(0 : 1), 2]]], [[[(1 : 0), 1], [(2/3 : 1), 1], [(-2/3 : 1), 1]]] and
    [[[(-1/4 : 1), 3]]]. *)
Example lift_doctest_1 :
  lift_to_rational_periodic_line 10 lift_example_1 [([0; 1], 4)] 7 (qz 4)
  = Some (Ok [([qz 0; qz 1], 2)]).
Proof. by_evaluation. Qed.

Example lift_doctest_2 :
  lift_to_rational_periodic_line 100 lift_example_2 [([1; 0], 1)] 3 (qz 3)
  = Some (Ok [([qz 1; qz 0], 1); ([qfrac 2 3; qz 1], 1);
              ([qfrac (-2) 3; qz 1], 1)]).
Proof. by_evaluation. Qed.

Example lift_doctest_3 :
  lift_to_rational_periodic_line 10 lift_example_3 [([3; 1], 3)] 13 (qz 4)
  = Some (Ok [([qfrac (-1) 4; qz 1], 3)]).
Proof. by_evaluation. Qed.

(** The doctests of [_multipliermod]: [[3]] modulo [11], [[80]] modulo
    [11^2]. *)
Example multipliermod_doctest :
  let f := [ [(qz 1, [2; 0]%nat); (qfrac (-29) 16, [0; 2]%nat)];
             [(qz 1, [0; 2]%nat)] ] in
  _multipliermod f [qz 5; qz 4] 3 11 1 = Ok [[qz 3]] /\
  _multipliermod f [qz 5; qz 4] 3 11 2 = Ok [[qz 80]].
Proof. split; by_evaluation. Qed.



(** The point [(1 : 0)] given with period [1] modulo [5] for
    [x^2, x^2 + y^2]: the determinant [4] is a unit, the image [(1 : 1)]
    agrees with the point in the coordinate [0] and not in the last one,
    which the test leaves out: the division by [5] then has no residue and
    the pass raises. *)
Example hensel_branch_raises_on_last_coordinate :
  jacobian_minus_identity last_coordinate_example [qz 1; qz 0] 1 5 1
  = Ok ([[4]], 4) /\
  hensel_iterate last_coordinate_example [qz 1; qz 0] 1 5 1 0
  = Ok ([qz 1; qz 0], [qz 1; qz 1]) /\
  lift_step last_coordinate_example [qz 1; qz 0] 1 5 1 3 0
  = Raise ZeroDivisionError.
Proof. split; [by_evaluation|]. split; by_evaluation. Qed.

(** The point [(2 : 1 : 1)] of period [1] modulo [3] for
    [x^2 + 7*z^2, y^2, z^2]: the determinant vanishes; of the nine lifts
    modulo [9] the three with second coordinate [1] stay periodic, the
    first goes on and two candidates are appended. *)
Lemma branch_step_keeps_periodic_lifts_witness :
  exists lifts kept,
    one_digit_lifts [qz 2; qz 1; qz 1] 3 1 2 2 = Ok lifts /\
    Z.of_nat (length lifts) = 3 ^ 2 /\
    NoDup lifts /\
    sublist kept lifts /\
    match kept with
    | [] => False
    | first :: others =>
        Advanced [qz 2; qz 1; qz 1] 2
          [ {| cand_point := [qz 5; qz 1; qz 1]; cand_period := 1;
               cand_precision := 2 |};
            {| cand_point := [qz 8; qz 1; qz 1]; cand_period := 1;
               cand_precision := 2 |} ]
        = Advanced (qz <$> first) (1 + 1)
            ((fun newT => {| cand_point := qz <$> newT;
                             cand_period := 1;
                             cand_precision := 1 + 1 |}) <$> others)
    end /\
    lift_step branching_example [qz 2; qz 1; qz 1] 1 3 1 4 2
    = Ok (Advanced [qz 2; qz 1; qz 1] 2
            [ {| cand_point := [qz 5; qz 1; qz 1]; cand_period := 1;
                 cand_precision := 2 |};
              {| cand_point := [qz 8; qz 1; qz 1]; cand_period := 1;
                 cand_precision := 2 |} ]).
Proof.
  destruct (branch_step_keeps_periodic_lifts
              branching_example [qz 2; qz 1; qz 1] 1 3 1 4 2
              [[0; 0]; [0; 1]] 0
              (Advanced [qz 2; qz 1; qz 1] 2
                 [ {| cand_point := [qz 5; qz 1; qz 1]; cand_period := 1;
                      cand_precision := 2 |};
                   {| cand_point := [qz 8; qz 1; qz 1]; cand_period := 1;
                      cand_precision := 2 |} ]))
    as (fp & Tmod & lifts & kept & _ & _ & Hlifts & Hcount & Hnd & _ & _
        & Hsub & _ & Hout).
  - by_evaluation.
  - reflexivity.
  - lia.
  - lia.
  - reflexivity.
  - simpl. lia.
  - by_evaluation.
  - exists lifts, kept. split; [exact Hlifts|]. split; [exact Hcount|].
    split; [exact Hnd|]. split; [exact Hsub|]. split.
    + destruct kept; [discriminate|exact Hout].
    + by_evaluation.
Defined.

(** Of the nine lifts, six are not periodic and are left out. *)
Example branch_step_leaves_out_lifts :
  one_digit_lifts [qz 2; qz 1; qz 1] 3 1 2 2
  = Ok [[2; 1; 1]; [2; 4; 1]; [2; 7; 1]; [5; 1; 1]; [5; 4; 1]; [5; 7; 1];
        [8; 1; 1]; [8; 4; 1]; [8; 7; 1]] /\
  (do fp <- change_ring_mod branching_example (3 ^ 2);
   surviving_lifts (3 ^ 2) fp 1
     [[2; 1; 1]; [2; 4; 1]; [2; 7; 1]; [5; 1; 1]; [5; 4; 1]; [5; 7; 1];
      [8; 1; 1]; [8; 4; 1]; [8; 7; 1]])
  = Ok [[2; 1; 1]; [5; 1; 1]; [8; 1; 1]].
Proof. split; by_evaluation. Qed.

(** The point [(1 : 0)] of period [1] modulo [3] for the second system:
    the determinant vanishes, the three lifts [(1 : 0)], [(1 : 3)] and
    [(1 : 6)] all stay periodic modulo [9]; the first goes on and two
    candidates are appended. *)
Example branch_step_splits_a_candidate :
  one_digit_lifts [qz 1; qz 0] 3 1 1 0 = Ok [[1; 0]; [1; 3]; [1; 6]] /\
  lift_step lift_example_2 [qz 1; qz 0] 1 3 1 4 0
  = Ok (Advanced [qz 1; qz 0] 2
          [ {| cand_point := [qz 1; qz 3]; cand_period := 1;
               cand_precision := 2 |};
            {| cand_point := [qz 1; qz 6]; cand_period := 1;
               cand_precision := 2 |} ]).
Proof. split; by_evaluation. Qed.

(** ** The lifter: only verified points are returned *)

Lemma iterate_QQ_succ F m P :
  iterate_QQ F (S m) P = do Q <- iterate_QQ F m P; call_QQ F Q true.
Proof.
  unfold iterate_QQ. cbn [nth_image].
  destruct (nth_image _ _ _ _ m P) as [Q|e]; [|reflexivity].
  cbn [rbind]. unfold orbit_step, normalize_if.
  destruct (call_QQ F Q true); reflexivity.
Qed.

Lemma iterate_QQ_shift F m P :
  iterate_QQ F (S m) P = do Q <- call_QQ F P true; iterate_QQ F m Q.
Proof.
  induction m as [|m IH].
  - rewrite iterate_QQ_succ. unfold iterate_QQ. cbn [nth_image normalize_if rbind].
    destruct (call_QQ F P true); reflexivity.
  - rewrite iterate_QQ_succ, IH.
    destruct (call_QQ F P true) as [Q|e]; [|reflexivity].
    cbn [rbind]. rewrite iterate_QQ_succ. reflexivity.
Qed.

Lemma verify_periodic_verified F P remaining : forall k newP gp gp',
  length P = length F -> 1 <= k ->
  iterate_QQ F (Z.to_nat (k - 1)) P = Ok newP ->
  Forall (verified F) gp ->
  verify_periodic F P remaining k newP gp = Ok gp' ->
  Forall (verified F) gp'.
Proof.
  induction remaining as [|remaining IH]; intros k newP gp gp' HP Hk Hit Hgp H.
  - simpl in H. injection H as <-. exact Hgp.
  - cbn [verify_periodic] in H. inv_rbind H. rename a into newP'.
    assert (Hit' : iterate_QQ F (Z.to_nat k) P = Ok newP').
    { replace (Z.to_nat k) with (S (Z.to_nat (k - 1))) by lia.
      rewrite iterate_QQ_succ, Hit. exact Ha. }
    destruct (point_eq_QQ newP' P) eqn:Heq.
    + destruct (existsb _ gp); injection H as <-; [exact Hgp|].
      apply Forall_app. split; [exact Hgp|]. constructor; [|constructor].
      split; [exact Hk|]. exists P. auto.
    + apply (IH (k + 1) newP' gp gp'); auto; [lia|].
      replace (k + 1 - 1) with k by lia. exact Hit'.
Qed.

Section LifterVerified.
Variable precision_target : Qc -> nat -> Z -> Z.
Variable LLL : list (list Z) -> list (list Z).

Lemma reconstruct_and_verify_verified F T n p L B gp gp' :
  Forall (verified F) gp ->
  reconstruct_and_verify LLL F T n p L B gp = Ok gp' ->
  Forall (verified F) gp'.
Proof.
  intros Hgp H. unfold reconstruct_and_verify in H.
  inv_rbind H. inv_rbind H. inv_rbind H. inv_rbind H. rename a2 into Q.
  destruct (existsb _ Q); [injection H as <-; exact Hgp|].
  apply (verify_periodic_verified F (qz <$> Q) (Z.to_nat n) 1 (qz <$> Q)
           gp gp'); auto; try lia; try reflexivity.
  rewrite length_fmap, (result_map_length _ _ _ Ha2), length_seq. reflexivity.
Qed.

Lemma process_candidate_verified F q p L B gp appended gp' :
  Forall (verified F) gp ->
  process_candidate LLL F q p L B gp = Some (Ok (appended, gp')) ->
  Forall (verified F) gp'.
Proof.
  intros Hgp H. unfold process_candidate in H.
  destruct (do qindex <- last_unit_index p (cand_point q); _)
    as [[qindex T]|e]; [|discriminate].
  destruct (lift_loop _ _ _ _ _ _ _ _ _) as [[[[T'|] app]|e]|];
    try discriminate.
  - destruct (reconstruct_and_verify _ _ _ _ _ _ _ _) as [gp1|e] eqn:E;
      [|discriminate].
    cbn [rbind] in H. injection H as <- <-.
    eapply reconstruct_and_verify_verified; eauto.
  - injection H as <- <-. exact Hgp.
Qed.

Lemma lift_candidates_verified F p L B fuel : forall points gp out,
  Forall (verified F) gp ->
  lift_candidates LLL fuel F points p L B gp = Some (Ok out) ->
  Forall (verified F) out.
Proof.
  induction fuel as [|fuel IH]; intros points gp out Hgp H.
  - destruct points; [|discriminate]. injection H as <-. exact Hgp.
  - destruct points as [|q rest]; [injection H as <-; exact Hgp|].
    cbn [lift_candidates] in H.
    destruct (process_candidate LLL F q p L B gp) as [[[app gp1]|e]|] eqn:E;
      try discriminate.
    eapply IH; [|exact H]. eapply process_candidate_verified; eauto.
Qed.

(** A verified pair closes its orbit: the map is defined on classes. *)
Lemma verified_orbit_closes F d R m :
  is_homogeneous F d = true -> d <> O ->
  verified F (R, m) -> orbit_closes F R m.
Proof.
  intros HF Hd (Hm & P & HP & Hit & Heq). cbn [fst snd] in *.
  split; [exact Hm|]. exists R. split; [|apply point_eq_QQ_refl].
  destruct (Z.to_nat m) as [|m'] eqn:Em; [lia|].
  (* the first image of P is defined, so P is a point *)
  assert (HPnz : nonzero_point P).
  { rewrite iterate_QQ_shift in Hit. inv_rbind Hit.
    eapply call_QQ_defined_nonzero; eauto. }
  (* R is the last image *)
  assert (HR : length R = length F /\ nonzero_point R).
  { rewrite iterate_QQ_succ in Hit. inv_rbind Hit.
    eapply call_QQ_image; eauto. }
  destruct HR as [HRlen HRnz].
  destruct (point_eq_QQ_proportional R P) as (lam & Hlam & ->);
    auto; [congruence|].
  rewrite iterate_QQ_shift. rewrite (call_QQ_scale F d lam P HF HP Hlam).
  rewrite <- iterate_QQ_shift. exact Hit.
Qed.

(** C1.  For a system of forms of one positive degree, every pair
    [(R, m)] that [lift_to_rational_periodic] returns went through the
    exact check, [R] being the [m]-th image of a reconstructed point and
    equal to it, and closes its orbit: [m] applications of the system to
    [R], in the exact arithmetic of the rationals, give a point equal to [R]
    as a projective point. *)
Theorem lift_to_rational_periodic_returns_closed_orbits
    fuel F d points_modp p B good_points :
  is_homogeneous F d = true -> d <> O ->
  lift_to_rational_periodic precision_target LLL fuel F points_modp p B
  = Some (Ok good_points) ->
  forall R m, (R, m) ∈ good_points ->
    verified F (R, m) /\ orbit_closes F R m.
Proof.
  intros HF Hd H R m Hin.
  assert (Hall : Forall (verified F) good_points).
  { unfold lift_to_rational_periodic in H.
    destruct points_modp; [injection H as <-; constructor|].
    destruct (p =? 0); [discriminate|].
    eapply lift_candidates_verified; [|exact H]. constructor. }
  rewrite Forall_forall in Hall. specialize (Hall _ Hin).
  split; [exact Hall|]. eapply verified_orbit_closes; eauto.
Qed.
End LifterVerified.

(** The third doctest: [(-1/4 : 1)] of period [3] for
    [[16*x^2 - 29*y^2, 16*y^2]]. *)
Lemma lift_to_rational_periodic_closed_orbits_witness :
  orbit_closes lift_example_3 [qfrac (-1) 4; qz 1] 3.
Proof.
  apply (lift_to_rational_periodic_returns_closed_orbits
           precision_target_exact LLL_line 10 lift_example_3 2
           [([3; 1], 3)] 13 (qz 4) [([qfrac (-1) 4; qz 1], 3)]).
  - reflexivity.
  - discriminate.
  - exact lift_doctest_3.
  - left.
Defined.

(** ** The sieve on the line: [x^2 - 29/16 y^2, y^2] *)

Lemma p_iter_serial_perm {A B : Type} (g : A -> result B) (l : list A) :
  forall ys, result_map g l = Ok ys ->
  exists rs, p_iter_serial g l = Ok rs /\ rs ≡ₚ zip l ys.
Proof.
  unfold p_iter_serial. induction l as [|x l IH]; intros ys H.
  - injection H as <-. exists []. split; reflexivity.
  - cbn [result_map] in H. inv_rbind H. inv_rbind H. injection H as <-.
    destruct (IH a0 Ha0) as (rs & Hrs & Hperm).
    exists ((x, a) :: rs). cbn [result_map]. rewrite Ha. cbn [rbind].
    rewrite Hrs. cbn [rbind]. split; [reflexivity|].
    simpl. constructor. exact Hperm.
Qed.

Lemma possible_periods_GF_line_returns f kwds badprimes :
  workers_return change_ring_GF_line possible_periods_GF_line f kwds
    badprimes.
Proof. apply total_workers_return. Qed.

Lemma possible_periods_example_bad_primes :
  bad_primes_of primes_of_bad_reduction_quadratic possible_periods_example
    default_periods_kwds = Ok [2].
Proof. by_evaluation. Qed.

Lemma possible_periods_example_good_primes :
  good_primes_of default_periods_kwds [2] = [3; 5; 7; 11; 13; 17; 19].
Proof. vm_compute. reflexivity. Qed.

Lemma possible_periods_example_reduces :
  reduces_at_good_primes change_ring_GF_line possible_periods_example
    default_periods_kwds [2].
Proof.
  intros q Hq. rewrite possible_periods_example_good_primes in Hq.
  repeat (apply elem_of_cons in Hq as [->|Hq];
          [eexists; vm_compute; reflexivity|]).
  inversion Hq.
Qed.

(** The period sets of the reductions at the good primes up to [20]. *)
Example possible_periods_example_per_prime :
  (fun q =>
     do R <- change_ring_GF_line possible_periods_example q;
     possible_periods_GF_line R) <$> [3; 5; 7; 11; 13; 17; 19]
  = Ok <$> [ [1; 3]; [1; 3]; [1; 3]; [1; 3; 15]; [1; 2; 3; 36];
             [1; 2; 3; 16; 24]; [1; 2; 3; 6; 54] ].
Proof. vm_compute. reflexivity. Qed.

(** The docstring values of [possible_periods] over a finite field:
    [x^2 - 2 y^2, y^2] over [GF(23)] and [x^2 - y^2, y^2] over [GF(13)]. *)
Example fast_possible_periods_doctests :
  fast_possible_periods_line 23
    [ [(1, [2; 0]%nat); (21, [0; 2]%nat)]; [(1, [0; 2]%nat)] ]
  = [1; 5; 11; 22; 110] /\
  fast_possible_periods_line 13
    [ [(1, [2; 0]%nat); (12, [0; 2]%nat)]; [(1, [0; 2]%nat)] ]
  = [1; 2; 3; 36].
Proof. split; vm_compute; reflexivity. Qed.

(** C5.  For [f = (x^2 - 29/16 y^2, y^2)] on the line over [QQ] the only
    bad prime is [2], the default range holds the good primes
    [3, 5, ..., 19], and [possible_periods] returns [[1, 3]]. *)
Theorem possible_periods_example_returns_1_3 :
  primes_of_bad_reduction_quadratic possible_periods_example = Ok [2] /\
  good_primes_of default_periods_kwds [2] = [3; 5; 7; 11; 13; 17; 19] /\
  possible_periods_line possible_periods_example default_periods_kwds
  = Ok [1; 3].
Proof.
  split; [by_evaluation|]. split; [vm_compute; reflexivity|]. by_evaluation.
Qed.

(** With the range [[2, 2]] no prime is good: the call raises. *)
Example possible_periods_example_no_good_prime :
  good_primes_of {| prime_bound := Between 2 2; bad_primes := None |} [2] = []
  /\
  possible_periods_line possible_periods_example
    {| prime_bound := Between 2 2; bad_primes := None |}
  = Raise (ValueError "no primes of good reduction in that range").
Proof. split; [vm_compute; reflexivity|by_evaluation]. Qed.



Lemma possible_periods_sorted_intersection_antitone_witness :
  exists l,
    possible_periods_line possible_periods_example default_periods_kwds = Ok l
    /\ StronglySorted Z.lt l.
Proof.
  destruct (possible_periods_sorted_intersection_antitone (fun _ => true)
              primes_of_bad_reduction_quadratic change_ring_GF_line
              possible_periods_GF_line p_iter_serial
              (fun g l => p_iter_serial_perm g l)
              possible_periods_example default_periods_kwds [2])
    as (l & Hl & Hsorted & _).
  - reflexivity.
  - by_evaluation.
  - exact possible_periods_example_reduces.
  - apply possible_periods_GF_line_returns.
  - vm_compute. discriminate.
  - exists l. split; [exact Hl|exact Hsorted].
Defined.

(** ** Points over the rationals form classes the map respects *)

Lemma valid_QQb_spec F P : valid_QQb F P = true -> valid_QQ F P.
Proof.
  unfold valid_QQb, valid_QQ. intros H.
  apply andb_true_iff in H as [Hlen Hex].
  apply Nat.eqb_eq in Hlen. split; [exact Hlen|].
  apply existsb_exists in Hex as (c & Hin & Hc).
  apply negb_true_iff, Qc_eqb_false in Hc.
  apply list_elem_of_In, list_elem_of_lookup_1 in Hin as [i Hi].
  exists i, c. split; assumption.
Qed.

Lemma point_eq_QQ_of_cross a : forall b,
  (forall i j x y x' y', (i < j)%nat ->
     a !! i = Some x -> b !! i = Some y ->
     a !! j = Some x' -> b !! j = Some y' -> (x * y' = x' * y)%Qc) ->
  point_eq_QQ a b = true.
Proof.
  induction a as [|ai a IH]; intros [|bi b] H; try reflexivity.
  cbn [point_eq_QQ]. apply andb_true_iff. split.
  - apply forallb_forall. intros [x' y'] Hin.
    apply list_elem_of_In, list_elem_of_lookup_1 in Hin as [k Hk].
    apply lookup_zip_with_Some in Hk as (x'' & y'' & E & Hx & Hy).
    inversion E; subst x'' y''. apply Qc_eqb_true. cbn [fst snd].
    apply (H O (S k) ai bi x' y'); [lia|reflexivity..|exact Hx|exact Hy].
  - apply IH. intros i j x y x' y' Hij Hx Hy Hx' Hy'.
    apply (H (S i) (S j) x y x' y'); [lia|assumption..].
Qed.

Lemma point_eq_QQ_sym a b : point_eq_QQ a b = true -> point_eq_QQ b a = true.
Proof.
  intros H. apply point_eq_QQ_of_cross.
  intros i j y x y' x' _ Hy Hx Hy' Hx'.
  pose proof (point_eq_QQ_cross_all a b i j x y x' y' H Hx Hy Hx' Hy') as E.
  rewrite (Qcmult_comm y x'), (Qcmult_comm y' x). symmetry. exact E.
Qed.

Lemma scale_lookup lam v i x :
  scale lam v !! i = Some x -> exists y, v !! i = Some y /\ x = (y * lam)%Qc.
Proof.
  unfold scale. rewrite list_lookup_fmap.
  destruct (v !! i) as [y|]; [|discriminate].
  intros E. inversion E. exists y. split; reflexivity.
Qed.

Lemma point_eq_QQ_trans a b c :
  length a = length b -> nonzero_point a -> nonzero_point b ->
  point_eq_QQ a b = true -> point_eq_QQ b c = true -> point_eq_QQ a c = true.
Proof.
  intros Hlen Ha Hb Hab Hbc.
  destruct (point_eq_QQ_proportional a b Hlen Ha Hb Hab) as (lam & Hlam & ->).
  apply point_eq_QQ_of_cross.
  intros i j x z x' z' _ Hx Hz Hx' Hz'.
  apply scale_lookup in Hx as (y & Hy & ->).
  apply scale_lookup in Hx' as (y' & Hy' & ->).
  pose proof (point_eq_QQ_cross_all b c i j y z y' z' Hbc Hy Hz Hy' Hz') as E.
  transitivity (lam * (y * z'))%Qc; [ring|]. rewrite E. ring.
Qed.

Lemma scale_valid F lam v :
  lam <> 0%Qc -> valid_QQ F v -> valid_QQ F (scale lam v).
Proof.
  intros Hlam [Hlen (i & x & Hx & Hnz)]. split.
  - unfold scale. rewrite length_fmap. exact Hlen.
  - exists i, (x * lam)%Qc. split.
    + unfold scale. rewrite list_lookup_fmap, Hx. reflexivity.
    + intros E. apply Qcmult_integral in E as [E|E]; contradiction.
Qed.

Lemma normalize_coordinates_QQ_scale v Q :
  normalize_coordinates_QQ v = Ok Q ->
  exists lam, lam <> 0%Qc /\ Q = scale lam v.
Proof.
  unfold normalize_coordinates_QQ, scale_by_QQ.
  destruct (last_index _ v) as [i|]; [|discriminate].
  destruct (Qc_eqb _ 0%Qc) eqn:E; [discriminate|].
  intros H. inversion H. apply Qc_eqb_false in E.
  eexists. split; [exact E|reflexivity].
Qed.

Lemma normalized_image_QQ_valid F a Q :
  normalized_image (fun P => call_QQ F P true) normalize_coordinates_QQ a
  = Ok Q ->
  valid_QQ F Q.
Proof.
  unfold normalized_image. intros H. inv_rbind H.
  destruct (call_QQ_image F a _ Ha) as [Hlen Hnz].
  apply normalize_coordinates_QQ_scale in H as (lam & Hlam & ->).
  apply scale_valid; [exact Hlam|]. split; assumption.
Qed.

Lemma normalized_image_QQ_respects F d a b Qb :
  is_homogeneous F d = true ->
  valid_QQ F a -> valid_QQ F b -> point_eq_QQ a b = true ->
  normalized_image (fun P => call_QQ F P true) normalize_coordinates_QQ b
  = Ok Qb ->
  exists Qa,
    normalized_image (fun P => call_QQ F P true) normalize_coordinates_QQ a
    = Ok Qa /\ point_eq_QQ Qa Qb = true.
Proof.
  intros Hhom [Hla Hna] [Hlb Hnb] Hab Hb.
  destruct (point_eq_QQ_proportional a b) as (lam & Hlam & ->);
    [congruence|assumption..|].
  exists Qb. split; [|apply point_eq_QQ_refl].
  unfold normalized_image in *.
  rewrite (call_QQ_scale F d lam b Hhom Hlb Hlam). exact Hb.
Qed.

Lemma completeb_complete {Point : Type} (point_eq : Point -> Point -> bool)
    (call normalize_coordinates : Point -> result Point) preper :
  completeb point_eq call normalize_coordinates preper = true ->
  complete point_eq call normalize_coordinates preper.
Proof.
  unfold completeb. intros H val Hval.
  rewrite forallb_forall in H. apply list_elem_of_In, H in Hval.
  destruct (normalized_image call normalize_coordinates val) as [Q|e];
    [|discriminate].
  apply existsb_exists in Hval as (w & Hw & HQw).
  exists Q, w. split; [reflexivity|]. split; [apply list_elem_of_In, Hw|exact HQw].
Qed.

(** "Looped digraph on 6 vertices": the graph of the docstring, also when
    a point comes a second time under other coordinates. *)
Example preperiodic_cyclegraph_doctest :
  result_map
    (fun preper =>
       do g <- preperiodic_points_to_cyclegraph_QQ cyclegraph_example preper;
       Ok (length (vertices g), length (edges g)))
    [ cyclegraph_example_points;
      cyclegraph_example_points ++ [[qz 3; qz 3]; [qz (-4); qz 2]] ]
  = Ok [ (6, 6); (6, 6) ]%nat.
Proof. vm_compute. reflexivity. Qed.

Lemma preperiodic_cyclegraph_vertex_per_class_witness :
  exists g,
    preperiodic_points_to_cyclegraph_QQ cyclegraph_example
      cyclegraph_example_points = Ok g /\
    distinct_classes point_eq_QQ (vertices g) /\
    (forall val, val ∈ cyclegraph_example_points ->
       exists v, v ∈ vertices g /\ point_eq_QQ v val = true) /\
    (forall v, v ∈ vertices g ->
       exists val, val ∈ cyclegraph_example_points /\
         point_eq_QQ v val = true) /\
    (forall v, v ∈ vertices g ->
       exists w Q,
         filter (fun e => point_eq_QQ e.1 v = true) (edges g) = [(v, w)] /\
         w ∈ vertices g /\
         normalized_image (fun P => call_QQ cyclegraph_example P true)
           normalize_coordinates_QQ v = Ok Q /\
         point_eq_QQ w Q = true).
Proof.
  apply (preperiodic_cyclegraph_vertex_per_class_one_out_edge
           point_eq_QQ (fun P => call_QQ cyclegraph_example P true)
           normalize_coordinates_QQ (valid_QQ cyclegraph_example)).
  - intros a _. apply point_eq_QQ_refl.
  - intros a b _ _. apply point_eq_QQ_sym.
  - intros a b c [Hla Hna] [Hlb Hnb] _. apply point_eq_QQ_trans;
      [congruence|assumption..].
  - intros a Q _. apply normalized_image_QQ_valid.
  - intros a b Qb. apply (normalized_image_QQ_respects _ 2%nat). reflexivity.
  - unfold cyclegraph_example_points.
    repeat (apply Forall_cons_2;
            [apply valid_QQb_spec; vm_compute; reflexivity|]).
    apply Forall_nil_2.
  - apply completeb_complete. vm_compute. reflexivity.
Defined.

(** ** The Green function: the number of terms for an error bound *)

Lemma ceil_spec (x : R) : (IZR (ceil x) - 1 < x <= IZR (ceil x))%R.
Proof.
  unfold ceil. destruct (archimed (- x)) as [H1 H2].
  rewrite minus_IZR. lra.
Qed.

Lemma ceil_unique (x : R) (n : Z) :
  (IZR n - 1 < x <= IZR n)%R -> ceil x = n.
Proof.
  intros [H1 H2]. unfold ceil.
  rewrite <- (tech_up (- x) (1 - n)); [lia| |]; rewrite minus_IZR; lra.
Qed.

Lemma ceil_nonneg (x : R) : (0 <= x)%R -> 0 <= ceil x.
Proof.
  intros Hx. destruct (ceil_spec x) as [_ H2].
  apply le_IZR. lra.
Qed.

Lemma pow_IZR_ln (d : R) (N : Z) :
  (0 < d)%R -> 0 <= N -> ln (d ^ Z.to_nat N) = (IZR N * ln d)%R.
Proof.
  intros Hd HN. rewrite ln_pow by exact Hd.
  rewrite INR_IZR_INZ, Z2Nat.id by exact HN. reflexivity.
Qed.

Lemma ln_le_inv (x y : R) : (0 < x -> 0 < y -> ln x <= ln y -> x <= y)%R.
Proof.
  intros Hx Hy H. destruct (Rle_or_lt x y) as [Hle|Hlt]; [exact Hle|].
  pose proof (ln_increasing y x Hy Hlt). lra.
Qed.

Lemma ln_pos_base (d : R) : (1 < d -> 0 < ln d)%R.
Proof. intros Hd. rewrite <- ln_1. apply ln_increasing; lra. Qed.

Lemma log_base_le_pow (d A : R) (N : Z) :
  (1 < d)%R -> (0 < A)%R -> 0 <= N ->
  (log_base d A <= IZR N)%R -> (A <= d ^ Z.to_nat N)%R.
Proof.
  intros Hd HA HN H. pose proof (ln_pos_base d Hd) as Hln.
  apply ln_le_inv; [exact HA|apply pow_lt; lra|].
  rewrite pow_IZR_ln by (lra || exact HN).
  unfold log_base in H.
  apply (Rmult_le_compat_r (ln d)) in H; [|lra].
  replace (ln A / ln d * ln d)%R with (ln A) in H by (field; lra).
  exact H.
Qed.

Lemma log_base_gt_pow (d A : R) (M : Z) :
  (1 < d)%R -> (0 < A)%R -> 0 <= M ->
  (IZR M < log_base d A)%R -> (d ^ Z.to_nat M < A)%R.
Proof.
  intros Hd HA HM H. pose proof (ln_pos_base d Hd) as Hln.
  apply ln_lt_inv; [apply pow_lt; lra|exact HA|].
  rewrite pow_IZR_ln by (lra || exact HM).
  unfold log_base in H.
  apply (Rmult_lt_compat_r (ln d)) in H; [|lra].
  replace (ln A / ln d * ln d)%R with (ln A) in H by (field; lra).
  exact H.
Qed.

Lemma lower_bound_nonneg archimedean dim d Res maxh :
  (0 <= lower_bound archimedean dim d Res maxh)%R.
Proof. unfold lower_bound. destruct archimedean; apply Rabs_pos. Qed.

Section GreenFacts.
Context {Point : Type}.
Variable log_max_abs : Point -> R.
Variable next_iterate : Point -> Point.
Variable absolute_degree : Z.

Abbreviation series_terms := (series_terms log_max_abs next_iterate).

Lemma green_loop_terms (d N : Z) : forall remaining i Q localht,
  0 <= i -> i + Z.of_nat remaining = N + 1 ->
  green_loop log_max_abs next_iterate d N i remaining Q localht
  = (localht
     + foldr Rplus 0%R
         ((fun j =>
             (1 / IZR d) ^ (Z.to_nat i + j)
             * log_max_abs (Nat.iter j next_iterate Q))
            <$> seq 0 remaining))%R.
Proof.
  induction remaining as [|r IH]; intros i Q localht Hi Hsum.
  - simpl. lra.
  - cbn [green_loop]. destruct r as [|r].
    + simpl. rewrite Nat.add_0_r. lra.
    + assert (Hlt : (i <? N) = true) by (apply Z.ltb_lt; lia).
      rewrite Hlt, IH by lia.
      change (seq 0 (S (S r))) with (0%nat :: seq 1 (S r)).
      rewrite <- fmap_S_seq, fmap_cons, <- list_fmap_compose.
      cbn [foldr]. rewrite Nat.add_0_r. cbn [Nat.iter].
      rewrite Rplus_assoc. do 2 f_equal.
      f_equal. apply list_fmap_ext. intros k j _. cbn [compose].
      replace (Z.to_nat (i + 1) + j)%nat with (Z.to_nat i + S j)%nat by lia.
      rewrite Nat.iter_succ_r. reflexivity.
Qed.

Lemma green_series_terms (d N : Z) (Q : Point) :
  0 <= N ->
  green_series log_max_abs next_iterate d N Q
  = foldr Rplus 0%R (series_terms d N Q) /\
  length (series_terms d N Q) = (Z.to_nat N + 1)%nat.
Proof.
  intros HN. split.
  - unfold green_series. rewrite green_loop_terms by lia.
    unfold series_terms. replace (Z.to_nat (N + 1)) with (Z.to_nat N + 1)%nat
      by lia.
    rewrite Rplus_0_l. reflexivity.
  - unfold series_terms. rewrite length_fmap, length_seq. reflexivity.
Qed.

(** C2, as the code has it.  In error-bounded mode, with a degree [d >= 2]
    and a positive error bound, [green_function] takes [C = max(U, L)], the
    lower bound [L] being an absolute value of a logarithm, and sums the
    terms [i = 0 .. N] of the series: [N = 1] when [C = 0], and otherwise
    [N = ceil(|log_d(C / (err * (d - 1)))|)], for which
    [C / ((d - 1) * d^N) <= err]; when [C >= err * (d - 1)] no smaller count
    has this property.  The value returned is that sum divided by the
    absolute degree of the base ring. *)
Theorem green_function_iteration_count archimedean dim d err U Res maxh Q :
  2 <= d -> (0 < err)%R ->
  let C := Rmax U (lower_bound archimedean dim d Res maxh) in
  exists N,
    iteration_count archimedean dim d err U Res maxh = Ok N /\
    0 <= N /\
    (C = 0%R -> N = 1) /\
    (C <> 0%R ->
       N = ceil (Rabs (log_base (IZR d) (C / (err * IZR (d - 1))))) /\
       (C / (IZR (d - 1) * IZR d ^ Z.to_nat N) <= err)%R /\
       ((err * IZR (d - 1) <= C)%R ->
        forall M, 0 <= M < N ->
          (err < C / (IZR (d - 1) * IZR d ^ Z.to_nat M))%R)) /\
    green_function_error_bound log_max_abs next_iterate absolute_degree
      archimedean dim d err U Res maxh Q
    = Ok (1 / IZR absolute_degree
          * foldr Rplus 0%R (series_terms d N Q))%R /\
    length (series_terms d N Q) = (Z.to_nat N + 1)%nat.
Proof.
  intros Hd Herr C.
  assert (Hd1 : (1 < IZR d)%R) by (apply IZR_lt; lia).
  assert (Hd0 : (0 < IZR (d - 1))%R) by (apply IZR_lt; lia).
  assert (HC : (0 <= C)%R).
  { unfold C. eapply Rle_trans; [apply lower_bound_nonneg|apply Rmax_r]. }
  unfold green_function_error_bound, iteration_count. fold C.
  destruct (Rlt_dec 0 err) as [_|Hn]; [|contradiction].
  destruct (Req_dec_T C 0) as [E|E].
  - exists 1. cbn [rbind].
    destruct (green_series_terms d 1 Q) as [Hs Hl]; [lia|].
    rewrite Hs. repeat split; try lia; try contradiction; exact Hl.
  - set (A := (C / (err * IZR (d - 1)))%R).
    set (N := ceil (Rabs (log_base (IZR d) A))).
    assert (HA : (0 < A)%R).
    { unfold A. apply Rdiv_lt_0_compat; [lra|]. apply Rmult_lt_0_compat; lra. }
    assert (HCA : C = (A * (err * IZR (d - 1)))%R).
    { unfold A. field. split; lra. }
    assert (HN : 0 <= N) by (apply ceil_nonneg, Rabs_pos).
    destruct (ceil_spec (Rabs (log_base (IZR d) A))) as [Hlo Hhi]. fold N in Hlo, Hhi.
    exists N. cbn [rbind].
    destruct (green_series_terms d N Q HN) as [Hs Hl]. rewrite Hs.
    split; [reflexivity|]. split; [exact HN|]. split; [contradiction|].
    split; [|split; [reflexivity|exact Hl]].
    intros _. split; [reflexivity|]. split.
    + assert (Hpow : (A <= IZR d ^ Z.to_nat N)%R).
      { apply log_base_le_pow; [lra|exact HA|exact HN|].
        eapply Rle_trans; [apply Rle_abs|exact Hhi]. }
      assert (HP : (0 < IZR d ^ Z.to_nat N)%R) by (apply pow_lt; lra).
      apply (Rmult_le_reg_r (IZR (d - 1) * IZR d ^ Z.to_nat N));
        [apply Rmult_lt_0_compat; lra|].
      unfold Rdiv. rewrite Rmult_assoc, Rinv_l, Rmult_1_r
        by (apply Rgt_not_eq, Rmult_lt_0_compat; lra).
      rewrite HCA. nra.
    + intros Hge M [HM0 HMN].
      assert (HA1 : (1 <= A)%R).
      { unfold A. apply (Rmult_le_reg_r (err * IZR (d - 1)));
          [apply Rmult_lt_0_compat; lra|].
        unfold Rdiv. rewrite Rmult_assoc, Rinv_l, Rmult_1_r
          by (apply Rgt_not_eq, Rmult_lt_0_compat; lra).
        lra. }
      assert (Hlog : (0 <= log_base (IZR d) A)%R).
      { unfold log_base. apply Rmult_le_pos.
        - destruct HA1 as [Hlt|<-]; [|rewrite ln_1; lra].
          left. rewrite <- ln_1. apply ln_increasing; lra.
        - left. apply Rinv_0_lt_compat, ln_pos_base, Hd1. }
      rewrite Rabs_pos_eq in Hlo by exact Hlog.
      assert (HMle : (IZR M <= IZR N - 1)%R).
      { rewrite <- minus_IZR. apply IZR_le. lia. }
      assert (Hpow : (IZR d ^ Z.to_nat M < A)%R).
      { apply log_base_gt_pow; [lra|exact HA|exact HM0|lra]. }
      assert (HP : (0 < IZR d ^ Z.to_nat M)%R) by (apply pow_lt; lra).
      apply (Rmult_lt_reg_r (IZR (d - 1) * IZR d ^ Z.to_nat M));
        [apply Rmult_lt_0_compat; lra|].
      unfold Rdiv. rewrite Rmult_assoc, Rinv_l, Rmult_1_r
        by (apply Rgt_not_eq, Rmult_lt_0_compat; lra).
      rewrite HCA. nra.
Qed.
End GreenFacts.

Lemma ln_2_lt_6 : (Rabs (ln (2 / 1)) <= 6)%R.
Proof.
  replace (2 / 1)%R with 2%R by field.
  assert (H0 : (0 < ln 2)%R) by (apply ln_pos_base; lra).
  rewrite Rabs_pos_eq by lra.
  left. rewrite <- (ln_exp 6). apply ln_increasing; [lra|].
  pose proof (exp_ineq1 6). lra.
Qed.

(** For a map of degree [3] with [U = 6], a lower bound [L = log 2] and the
    error bound [1], the code takes [N = ceil(log_3(6 / 2)) = 1], not
    [ceil(log_3(6 / 1)) = 2]. *)
Lemma iteration_count_differs_from_specified :
  lower_bound false 1 3 2 1 <> 0%R /\
  iteration_count false 1 3 1 6 2 1 = Ok 1 /\
  specified_iteration_count 3 1 6 (lower_bound false 1 3 2 1) = 2.
Proof.
  assert (HL : lower_bound false 1 3 2 1 = Rabs (ln (2 / 1))).
  { unfold lower_bound. destruct (Req_dec_T 1 0) as [E|_]; [lra|reflexivity]. }
  assert (Hmax : Rmax 6 (lower_bound false 1 3 2 1) = 6%R).
  { rewrite HL. apply Rmax_left, ln_2_lt_6. }
  assert (Hln3 : (0 < ln 3)%R) by (apply ln_pos_base; lra).
  split; [|split].
  - rewrite HL. replace (2 / 1)%R with 2%R by field.
    assert (H0 : (0 < ln 2)%R) by (apply ln_pos_base; lra).
    rewrite Rabs_pos_eq by lra. lra.
  - unfold iteration_count. rewrite Hmax.
    destruct (Rlt_dec 0 1) as [_|Hn]; [|lra].
    destruct (Req_dec_T 6 0) as [E|_]; [lra|].
    f_equal. apply ceil_unique.
    replace (6 / (1 * IZR (3 - 1)))%R with 3%R
      by (replace (3 - 1) with 2 by lia; field).
    unfold log_base. replace (ln 3 / ln 3)%R with 1%R by (field; lra).
    rewrite Rabs_pos_eq by lra. lra.
  - unfold specified_iteration_count. rewrite Hmax.
    apply ceil_unique. replace (6 / 1)%R with 6%R by field.
    unfold log_base.
    assert (H6 : (ln 3 < ln 6)%R) by (apply ln_increasing; lra).
    assert (H9 : (ln 6 < 2 * ln 3)%R).
    { replace (2 * ln 3)%R with (ln (3 * 3)) by (rewrite ln_mult; lra).
      apply ln_increasing; lra. }
    split.
    + apply (Rmult_lt_reg_r (ln 3)); [lra|].
      unfold Rdiv. rewrite Rmult_assoc, Rinv_l, Rmult_1_r by lra. lra.
    + apply (Rmult_le_reg_r (ln 3)); [lra|].
      unfold Rdiv. rewrite Rmult_assoc, Rinv_l, Rmult_1_r by lra. lra.
Qed.

Lemma green_function_iteration_count_witness :
  exists N,
    iteration_count false 1 3 1 6 2 1 = Ok N /\ 0 <= N /\
    length (series_terms (fun x : R => x) (fun x : R => x) 3 N 0%R)
    = (Z.to_nat N + 1)%nat.
Proof.
  destruct (green_function_iteration_count (fun x : R => x) (fun x : R => x)
              1 false 1 3 1%R 6%R 2 1%R 0%R)
    as (N & HN & H0 & _ & _ & _ & Hlen).
  - lia.
  - lra.
  - exists N. split; [exact HN|]. split; [exact H0|exact Hlen].
Defined.

(** With [d = 2] the factor [d - 1] is [1]; for a bound below the requested
    error the logarithm is negative and its absolute value is taken. *)
Example iteration_count_takes_absolute_value :
  iteration_count false 1 2 4 1 1 1 = Ok 2 /\
  specified_iteration_count 2 4 1 (lower_bound false 1 2 1 1) = -2.
Proof.
  assert (HL : lower_bound false 1 2 1 1 = 0%R).
  { unfold lower_bound. destruct (Req_dec_T 1 0) as [E|_]; [lra|].
    replace (1 / 1)%R with 1%R by field. rewrite ln_1. apply Rabs_R0. }
  assert (Hmax : Rmax 1 (lower_bound false 1 2 1 1) = 1%R).
  { rewrite HL. apply Rmax_left. lra. }
  assert (Hln2 : (0 < ln 2)%R) by (apply ln_pos_base; lra).
  assert (Hlog : log_base 2 (1 / 4) = (-2)%R).
  { unfold log_base. replace (1 / 4)%R with (/ (2 * 2))%R by field.
    rewrite ln_Rinv, ln_mult by lra. field. lra. }
  split.
  - unfold iteration_count. rewrite Hmax.
    destruct (Rlt_dec 0 4) as [_|Hn]; [|lra].
    destruct (Req_dec_T 1 0) as [E|_]; [lra|].
    f_equal. apply ceil_unique.
    replace (1 / (4 * IZR (2 - 1)))%R with (1 / 4)%R
      by (replace (2 - 1) with 1 by lia; field).
    rewrite Hlog.
    replace (Rabs (-2)) with 2%R
      by (unfold Rabs; destruct (Rcase_abs (-2)); lra).
    lra.
  - unfold specified_iteration_count. rewrite Hmax.
    apply ceil_unique. rewrite Hlog. lra.
Qed.

(** * Further properties of the code *)

(** ** The lifter ends *)

Lemma lift_weight_pos p N L k : 0 < p -> (1 <= lift_weight p N L k)%nat.
Proof.
  intros Hp. unfold lift_weight.
  assert (H : (Z.to_nat p ^ N <> 0)%nat) by (apply Nat.pow_nonzero; lia).
  pose proof (Nat.pow_nonzero _ (Z.to_nat (L - k)) H). lia.
Qed.

Lemma lift_weight_step p N L k :
  k < L ->
  lift_weight p N L k = (Z.to_nat p ^ N * lift_weight p N L (k + 1))%nat.
Proof.
  intros Hk. unfold lift_weight.
  replace (Z.to_nat (L - k)) with (S (Z.to_nat (L - (k + 1)))) by lia.
  reflexivity.
Qed.

Lemma lift_weight_mono p N L k k' :
  0 < p -> k <= k' ->
  (lift_weight p N L k' <= lift_weight p N L k)%nat.
Proof.
  intros Hp Hk. unfold lift_weight. apply Nat.pow_le_mono_r; [|lia].
  apply Nat.pow_nonzero. lia.
Qed.

Lemma lift_budget_app p N L a b :
  lift_budget p N L (a ++ b)
  = (lift_budget p N L a + lift_budget p N L b)%nat.
Proof.
  unfold lift_budget. induction a as [|c a IH]; [reflexivity|].
  cbn [app foldr]. rewrite IH. lia.
Qed.

Lemma lift_budget_same p N L k l :
  Forall (fun c => cand_precision c = k) l ->
  lift_budget p N L l = (length l * lift_weight p N L k)%nat.
Proof.
  induction 1 as [|c l Hc _ IH]; [reflexivity|].
  change (c :: l) with ([c] ++ l). rewrite lift_budget_app, IH.
  unfold lift_budget. simpl. rewrite Hc. lia.
Qed.

(** What a pass of the inner loop leaves: nothing when the candidate is
    dropped or Hensel's step is taken, fewer than [p^N] candidates of
    precision [k + 1] when it branches. *)
Lemma lift_step_outcome F T n p k L qindex out :
  lift_step F T n p k L qindex = Ok out ->
  match out with
  | Dropped more => more = []
  | Advanced _ k' more =>
      (k' = Z.min (2 * k) L /\ more = []) \/
      (k' = k + 1 /\
       (S (length more) <= Z.to_nat p ^ (length F - 1))%nat /\
       Forall (fun c => cand_precision c = k + 1) more)
  end.
Proof.
  unfold lift_step. intros H. inv_rbind H. destruct a as [lp ldet].
  destruct (negb (ldet mod p =? 0)).
  - unfold hensel_step in H. inv_rbind H. destruct a as [T1 S1].
    inv_rbind H. destruct a.
    + injection H as <-. reflexivity.
    + inv_rbind H. injection H as <-. left. split; reflexivity.
  - unfold branch_step in H. inv_rbind H. inv_rbind H. inv_rbind H.
    rename a0 into lifts, a1 into newq.
    destruct (surviving_lifts_spec _ _ _ _ _ Ha2) as [Hnewq _].
    assert (Hlen : (length newq <= Z.to_nat p ^ (length F - 1))%nat).
    { rewrite Hnewq. etransitivity; [apply length_filter|].
      unfold one_digit_lifts in Ha1.
      rewrite (result_map_length _ _ _ Ha1), tuples_length. reflexivity. }
    destruct newq as [|first others]; injection H as <-; [reflexivity|].
    right. split; [reflexivity|]. split.
    + rewrite length_fmap. simpl in Hlen. exact Hlen.
    + apply Forall_fmap, Forall_forall. intros x _. reflexivity.
Qed.

(** [while k < L and bad == 0] ends within [L - k] passes, and what it
    appends to [points] fits in the weight of the candidate. *)
Lemma lift_loop_ends F n p L qindex fuel : forall T k appended,
  0 < p -> 1 <= k -> (Z.to_nat (L - k) <= fuel)%nat ->
  exists r,
    lift_loop fuel F T n p k L qindex appended = Some r /\
    forall Tfin app', r = Ok (Tfin, app') ->
      exists new,
        app' = appended ++ new /\
        Forall (fun c => 1 <= cand_precision c) new /\
        (lift_budget p (length F - 1) L new + 1
         <= lift_weight p (length F - 1) L k)%nat.
Proof.
  induction fuel as [|fuel IH]; intros T k appended Hp Hk Hfuel.
  - assert (HkL : (k <? L) = false) by (apply Z.ltb_ge; lia).
    exists (Ok (Some T, appended)). cbn [lift_loop]. rewrite HkL.
    split; [reflexivity|]. intros Tfin app' E. injection E as <- <-.
    exists []. rewrite app_nil_r. split; [reflexivity|].
    split; [constructor|]. pose proof (lift_weight_pos p (length F - 1) L k Hp).
    cbn [lift_budget foldr]. lia.
  - cbn [lift_loop]. destruct (k <? L) eqn:HkL.
    + apply Z.ltb_lt in HkL.
      destruct (lift_step F T n p k L qindex) as [out|e] eqn:Hstep.
      * pose proof (lift_step_outcome _ _ _ _ _ _ _ _ Hstep) as Hout.
        destruct out as [T' k' more|more].
        -- assert (Hk' : 1 <= k' /\ k < k' /\
                         (lift_budget p (length F - 1) L more
                          + lift_weight p (length F - 1) L k'
                          <= lift_weight p (length F - 1) L k)%nat /\
                         Forall (fun c => 1 <= cand_precision c) more).
           { destruct Hout as [[-> ->]|(-> & Hlen & Hall)].
             - split; [lia|]. split; [lia|]. split; [|constructor].
               cbn [lift_budget foldr]. apply lift_weight_mono; lia.
             - split; [lia|]. split; [lia|]. split.
               + rewrite (lift_budget_same _ _ _ _ _ Hall).
                 rewrite (lift_weight_step p _ L k HkL).
                 set (w := lift_weight p (length F - 1) L (k + 1)).
                 set (M := (Z.to_nat p ^ (length F - 1))%nat) in *. nia.
               + eapply Forall_impl; [exact Hall|]. cbn. intros c ->. lia. }
           destruct Hk' as (Hk1 & Hkk & Hbud & Hprec).
           destruct (IH T' k' (appended ++ more) Hp Hk1 ltac:(lia))
             as (r & Hr & Hspec).
           exists r. split; [exact Hr|]. intros Tfin app' E.
           destruct (Hspec Tfin app' E) as (new & -> & Hnew & Hw).
           exists (more ++ new). split; [rewrite app_assoc; reflexivity|].
           split; [apply Forall_app; split; assumption|].
           rewrite lift_budget_app. lia.
        -- subst more. exists (Ok (None, appended ++ [])).
           split; [reflexivity|]. intros Tfin app' E. injection E as <- <-.
           exists []. split; [reflexivity|]. split; [constructor|].
           pose proof (lift_weight_pos p (length F - 1) L k Hp).
           cbn [lift_budget foldr]. lia.
      * exists (Raise e). split; [reflexivity|]. intros Tfin app' E.
        discriminate.
    + exists (Ok (Some T, appended)). split; [reflexivity|].
      intros Tfin app' E. injection E as <- <-.
      exists []. rewrite app_nil_r. split; [reflexivity|].
      split; [constructor|].
      pose proof (lift_weight_pos p (length F - 1) L k Hp).
      cbn [lift_budget foldr]. lia.
Qed.

Section LifterEnds.
Variable precision_target : Qc -> nat -> Z -> Z.
Variable LLL : list (list Z) -> list (list Z).

Lemma process_candidate_ends F q p L B gp :
  0 < p -> 1 <= cand_precision q ->
  exists r,
    process_candidate LLL F q p L B gp = Some r /\
    forall appended gp', r = Ok (appended, gp') ->
      Forall (fun c => 1 <= cand_precision c) appended /\
      (lift_budget p (length F - 1) L appended + 1
       <= lift_weight p (length F - 1) L (cand_precision q))%nat.
Proof.
  intros Hp Hk. unfold process_candidate.
  destruct (do qindex <- last_unit_index p (cand_point q); _)
    as [[qindex T]|e].
  - destruct (lift_loop_ends F (cand_period q) p L qindex
                (Z.to_nat (L - cand_precision q)) T (cand_precision q) []
                Hp Hk (le_n _)) as (r & Hr & Hspec).
    rewrite Hr. destruct r as [[[Tfin|] apd]|e].
    + eexists. split; [reflexivity|]. intros appended gp' E.
      destruct (Hspec _ _ eq_refl) as (new & Hnew & Hprec & Hw).
      cbn [app] in Hnew. subst apd.
      destruct (reconstruct_and_verify LLL F Tfin (cand_period q) p L B gp);
        [|discriminate].
      cbn [rbind] in E. injection E as <- <-. split; assumption.
    + eexists. split; [reflexivity|]. intros appended gp' E.
      injection E as <- <-.
      destruct (Hspec _ _ eq_refl) as (new & Hnew & Hprec & Hw).
      cbn [app] in Hnew. subst apd. split; assumption.
    + eexists. split; [reflexivity|]. intros appended gp' E. discriminate.
  - eexists. split; [reflexivity|]. intros appended gp' E. discriminate.
Qed.

Lemma lift_budget_rev p N L l :
  lift_budget p N L (rev l) = lift_budget p N L l.
Proof.
  induction l as [|c l IH]; [reflexivity|].
  cbn [rev]. rewrite lift_budget_app, IH. unfold lift_budget.
  cbn [foldr]. lia.
Qed.

Lemma lift_candidates_ends F p L B fuel : forall points gp,
  0 < p -> Forall (fun c => 1 <= cand_precision c) points ->
  (lift_budget p (length F - 1) L points <= fuel)%nat ->
  exists r, lift_candidates LLL fuel F points p L B gp = Some r.
Proof.
  induction fuel as [|fuel IH]; intros points gp Hp Hprec Hfuel.
  - destruct points as [|q rest]; [eexists; reflexivity|].
    pose proof (lift_weight_pos p (length F - 1) L (cand_precision q) Hp).
    cbn [lift_budget foldr] in Hfuel. lia.
  - destruct points as [|q rest]; [eexists; reflexivity|].
    cbn [lift_candidates].
    apply Forall_cons_1 in Hprec as [Hq Hrest].
    destruct (process_candidate_ends F q p L B gp Hp Hq) as (r & Hr & Hspec).
    rewrite Hr. destruct r as [[appended gp']|e]; [|eexists; reflexivity].
    destruct (Hspec _ _ eq_refl) as [Happ Hw].
    apply IH; [exact Hp| |].
    + apply Forall_app. split; [apply Forall_rev, Happ|exact Hrest].
    + rewrite lift_budget_app, lift_budget_rev.
      cbn [lift_budget foldr] in Hfuel.
      fold (lift_budget p (length F - 1) L rest) in Hfuel. lia.
Qed.

(** X3.  The lifter ends.  With [N] the dimension and [L] the precision
    target, a call on [len(points_modp)] points modulo a prime [p] pops at
    most [len(points_modp) * (p^N)^(L - 1)] candidates from [points]: the
    inner loop raises the precision at every pass, and a pass leaves fewer
    than [p^N] candidates of the next precision behind. *)
Theorem lift_to_rational_periodic_ends F points_modp p B fuel :
  0 < p ->
  (length points_modp
   * lift_weight p (length F - 1)
       (precision_target B (length F - 1)%nat p) 1 <= fuel)%nat ->
  exists r,
    lift_to_rational_periodic precision_target LLL fuel F points_modp p B
    = Some r.
Proof.
  intros Hp Hfuel. unfold lift_to_rational_periodic.
  destruct points_modp as [|pm rest] eqn:E; [eexists; reflexivity|].
  rewrite <- E in *. clear E pm rest.
  destruct (p =? 0); [eexists; reflexivity|].
  set (L := precision_target B (length F - 1)%nat p) in *.
  set (points := (fun pm : list Z * Z => _) <$> points_modp).
  assert (Hall : Forall (fun c => cand_precision c = 1) points).
  { apply Forall_fmap, Forall_forall. intros x _. reflexivity. }
  apply lift_candidates_ends; [exact Hp| |].
  - apply Forall_rev. eapply Forall_impl; [exact Hall|]. cbn. intros c ->. lia.
  - rewrite lift_budget_rev, (lift_budget_same _ _ _ _ _ Hall).
    unfold points. rewrite length_fmap. exact Hfuel.
Qed.
End LifterEnds.

(** The first doctest: one point modulo [7] and [L = 3], so [49] pops are
    enough. *)
Lemma lift_to_rational_periodic_ends_witness :
  exists r,
    lift_to_rational_periodic_line 49 lift_example_1 [([0; 1], 4)] 7 (qz 4)
    = Some r.
Proof.
  apply (lift_to_rational_periodic_ends precision_target_exact LLL_line
           lift_example_1 [([0; 1], 4)] 7 (qz 4) 49).
  - lia.
  - vm_compute. lia.
Defined.

(** ** The lifter: invariants of [good_points] *)

Section LifterInvariant.
Variable precision_target : Qc -> nat -> Z -> Z.
Variable LLL : list (list Z) -> list (list Z).
Variable F : list (polynomial Qc).
Variable B : Qc.
Variable p L : Z.
(** A property of [good_points] kept by the only [append] of the code: the
    pair [[newP, k]], with [newP] an image equal to the reconstructed point
    [P] of integers [Q], added when [[P, k]] is not in the list.  [Q] is read
    from the reduced matrix, passed the height test, and the map is defined
    at [P]: the first image the last loop takes is that of [P]. *)
Variable Inv : list (list Qc * Z) -> Prop.
Hypothesis Inv_append : forall (Q : list Z) gp k prev newP image,
  reconstructed_at LLL F p L Q ->
  call_QQ F (qz <$> Q) true = Ok image ->
  length Q = length F -> within_height B Q -> Inv gp ->
  call_QQ F prev true = Ok newP ->
  point_eq_QQ newP (qz <$> Q) = true ->
  (forall g, g ∈ gp -> ~ (point_eq_QQ g.1 (qz <$> Q) = true /\ g.2 = k)) ->
  Inv (gp ++ [(newP, k)]).

Lemma verify_periodic_inv (Q : list Z) remaining : forall k newP gp gp',
  reconstructed_at LLL F p L Q ->
  newP = qz <$> Q \/ (exists image, call_QQ F (qz <$> Q) true = Ok image) ->
  length Q = length F -> within_height B Q -> Inv gp ->
  verify_periodic F (qz <$> Q) remaining k newP gp = Ok gp' ->
  Inv gp'.
Proof.
  induction remaining as [|remaining IH];
    intros k newP gp gp' Hrow Hfirst HQ HB Hgp H.
  - simpl in H. injection H as <-. exact Hgp.
  - cbn [verify_periodic] in H. inv_rbind H. rename a into newP'.
    assert (Himage : exists image, call_QQ F (qz <$> Q) true = Ok image).
    { destruct Hfirst as [->|Hfirst]; [exists newP'; exact Ha|exact Hfirst]. }
    destruct (point_eq_QQ newP' (qz <$> Q)) eqn:Heq.
    + destruct (existsb _ gp) eqn:Hex; injection H as <-; [exact Hgp|].
      destruct Himage as [image Himage].
      apply (Inv_append Q gp k newP newP' image); auto.
      intros g Hg [Hg1 Hg2].
      assert (Hin : existsb
                (fun g => point_eq_QQ g.1 (qz <$> Q) && (g.2 =? k)) gp = true).
      { apply existsb_exists. exists g. split; [apply list_elem_of_In, Hg|].
        rewrite Hg1. apply Z.eqb_eq in Hg2. rewrite Hg2. reflexivity. }
      congruence.
    + apply (IH (k + 1) newP' gp gp'); auto.
Qed.

Lemma reconstruct_and_verify_inv T n gp gp' :
  Inv gp ->
  reconstruct_and_verify LLL F T n p L B gp = Ok gp' ->
  Inv gp'.
Proof.
  intros Hgp H. unfold reconstruct_and_verify in H.
  inv_rbind H. inv_rbind H. inv_rbind H. inv_rbind H. rename a2 into Q.
  destruct (existsb _ Q) eqn:Hex; [injection H as <-; exact Hgp|].
  apply (verify_periodic_inv Q (Z.to_nat n) 1 (qz <$> Q) gp gp'); auto.
  - exists T, a, a0, a1. auto.
  - rewrite (result_map_length _ _ _ Ha2), length_seq. reflexivity.
  - apply Forall_forall. intros c Hc.
    apply Qcnot_lt_le. intros Hlt.
    assert (Hin : existsb
              (fun c => bool_decide (B * qz (gcd_ZZ Q) < qz (Z.abs c))%Qc) Q
            = true).
    { apply existsb_exists. exists c. split; [apply list_elem_of_In, Hc|].
      apply bool_decide_eq_true. exact Hlt. }
    congruence.
Qed.

Lemma process_candidate_inv q gp appended gp' :
  Inv gp ->
  process_candidate LLL F q p L B gp = Some (Ok (appended, gp')) ->
  Inv gp'.
Proof.
  intros Hgp H. unfold process_candidate in H.
  destruct (do qindex <- last_unit_index p (cand_point q); _)
    as [[qindex T]|e]; [|discriminate].
  destruct (lift_loop _ _ _ _ _ _ _ _ _) as [[[[T'|] apd]|e]|];
    try discriminate.
  - destruct (reconstruct_and_verify _ _ _ _ _ _ _ _) as [gp1|e] eqn:E;
      [|discriminate].
    cbn [rbind] in H. injection H as <- <-.
    eapply reconstruct_and_verify_inv; eauto.
  - injection H as <- <-. exact Hgp.
Qed.

Lemma lift_candidates_inv fuel : forall points gp out,
  Inv gp ->
  lift_candidates LLL fuel F points p L B gp = Some (Ok out) ->
  Inv out.
Proof.
  induction fuel as [|fuel IH]; intros points gp out Hgp H.
  - destruct points; [|discriminate]. injection H as <-. exact Hgp.
  - destruct points as [|q rest]; [injection H as <-; exact Hgp|].
    cbn [lift_candidates] in H.
    destruct (process_candidate LLL F q p L B gp) as [[[apd gp1]|e]|] eqn:E;
      try discriminate.
    eapply IH; [|exact H]. eapply process_candidate_inv; eauto.
Qed.

Lemma lift_to_rational_periodic_inv fuel points_modp good_points :
  L = precision_target B (length F - 1) p ->
  Inv [] ->
  lift_to_rational_periodic precision_target LLL fuel F points_modp p B
  = Some (Ok good_points) ->
  Inv good_points.
Proof.
  intros HL Hnil H. unfold lift_to_rational_periodic in H.
  destruct points_modp; [injection H as <-; exact Hnil|].
  destruct (p =? 0); [discriminate|].
  rewrite <- HL in H.
  eapply lift_candidates_inv; [exact Hnil|exact H].
Qed.
End LifterInvariant.

Section LifterReturns.
Variable precision_target : Qc -> nat -> Z -> Z.
Variable LLL : list (list Z) -> list (list Z).

(** X4.  For a system of forms of one positive degree, every pair the
    lifter returns is a point of the space that is equal, as a point, to a
    tuple of integers [Q] read from row [1] of the matrix [LLL] returned
    for the lattice at precision [p^L]; [Q] is not the zero tuple and
    passed the height test: none of its entries exceeds [B * gcd(Q)] in
    absolute value. *)
Theorem lift_to_rational_periodic_within_height
    fuel F d points_modp p B good_points :
  is_homogeneous F d = true -> d <> O ->
  lift_to_rational_periodic precision_target LLL fuel F points_modp p B
  = Some (Ok good_points) ->
  forall g, g ∈ good_points ->
    of_bounded_height LLL F p (precision_target B (length F - 1) p) B g.
Proof.
  intros HF Hd H. apply Forall_forall.
  apply (lift_to_rational_periodic_inv precision_target LLL F B p
           (precision_target B (length F - 1) p)
           (Forall (of_bounded_height LLL F p
                      (precision_target B (length F - 1) p) B)))
    with (4 := H); [|reflexivity|constructor].
  intros Q gp k prev newP image Hrow Himage HQ HB Hgp Hcall Heq _.
  apply Forall_app. split; [exact Hgp|]. constructor; [|constructor].
  exists Q. split; [exact Hrow|]. split; [|split; [exact HB|split]].
  - assert (Hlen : length (qz <$> Q) = length F)
      by (rewrite length_fmap; exact HQ).
    destruct (call_QQ_defined_nonzero F d (qz <$> Q) image HF Hd Hlen Himage)
      as (i & x & Hi & Hx).
    apply list_lookup_fmap_Some_1 in Hi as (c & -> & Hc).
    exists c. split; [eapply list_elem_of_lookup_2; exact Hc|].
    intros ->. apply Hx. reflexivity.
  - exact (call_QQ_image F prev newP Hcall).
  - exact Heq.
Qed.

(** X5.  The list the lifter returns has no pair twice: two of its entries
    are different points or have different periods. *)
Theorem lift_to_rational_periodic_no_duplicates
    fuel F points_modp p B good_points :
  lift_to_rational_periodic precision_target LLL fuel F points_modp p B
  = Some (Ok good_points) ->
  distinct_pairs good_points.
Proof.
  intros H.
  apply (lift_to_rational_periodic_inv precision_target LLL F B p
           (precision_target B (length F - 1) p)
           (fun gp => Forall (fun g => valid_QQ F g.1) gp /\ distinct_pairs gp))
    with (4 := H);
    [|reflexivity|split; [constructor|intros i j g h Hi; discriminate]].
  intros Q gp k prev newP _ _ _ HQ HB [Hval Hdist] Hcall Heq Hnew.
  destruct (call_QQ_image F prev newP Hcall) as [Hlen Hnz].
  split.
  { apply Forall_app. split; [exact Hval|].
    constructor; [split; assumption|constructor]. }
  assert (Hold : forall g, g ∈ gp ->
            ~ (point_eq_QQ g.1 newP = true /\ g.2 = k)).
  { intros g Hg [Hg1 Hg2]. apply (Hnew g Hg). split; [|exact Hg2].
    rewrite Forall_forall in Hval. destruct (Hval g Hg) as [Hgl Hgn].
    apply (point_eq_QQ_trans g.1 newP); auto. congruence. }
  intros i j g h Hi Hj Hij [Hgh Hk].
  all: destruct (decide (i < length gp)%nat) as [Hil|Hil];
    destruct (decide (j < length gp)%nat) as [Hjl|Hjl].
  all: try (rewrite lookup_app_l in Hi by exact Hil).
  all: try (rewrite lookup_app_l in Hj by exact Hjl).
  all: try (rewrite lookup_app_r in Hi by lia).
  all: try (rewrite lookup_app_r in Hj by lia).
  - exact (Hdist i j g h Hi Hj Hij (conj Hgh Hk)).
  - destruct (j - length gp)%nat as [|j'] eqn:Ej; [|discriminate].
    injection Hj as <-. cbn [fst snd] in *.
    apply (Hold g); [eapply list_elem_of_lookup_2; eauto|]. auto.
  - destruct (i - length gp)%nat as [|i'] eqn:Ei; [|discriminate].
    injection Hi as <-. cbn [fst snd] in *.
    apply (Hold h); [eapply list_elem_of_lookup_2; eauto|].
    split; [apply point_eq_QQ_sym, Hgh|congruence].
  - destruct (i - length gp)%nat as [|i'] eqn:Ei; [|discriminate].
    destruct (j - length gp)%nat as [|j'] eqn:Ej; [|discriminate]. lia.
Qed.
End LifterReturns.

(** The third doctest: [(-1/4 : 1)] is the point [(-1 : 4)], the bound is
    [4], and the precision is [13^2]. *)
Lemma lift_to_rational_periodic_within_height_witness :
  of_bounded_height LLL_line lift_example_3 13
    (precision_target_exact (qz 4) (length lift_example_3 - 1) 13) (qz 4)
    ([qfrac (-1) 4; qz 1], 3).
Proof.
  apply (lift_to_rational_periodic_within_height
           precision_target_exact LLL_line 10 lift_example_3 2
           [([3; 1], 3)] 13 (qz 4) [([qfrac (-1) 4; qz 1], 3)]).
  - reflexivity.
  - discriminate.
  - exact lift_doctest_3.
  - left.
Defined.

(** The second doctest: three fixed points, all different. *)
Lemma lift_to_rational_periodic_no_duplicates_witness :
  distinct_pairs [([qz 1; qz 0], 1); ([qfrac 2 3; qz 1], 1);
                  ([qfrac (-2) 3; qz 1], 1)].
Proof.
  apply (lift_to_rational_periodic_no_duplicates
           precision_target_exact LLL_line 100 lift_example_2
           [([1; 0], 1)] 3 (qz 3)).
  exact lift_doctest_2.
Defined.

(** ** [orbit_structure] *)

Section OrbitStructureFacts.
Context {Point : Type}.
Variable point_eq : Point -> Point -> bool.
Variable call : Point -> result Point.
Variable normalize_coordinates : Point -> result Point.

Abbreviation img := (structure_image call normalize_coordinates).
Abbreviation structure_loop :=
  (orbit_structure_loop point_eq call normalize_coordinates).

Lemma index_first D : forall val i,
  index point_eq D val = Some i ->
  forall j d, (j < i)%nat -> D !! j = Some d -> point_eq d val = false.
Proof.
  induction D as [|d0 D IH]; intros val i H j d Hj Hd; [discriminate|].
  simpl in H. destruct (point_eq d0 val) eqn:E.
  - injection H as <-. lia.
  - destruct (index point_eq D val) as [i'|] eqn:Ei; [|discriminate].
    injection H as <-. destruct j as [|j].
    + injection Hd as <-. exact E.
    + apply (IH val i' Ei j d); [lia|exact Hd].
Qed.

Lemma structure_image_succ i P :
  img (S i) P
  = do Q <- img i P; do Q' <- call Q; normalize_coordinates Q'.
Proof. reflexivity. Qed.

Abbreviation structure_inv :=
  (structure_inv point_eq call normalize_coordinates).

Lemma orbit_structure_found P orbit Q index' I' :
  structure_inv P orbit Q index' ->
  index point_eq orbit Q = Some I' ->
  let m := Z.of_nat I' in
  let n := index' - Z.of_nat I' - 1 in
  0 <= m /\ 1 <= n /\
  (exists a b, img (Z.to_nat m) P = Ok a /\
               img (Z.to_nat (m + n)) P = Ok b /\ point_eq a b = true) /\
  (forall i j a b, (i < j)%nat -> (j < Z.to_nat (m + n))%nat ->
     img i P = Ok a -> img j P = Ok b -> point_eq a b = false) /\
  (forall i a b, (i < Z.to_nat m)%nat ->
     img i P = Ok a -> img (Z.to_nat (m + n)) P = Ok b ->
     point_eq a b = false).
Proof.
  intros (Himg & HQ & Hidx & Hdist) HI m n. subst m n.
  destruct (index_Some point_eq _ _ _ HI) as (d & Hd & Hdq).
  pose proof (lookup_lt_Some _ _ _ Hd) as HIlt.
  replace (Z.of_nat I' + (index' - Z.of_nat I' - 1))
    with (Z.of_nat (length orbit)) by lia.
  rewrite !Nat2Z.id.
  split; [lia|]. split; [lia|]. split; [|split].
  - exists d, Q. split; [apply Himg, Hd|]. split; [exact HQ|exact Hdq].
  - intros i j a b Hij Hj Ha Hb.
    destruct (lookup_lt_is_Some_2 orbit j Hj) as [b' Hb'].
    destruct (lookup_lt_is_Some_2 orbit i ltac:(lia)) as [a' Ha'].
    rewrite (Himg _ _ Ha') in Ha. rewrite (Himg _ _ Hb') in Hb.
    injection Ha as <-. injection Hb as <-.
    exact (Hdist _ _ _ _ Hij Ha' Hb').
  - intros i a b Hi Ha Hb. rewrite HQ in Hb. injection Hb as <-.
    destruct (lookup_lt_is_Some_2 orbit i ltac:(lia)) as [a' Ha'].
    rewrite (Himg _ _ Ha') in Ha. injection Ha as <-.
    exact (index_first _ _ _ HI i a' Hi Ha').
Qed.

Lemma orbit_structure_loop_spec P fuel : forall orbit Q index' m n,
  structure_inv P orbit Q index' ->
  structure_loop fuel orbit Q index' = Some (Ok (m, n)) ->
  0 <= m /\ 1 <= n /\
  (exists a b, img (Z.to_nat m) P = Ok a /\
               img (Z.to_nat (m + n)) P = Ok b /\ point_eq a b = true) /\
  (forall i j a b, (i < j)%nat -> (j < Z.to_nat (m + n))%nat ->
     img i P = Ok a -> img j P = Ok b -> point_eq a b = false) /\
  (forall i a b, (i < Z.to_nat m)%nat ->
     img i P = Ok a -> img (Z.to_nat (m + n)) P = Ok b ->
     point_eq a b = false).
Proof.
  induction fuel as [|fuel IH]; intros orbit Q index' m n Hinv H.
  - cbn [orbit_structure_loop] in H.
    destruct (index point_eq orbit Q) as [I'|] eqn:HI; [|discriminate].
    injection H as <- <-. exact (orbit_structure_found P _ _ _ _ Hinv HI).
  - cbn [orbit_structure_loop] in H.
    destruct (index point_eq orbit Q) as [I'|] eqn:HI.
    { injection H as <- <-. exact (orbit_structure_found P _ _ _ _ Hinv HI). }
    destruct Hinv as (Himg & HQ & Hidx & Hdist).
    destruct (do Q' <- call Q; normalize_coordinates Q') as [Q'|e] eqn:Hstep;
      [|discriminate].
    apply (IH (orbit ++ [Q]) Q' (index' + 1) m n); [|exact H].
    split; [|split; [|split]].
    + intros i d Hd. apply lookup_snoc_Some in Hd as [[_ Hd]|[Hi Hq]];
        [auto|subst i d; exact HQ].
    + rewrite length_app. cbn [length].
      rewrite Nat.add_1_r, structure_image_succ, HQ. exact Hstep.
    + rewrite length_app. cbn [length]. lia.
    + intros i j a b Hij Ha Hb.
      apply lookup_snoc_Some in Hb as [[Hjl Hb]|[Hj Hq]].
      * rewrite lookup_app_l in Ha by lia. eauto.
      * subst j b. rewrite lookup_app_l in Ha by lia.
        apply (index_None point_eq _ _ HI).
        eapply list_elem_of_lookup_2; eauto.
Qed.

(** X6.  When [orbit_structure(P)] returns [(m, n)], the point of index
    [m + n] of the normalised orbit of [P] is the first that is equal to an
    earlier one, and [m] is the first index it is equal to: [n >= 1],
    [f^(m+n)(P) == f^m(P)], no two of the first [m + n] points are equal,
    and the point of index [m + n] is equal to none before [m]. *)
Theorem orbit_structure_first_repeat fuel P m n :
  orbit_structure point_eq call normalize_coordinates fuel P
  = Some (Ok (m, n)) ->
  0 <= m /\ 1 <= n /\
  (exists a b, img (Z.to_nat m) P = Ok a /\
               img (Z.to_nat (m + n)) P = Ok b /\ point_eq a b = true) /\
  (forall i j a b, (i < j)%nat -> (j < Z.to_nat (m + n))%nat ->
     img i P = Ok a -> img j P = Ok b -> point_eq a b = false) /\
  (forall i a b, (i < Z.to_nat m)%nat ->
     img i P = Ok a -> img (Z.to_nat (m + n)) P = Ok b ->
     point_eq a b = false).
Proof.
  unfold orbit_structure. intros H.
  destruct (normalize_coordinates P) as [Q|e] eqn:HQ; [|discriminate].
  apply (orbit_structure_loop_spec P fuel [] Q 1 m n); [|exact H].
  split; [intros i d Hd; discriminate|]. split; [exact HQ|].
  split; [reflexivity|]. intros i j a b _ Ha. discriminate.
Qed.
End OrbitStructureFacts.

(** The docstring: [f.orbit_structure(P(3,4))] is [(2, 3)] over [GF(13)],
    and [(0, 6)] for [P(2,1,2)] over [GF(5)]. *)
Example orbit_structure_doctests :
  orbit_structure_GF 13 orbit_structure_example 14 [3; 4] = Some (Ok (2, 3))
  /\
  orbit_structure_GF 5 orbit_structure_example_plane 31 [2; 1; 2]
  = Some (Ok (0, 6)).
Proof. split; vm_compute; reflexivity. Qed.

Lemma orbit_structure_first_repeat_witness :
  exists a b,
    structure_image (fun Q => call_GF 13 orbit_structure_example Q true)
      (normalize_coordinates_GF 13) 2 [3; 4] = Ok a /\
    structure_image (fun Q => call_GF 13 orbit_structure_example Q true)
      (normalize_coordinates_GF 13) 5 [3; 4] = Ok b /\
    point_eq_mod 13 a b = true.
Proof.
  destruct (orbit_structure_first_repeat (point_eq_mod 13)
              (fun Q => call_GF 13 orbit_structure_example Q true)
              (normalize_coordinates_GF 13) 14 [3; 4] 2 3)
    as (_ & _ & Hrep & _).
  - vm_compute. reflexivity.
  - exact Hrep.
Defined.

Section OrbitStructureEnds.
Context {Point : Type}.
Variable point_eq : Point -> Point -> bool.
Variable call : Point -> result Point.
Variable normalize_coordinates : Point -> result Point.
(** The points of a finite space, up to equality: every valid point is
    equal to one of [space]. *)
Variable valid : Point -> Prop.
Variable space : list Point.
Hypothesis point_eq_sym : forall a b,
  valid a -> valid b -> point_eq a b = true -> point_eq b a = true.
Hypothesis point_eq_trans : forall a b c,
  valid a -> valid b -> valid c ->
  point_eq a b = true -> point_eq b c = true -> point_eq a c = true.
Hypothesis space_valid : forall s, s ∈ space -> valid s.
Hypothesis space_covers : forall Q,
  valid Q -> exists s, s ∈ space /\ point_eq s Q = true.
Hypothesis normalize_valid : forall P Q,
  valid P -> normalize_coordinates P = Ok Q -> valid Q.
Hypothesis call_valid : forall P Q,
  valid P -> call P = Ok Q -> valid Q.

(** Points that are pairwise unequal are no more than the space has. *)
Lemma unequal_points_fit (D : list Point) :
  Forall valid D ->
  (forall i j a b, (i < j)%nat -> D !! i = Some a -> D !! j = Some b ->
     point_eq a b = false) ->
  (length D <= length space)%nat.
Proof.
  intros Hval Hdist.
  set (pos := fun d => default O (index point_eq space d)).
  assert (Hpos : forall d, d ∈ D ->
            exists s, space !! pos d = Some s /\ point_eq s d = true).
  { intros d Hd. rewrite Forall_forall in Hval.
    destruct (space_covers d (Hval d Hd)) as (s & Hs & Hsd).
    destruct (index_found point_eq space d s Hs Hsd) as [i Hi].
    unfold pos. rewrite Hi. cbn [default].
    apply (index_Some point_eq _ _ _ Hi). }
  assert (Hsub : (pos <$> D) ⊆+ seq 0 (length space)).
  { apply NoDup_submseteq.
    - apply NoDup_alt. intros i j k Hi Hj.
      rewrite list_lookup_fmap in Hi, Hj.
      destruct (D !! i) as [a|] eqn:Ha; [|discriminate].
      destruct (D !! j) as [b|] eqn:Hb; [|discriminate].
      injection Hi as Hi. injection Hj as Hj.
      assert (Hva : valid a).
      { rewrite Forall_forall in Hval. apply Hval.
        eapply list_elem_of_lookup_2; eauto. }
      assert (Hvb : valid b).
      { rewrite Forall_forall in Hval. apply Hval.
        eapply list_elem_of_lookup_2; eauto. }
      destruct (Hpos a) as (s & Hs & Hsa);
        [eapply list_elem_of_lookup_2; eauto|].
      destruct (Hpos b) as (s' & Hs' & Hsb);
        [eapply list_elem_of_lookup_2; eauto|].
      rewrite Hi in Hs. rewrite Hj in Hs'. rewrite Hs in Hs'.
      injection Hs' as <-.
      assert (Hvs : valid s)
        by (apply space_valid; eapply list_elem_of_lookup_2; eauto).
      assert (Hab : point_eq a b = true)
        by (apply (point_eq_trans a s b); auto).
      assert (Hba : point_eq b a = true) by (apply point_eq_sym; auto).
      destruct (Nat.lt_trichotomy i j) as [Hlt|[Heq|Hgt]]; [|exact Heq|].
      + rewrite (Hdist i j a b Hlt Ha Hb) in Hab. discriminate.
      + rewrite (Hdist j i b a Hgt Hb Ha) in Hba. discriminate.
    - intros k Hk. apply list_elem_of_fmap in Hk as (d & -> & Hd).
      destruct (Hpos d Hd) as (s & Hs & _).
      apply elem_of_seq. pose proof (lookup_lt_Some _ _ _ Hs). lia. }
  apply submseteq_length in Hsub.
  rewrite length_fmap, length_seq in Hsub. exact Hsub.
Qed.

Lemma unequal_points_snoc (orbit : list Point) (Q : Point) :
  (forall i j a b, (i < j)%nat -> orbit !! i = Some a -> orbit !! j = Some b ->
     point_eq a b = false) ->
  index point_eq orbit Q = None ->
  forall i j a b, (i < j)%nat ->
    (orbit ++ [Q]) !! i = Some a -> (orbit ++ [Q]) !! j = Some b ->
    point_eq a b = false.
Proof.
  intros Hdist HI i j a b Hij Ha Hb.
  apply lookup_snoc_Some in Hb as [[Hjl Hb]|[Hj Hq]].
  - rewrite lookup_app_l in Ha by lia. eauto.
  - subst j b. rewrite lookup_app_l in Ha by lia.
    apply (index_None point_eq _ _ HI). eapply list_elem_of_lookup_2; eauto.
Qed.

Lemma orbit_structure_loop_ends fuel : forall orbit Q index',
  Forall valid orbit -> valid Q ->
  (forall i j a b, (i < j)%nat -> orbit !! i = Some a -> orbit !! j = Some b ->
     point_eq a b = false) ->
  index' = Z.of_nat (length orbit) + 1 ->
  (length space <= fuel + length orbit)%nat ->
  exists r,
    orbit_structure_loop point_eq call normalize_coordinates fuel orbit Q
      index' = Some r /\
    forall m n, r = Ok (m, n) -> m + n <= Z.of_nat (length space).
Proof.
  induction fuel as [|fuel IH]; intros orbit Q index' Hval HQ Hdist Hidx Hfuel.
  - pose proof (unequal_points_fit orbit Hval Hdist) as Hfit.
    cbn [orbit_structure_loop].
    destruct (index point_eq orbit Q) as [I'|] eqn:HI.
    + eexists. split; [reflexivity|]. intros m n E. injection E as <- <-. lia.
    + assert (Hval' : Forall valid (orbit ++ [Q]))
        by (apply Forall_app; split; [exact Hval|constructor; auto]).
      pose proof (unequal_points_fit _ Hval'
                    (unequal_points_snoc orbit Q Hdist HI)) as Hfit'.
      rewrite length_app in Hfit'. cbn [length] in Hfit'. lia.
  - pose proof (unequal_points_fit orbit Hval Hdist) as Hfit.
    cbn [orbit_structure_loop].
    destruct (index point_eq orbit Q) as [I'|] eqn:HI.
    + eexists. split; [reflexivity|]. intros m n E. injection E as <- <-. lia.
    + assert (Hval' : Forall valid (orbit ++ [Q]))
        by (apply Forall_app; split; [exact Hval|constructor; auto]).
      destruct (call Q) as [Q1|e] eqn:Hcall; cbn [rbind];
        [|eexists; split; [reflexivity|]; intros m n E; discriminate].
      destruct (normalize_coordinates Q1) as [Q'|e] eqn:Hnorm;
        [|eexists; split; [reflexivity|]; intros m n E; discriminate].
      apply IH.
      * exact Hval'.
      * eapply normalize_valid; [|exact Hnorm]. eapply call_valid; eauto.
      * apply unequal_points_snoc; assumption.
      * rewrite length_app. cbn [length]. lia.
      * rewrite length_app. cbn [length]. lia.
Qed.

(** X7.  Over a finite space [orbit_structure] ends: on a valid point [P]
    the loop runs at most as many times as the space has points; the call
    raises what an evaluation raises, and a pair [(m, n)] it returns has
    [m + n] at most the number of points. *)
Theorem orbit_structure_ends_on_finite_space P :
  valid P ->
  exists r,
    orbit_structure point_eq call normalize_coordinates (length space) P
    = Some r /\
    forall m n, r = Ok (m, n) -> m + n <= Z.of_nat (length space).
Proof.
  intros HP. unfold orbit_structure.
  destruct (normalize_coordinates P) as [Q|e] eqn:HQ.
  - apply orbit_structure_loop_ends.
    + constructor.
    + eapply normalize_valid; eauto.
    + intros i j a b _ Ha. discriminate.
    + reflexivity.
    + cbn [length]. lia.
  - eexists. split; [reflexivity|]. intros m n E. discriminate.
Qed.
End OrbitStructureEnds.

Lemma forallb_elem_of {A : Type} (f : A -> bool) (l : list A) :
  forallb f l = true -> forall x, x ∈ l -> f x = true.
Proof.
  intros H x Hx. rewrite forallb_forall in H. apply H, list_elem_of_In, Hx.
Qed.

(** The line over [GF(13)] with [f = [x^2 - y^2, y^2]]: fourteen points. *)
Lemma orbit_structure_ends_on_finite_space_witness :
  exists r,
    orbit_structure_GF 13 orbit_structure_example 14 [4; 1] = Some r /\
    forall m n, r = Ok (m, n) -> m + n <= 14.
Proof.
  set (space := points_of_projective_space 13 1).
  apply (orbit_structure_ends_on_finite_space (point_eq_mod 13)
           (fun Q => call_GF 13 orbit_structure_example Q true)
           (normalize_coordinates_GF 13) (fun P => P ∈ space) space).
  - intros a b Ha Hb.
    assert (Hall : forallb (fun a => forallb (fun b =>
              implb (point_eq_mod 13 a b) (point_eq_mod 13 b a)) space) space
            = true) by (vm_compute; reflexivity).
    pose proof (forallb_elem_of _ _ (forallb_elem_of _ _ Hall a Ha) b Hb) as E.
    cbn beta in E. intros Hab. rewrite Hab in E. exact E.
  - intros a b c Ha Hb Hc.
    assert (Hall : forallb (fun a => forallb (fun b => forallb (fun c =>
              implb (point_eq_mod 13 a b && point_eq_mod 13 b c)
                (point_eq_mod 13 a c)) space) space) space = true)
      by (vm_compute; reflexivity).
    pose proof (forallb_elem_of _ _
                  (forallb_elem_of _ _ (forallb_elem_of _ _ Hall a Ha) b Hb)
                  c Hc) as E.
    cbn beta in E. intros Hab Hbc. rewrite Hab, Hbc in E. exact E.
  - intros s Hs. exact Hs.
  - intros Q HQ. exists Q. split; [exact HQ|].
    assert (Hall : forallb (fun a => point_eq_mod 13 a a) space = true)
      by (vm_compute; reflexivity).
    exact (forallb_elem_of _ _ Hall Q HQ).
  - intros P Q HP.
    assert (Hall : forallb (fun P =>
              match normalize_coordinates_GF 13 P with
              | Ok Q => bool_decide (Q ∈ space)
              | Raise _ => true
              end) space = true) by (vm_compute; reflexivity).
    pose proof (forallb_elem_of _ _ Hall P HP) as E. cbn beta in E.
    intros HQ. rewrite HQ in E. exact (proj1 (bool_decide_eq_true _) E).
  - intros P Q HP.
    assert (Hall : forallb (fun P =>
              match call_GF 13 orbit_structure_example P true with
              | Ok Q => bool_decide (Q ∈ space)
              | Raise _ => true
              end) space = true) by (vm_compute; reflexivity).
    pose proof (forallb_elem_of _ _ Hall P HP) as E. cbn beta in E.
    intros HQ. rewrite HQ in E. exact (proj1 (bool_decide_eq_true _) E).
  - refine (bool_decide_unpack _ _). vm_compute. exact I.
Defined.

(** ** The sieve does not depend on the order of the answers *)

Lemma intersect_results_perm {Reduced : Type}
    (rs rs' : list (Reduced * list Z)) :
  rs ≡ₚ rs' ->
  intersect_results rs false ∅ = intersect_results rs' false ∅.
Proof.
  intros Hperm.
  destruct (intersect_results_false rs ∅) as [[Hnil E]|(Hne & T & E & Hmem)];
  destruct (intersect_results_false rs' ∅)
    as [[Hnil' E']|(Hne' & T' & E' & Hmem')].
  - congruence.
  - rewrite Hnil in Hperm. apply Permutation_nil_l in Hperm.
    destruct (Hne' (eq_sym Hperm)).
  - rewrite Hnil' in Hperm. apply Permutation_nil_r in Hperm.
    destruct (Hne Hperm).
  - rewrite E, E'. f_equal. apply set_eq. intros x.
    rewrite Hmem, Hmem'. split; intros Hall r Hr; apply Hall.
    + rewrite Hperm. exact Hr.
    + rewrite <- Hperm. exact Hr.
Qed.

(** X8.  With workers that return, [possible_periods] returns the same
    list, or raises the same error, whatever the order in which the workers
    of the pool answer: two pools that each give back every input once with
    its output are interchangeable. *)
Theorem possible_periods_independent_of_answer_order
    {System Reduced : Type}
    (base_ring_ZZ_or_QQ : System -> bool)
    (primes_of_bad_reduction : System -> result (list Z))
    (change_ring_GF : System -> Z -> result Reduced)
    (possible_periods_GF : Reduced -> result (list Z))
    (pool pool' :
       (Reduced -> result (list Z)) -> list Reduced
       -> result (list (Reduced * list Z)))
    (f : System) (kwds : periods_kwds) :
  (forall F, exists l, possible_periods_GF F = Ok l) ->
  (forall g l ys, result_map g l = Ok ys ->
     exists rs, pool g l = Ok rs /\ rs ≡ₚ zip l ys) ->
  (forall g l ys, result_map g l = Ok ys ->
     exists rs, pool' g l = Ok rs /\ rs ≡ₚ zip l ys) ->
  possible_periods base_ring_ZZ_or_QQ primes_of_bad_reduction change_ring_GF
    possible_periods_GF pool f kwds
  = possible_periods base_ring_ZZ_or_QQ primes_of_bad_reduction change_ring_GF
      possible_periods_GF pool' f kwds.
Proof.
  intros Hwork Hpool Hpool'. unfold possible_periods.
  destruct (negb (base_ring_ZZ_or_QQ f)); [reflexivity|].
  destruct (bad_primes_of primes_of_bad_reduction f kwds) as [badprimes|e];
    cbn [rbind]; [|reflexivity].
  destruct (result_map (change_ring_GF f) _) as [Fs|e]; cbn [rbind];
    [|reflexivity].
  destruct (result_map_defined possible_periods_GF Fs) as (ys & Hys & _);
    [intros F _; apply Hwork|].
  destruct (Hpool possible_periods_GF Fs ys Hys) as (rs & -> & Hrs).
  destruct (Hpool' possible_periods_GF Fs ys Hys) as (rs' & -> & Hrs').
  cbn [rbind].
  rewrite (intersect_results_perm rs rs'); [reflexivity|].
  rewrite Hrs, Hrs'. reflexivity.
Qed.

Lemma p_iter_reversed_perm {A B : Type} (g : A -> result B) (l : list A) :
  forall ys, result_map g l = Ok ys ->
  exists rs, p_iter_reversed g l = Ok rs /\ rs ≡ₚ zip l ys.
Proof.
  intros ys H. destruct (p_iter_serial_perm g l ys H) as (rs & Hrs & Hperm).
  exists (rev rs). unfold p_iter_reversed. rewrite Hrs. cbn [rbind].
  split; [reflexivity|]. rewrite <- Hperm. symmetry. apply Permutation_rev.
Qed.

(** The example of the docstring with the answers in either order. *)
Lemma possible_periods_independent_of_answer_order_witness :
  possible_periods (fun _ => true) primes_of_bad_reduction_quadratic
    change_ring_GF_line possible_periods_GF_line p_iter_serial
    possible_periods_example default_periods_kwds
  = possible_periods (fun _ => true) primes_of_bad_reduction_quadratic
      change_ring_GF_line possible_periods_GF_line p_iter_reversed
      possible_periods_example default_periods_kwds.
Proof.
  apply possible_periods_independent_of_answer_order.
  - intros F. eexists. reflexivity.
  - intros g l. apply p_iter_serial_perm.
  - intros g l. apply p_iter_reversed_perm.
Defined.

(** ** The Green function: the sum and the next point *)

Section GreenRecurrence.
Context {Point : Type}.
Variable log_max_abs : Point -> R.
Variable next_iterate : Point -> Point.

Lemma foldr_Rplus_scale (c : R) (l : list R) :
  foldr Rplus 0%R ((fun x => (c * x)%R) <$> l)
  = (c * foldr Rplus 0%R l)%R.
Proof.
  induction l as [|x l IH]; cbn [fmap list_fmap foldr]; [lra|].
  fold (fmap (M:=list) (fun x => (c * x)%R) l). rewrite IH. lra.
Qed.

(** X9.  The sum for [N + 1] is the logarithm at the point plus [1/d] times
    the sum for [N] at the next point: the loop adds the terms
    [(1/d)^i * log|f^i(Q)|] and moves to the next point only while
    [i < N]. *)
Theorem green_series_next_point (d N : Z) (Q : Point) :
  0 <= N ->
  green_series log_max_abs next_iterate d (N + 1) Q
  = (log_max_abs Q
     + 1 / IZR d * green_series log_max_abs next_iterate d N (next_iterate Q))%R.
Proof.
  intros HN.
  destruct (green_series_terms log_max_abs next_iterate d (N + 1) Q)
    as [-> _]; [lia|].
  destruct (green_series_terms log_max_abs next_iterate d N (next_iterate Q))
    as [-> _]; [lia|].
  unfold series_terms.
  replace (Z.to_nat (N + 1) + 1)%nat with (S (Z.to_nat N + 1)) by lia.
  cbn [seq fmap list_fmap foldr]. rewrite <- fmap_S_seq.
  fold (fmap (M:=list)
          (fun i => ((1 / IZR d) ^ i
                     * log_max_abs (Nat.iter i next_iterate Q))%R)
          (S <$> seq 0 (Z.to_nat N + 1))).
  rewrite <- list_fmap_compose, <- foldr_Rplus_scale, <- list_fmap_compose.
  cbn [pow]. change (Nat.iter 0 next_iterate Q) with Q.
  rewrite Rmult_1_l. f_equal. f_equal.
  apply list_fmap_ext. intros k i _. cbn [compose pow].
  rewrite Nat.iter_succ_r. ring.
Qed.
End GreenRecurrence.

Lemma green_series_next_point_witness :
  green_series (fun x : R => x) (fun x : R => (2 * x)%R) 2 (0 + 1) 1%R
  = (1 + 1 / IZR 2
         * green_series (fun x : R => x) (fun x : R => (2 * x)%R) 2 0
             (2 * 1))%R.
Proof.
  apply (green_series_next_point (fun x : R => x)
           (fun x : R => (2 * x)%R) 2 0 1%R).
  lia.
Defined.

(** ** [all_rational_preimages] *)

Lemma elem_of_rev {A : Type} (x : A) (l : list A) : x ∈ rev l <-> x ∈ l.
Proof. rewrite !list_elem_of_In. symmetry. apply in_rev. Qed.

Section AllRationalPreimagesFacts.
Context {Point : Type}.
Variable point_eq : Point -> Point -> bool.
Variable rational_preimages : Point -> result (list Point).

Abbreviation repr := (represented point_eq).
Abbreviation in_order := (unequal_in_order point_eq).

Lemma in_set_true S0 x : in_set point_eq S0 x = true <-> repr S0 x.
Proof.
  unfold in_set, represented. rewrite existsb_exists. split.
  - intros (s & Hs & Hsx). exists s. split; [apply list_elem_of_In, Hs|exact Hsx].
  - intros (s & Hs & Hsx). exists s. split; [apply list_elem_of_In, Hs|exact Hsx].
Qed.

Lemma in_set_false S0 x :
  in_set point_eq S0 x = false -> forall s, s ∈ S0 -> point_eq s x = false.
Proof.
  intros H s Hs. destruct (point_eq s x) eqn:E; [|reflexivity].
  assert (in_set point_eq S0 x = true) by (apply in_set_true; exists s; auto).
  congruence.
Qed.

Lemma represented_mono S0 S1 x :
  S0 ⊆ S1 -> repr S0 x -> repr S1 x.
Proof. intros Hsub (s & Hs & Hsx). exists s. auto. Qed.

Lemma unequal_in_order_snoc S0 x :
  in_order S0 -> in_set point_eq S0 x = false -> in_order (S0 ++ [x]).
Proof.
  intros HS Hx i j a b Hij Ha Hb.
  apply lookup_snoc_Some in Hb as [[Hjl Hb]|[Hj Hq]].
  - rewrite lookup_app_l in Ha by lia. eauto.
  - subst j b. rewrite lookup_app_l in Ha by lia.
    apply (in_set_false S0 x Hx). eapply list_elem_of_lookup_2; eauto.
Qed.

Hypothesis point_eq_refl : forall a, point_eq a a = true.

(** The inner loop: the new points are preimages, in the order met; they
    go on top of [points] and at the end of the set, and afterwards every
    preimage is represented in the set. *)
Lemma add_preimages_spec preimages : forall points S0,
  in_order S0 ->
  exists new,
    add_preimages point_eq preimages points S0
    = (rev new ++ points, S0 ++ new) /\
    new ⊆ preimages /\
    in_order (S0 ++ new) /\
    forall x, x ∈ preimages -> repr (S0 ++ new) x.
Proof.
  induction preimages as [|x rest IH]; intros points S0 HS.
  - exists []. cbn [add_preimages rev app]. rewrite app_nil_r.
    split; [reflexivity|]. split; [intros y Hy; exact Hy|].
    split; [exact HS|]. intros x Hx. inversion Hx.
  - cbn [add_preimages]. destruct (in_set point_eq S0 x) eqn:Hin.
    + destruct (IH points S0 HS) as (new & -> & Hsub & Hord & Hrep).
      exists new. split; [reflexivity|].
      split; [intros y Hy; right; apply Hsub, Hy|].
      split; [exact Hord|]. intros y Hy.
      apply elem_of_cons in Hy as [->|Hy]; [|auto].
      apply in_set_true in Hin.
      eapply represented_mono; [|exact Hin].
      intros s Hs. apply elem_of_app. left. exact Hs.
    + destruct (IH (x :: points) (S0 ++ [x])
                  (unequal_in_order_snoc S0 x HS Hin))
        as (new & -> & Hsub & Hord & Hrep).
      exists (x :: new). cbn [rev]. rewrite <- !app_assoc. cbn [app].
      split; [reflexivity|].
      split.
      { intros y Hy. apply elem_of_cons in Hy as [->|Hy];
          [left|right; apply Hsub, Hy]. }
      rewrite <- app_assoc in Hord, Hrep. cbn [app] in Hord, Hrep.
      split; [exact Hord|]. intros y Hy.
      apply elem_of_cons in Hy as [->|Hy]; [|auto].
      exists x. split; [|apply point_eq_refl].
      apply elem_of_app. right. left.
Qed.

Abbreviation preimages_inv :=
  (preimages_inv point_eq rational_preimages).

Lemma all_rational_preimages_loop_spec inputs fuel : forall points S0 result,
  preimages_inv inputs points S0 ->
  all_rational_preimages_loop point_eq rational_preimages fuel points S0
  = Some (Ok result) ->
  in_order result /\
  (forall P, P ∈ inputs \/ P ∈ result ->
     exists pre, rational_preimages P = Ok pre /\
       forall x, x ∈ pre -> repr result x) /\
  (forall s, s ∈ result ->
     exists P pre, (P ∈ inputs \/ P ∈ result) /\
       rational_preimages P = Ok pre /\ s ∈ pre).
Proof.
  induction fuel as [|fuel IH]; intros points S0 result Hinv H.
  all: destruct points as [|P rest]; [|try discriminate].
  1, 2: injection H as <-; destruct Hinv as (Hord & _ & Hproc & Hsound);
        split; [exact Hord|]; split; [|exact Hsound];
        intros P HP; destruct (Hproc P HP) as [Hin|Hdone];
        [inversion Hin|exact Hdone].
  cbn [all_rational_preimages_loop] in H.
  destruct (rational_preimages P) as [pre|e] eqn:Hpre; [|discriminate].
  destruct Hinv as (Hord & Hpts & Hproc & Hsound).
  destruct (add_preimages_spec pre rest S0 Hord)
    as (new & Hadd & Hsub & Hord' & Hrep).
  rewrite Hadd in H. apply (IH _ _ _) in H; [exact H|].
  assert (HP : P ∈ inputs \/ P ∈ S0) by (apply Hpts; left).
  split; [exact Hord'|]. split; [|split].
  - intros Q HQ. apply elem_of_app in HQ as [HQ|HQ].
    + right. apply elem_of_app. right. apply elem_of_rev. exact HQ.
    + destruct (Hpts Q) as [Hi|Hs]; [right; exact HQ|left; exact Hi|].
      right. apply elem_of_app. left. exact Hs.
  - intros Q HQ.
    assert (HQ' : (Q ∈ inputs \/ Q ∈ S0) \/ Q ∈ new).
    { destruct HQ as [HQ|HQ]; [left; left; exact HQ|].
      apply elem_of_app in HQ as [HQ|HQ]; [left; right; exact HQ|right; exact HQ]. }
    destruct HQ' as [HQ'|HQ'].
    + destruct (Hproc Q HQ') as [Hin|(pre' & Hpre' & Hall)].
      * apply elem_of_cons in Hin as [->|Hin].
        -- right. exists pre. split; [exact Hpre|exact Hrep].
        -- left. apply elem_of_app. right. exact Hin.
      * right. exists pre'. split; [exact Hpre'|]. intros x Hx.
        eapply represented_mono; [|apply Hall, Hx].
        intros s Hs. apply elem_of_app. left. exact Hs.
    + left. apply elem_of_app. left. apply elem_of_rev. exact HQ'.
  - intros s Hs. apply elem_of_app in Hs as [Hs|Hs].
    + destruct (Hsound s Hs) as (P0 & pre0 & HP0 & Hpre0 & Hin0).
      exists P0, pre0. split; [|split; assumption].
      destruct HP0 as [HP0|HP0]; [left; exact HP0|].
      right. apply elem_of_app. left. exact HP0.
    + exists P, pre. split; [|split; [exact Hpre|apply Hsub, Hs]].
      destruct HP as [HP|HP]; [left; exact HP|].
      right. apply elem_of_app. left. exact HP.
Qed.

Lemma all_rational_preimages_spec fuel inputs result :
  all_rational_preimages point_eq true rational_preimages fuel inputs
  = Some (Ok result) ->
  in_order result /\
  (forall P, P ∈ inputs \/ P ∈ result ->
     exists pre, rational_preimages P = Ok pre /\
       forall x, x ∈ pre -> repr result x) /\
  (forall s, s ∈ result ->
     exists P pre, (P ∈ inputs \/ P ∈ result) /\
       rational_preimages P = Ok pre /\ s ∈ pre).
Proof.
  unfold all_rational_preimages. cbn [negb]. intros H.
  apply (all_rational_preimages_loop_spec inputs fuel (rev inputs) []);
    [|exact H].
  split; [intros i j a b _ Ha; discriminate|]. split; [|split].
  - intros P HP. left. apply elem_of_rev. exact HP.
  - intros P [HP|HP]; [left; apply elem_of_rev; exact HP|inversion HP].
  - intros s Hs. inversion Hs.
Qed.

(** X10.  Outside a number field [all_rational_preimages] raises
    [TypeError].  When it returns, each point of the result is a rational
    preimage of an input point or of a point of the result; the rational
    preimages of every input point and of every point of the result are
    represented in it; and no point of the result is equal to an earlier
    one.  The input points themselves are not put into the result. *)
Theorem all_rational_preimages_closed_under_preimages
    (base_ring_in_NumberFields : bool) fuel inputs :
  (base_ring_in_NumberFields = false ->
   all_rational_preimages point_eq base_ring_in_NumberFields
     rational_preimages fuel inputs
   = Some (Raise (TypeError "field won't return finite list of elements")))
  /\
  (forall result,
     all_rational_preimages point_eq base_ring_in_NumberFields
       rational_preimages fuel inputs = Some (Ok result) ->
     in_order result /\
     (forall P, P ∈ inputs \/ P ∈ result ->
        exists pre, rational_preimages P = Ok pre /\
          forall x, x ∈ pre -> repr result x) /\
     (forall s, s ∈ result ->
        exists P pre, (P ∈ inputs \/ P ∈ result) /\
          rational_preimages P = Ok pre /\ s ∈ pre)).
Proof.
  unfold all_rational_preimages. split.
  - intros ->. reflexivity.
  - intros result H. destruct base_ring_in_NumberFields; [|discriminate].
    fold (all_rational_preimages point_eq true rational_preimages fuel inputs)
      in H.
    apply (all_rational_preimages_spec fuel inputs result H).
Qed.
End AllRationalPreimagesFacts.

Lemma point_eq_mod_refl (m : Z) (a : list Z) : point_eq_mod m a a = true.
Proof.
  induction a as [|x a IH]; [reflexivity|].
  cbn [point_eq_mod]. rewrite IH, andb_true_r.
  apply forallb_forall. intros [y z] Hin.
  apply list_elem_of_In, list_elem_of_lookup_1 in Hin as [k Hk].
  apply lookup_zip_with_Some in Hk as (y' & z' & E & Hy & Hz).
  injection E as <- <-. rewrite Hy in Hz. injection Hz as <-.
  cbn [fst snd]. apply Z.eqb_eq. f_equal. lia.
Qed.

(** Over [GF(13)], for [f = [x^2 - y^2, y^2]]: the preimages of [(0 : 1)]
    are [(1 : 1)] and [(12 : 1)], the only preimage of [(12 : 1)] is
    [(0 : 1)], and [(1 : 1)] has none. *)
Lemma all_rational_preimages_closed_under_preimages_witness :
  all_rational_preimages (point_eq_mod 13) true
    (preimages_GF 13 orbit_structure_example) 20 [[0; 1]]
  = Some (Ok [[1; 1]; [12; 1]; [0; 1]]) /\
  unequal_in_order (point_eq_mod 13) [[1; 1]; [12; 1]; [0; 1]].
Proof.
  assert (Hrun : all_rational_preimages (point_eq_mod 13) true
                   (preimages_GF 13 orbit_structure_example) 20 [[0; 1]]
                 = Some (Ok [[1; 1]; [12; 1]; [0; 1]]))
    by (vm_compute; reflexivity).
  split; [exact Hrun|].
  destruct (all_rational_preimages_closed_under_preimages
              (point_eq_mod 13) (preimages_GF 13 orbit_structure_example)
              (point_eq_mod_refl 13) true 20 [[0; 1]]) as [_ H].
  exact (proj1 (H _ Hrun)).
Defined.

(** ** From the periodic points to a complete list *)

Section PreimagesComplete.
Context {Point : Type}.
Variable point_eq : Point -> Point -> bool.
Variable call : Point -> result Point.
Variable normalize_coordinates : Point -> result Point.
Variable rational_preimages : Point -> result (list Point).
Variable valid : Point -> Prop.

Local Notation "a ≈ b" := (point_eq a b = true) (at level 70).
Abbreviation image := (normalized_image call normalize_coordinates).

Hypothesis point_eq_refl : forall a, a ≈ a.
Hypothesis point_eq_sym : forall a b, valid a -> valid b -> a ≈ b -> b ≈ a.
Hypothesis point_eq_trans : forall a b c,
  valid a -> valid b -> valid c -> a ≈ b -> b ≈ c -> a ≈ c.
Hypothesis image_valid : forall a Q, valid a -> image a = Ok Q -> valid Q.
(** [rational_preimages(P)] holds points that the map sends to [P], *)
Hypothesis preimages_sound : forall P pre x,
  rational_preimages P = Ok pre -> x ∈ pre ->
  valid x /\ exists Q, image x = Ok Q /\ Q ≈ P.
(** and one for every class of points sent to [P]. *)
Hypothesis preimages_complete : forall P pre x Q,
  valid P -> valid x -> rational_preimages P = Ok pre ->
  image x = Ok Q -> Q ≈ P ->
  represented point_eq pre x.

(** What the two facts about the loop give on a list that the map sends
    into itself: the result is valid, holds a point equal to each input, and
    is sent into itself. *)
Lemma preimages_of_closed_list inputs result :
  Forall valid inputs ->
  (forall P, P ∈ inputs ->
     exists Q P', image P = Ok Q /\ P' ∈ inputs /\ Q ≈ P') ->
  (forall P, P ∈ inputs \/ P ∈ result ->
     exists pre, rational_preimages P = Ok pre /\
       forall x, x ∈ pre -> represented point_eq result x) ->
  (forall s, s ∈ result ->
     exists P pre, (P ∈ inputs \/ P ∈ result) /\
       rational_preimages P = Ok pre /\ s ∈ pre) ->
  (forall s, s ∈ result -> valid s) /\
  (forall P, P ∈ inputs -> represented point_eq result P) /\
  complete point_eq call normalize_coordinates result.
Proof.
  intros Hval Hclosed Hproc Hsound.
  rewrite Forall_forall in Hval.
  assert (Hres : forall s, s ∈ result -> valid s).
  { intros s Hs. destruct (Hsound s Hs) as (P & pre & _ & Hpre & Hin).
    apply (preimages_sound P pre s Hpre Hin). }
  assert (Hin : forall P, P ∈ inputs -> represented point_eq result P).
  { intros P HP. pose proof (Hval P HP) as HvP.
    destruct (Hclosed P HP) as (Q1 & P' & HQ1 & HP' & HQ1P').
    destruct (Hproc P' (or_introl HP')) as (pre' & Hpre' & Hrep).
    destruct (preimages_complete P' pre' P Q1 (Hval P' HP') HvP Hpre' HQ1 HQ1P')
      as (x & Hx & HxP).
    destruct (Hrep x Hx) as (s & Hs & Hsx).
    destruct (preimages_sound P' pre' x Hpre' Hx) as (Hvx & _).
    exists s. split; [exact Hs|].
    apply (point_eq_trans s x P); auto. }
  split; [exact Hres|]. split; [exact Hin|].
  intros R HR.
  destruct (Hsound R HR) as (P & pre & HP & Hpre & HRpre).
  destruct (preimages_sound P pre R Hpre HRpre) as (HvR & Q & HQ & HQP).
  pose proof (image_valid R Q HvR HQ) as HvQ.
  exists Q. destruct HP as [HP|HP].
  - destruct (Hin P HP) as (s & Hs & HsP).
    exists s. split; [exact HQ|]. split; [exact Hs|].
    apply (point_eq_trans Q P s); auto.
  - exists P. split; [exact HQ|]. split; [exact HP|exact HQP].
Qed.

(** X11.  Started on a list of valid points that the map sends into
    itself, as the list of all points of some cycles is,
    [all_rational_preimages] returns a complete list of valid points: the
    image of each returned point is equal to a returned point.  This is
    what [_preperiodic_points_to_cyclegraph] asks of its argument. *)
Theorem all_rational_preimages_of_cycles_is_complete fuel inputs result :
  Forall valid inputs ->
  (forall P, P ∈ inputs ->
     exists Q P', image P = Ok Q /\ P' ∈ inputs /\ Q ≈ P') ->
  all_rational_preimages point_eq true rational_preimages fuel inputs
  = Some (Ok result) ->
  Forall valid result /\
  complete point_eq call normalize_coordinates result.
Proof.
  intros Hval Hclosed H.
  destruct (all_rational_preimages_spec point_eq rational_preimages
              point_eq_refl fuel inputs result H) as (_ & Hproc & Hsound).
  destruct (preimages_of_closed_list inputs result Hval Hclosed Hproc Hsound)
    as (Hres & _ & Hcomp).
  split; [apply Forall_forall, Hres|exact Hcomp].
Qed.
End PreimagesComplete.

(** The line over [GF(13)] with [f = [x^2 - y^2, y^2]], checked point by
    point. *)
Lemma line_13_sym a b :
  a ∈ points_of_projective_space 13 1 -> b ∈ points_of_projective_space 13 1 ->
  point_eq_mod 13 a b = true -> point_eq_mod 13 b a = true.
Proof.
  set (space := points_of_projective_space 13 1). intros Ha Hb.
  assert (Hall : forallb (fun a => forallb (fun b =>
            implb (point_eq_mod 13 a b) (point_eq_mod 13 b a)) space) space
          = true) by (vm_compute; reflexivity).
  pose proof (forallb_elem_of _ _ (forallb_elem_of _ _ Hall a Ha) b Hb) as E.
  cbn beta in E. intros Hab. rewrite Hab in E. exact E.
Qed.

Lemma line_13_trans a b c :
  a ∈ points_of_projective_space 13 1 -> b ∈ points_of_projective_space 13 1 ->
  c ∈ points_of_projective_space 13 1 ->
  point_eq_mod 13 a b = true -> point_eq_mod 13 b c = true ->
  point_eq_mod 13 a c = true.
Proof.
  set (space := points_of_projective_space 13 1). intros Ha Hb Hc.
  assert (Hall : forallb (fun a => forallb (fun b => forallb (fun c =>
            implb (point_eq_mod 13 a b && point_eq_mod 13 b c)
              (point_eq_mod 13 a c)) space) space) space = true)
    by (vm_compute; reflexivity).
  pose proof (forallb_elem_of _ _
                (forallb_elem_of _ _ (forallb_elem_of _ _ Hall a Ha) b Hb)
                c Hc) as E.
  cbn beta in E. intros Hab Hbc. rewrite Hab, Hbc in E. exact E.
Qed.

Lemma line_13_image a :
  a ∈ points_of_projective_space 13 1 ->
  exists R, call_GF 13 orbit_structure_example a true = Ok R /\
            normalize_coordinates_GF 13 R = Ok R /\
            R ∈ points_of_projective_space 13 1.
Proof.
  set (space := points_of_projective_space 13 1). intros Ha.
  assert (Hall : forallb (fun a =>
            match call_GF 13 orbit_structure_example a true with
            | Ok R => bool_decide (normalize_coordinates_GF 13 R = Ok R)
                      && bool_decide (R ∈ space)
            | Raise _ => false
            end) space = true) by (vm_compute; reflexivity).
  pose proof (forallb_elem_of _ _ Hall a Ha) as E. cbn beta in E.
  destruct (call_GF 13 orbit_structure_example a true) as [R|e];
    [|discriminate].
  apply andb_true_iff in E as [E1 E2].
  apply bool_decide_eq_true in E1. apply bool_decide_eq_true in E2.
  exists R. auto.
Qed.

Lemma preimages_GF_spec q F P pre x :
  preimages_GF q F P = Ok pre ->
  (x ∈ pre <->
   (match call_GF q F x true with
    | Ok R => point_eq_mod q R P
    | Raise _ => false
    end = true) /\
   x ∈ points_of_projective_space q (length F - 1)).
Proof.
  unfold preimages_GF. intros H. injection H as <-.
  rewrite list_elem_of_filter. reflexivity.
Qed.

Lemma all_rational_preimages_of_cycles_is_complete_witness :
  complete (point_eq_mod 13)
    (fun Q => call_GF 13 orbit_structure_example Q true)
    (normalize_coordinates_GF 13) [[0; 1]; [1; 1]; [12; 1]].
Proof.
  set (space := points_of_projective_space 13 1).
  apply (all_rational_preimages_of_cycles_is_complete (point_eq_mod 13)
           (fun Q => call_GF 13 orbit_structure_example Q true)
           (normalize_coordinates_GF 13)
           (preimages_GF 13 orbit_structure_example)
           (fun P => P ∈ space)
           (point_eq_mod_refl 13) line_13_sym line_13_trans)
    with (fuel := 20%nat) (inputs := [[0; 1]; [12; 1]]).
  - intros a Q Ha. unfold normalized_image.
    destruct (line_13_image a Ha) as (R & -> & HR & Hin). cbn [rbind].
    rewrite HR. intros E. injection E as <-. exact Hin.
  - intros P pre x Hpre Hx.
    apply (preimages_GF_spec _ _ _ _ x Hpre) in Hx as [Hx Hin].
    split; [exact Hin|]. unfold normalized_image.
    destruct (line_13_image x Hin) as (R & HR & Hnorm & _).
    rewrite HR in Hx |- *. cbn [rbind]. exists R. auto.
  - intros P pre x Q HP Hx Hpre HQ HQP.
    exists x. split; [|apply point_eq_mod_refl].
    apply (preimages_GF_spec _ _ _ _ x Hpre). split; [|exact Hx].
    unfold normalized_image in HQ.
    destruct (line_13_image x Hx) as (R & HR & Hnorm & _).
    rewrite HR in HQ |- *. cbn [rbind] in HQ. rewrite Hnorm in HQ.
    injection HQ as ->. exact HQP.
  - repeat (apply Forall_cons_2;
            [refine (bool_decide_unpack _ _); vm_compute; exact I|]).
    apply Forall_nil_2.
  - intros P HP.
    apply elem_of_cons in HP as [->|HP];
      [|apply elem_of_cons in HP as [->|HP]; [|inversion HP]].
    + exists [12; 1], [12; 1]. split; [vm_compute; reflexivity|].
      split; [right; left|reflexivity].
    + exists [0; 1], [0; 1]. split; [vm_compute; reflexivity|].
      split; [left|reflexivity].
  - vm_compute. reflexivity.
Defined.

(** ** [rational_periodic_points]: only periodic points are returned *)

Lemma point_eq_QQ_scale_r a b lam :
  point_eq_QQ a b = true -> point_eq_QQ a (scale lam b) = true.
Proof.
  intros H. apply point_eq_QQ_of_cross.
  intros i j x y x' y' _ Hx Hy Hx' Hy'.
  apply scale_lookup in Hy as (u & Hu & ->).
  apply scale_lookup in Hy' as (u' & Hu' & ->).
  pose proof (point_eq_QQ_cross_all a b i j x u x' u' H Hx Hu Hx' Hu') as E.
  transitivity (lam * (x * u'))%Qc; [ring|]. rewrite E. ring.
Qed.

Lemma orbit_closes_normalize F d R R' n :
  is_homogeneous F d = true -> length R = length F ->
  orbit_closes F R n -> normalize_coordinates_QQ R = Ok R' ->
  orbit_closes F R' n /\ length R' = length F.
Proof.
  intros HF HR (Hn & R2 & Hit & Heq) Hnorm.
  apply normalize_coordinates_QQ_scale in Hnorm as (lam & Hlam & ->).
  split; [|unfold scale; rewrite length_fmap; exact HR].
  split; [exact Hn|]. exists R2. split; [|apply point_eq_QQ_scale_r, Heq].
  destruct (Z.to_nat n) as [|m] eqn:Em; [lia|].
  rewrite iterate_QQ_shift in Hit |- *.
  rewrite (call_QQ_scale F d lam R HF HR Hlam). exact Hit.
Qed.

Lemma orbit_closes_image F d R R1 n :
  is_homogeneous F d = true -> d <> O -> length R = length F ->
  orbit_closes F R n -> call_QQ F R true = Ok R1 ->
  orbit_closes F R1 n /\ length R1 = length F.
Proof.
  intros HF Hd HR (Hn & R2 & Hit & Heq) Hcall.
  destruct (call_QQ_image F R R1 Hcall) as [HR1 HR1nz].
  split; [|exact HR1]. split; [exact Hn|]. exists R1.
  split; [|apply point_eq_QQ_refl].
  destruct (Z.to_nat n) as [|m] eqn:Em; [lia|].
  pose proof Hit as Hit'. rewrite iterate_QQ_shift, Hcall in Hit'.
  cbn [rbind] in Hit'. rewrite iterate_QQ_succ, Hit'. cbn [rbind].
  (* the last image is a multiple of [R] *)
  assert (HR2 : length R2 = length F /\ nonzero_point R2).
  { rewrite iterate_QQ_succ in Hit. inv_rbind Hit.
    eapply call_QQ_image; eauto. }
  destruct HR2 as [HR2 HR2nz].
  pose proof (call_QQ_defined_nonzero F d R R1 HF Hd HR Hcall) as HRnz.
  destruct (point_eq_QQ_proportional R2 R) as (lam & Hlam & ->);
    auto; [congruence|].
  rewrite (call_QQ_scale F d lam R HF HR Hlam). exact Hcall.
Qed.

Lemma collect_cycle_periodic F d n k : forall pt periodic periodic',
  is_homogeneous F d = true -> d <> O -> length pt = length F ->
  orbit_closes F pt n ->
  Forall (is_periodic_QQ F) periodic ->
  collect_cycle F k pt periodic = Ok periodic' ->
  Forall (is_periodic_QQ F) periodic'.
Proof.
  induction k as [|k IH]; intros pt periodic periodic' HF Hd Hpt Hn Hper H.
  - injection H as <-. exact Hper.
  - cbn [collect_cycle] in H. inv_rbind H. rename a into pt'.
    inv_rbind H. rename a into pt1.
    destruct (orbit_closes_normalize F d pt pt' n HF Hpt Hn Ha) as [Hn' Hpt'].
    destruct (orbit_closes_image F d pt' pt1 n HF Hd Hpt' Hn' Ha0)
      as [Hn1 Hpt1].
    refine (IH pt1 _ periodic' HF Hd Hpt1 Hn1 _ H).
    destruct (in_set point_eq_QQ periodic pt'); [exact Hper|].
    apply Forall_app. split; [exact Hper|].
    constructor; [exists n; exact Hn'|constructor].
Qed.

Lemma collect_cycles_periodic F d periodic_points :
  forall periodic periodic',
  is_homogeneous F d = true -> d <> O ->
  Forall (verified F) periodic_points ->
  Forall (is_periodic_QQ F) periodic ->
  collect_cycles F periodic_points periodic = Ok periodic' ->
  Forall (is_periodic_QQ F) periodic'.
Proof.
  induction periodic_points as [|[pt n] rest IH];
    intros periodic periodic' HF Hd Hver Hper H.
  - injection H as <-. exact Hper.
  - cbn [collect_cycles] in H. inv_rbind H.
    apply Forall_cons_1 in Hver as [Hpn Hrest].
    apply (IH a periodic' HF Hd Hrest); [|exact H].
    cbn [fst snd] in Ha.
    pose proof (verified_orbit_closes F d pt n HF Hd Hpn) as Hn.
    destruct Hpn as (Hn1 & P & HP & Hit & _). cbn [fst snd] in *.
    assert (Hpt : length pt = length F).
    { destruct (Z.to_nat n) as [|m] eqn:Em; [lia|].
      rewrite iterate_QQ_succ in Hit. inv_rbind Hit.
      eapply call_QQ_image; eauto. }
    eapply collect_cycle_periodic; eauto.
Qed.

Lemma point_eq_QQ_scale_l lam a :
  point_eq_QQ (scale lam a) a = true.
Proof.
  apply point_eq_QQ_sym, point_eq_QQ_scale_r, point_eq_QQ_refl.
Qed.

Local Abbreviation image_QQ F :=
  (normalized_image (fun P => call_QQ F P true) normalize_coordinates_QQ).

(** One cycle: the set grows at its end; each new point is valid and its
    normalised image is in the set again, or is equal to the point at which
    the loop stops. *)
Lemma collect_cycle_closed F d k : forall pt periodic periodic',
  is_homogeneous F d = true -> d <> O -> length pt = length F ->
  collect_cycle F k pt periodic = Ok periodic' ->
  exists e extra,
    iterate_QQ F k pt = Ok e /\
    periodic' = periodic ++ extra /\
    (unequal_in_order point_eq_QQ periodic ->
     unequal_in_order point_eq_QQ periodic') /\
    (forall x, x ∈ extra ->
       valid_QQ F x /\
       exists Q, image_QQ F x = Ok Q /\
         (represented point_eq_QQ periodic' Q \/ point_eq_QQ Q e = true)) /\
    (k <> O ->
     exists pt', normalize_coordinates_QQ pt = Ok pt' /\
       represented point_eq_QQ periodic' pt').
Proof.
  induction k as [|k IH]; intros pt periodic periodic' HF Hd Hpt H.
  - injection H as <-. exists pt, []. rewrite app_nil_r.
    split; [reflexivity|]. split; [reflexivity|]. split; [auto|].
    split; [intros x Hx; inversion Hx|]. intros Hk. contradiction.
  - cbn [collect_cycle] in H. inv_rbind H. rename a into pt'.
    inv_rbind H. rename a into q.
    destruct (normalize_coordinates_QQ_scale pt pt' Ha) as (lam & Hlam & Epts).
    assert (Hpt' : length pt' = length F).
    { subst pt'. unfold scale. rewrite length_fmap. exact Hpt. }
    destruct (call_QQ_image F pt' q Ha0) as [Hq Hqnz].
    assert (Hv' : valid_QQ F pt').
    { split; [exact Hpt'|].
      eapply call_QQ_defined_nonzero; eauto. }
    destruct (IH q _ periodic' HF Hd Hq H)
      as (e & extra & Hit & Eper & Hord & Hnew & Hfirst).
    exists e.
    exists ((if in_set point_eq_QQ periodic pt' then [] else [pt']) ++ extra).
    split; [|split; [|split; [|split]]].
    + rewrite iterate_QQ_shift.
      assert (Hc : call_QQ F pt true = Ok q).
      { rewrite <- Ha0, Epts. symmetry.
        apply (call_QQ_scale F d lam pt HF Hpt Hlam). }
      rewrite Hc. exact Hit.
    + rewrite Eper. destruct (in_set point_eq_QQ periodic pt');
        [reflexivity|rewrite <- app_assoc; reflexivity].
    + intros Hin. apply Hord.
      destruct (in_set point_eq_QQ periodic pt') eqn:Ein; [exact Hin|].
      apply unequal_in_order_snoc; assumption.
    + assert (Himg : exists Q, image_QQ F pt' = Ok Q /\
                (represented point_eq_QQ periodic' Q \/
                 point_eq_QQ Q e = true)).
      { unfold normalized_image. rewrite Ha0. cbn [rbind].
        destruct k as [|k].
        - injection Hit as <-.
          destruct (normalize_coordinates_QQ_defined q Hqnz) as [Q HQ].
          exists Q. split; [exact HQ|]. right.
          apply normalize_coordinates_QQ_scale in HQ as (mu & _ & ->).
          apply point_eq_QQ_scale_l.
        - destruct Hfirst as (q' & Hq' & Hrep); [discriminate|].
          exists q'. split; [exact Hq'|left; exact Hrep]. }
      intros x Hx. apply elem_of_app in Hx as [Hx|Hx]; [|apply Hnew, Hx].
      destruct (in_set point_eq_QQ periodic pt'); [inversion Hx|].
      apply list_elem_of_singleton in Hx as ->. split; assumption.
    + intros _. exists pt'. split; [exact Ha|].
      destruct (in_set point_eq_QQ periodic pt') eqn:Ein.
      * apply in_set_true in Ein. eapply represented_mono; [|exact Ein].
        rewrite Eper. intros s Hs. apply elem_of_app. left. exact Hs.
      * exists pt'. split; [|apply point_eq_QQ_refl].
        rewrite Eper. apply elem_of_app. left.
        apply elem_of_app. right. left.
Qed.

Lemma collect_cycles_closed F d periodic_points :
  forall periodic periodic',
  is_homogeneous F d = true -> d <> O ->
  Forall (verified F) periodic_points ->
  cycles_inv F periodic ->
  collect_cycles F periodic_points periodic = Ok periodic' ->
  cycles_inv F periodic'.
Proof.
  induction periodic_points as [|[pt n] rest IH];
    intros periodic periodic' HF Hd Hver Hinv H.
  - injection H as <-. exact Hinv.
  - cbn [collect_cycles] in H. inv_rbind H. rename a into periodic1.
    apply Forall_cons_1 in Hver as [Hpn Hrest].
    apply (IH periodic1 periodic' HF Hd Hrest); [|exact H].
    cbn [fst snd] in Ha.
    destruct (verified_orbit_closes F d pt n HF Hd Hpn)
      as (Hn & R' & Hclose & Heq).
    destruct Hpn as (_ & P & HP & HitP & _). cbn [fst snd] in *.
    destruct (Z.to_nat n) as [|m] eqn:Em; [lia|].
    assert (Hpt : valid_QQ F pt).
    { rewrite iterate_QQ_succ in HitP. inv_rbind HitP.
      eapply call_QQ_image; eauto. }
    destruct Hpt as [Hpt Hptnz].
    destruct (collect_cycle_closed F d (S m) pt periodic periodic1
                HF Hd Hpt Ha)
      as (e & extra & Hit & -> & Hord & Hnew & Hfirst).
    rewrite Hclose in Hit. injection Hit as <-.
    destruct Hfirst as (pt' & Hpt' & s & Hs & Hspt'); [discriminate|].
    destruct Hinv as (Hval & Hin & Himg).
    assert (Hval1 : Forall (valid_QQ F) (periodic ++ extra)).
    { apply Forall_app. split; [exact Hval|].
      apply Forall_forall. intros x Hx. apply Hnew, Hx. }
    split; [exact Hval1|]. split; [apply Hord, Hin|].
    intros x Hx. apply elem_of_app in Hx as [Hx|Hx].
    + destruct (Himg x Hx) as (Q & HQ & Hrep). exists Q. split; [exact HQ|].
      eapply represented_mono; [|exact Hrep].
      intros t Ht. apply elem_of_app. left. exact Ht.
    + destruct (Hnew x Hx) as (_ & Q & HQ & [Hrep|HQe]);
        exists Q; (split; [exact HQ|]); [exact Hrep|].
      (* the cycle closes: the image is equal to the first point *)
      exists s. split; [exact Hs|].
      pose proof (proj1 (Forall_forall _ _) Hval1 s Hs) as [Hsl Hsnz].
      apply normalize_coordinates_QQ_scale in Hpt' as (lam & Hlam & ->).
      assert (Hv' : valid_QQ F (scale lam pt))
        by (apply scale_valid; [exact Hlam|split; assumption]).
      destruct Hv' as [Hl' Hnz'].
      assert (Hv1 : valid_QQ F R').
      { rewrite iterate_QQ_succ in Hclose. inv_rbind Hclose.
        eapply call_QQ_image; eauto. }
      destruct Hv1 as [HRl HRnz].
      assert (E1 : point_eq_QQ s pt = true).
      { apply (point_eq_QQ_trans s (scale lam pt) pt); auto; [congruence|].
        apply point_eq_QQ_scale_l. }
      assert (E2 : point_eq_QQ s R' = true).
      { apply (point_eq_QQ_trans s pt R'); auto; [congruence|].
        apply point_eq_QQ_sym, Heq. }
      apply (point_eq_QQ_trans s R' Q); auto; [congruence|].
      apply point_eq_QQ_sym, HQe.
Qed.

Section RationalPeriodicPointsFacts.
Context {Reduced : Type}.
Variable primes_of_bad_reduction : list (polynomial Qc) -> result (list Z).
Variable change_ring_GF : list (polynomial Qc) -> Z -> result Reduced.
Variable possible_periods_GF : Reduced -> result (list Z).
Variable points_with_periods : Reduced -> list (list Z * Z).
Variable p_iter_fork :
  (Reduced -> result (list Z)) -> list Reduced
  -> result (list (Reduced * list Z)).
Variable next_prime : Z -> Z.
Variable height_bound : list (polynomial Qc) -> result Qc.
Variable precision_target : Qc -> nat -> Z -> Z.
Variable LLL : list (list Z) -> list (list Z).

Lemma lift_to_rational_periodic_verified fuel F points_modp p B good_points :
  lift_to_rational_periodic precision_target LLL fuel F points_modp p B
  = Some (Ok good_points) ->
  Forall (verified F) good_points.
Proof.
  intros H. unfold lift_to_rational_periodic in H.
  destruct points_modp; [injection H as <-; constructor|].
  destruct (p =? 0); [discriminate|].
  eapply lift_candidates_verified; [|exact H]. constructor.
Qed.

(** X12.  Over [QQ], for a system of forms of one positive degree, every
    point that [rational_periodic_points] returns is periodic: some number
    [n >= 1] of applications of the map, in exact arithmetic, gives a point
    equal to it.  This holds for every sieve, lifting prime, height bound
    and lattice reduction the call is run with. *)
Theorem rational_periodic_points_are_periodic fuel F d kwds result :
  is_homogeneous F d = true -> d <> O ->
  rational_periodic_points_QQ primes_of_bad_reduction change_ring_GF
    possible_periods_GF points_with_periods p_iter_fork next_prime
    height_bound precision_target LLL fuel F kwds = Some (Ok result) ->
  forall R, R ∈ result -> exists n, orbit_closes F R n.
Proof.
  intros HF Hd H. unfold rational_periodic_points_QQ in H.
  destruct (do badprimes <- _; _) as [[badprimes periods]|e];
    [|discriminate].
  destruct (lifting_prime next_prime fuel badprimes (rp_lifting_prime kwds))
    as [p|]; [|discriminate].
  destruct (do B <- height_bound F; _) as [[B f]|e]; [|discriminate].
  destruct (lift_to_rational_periodic _ _ _ _ _ _ _)
    as [[periodic_points|e]|] eqn:Hlift; try discriminate.
  injection H as H.
  apply Forall_forall.
  apply (collect_cycles_periodic F d periodic_points [] result HF Hd);
    [|constructor|exact H].
  eapply lift_to_rational_periodic_verified. exact Hlift.
Qed.

Lemma rational_periodic_points_cycles_inv fuel F d kwds result :
  is_homogeneous F d = true -> d <> O ->
  rational_periodic_points_QQ primes_of_bad_reduction change_ring_GF
    possible_periods_GF points_with_periods p_iter_fork next_prime
    height_bound precision_target LLL fuel F kwds = Some (Ok result) ->
  cycles_inv F result.
Proof.
  intros HF Hd H. unfold rational_periodic_points_QQ in H.
  destruct (do badprimes <- _; _) as [[badprimes periods]|e];
    [|discriminate].
  destruct (lifting_prime next_prime fuel badprimes (rp_lifting_prime kwds))
    as [p|]; [|discriminate].
  destruct (do B <- height_bound F; _) as [[B f]|e]; [|discriminate].
  destruct (lift_to_rational_periodic _ _ _ _ _ _ _)
    as [[periodic_points|e]|] eqn:Hlift; try discriminate.
  injection H as H.
  apply (collect_cycles_closed F d periodic_points [] result HF Hd);
    [eapply lift_to_rational_periodic_verified; exact Hlift| |exact H].
  split; [constructor|]. split; [intros i j a b _ Ha; discriminate|].
  intros x Hx. inversion Hx.
Qed.

(** X13.  Over [QQ], for forms of one positive degree,
    [rational_periodic_points] returns whole cycles: the points returned are
    valid, no two of them are equal, and the normalised image of each is
    equal to a point returned. *)
Theorem rational_periodic_points_returns_whole_cycles fuel F d kwds result :
  is_homogeneous F d = true -> d <> O ->
  rational_periodic_points_QQ primes_of_bad_reduction change_ring_GF
    possible_periods_GF points_with_periods p_iter_fork next_prime
    height_bound precision_target LLL fuel F kwds = Some (Ok result) ->
  Forall (valid_QQ F) result /\
  unequal_in_order point_eq_QQ result /\
  complete point_eq_QQ (fun P => call_QQ F P true) normalize_coordinates_QQ
    result.
Proof.
  intros HF Hd H.
  destruct (rational_periodic_points_cycles_inv fuel F d kwds result HF Hd H)
    as (Hval & Hord & Himg).
  split; [exact Hval|]. split; [exact Hord|].
  intros x Hx. destruct (Himg x Hx) as (Q & HQ & s & Hs & HsQ).
  exists Q, s. split; [exact HQ|]. split; [exact Hs|].
  apply point_eq_QQ_sym, HsQ.
Qed.
End RationalPeriodicPointsFacts.

(** The system [x^2 - 3/4*y^2, y^2] with [prime_bound=20] and
    [lifting_prime=7], the candidates modulo [7] being the fixed points
    [(1 : 0)], [(3 : 1)], [(5 : 1)] and the point [(2 : 1)] given with
    period [2]: the call returns [(3/2 : 1)], [(-1/2 : 1)] and [(1 : 0)],
    the points of the docstring. *)
Example rational_periodic_points_doctest :
  rational_periodic_points_QQ primes_of_bad_reduction_quadratic
    change_ring_GF_line possible_periods_GF_line
    (fun _ => [([1; 0], 1); ([3; 1], 1); ([5; 1], 1); ([2; 1], 2)])
    p_iter_serial (fun p => p) (fun _ => Ok (qz 4))
    precision_target_exact LLL_line 100 rational_periodic_points_example
    {| rp_prime_bound := Between 1 20; rp_lifting_prime := 7;
       rp_periods := None; rp_bad_primes := None |}
  = Some (Ok [[qfrac 3 2; qz 1]; [qfrac (-1) 2; qz 1]; [qz 1; qz 0]]).
Proof. by_evaluation. Qed.

Lemma rational_periodic_points_are_periodic_witness :
  exists n, orbit_closes rational_periodic_points_example [qfrac (-1) 2; qz 1] n.
Proof.
  apply (rational_periodic_points_are_periodic
           primes_of_bad_reduction_quadratic change_ring_GF_line
           possible_periods_GF_line
           (fun _ => [([1; 0], 1); ([3; 1], 1); ([5; 1], 1); ([2; 1], 2)])
           p_iter_serial (fun p => p) (fun _ => Ok (qz 4))
           precision_target_exact LLL_line 100
           rational_periodic_points_example 2
           {| rp_prime_bound := Between 1 20; rp_lifting_prime := 7;
              rp_periods := None; rp_bad_primes := None |}
           [[qfrac 3 2; qz 1]; [qfrac (-1) 2; qz 1]; [qz 1; qz 0]]).
  - reflexivity.
  - discriminate.
  - exact rational_periodic_points_doctest.
  - right. left.
Defined.

Lemma rational_periodic_points_returns_whole_cycles_witness :
  let result := [[qfrac 3 2; qz 1]; [qfrac (-1) 2; qz 1]; [qz 1; qz 0]] in
  Forall (valid_QQ rational_periodic_points_example) result /\
  unequal_in_order point_eq_QQ result /\
  complete point_eq_QQ
    (fun P => call_QQ rational_periodic_points_example P true)
    normalize_coordinates_QQ result.
Proof.
  apply (rational_periodic_points_returns_whole_cycles
           primes_of_bad_reduction_quadratic change_ring_GF_line
           possible_periods_GF_line
           (fun _ => [([1; 0], 1); ([3; 1], 1); ([5; 1], 1); ([2; 1], 2)])
           p_iter_serial (fun p => p) (fun _ => Ok (qz 4))
           precision_target_exact LLL_line 100
           rational_periodic_points_example 2
           {| rp_prime_bound := Between 1 20; rp_lifting_prime := 7;
              rp_periods := None; rp_bad_primes := None |}).
  - reflexivity.
  - discriminate.
  - exact rational_periodic_points_doctest.
Defined.

(** ** [rational_preperiodic_points] and [rational_preperiodic_graph] *)

Lemma point_QQ_defined v :
  nonzero_point v ->
  exists Q lam, point_QQ v true = Ok Q /\ lam <> 0%Qc /\ Q = scale lam v.
Proof.
  intros (i & x & Hx & Hnz). unfold point_QQ, last_index.
  destruct (last_index_from _ v O) as [j|] eqn:E.
  - apply last_index_from_Some in E as (_ & y & Hy & Hk).
    rewrite Nat.sub_0_r in Hy. rewrite Hy. cbn [default from_option].
    unfold Datatypes.id.
    apply negb_true_iff, Qc_eqb_false in Hk.
    eexists. exists (1 / y)%Qc. split; [reflexivity|]. split.
    + intros E1.
      assert (E2 : (y * (1 / y) = 1)%Qc) by (field; exact Hk).
      rewrite E1, Qcmult_0_r in E2. discriminate.
    + unfold scale. apply list_fmap_ext. intros _ u _. field. exact Hk.
  - pose proof (last_index_from_None _ _ _ E x
                  (list_elem_of_lookup_2 _ _ _ Hx)) as Hk.
    apply negb_false_iff, Qc_eqb_true in Hk. contradiction.
Qed.

Lemma point_QQ_proportional v Q :
  point_QQ v true = Ok Q ->
  nonzero_point v /\ exists lam, lam <> 0%Qc /\ Q = scale lam v.
Proof.
  intros H.
  destruct (zero_or_nonzero v) as [Hz|Hnz].
  - exfalso. unfold point_QQ, last_index in H.
    destruct (last_index_from _ v O) as [j|] eqn:E; [|discriminate].
    apply last_index_from_Some in E as (_ & y & Hy & Hk).
    apply negb_true_iff, Qc_eqb_false in Hk. apply Hk.
    rewrite Forall_forall in Hz. apply Hz.
    eapply list_elem_of_lookup_2; eauto.
  - split; [exact Hnz|].
    destruct (point_QQ_defined v Hnz) as (Q' & lam & HQ' & Hlam & ->).
    exists lam. split; [exact Hlam|congruence].
Qed.

Lemma scale_scale lam mu v : scale lam (scale mu v) = scale (mu * lam) v.
Proof.
  unfold scale. rewrite <- list_fmap_compose. apply list_fmap_ext.
  intros _ u _. cbn. ring.
Qed.

(** The normalised image is a nonzero multiple of the tuple of values. *)
Lemma image_QQ_proportional F x Q :
  image_QQ F x = Ok Q ->
  exists lam, lam <> 0%Qc /\
    Q = scale lam ((fun f => eval_polynomial_QQ f x) <$> F).
Proof.
  unfold normalized_image, call_QQ. intros H. inv_rbind H.
  apply point_QQ_proportional in Ha as (_ & lam & Hlam & ->).
  apply normalize_coordinates_QQ_scale in H as (mu & Hmu & ->).
  exists (lam * mu)%Qc. split; [|apply scale_scale].
  intros E. apply Qcmult_integral in E as [E|E]; contradiction.
Qed.

Lemma image_QQ_defined F x :
  nonzero_point ((fun f => eval_polynomial_QQ f x) <$> F) ->
  exists Q, image_QQ F x = Ok Q.
Proof.
  intros Hnz. unfold normalized_image, call_QQ.
  destruct (point_QQ_defined _ Hnz) as (Q & lam & -> & Hlam & ->).
  cbn [rbind]. apply normalize_coordinates_QQ_defined.
  destruct Hnz as (i & c & Hc & Hcnz). exists i, (c * lam)%Qc. split.
  - unfold scale. rewrite list_lookup_fmap, Hc. reflexivity.
  - intros E. apply Qcmult_integral in E as [E|E]; contradiction.
Qed.

Lemma point_eq_QQ_pair a0 a1 b0 b1 :
  point_eq_QQ [a0; a1] [b0; b1] = true <-> (a0 * b1 = a1 * b0)%Qc.
Proof.
  split.
  - intros H.
    apply (point_eq_QQ_cross_all [a0; a1] [b0; b1] 0 1 a0 b0 a1 b1 H);
      reflexivity.
  - intros H. apply point_eq_QQ_of_cross.
    intros [|[|i]] [|[|j]] x y x' y' Hij Hx Hy Hx' Hy';
      try lia; try discriminate.
    injection Hx as <-. injection Hy as <-. injection Hx' as <-.
    injection Hy' as <-. exact H.
Qed.

Lemma doubling_values x0 x1 :
  (fun f => eval_polynomial_QQ f [x0; x1]) <$> doubling_example
  = [(qz 2 * x0)%Qc; x1].
Proof.
  unfold doubling_example, eval_polynomial_QQ.
  cbn [fmap list_fmap fold_right fst snd eval_monomial_QQ].
  f_equal; [|f_equal]; cbn [Qcpower]; change (qz 1) with 1%Qc; ring.
Qed.

Lemma Qcmult_cancel_r (a b c : Qc) :
  c <> 0%Qc -> (a * c = b * c)%Qc -> a = b.
Proof.
  intros Hc H. transitivity (a * c / c)%Qc; [field; exact Hc|].
  rewrite H. field. exact Hc.
Qed.

Lemma qz_2_nonzero : qz 2 <> 0%Qc.
Proof. discriminate. Qed.

Lemma doubling_preimages_exact :
  rational_preimages_exact doubling_example doubling_preimages.
Proof.
  split.
  - intros P pre x Hpre Hx.
    destruct P as [|a [|b [|c P]]]; cbn [doubling_preimages] in Hpre;
      try (injection Hpre as <-; inversion Hx).
    assert (Hcase : exists x0 x1, x = [x0; x1] /\ (x1 <> 0%Qc \/ x0 <> 0%Qc) /\
                      (qz 2 * x0 * b = x1 * a)%Qc).
    { destruct (Qc_eqb b 0%Qc) eqn:Eb.
      - apply Qc_eqb_true in Eb. subst b.
        destruct (Qc_eqb a 0%Qc) eqn:Ea;
          injection Hpre as <-; [inversion Hx|].
        apply list_elem_of_singleton in Hx as ->.
        exists 1%Qc, 0%Qc. split; [reflexivity|].
        split; [right; discriminate|ring].
      - apply Qc_eqb_false in Eb. injection Hpre as <-.
        apply list_elem_of_singleton in Hx as ->.
        exists (a / (2 * b))%Qc, 1%Qc. split; [reflexivity|].
        split; [left; discriminate|].
        change (qz 2) with 2%Qc. field. split; [exact Eb|discriminate]. }
    destruct Hcase as (x0 & x1 & -> & Hnz & Hcross).
    assert (Hv : nonzero_point [x0; x1]).
    { destruct Hnz as [H1|H0];
        [exists 1%nat, x1|exists 0%nat, x0]; split; auto. }
    split; [split; [reflexivity|exact Hv]|].
    destruct (image_QQ_defined doubling_example [x0; x1]) as [Q HQ].
    { rewrite doubling_values. destruct Hnz as [H1|H0].
      - exists 1%nat, x1. split; auto.
      - exists 0%nat, (qz 2 * x0)%Qc. split; [reflexivity|].
        intros E. apply Qcmult_integral in E as [E|E];
          [exact (qz_2_nonzero E)|contradiction]. }
    exists Q. split; [exact HQ|].
    apply image_QQ_proportional in HQ as (lam & Hlam & ->).
    rewrite doubling_values. unfold scale. cbn [fmap list_fmap].
    apply point_eq_QQ_pair.
    transitivity (lam * (qz 2 * x0 * b))%Qc; [ring|].
    rewrite Hcross. ring.
  - intros P pre x Q [HlP HnzP] [Hlx Hnzx] Hpre HQ HQP.
    destruct P as [|a [|b [|c P]]]; try discriminate.
    destruct x as [|x0 [|x1 [|x2 x]]]; try discriminate.
    apply image_QQ_proportional in HQ as (lam & Hlam & ->).
    rewrite doubling_values in HQP. unfold scale in HQP.
    cbn [fmap list_fmap] in HQP. apply point_eq_QQ_pair in HQP.
    assert (Hcross : (qz 2 * x0 * b = x1 * a)%Qc).
    { apply (Qcmult_cancel_r _ _ lam Hlam).
      transitivity (qz 2 * x0 * lam * b)%Qc; [ring|]. rewrite HQP. ring. }
    cbn [doubling_preimages] in Hpre.
    destruct (Qc_eqb b 0%Qc) eqn:Eb.
    + apply Qc_eqb_true in Eb. subst b.
      assert (Ha : a <> 0%Qc).
      { intros ->. destruct HnzP as ([|[|i]] & c & Hc & Hcnz);
          try discriminate; injection Hc as <-; contradiction. }
      destruct (Qc_eqb a 0%Qc) eqn:Ea;
        [apply Qc_eqb_true in Ea; contradiction|].
      injection Hpre as <-. exists [1%Qc; 0%Qc]. split; [left|].
      apply point_eq_QQ_pair.
      assert (Hx1 : x1 = 0%Qc).
      { rewrite Qcmult_0_r in Hcross. symmetry in Hcross.
        apply Qcmult_integral in Hcross as [E|E]; [exact E|contradiction]. }
      rewrite Hx1. ring.
    + apply Qc_eqb_false in Eb. injection Hpre as <-.
      exists [(a / (2 * b))%Qc; 1%Qc]. split; [left|].
      apply point_eq_QQ_pair.
      apply (Qcmult_cancel_r _ _ (2 * b)%Qc).
      { intros E. apply Qcmult_integral in E as [E|E];
          [discriminate|contradiction]. }
      transitivity (a * x1)%Qc; [field; split; [exact Eb|discriminate]|].
      change (qz 2) with 2%Qc in Hcross.
      transitivity (2 * x0 * b)%Qc; [rewrite Hcross; ring|ring].
Qed.

Lemma possible_points_no_periods p all_points : forall pos_points,
  possible_points p [] all_points pos_points = pos_points.
Proof.
  induction all_points as [|x rest IH]; intros pos_points; [reflexivity|].
  cbn [possible_points].
  rewrite (bool_decide_eq_false_2 (x.2 ∈ [])); [apply IH|].
  apply not_elem_of_nil.
Qed.

Section RationalPreperiodicPointsFacts.
Context {Reduced : Type}.
Variable primes_of_bad_reduction : list (polynomial Qc) -> result (list Z).
Variable change_ring_GF : list (polynomial Qc) -> Z -> result Reduced.
Variable possible_periods_GF : Reduced -> result (list Z).
Variable points_with_periods : Reduced -> list (list Z * Z).
Variable p_iter_fork :
  (Reduced -> result (list Z)) -> list Reduced
  -> result (list (Reduced * list Z)).
Variable next_prime : Z -> Z.
Variable height_bound : list (polynomial Qc) -> result Qc.
Variable precision_target : Qc -> nat -> Z -> Z.
Variable LLL : list (list Z) -> list (list Z).
Variable rational_preimages : list Qc -> result (list (list Qc)).

Abbreviation periodic_points :=
  (rational_periodic_points_QQ primes_of_bad_reduction change_ring_GF
     possible_periods_GF points_with_periods p_iter_fork next_prime
     height_bound precision_target LLL).
Abbreviation preperiodic_points :=
  (rational_preperiodic_points_QQ primes_of_bad_reduction change_ring_GF
     possible_periods_GF points_with_periods p_iter_fork next_prime
     height_bound precision_target LLL rational_preimages).
Abbreviation preperiodic_graph :=
  (rational_preperiodic_graph_QQ primes_of_bad_reduction change_ring_GF
     possible_periods_GF points_with_periods p_iter_fork next_prime
     height_bound precision_target LLL rational_preimages).

(** With no possible period there is nothing to lift. *)
Lemma rational_periodic_points_no_periods fuel F kwds badprimes T :
  rp_bad_primes kwds = Some badprimes -> rp_periods kwds = Some [] ->
  periodic_points fuel F kwds = Some (Ok T) -> T = [].
Proof.
  intros Hb Hp H. unfold rational_periodic_points_QQ in H.
  rewrite Hb, Hp in H. cbn [rbind] in H.
  destruct (lifting_prime _ _ _ _) as [p|]; [|discriminate].
  destruct (do B <- height_bound F; _) as [[B f]|e]; [|discriminate].
  rewrite possible_points_no_periods in H. cbn in H.
  injection H as <-. reflexivity.
Qed.

(** The call of [rational_periodic_points] inside is the call with the
    arguments of the user. *)
Lemma rational_periodic_points_given fuel F kwds badprimes periods :
  (do badprimes <-
     match rp_bad_primes kwds with
     | None => primes_of_bad_reduction F
     | Some l => Ok l
     end;
   do periods <-
     match rp_periods kwds with
     | None =>
         possible_periods (fun _ => true) primes_of_bad_reduction
           change_ring_GF possible_periods_GF p_iter_fork F
           {| prime_bound := rp_prime_bound kwds;
              bad_primes := Some badprimes |}
     | Some l => Ok l
     end;
   Ok (badprimes, periods)) = Ok (badprimes, periods) ->
  periodic_points fuel F
    {| rp_prime_bound := rp_prime_bound kwds;
       rp_lifting_prime := rp_lifting_prime kwds;
       rp_periods := Some periods;
       rp_bad_primes := Some badprimes |}
  = periodic_points fuel F kwds.
Proof.
  intros H. unfold rational_periodic_points_QQ. rewrite H.
  reflexivity.
Qed.

Lemma rational_preperiodic_points_spec fuel F d kwds result :
  is_homogeneous F d = true -> d <> O ->
  rational_preimages_exact F rational_preimages ->
  preperiodic_points fuel F kwds = Some (Ok result) ->
  unequal_in_order point_eq_QQ result /\
  (forall s, s ∈ result -> valid_QQ F s) /\
  complete point_eq_QQ (fun P => call_QQ F P true) normalize_coordinates_QQ
    result /\
  (forall T, periodic_points fuel F kwds = Some (Ok T) ->
     forall P, P ∈ T -> represented point_eq_QQ result P).
Proof.
  intros HF Hd [Hsound Hcomplete] H.
  unfold rational_preperiodic_points_QQ in H.
  destruct (do badprimes <- _; _) as [[badprimes periods]|e] eqn:Hstage;
    [|discriminate].
  destruct (bool_decide (periods = [])) eqn:Hper.
  - apply bool_decide_eq_true in Hper. subst periods.
    injection H as <-.
    split; [intros i j a b _ Ha; discriminate|].
    split; [intros s Hs; inversion Hs|].
    split; [intros s Hs; inversion Hs|].
    intros T HT P HP.
    rewrite <- (rational_periodic_points_given fuel F kwds badprimes [] Hstage)
      in HT.
    apply (rational_periodic_points_no_periods _ _ _ badprimes) in HT;
      [|reflexivity..].
    subst T. inversion HP.
  - rewrite (rational_periodic_points_given fuel F kwds badprimes periods Hstage)
      in H.
    destruct (periodic_points fuel F kwds) as [[T|e]|] eqn:HT;
      try discriminate.
    destruct (rational_periodic_points_cycles_inv _ _ _ _ _ _ _ _ _
                fuel F d kwds T HF Hd HT) as (HvT & _ & HimgT).
    destruct (all_rational_preimages_spec point_eq_QQ rational_preimages
                point_eq_QQ_refl fuel T result H) as (Hord & Hproc & Hsnd).
    assert (Hclosed : forall P, P ∈ T ->
              exists Q P',
                normalized_image (fun P => call_QQ F P true)
                  normalize_coordinates_QQ P = Ok Q /\
                P' ∈ T /\ point_eq_QQ Q P' = true).
    { intros P HP. destruct (HimgT P HP) as (Q & HQ & s & Hs & HsQ).
      exists Q, s. split; [exact HQ|]. split; [exact Hs|].
      apply point_eq_QQ_sym, HsQ. }
    assert (Htrans : forall a b c : list Qc,
              valid_QQ F a -> valid_QQ F b -> valid_QQ F c ->
              point_eq_QQ a b = true -> point_eq_QQ b c = true ->
              point_eq_QQ a c = true).
    { intros a b c [Hla Hna] [Hlb Hnb] _. apply point_eq_QQ_trans;
        [congruence|assumption..]. }
    destruct (preimages_of_closed_list point_eq_QQ
                (fun P => call_QQ F P true) normalize_coordinates_QQ
                rational_preimages (valid_QQ F)
                (fun a b _ _ => point_eq_QQ_sym a b) Htrans
                (fun a Q _ => normalized_image_QQ_valid F a Q)
                Hsound Hcomplete T result HvT Hclosed Hproc Hsnd)
      as (Hres & Hin & Hcomp).
    split; [exact Hord|]. split; [exact Hres|]. split; [exact Hcomp|].
    intros T' HT'. injection HT' as <-. exact Hin.
Qed.

(** X14.  Over [QQ], for forms of one positive degree and a
    [rational_preimages] that gives the rational preimages, the list that
    [rational_preperiodic_points] returns is closed under the map: its
    points are valid, no two of them are equal, and the normalised image of
    each is equal to a point of the list. *)
Theorem rational_preperiodic_points_closed_under_map fuel F d kwds result :
  is_homogeneous F d = true -> d <> O ->
  rational_preimages_exact F rational_preimages ->
  preperiodic_points fuel F kwds = Some (Ok result) ->
  Forall (valid_QQ F) result /\
  unequal_in_order point_eq_QQ result /\
  complete point_eq_QQ (fun P => call_QQ F P true) normalize_coordinates_QQ
    result.
Proof.
  intros HF Hd Hexact H.
  destruct (rational_preperiodic_points_spec fuel F d kwds result
              HF Hd Hexact H) as (Hord & Hval & Hcomp & _).
  split; [apply Forall_forall, Hval|]. split; assumption.
Qed.

(** X15.  Under the same conditions the preperiodic points include the
    periodic ones: when [rational_periodic_points] called with the same
    keywords returns a list, each of its points is equal to a point that
    [rational_preperiodic_points] returns. *)
Theorem rational_preperiodic_points_include_periodic
    fuel F d kwds result T P :
  is_homogeneous F d = true -> d <> O ->
  rational_preimages_exact F rational_preimages ->
  preperiodic_points fuel F kwds = Some (Ok result) ->
  periodic_points fuel F kwds = Some (Ok T) ->
  P ∈ T ->
  exists s, s ∈ result /\ point_eq_QQ s P = true.
Proof.
  intros HF Hd Hexact H HT HP.
  destruct (rational_preperiodic_points_spec fuel F d kwds result
              HF Hd Hexact H) as (_ & _ & _ & Hin).
  exact (Hin T HT P HP).
Qed.

(** X16.  Under the same conditions [rational_preperiodic_graph] returns a
    graph whenever [rational_preperiodic_points] returns a list: on that
    list the builder [_preperiodic_points_to_cyclegraph] does not raise. *)
Theorem rational_preperiodic_graph_returns fuel F d kwds preper :
  is_homogeneous F d = true -> d <> O ->
  rational_preimages_exact F rational_preimages ->
  preperiodic_points fuel F kwds = Some (Ok preper) ->
  exists g, preperiodic_graph fuel F kwds = Some (Ok g).
Proof.
  intros HF Hd Hexact H.
  destruct (rational_preperiodic_points_spec fuel F d kwds preper
              HF Hd Hexact H) as (_ & Hval & Hcomp & _).
  unfold rational_preperiodic_graph_QQ. rewrite H.
  unfold preperiodic_points_to_cyclegraph_QQ,
    _preperiodic_points_to_cyclegraph.
  assert (Htrans : forall a b c : list Qc,
            valid_QQ F a -> valid_QQ F b -> valid_QQ F c ->
            point_eq_QQ a b = true -> point_eq_QQ b c = true ->
            point_eq_QQ a c = true).
  { intros a b c [Hla Hna] [Hlb Hnb] _. apply point_eq_QQ_trans;
      [congruence|assumption..]. }
  assert (Hinit : builder_inv point_eq_QQ (fun P => call_QQ F P true)
                    normalize_coordinates_QQ (valid_QQ F) preper
                    {| bV := []; bE := []; bD := [] |} []).
  { split; [constructor|].
    split; [intros i j a b Hi; discriminate|]. split; [reflexivity|].
    split; [intros kv Hin; inversion Hin|].
    split; intros x Hin; inversion Hin. }
  destruct (builder_loop_inv point_eq_QQ (fun P => call_QQ F P true)
              normalize_coordinates_QQ (valid_QQ F)
              (fun a _ => point_eq_QQ_refl a)
              (fun a b _ _ => point_eq_QQ_sym a b) Htrans
              (fun a Q _ => normalized_image_QQ_valid F a Q)
              (fun a b Qb => normalized_image_QQ_respects F d a b Qb HF)
              preper preper _ [] Hinit
              (proj2 (Forall_forall _ _) Hval) Hcomp (fun x Hx => Hx))
    as (st & Hloop & _).
  rewrite Hloop. cbn [rbind]. eexists. reflexivity.
Qed.
End RationalPreperiodicPointsFacts.

(** The system [2*x, y] with the bad prime [2], [prime_bound=20] and
    [lifting_prime=3], the candidates modulo [3] being the fixed points
    [(1 : 0)] and [(0 : 1)]: the sieve leaves the period [1], and the
    preperiodic points are the two fixed points. *)
Example rational_preperiodic_points_doubling :
  rational_preperiodic_points_QQ primes_of_bad_reduction_quadratic
    change_ring_GF_line possible_periods_GF_line
    (fun _ => [([1; 0], 1); ([0; 1], 1)])
    p_iter_serial (fun p => p) (fun _ => Ok (qz 4))
    precision_target_exact LLL_line doubling_preimages 100 doubling_example
    {| rp_prime_bound := Between 1 20; rp_lifting_prime := 3;
       rp_periods := None; rp_bad_primes := Some [2] |}
  = Some (Ok [[qz 1; qz 0]; [qz 0; qz 1]]).
Proof. by_evaluation. Qed.

Example rational_periodic_points_doubling :
  rational_periodic_points_QQ primes_of_bad_reduction_quadratic
    change_ring_GF_line possible_periods_GF_line
    (fun _ => [([1; 0], 1); ([0; 1], 1)])
    p_iter_serial (fun p => p) (fun _ => Ok (qz 4))
    precision_target_exact LLL_line 100 doubling_example
    {| rp_prime_bound := Between 1 20; rp_lifting_prime := 3;
       rp_periods := None; rp_bad_primes := Some [2] |}
  = Some (Ok [[qz 0; qz 1]; [qz 1; qz 0]]).
Proof. by_evaluation. Qed.

Lemma rational_preperiodic_points_closed_under_map_witness :
  let result := [[qz 1; qz 0]; [qz 0; qz 1]] in
  Forall (valid_QQ doubling_example) result /\
  unequal_in_order point_eq_QQ result /\
  complete point_eq_QQ (fun P => call_QQ doubling_example P true)
    normalize_coordinates_QQ result.
Proof.
  apply (rational_preperiodic_points_closed_under_map
           primes_of_bad_reduction_quadratic change_ring_GF_line
           possible_periods_GF_line
           (fun _ => [([1; 0], 1); ([0; 1], 1)])
           p_iter_serial (fun p => p) (fun _ => Ok (qz 4))
           precision_target_exact LLL_line doubling_preimages 100
           doubling_example 1
           {| rp_prime_bound := Between 1 20; rp_lifting_prime := 3;
              rp_periods := None; rp_bad_primes := Some [2] |}).
  - reflexivity.
  - discriminate.
  - exact doubling_preimages_exact.
  - exact rational_preperiodic_points_doubling.
Defined.

Lemma rational_preperiodic_points_include_periodic_witness :
  exists s, s ∈ [[qz 1; qz 0]; [qz 0; qz 1]] /\
    point_eq_QQ s [qz 0; qz 1] = true.
Proof.
  apply (rational_preperiodic_points_include_periodic
           primes_of_bad_reduction_quadratic change_ring_GF_line
           possible_periods_GF_line
           (fun _ => [([1; 0], 1); ([0; 1], 1)])
           p_iter_serial (fun p => p) (fun _ => Ok (qz 4))
           precision_target_exact LLL_line doubling_preimages 100
           doubling_example 1
           {| rp_prime_bound := Between 1 20; rp_lifting_prime := 3;
              rp_periods := None; rp_bad_primes := Some [2] |}
           [[qz 1; qz 0]; [qz 0; qz 1]] [[qz 0; qz 1]; [qz 1; qz 0]]).
  - reflexivity.
  - discriminate.
  - exact doubling_preimages_exact.
  - exact rational_preperiodic_points_doubling.
  - exact rational_periodic_points_doubling.
  - left.
Defined.

Lemma rational_preperiodic_graph_returns_witness :
  exists g,
    rational_preperiodic_graph_QQ primes_of_bad_reduction_quadratic
      change_ring_GF_line possible_periods_GF_line
      (fun _ => [([1; 0], 1); ([0; 1], 1)])
      p_iter_serial (fun p => p) (fun _ => Ok (qz 4))
      precision_target_exact LLL_line doubling_preimages 100 doubling_example
      {| rp_prime_bound := Between 1 20; rp_lifting_prime := 3;
         rp_periods := None; rp_bad_primes := Some [2] |}
    = Some (Ok g).
Proof.
  apply (rational_preperiodic_graph_returns
           primes_of_bad_reduction_quadratic change_ring_GF_line
           possible_periods_GF_line
           (fun _ => [([1; 0], 1); ([0; 1], 1)])
           p_iter_serial (fun p => p) (fun _ => Ok (qz 4))
           precision_target_exact LLL_line doubling_preimages 100
           doubling_example 1
           {| rp_prime_bound := Between 1 20; rp_lifting_prime := 3;
              rp_periods := None; rp_bad_primes := Some [2] |}
           [[qz 1; qz 0]; [qz 0; qz 1]]).
  - reflexivity.
  - discriminate.
  - exact doubling_preimages_exact.
  - exact rational_preperiodic_points_doubling.
Defined.

(** ** [connected_rational_component] *)

Section ConnectedComponentFacts.
Context {Point : Type}.
Variable point_eq : Point -> Point -> bool.
Variable call : Point -> result Point.
Variable rational_preimages : Point -> result (list Point).

Abbreviation repr := (represented point_eq).
Abbreviation in_order := (unequal_in_order point_eq).
Abbreviation gather := (gather_neighbours call rational_preimages).
Abbreviation loop := (component_loop point_eq call rational_preimages).
Abbreviation linked := (linked call rational_preimages).
Abbreviation neighbours_in :=
  (neighbours_in point_eq call rational_preimages).
Abbreviation component_inv :=
  (component_inv point_eq call rational_preimages).

(** The points gathered in a pass are the images and the rational
    preimages of the points of [nextpoints]. *)
Lemma gather_neighbours_spec nextpoints : forall newpoints out,
  gather nextpoints newpoints = Ok out ->
  exists extra,
    out = newpoints ++ extra /\
    (forall Q, Q ∈ nextpoints ->
       exists Q' pre, call Q = Ok Q' /\ rational_preimages Q = Ok pre /\
         Q' ∈ extra /\ forall x, x ∈ pre -> x ∈ extra) /\
    (forall y, y ∈ extra ->
       exists Q, Q ∈ nextpoints /\
         (call Q = Ok y \/
          exists pre, rational_preimages Q = Ok pre /\ y ∈ pre)).
Proof.
  induction nextpoints as [|Q rest IH]; intros newpoints out H.
  - injection H as <-. exists []. rewrite app_nil_r.
    split; [reflexivity|]. split; intros x Hx; inversion Hx.
  - cbn [gather_neighbours] in H. inv_rbind H. rename a into Q'.
    inv_rbind H. rename a into pre.
    destruct (IH _ _ H) as (extra & -> & Hfwd & Hback).
    exists ([Q'] ++ pre ++ extra). split; [rewrite <- !app_assoc; reflexivity|].
    split.
    + intros R HR. apply elem_of_cons in HR as [->|HR].
      * exists Q', pre. split; [exact Ha|]. split; [exact Ha0|].
        split; [left|]. intros x Hx. right. apply elem_of_app. left. exact Hx.
      * destruct (Hfwd R HR) as (R' & pre' & HR' & Hpre' & Hin & Hall).
        exists R', pre'. split; [exact HR'|]. split; [exact Hpre'|].
        split; [right; apply elem_of_app; right; exact Hin|].
        intros x Hx. right. apply elem_of_app. right. apply Hall, Hx.
    + intros y Hy. apply elem_of_cons in Hy as [->|Hy].
      * exists Q. split; [left|left; exact Ha].
      * apply elem_of_app in Hy as [Hy|Hy].
        -- exists Q. split; [left|]. right. exists pre. auto.
        -- destruct (Hback y Hy) as (R & HR & Hor).
           exists R. split; [right; exact HR|exact Hor].
Qed.

Hypothesis point_eq_refl : forall a, point_eq a a = true.

(** The points added in a pass are new points, in the order met; they go
    to the end of the three lists, and afterwards every new point is equal
    to a listed point. *)
Lemma add_new_points_spec level newpoints :
  forall points0 points1 nextpoints,
  in_order points0 ->
  exists added,
    add_new_points point_eq newpoints level points0 points1 nextpoints
    = (points0 ++ added, points1 ++ replicate (length added) level,
       nextpoints ++ added) /\
    added ⊆ newpoints /\
    in_order (points0 ++ added) /\
    forall x, x ∈ newpoints -> repr (points0 ++ added) x.
Proof.
  induction newpoints as [|x rest IH]; intros points0 points1 nextpoints Hord.
  - exists []. cbn [add_new_points length replicate]. rewrite !app_nil_r.
    split; [reflexivity|]. split; [intros y Hy; exact Hy|].
    split; [exact Hord|]. intros y Hy. inversion Hy.
  - cbn [add_new_points].
    destruct (existsb (fun s => point_eq s x) points0) eqn:Hin.
    + destruct (IH points0 points1 nextpoints Hord)
        as (added & -> & Hsub & Hord' & Hrep).
      exists added. split; [reflexivity|].
      split; [intros y Hy; right; apply Hsub, Hy|].
      split; [exact Hord'|]. intros y Hy.
      apply elem_of_cons in Hy as [->|Hy]; [|apply Hrep, Hy].
      apply (in_set_true point_eq) in Hin.
      eapply represented_mono; [|exact Hin].
      intros s Hs. apply elem_of_app. left. exact Hs.
    + destruct (IH (points0 ++ [x]) (points1 ++ [level]) (nextpoints ++ [x])
                  (unequal_in_order_snoc point_eq points0 x Hord Hin))
        as (added & -> & Hsub & Hord' & Hrep).
      exists (x :: added). cbn [length replicate].
      rewrite <- !app_assoc. cbn [app].
      split; [reflexivity|].
      split.
      { intros y Hy. apply elem_of_cons in Hy as [->|Hy];
          [left|right; apply Hsub, Hy]. }
      rewrite <- app_assoc in Hord', Hrep. cbn [app] in Hord', Hrep.
      split; [exact Hord'|]. intros y Hy.
      apply elem_of_cons in Hy as [->|Hy]; [|apply Hrep, Hy].
      exists x. split; [|apply point_eq_refl].
      apply elem_of_app. right. left.
Qed.

Lemma neighbours_in_mono S0 S1 Q :
  S0 ⊆ S1 -> neighbours_in S0 Q -> neighbours_in S1 Q.
Proof.
  intros Hsub (Q' & pre & HQ' & Hpre & Hrep & Hall).
  exists Q', pre. split; [exact HQ'|]. split; [exact Hpre|].
  split; [eapply represented_mono; eauto|].
  intros x Hx. eapply represented_mono; eauto.
Qed.

(** One pass keeps the invariant. *)
Lemma component_pass_inv P level points0 points1 nextpoints newpoints added :
  1 <= level ->
  component_inv P level points0 points1 nextpoints ->
  gather nextpoints [] = Ok newpoints ->
  add_new_points point_eq newpoints level points0 points1 []
  = (points0 ++ added, points1 ++ replicate (length added) level,
     [] ++ added) ->
  added ⊆ newpoints ->
  in_order (points0 ++ added) ->
  (forall x, x ∈ newpoints -> repr (points0 ++ added) x) ->
  component_inv P (level + 1) (points0 ++ added)
    (points1 ++ replicate (length added) level) added.
Proof.
  intros Hlevel (Hlen & Hord & Hhead & Hnext & Hnb & Hlev & Hlink)
    Hgather _ Hsub Hord' Hrep.
  destruct (gather_neighbours_spec _ _ _ Hgather)
    as (extra & Hextra & Hfwd & Hback).
  cbn [app] in Hextra. subst extra.
  assert (Hadded : forall Q, Q ∈ added ->
            linked P (Z.to_nat level) Q).
  { intros Q HQ. destruct (Hback Q (Hsub Q HQ)) as (R & HR & Hor).
    pose proof (Hlink R HR) as HlR.
    replace (Z.to_nat level) with (S (Z.to_nat (level - 1))) by lia.
    destruct Hor as [Hc|(pre & Hpre & Hin)].
    - eapply linked_image; eauto.
    - eapply linked_preimage; eauto. }
  split; [rewrite !length_app, length_replicate; lia|].
  split; [exact Hord'|].
  split; [destruct points0; [discriminate|exact Hhead]|].
  split; [intros Q HQ; apply elem_of_app; right; exact HQ|].
  split; [|split].
  - intros Q HQ. apply elem_of_app in HQ as [HQ|HQ]; [|left; exact HQ].
    right. destruct (Hnb Q HQ) as [HQn|HQn].
    + destruct (Hfwd Q HQn) as (Q' & pre & HQ' & Hpre & Hin & Hall).
      exists Q', pre. split; [exact HQ'|]. split; [exact Hpre|].
      split; [apply Hrep, Hin|]. intros x Hx. apply Hrep, Hall, Hx.
    + eapply neighbours_in_mono; [|exact HQn].
      intros s Hs. apply elem_of_app. left. exact Hs.
  - intros Ql HQl. rewrite zip_with_app in HQl by exact Hlen.
    apply elem_of_app in HQl as [HQl|HQl].
    + destruct (Hlev Ql HQl) as [Hl Hk]. split; [lia|exact Hk].
    + destruct Ql as [Q l].
      apply elem_of_zip_l in HQl as HQ. apply elem_of_zip_r in HQl as Hl.
      cbn [fst snd] in *.
      apply elem_of_replicate in Hl as [-> _].
      split; [lia|]. apply Hadded, HQ.
  - intros Q HQ. replace (level + 1 - 1) with level by lia.
    apply Hadded, HQ.
Qed.

Lemma component_loop_spec P n fuel :
  forall level points0 points1 nextpoints result,
  1 <= level -> (1 <= n -> level <= n) ->
  component_inv P level points0 points1 nextpoints ->
  loop fuel n level points0 points1 nextpoints = Some (Ok result) ->
  head result = Some P /\
  in_order result /\
  (forall Q, Q ∈ result ->
     exists k, linked P k Q /\ (1 <= n -> Z.of_nat k <= n)) /\
  (n = 0 -> forall Q, Q ∈ result -> neighbours_in result Q).
Proof.
  induction fuel as [|fuel IH];
    intros level points0 points1 nextpoints result Hlevel Hn Hinv H;
    [discriminate|].
  cbn [component_loop] in H.
  destruct (gather nextpoints []) as [newpoints|e] eqn:Hgather;
    [|discriminate].
  destruct (add_new_points_spec level newpoints points0 points1 []
              (proj1 (proj2 Hinv)))
    as (added & Hadd & Hsub & Hord' & Hrep).
  pose proof (component_pass_inv P level points0 points1 nextpoints
                newpoints added Hlevel Hinv Hgather Hadd Hsub Hord' Hrep)
    as Hinv'.
  rewrite Hadd in H. cbn [app] in H.
  destruct (((level + 1 >? n) && negb (n =? 0))
            || Nat.eqb (length added) 0) eqn:Hexit.
  - injection H as <-.
    destruct Hinv' as (Hlen' & _ & Hhead' & _ & Hnb' & Hlev' & _).
    split; [exact Hhead'|]. split; [exact Hord'|]. split.
    + intros Q HQ.
      apply list_elem_of_lookup in HQ as [i Hi].
      destruct (lookup_lt_is_Some_2
                  (points1 ++ replicate (length added) level) i)
        as [l Hl].
      { rewrite <- Hlen'. eapply lookup_lt_Some; eauto. }
      assert (HQl : (Q, l) ∈ zip (points0 ++ added)
                      (points1 ++ replicate (length added) level)).
      { apply list_elem_of_lookup. exists i.
        apply lookup_zip_with_Some. exists Q, l. auto. }
      destruct (Hlev' _ HQl) as [Hl' Hk]. cbn [fst snd] in *.
      exists (Z.to_nat l). split; [exact Hk|]. intros H1. specialize (Hn H1).
      lia.
    + intros -> Q HQ.
      cbn [Z.eqb negb] in Hexit. rewrite andb_false_r in Hexit.
      cbn [orb] in Hexit. apply Nat.eqb_eq in Hexit.
      destruct added; [|discriminate].
      destruct (Hnb' Q HQ) as [Hin|Hnbq]; [inversion Hin|exact Hnbq].
  - apply orb_false_iff in Hexit as [Hexit _].
    refine (IH (level + 1) _ _ _ result _ _ Hinv' H); [lia|].
    intros H1. apply andb_false_iff in Hexit as [Hexit|Hexit].
    + rewrite Z.gtb_ltb in Hexit. apply Z.ltb_ge in Hexit. lia.
    + apply negb_false_iff, Z.eqb_eq in Hexit. lia.
Qed.

Lemma component_inv_start P : component_inv P 1 [P] [0] [P].
Proof.
  split; [reflexivity|].
  split; [intros [|i] [|j] a b Hij Ha Hb; try lia; destruct j; discriminate|].
  split; [reflexivity|]. split; [auto|]. split; [auto|]. split.
  - intros Ql HQl. apply list_elem_of_singleton in HQl as ->.
    cbn [fst snd]. split; [lia|constructor].
  - intros Q HQ. apply list_elem_of_singleton in HQ as ->. constructor.
Qed.

(** X18.  Without a bound ([n = 0]) the list that
    [connected_rational_component] returns starts with [P], holds no two
    equal points, and is closed under the map in both directions: it holds
    a point equal to the image and to every rational preimage of each of
    its points. *)
Theorem connected_rational_component_is_closed fuel P result :
  connected_rational_component point_eq call rational_preimages fuel P 0
  = Some (Ok result) ->
  head result = Some P /\
  in_order result /\
  forall Q, Q ∈ result -> neighbours_in result Q.
Proof.
  intros H.
  destruct (component_loop_spec P 0 fuel 1 [P] [0] [P] result)
    as (Hhead & Hord & _ & Hclosed);
    [lia|lia|apply component_inv_start|exact H|].
  split; [exact Hhead|]. split; [exact Hord|]. exact (Hclosed eq_refl).
Qed.

(** X19.  Every point that [connected_rational_component] returns is
    linked to [P] by steps to the image or to a rational preimage of the
    point before; with a bound [n >= 1] at most [n] steps are needed. *)
Theorem connected_rational_component_is_linked fuel P n result Q :
  connected_rational_component point_eq call rational_preimages fuel P n
  = Some (Ok result) ->
  Q ∈ result ->
  exists k, linked P k Q /\ (1 <= n -> Z.of_nat k <= n).
Proof.
  intros H HQ.
  destruct (component_loop_spec P n fuel 1 [P] [0] [P] result)
    as (_ & _ & Hlinked & _);
    [lia|auto|apply component_inv_start|exact H|].
  exact (Hlinked Q HQ).
Qed.
End ConnectedComponentFacts.

Lemma component_loop_ends {Point : Type} (point_eq : Point -> Point -> bool)
    (call : Point -> result Point)
    (rational_preimages : Point -> result (list Point)) n fuel :
  forall level points0 points1 nextpoints,
  1 <= level <= n -> (Z.to_nat (n - level + 1) <= fuel)%nat ->
  exists r,
    component_loop point_eq call rational_preimages fuel n level
      points0 points1 nextpoints = Some r.
Proof.
  induction fuel as [|fuel IH];
    intros level points0 points1 nextpoints Hlevel Hfuel; [lia|].
  cbn [component_loop].
  destruct (gather_neighbours _ _ _ _) as [newpoints|e]; [|eexists; reflexivity].
  destruct (add_new_points _ _ _ _ _ _) as [[points0' points1'] nextpoints'].
  destruct (((level + 1 >? n) && negb (n =? 0))
            || Nat.eqb (length nextpoints') 0) eqn:Hexit;
    [eexists; reflexivity|].
  apply orb_false_iff in Hexit as [Hexit _].
  apply IH; [|lia].
  apply andb_false_iff in Hexit as [Hexit|Hexit].
  - rewrite Z.gtb_ltb in Hexit. apply Z.ltb_ge in Hexit. lia.
  - apply negb_false_iff, Z.eqb_eq in Hexit. lia.
Qed.

(** X17.  With a bound [n >= 1] the loop of [connected_rational_component]
    ends after at most [n] passes, for every map and every point,
    preperiodic or not: it returns a list, or an error of the map or of
    [rational_preimages]. *)
Theorem connected_rational_component_ends_within_bound {Point : Type}
    (point_eq : Point -> Point -> bool) (call : Point -> result Point)
    (rational_preimages : Point -> result (list Point)) P n :
  1 <= n ->
  exists r,
    connected_rational_component point_eq call rational_preimages
      (Z.to_nat n) P n = Some r.
Proof.
  intros Hn. unfold connected_rational_component.
  apply component_loop_ends; lia.
Qed.

Example connected_rational_component_GF_13 :
  connected_rational_component (point_eq_mod 13)
    (fun P => call_GF 13 orbit_structure_example P true)
    (preimages_GF 13 orbit_structure_example) 20 [3; 1] 0
  = Some (Ok [[3; 1]; [8; 1]; [2; 1]; [11; 1]; [10; 1]; [4; 1]; [9; 1];
              [5; 1]; [6; 1]; [7; 1]]) /\
  connected_rational_component (point_eq_mod 13)
    (fun P => call_GF 13 orbit_structure_example P true)
    (preimages_GF 13 orbit_structure_example) 2 [3; 1] 2
  = Some (Ok [[3; 1]; [8; 1]; [2; 1]; [11; 1]; [10; 1]; [4; 1]; [9; 1];
              [5; 1]]).
Proof. split; vm_compute; reflexivity. Qed.

Lemma connected_rational_component_ends_within_bound_witness :
  exists r,
    connected_rational_component (point_eq_mod 13)
      (fun P => call_GF 13 orbit_structure_example P true)
      (preimages_GF 13 orbit_structure_example) (Z.to_nat 2) [3; 1] 2
    = Some r.
Proof.
  apply (connected_rational_component_ends_within_bound (point_eq_mod 13)
           (fun P => call_GF 13 orbit_structure_example P true)
           (preimages_GF 13 orbit_structure_example) [3; 1] 2).
  lia.
Defined.

Lemma connected_rational_component_is_closed_witness :
  let result := [[3; 1]; [8; 1]; [2; 1]; [11; 1]; [10; 1]; [4; 1]; [9; 1];
                 [5; 1]; [6; 1]; [7; 1]] in
  head result = Some [3; 1] /\
  unequal_in_order (point_eq_mod 13) result /\
  forall Q, Q ∈ result ->
    neighbours_in (point_eq_mod 13)
      (fun P => call_GF 13 orbit_structure_example P true)
      (preimages_GF 13 orbit_structure_example) result Q.
Proof.
  apply (connected_rational_component_is_closed (point_eq_mod 13)
           (fun P => call_GF 13 orbit_structure_example P true)
           (preimages_GF 13 orbit_structure_example)
           (point_eq_mod_refl 13) 20 [3; 1]).
  exact (proj1 connected_rational_component_GF_13).
Defined.

Lemma connected_rational_component_is_linked_witness :
  exists k,
    linked (fun P => call_GF 13 orbit_structure_example P true)
      (preimages_GF 13 orbit_structure_example) [3; 1] k [5; 1] /\
    (1 <= 2 -> Z.of_nat k <= 2).
Proof.
  apply (connected_rational_component_is_linked (point_eq_mod 13)
           (fun P => call_GF 13 orbit_structure_example P true)
           (preimages_GF 13 orbit_structure_example)
           (point_eq_mod_refl 13) 2 [3; 1] 2
           [[3; 1]; [8; 1]; [2; 1]; [11; 1]; [10; 1]; [4; 1]; [9; 1];
            [5; 1]]).
  - exact (proj2 connected_rational_component_GF_13).
  - do 7 right. left.
Defined.

(** ** [multiplier] *)

(** X20.  With [check=True], [multiplier] first asks [nth_iterate] for the
    [n]-th image, so a negative [n] raises the [TypeError] of
    [nth_iterate]; the message [period must be a positive integer] is
    raised for [n = 0] only, when the image of [P] is defined (the error of
    that image is raised otherwise); and a matrix is returned only for
    [n >= 1] and a point whose [n]-th image is equal to it, the matrix being
    that of the call with [check=False]. *)
Theorem multiplier_check_order F P :
  (forall n, n < 0 ->
     multiplier_QQ F P n true = Raise (TypeError "must be a forward orbit")) /\
  (forall Q, call_QQ F P true = Ok Q ->
     multiplier_QQ F P 0 true
     = Raise (ValueError "period must be a positive integer")) /\
  (forall e, call_QQ F P true = Raise e ->
     multiplier_QQ F P 0 true = Raise e) /\
  (forall n M, multiplier_QQ F P n true = Ok M ->
     orbit_closes F P n /\ multiplier_QQ F P n false = Ok M).
Proof.
  split; [|split; [|split]].
  - intros n Hn. unfold multiplier_QQ, nth_iterate_QQ, nth_iterate.
    destruct (n <? 0) eqn:E; [reflexivity|lia].
  - intros Q HQ. unfold multiplier_QQ, nth_iterate_QQ.
    rewrite nth_iterate_forward by lia.
    change (Z.to_nat 0) with O. cbn [nth_image normalize_if rbind].
    unfold orbit_step. rewrite HQ. cbn [rbind normalize_if].
    rewrite point_eq_QQ_refl. reflexivity.
  - intros e He. unfold multiplier_QQ, nth_iterate_QQ.
    rewrite nth_iterate_forward by lia.
    change (Z.to_nat 0) with O. cbn [nth_image normalize_if rbind].
    unfold orbit_step. rewrite He. reflexivity.
  - intros n M H. unfold multiplier_QQ in H.
    destruct (Z_lt_le_dec n 0) as [Hn|Hn].
    + unfold nth_iterate_QQ, nth_iterate in H.
      destruct (n <? 0) eqn:E; [discriminate|lia].
    + unfold nth_iterate_QQ in H. rewrite nth_iterate_forward in H by lia.
      fold (iterate_QQ F (Z.to_nat n) P) in H.
      destruct (iterate_QQ F (Z.to_nat n) P) as [Q|e] eqn:HQ;
        [|discriminate].
      cbn [rbind] in H.
      destruct (orbit_step _ _ _ _ Q) as [Q'|e]; [|discriminate].
      cbn [rbind] in H.
      destruct (point_eq_QQ Q P) eqn:Heq; [|discriminate].
      cbn [negb] in H.
      destruct (n <? 1) eqn:E1; [discriminate|].
      apply Z.ltb_ge in E1.
      split; [|exact H]. split; [exact E1|]. exists Q. auto.
Qed.

(** The values of the docstring: [[2 0] [0 2]] at [(4 : 4 : 1)] for
    [x^2, y^2, 4*z^2], [[231361/20736]] at [(2 : 5)] with period [4] for
    [7*x^2 - 28*y^2, 24*x*y], and the error at [(0 : 1)] for
    [x^2 - y^2, y^2]. *)
Example multiplier_doctests :
  multiplier_QQ multiplier_example_plane [qz 4; qz 4; qz 1] 1 true
  = Ok [[qz 2; qz 0]; [qz 0; qz 2]] /\
  multiplier_QQ multiplier_example [qz 2; qz 5] 4 true
  = Ok [[qfrac 231361 20736]] /\
  multiplier_QQ lift_example_1 [qz 0; qz 1] 1 true
  = Raise (ValueError "is not periodic of the given period").
Proof. split; [|split]; by_evaluation. Qed.

Lemma last_nonzero_index_lt Q i :
  last_nonzero_index Q = Ok i ->
  exists c, Q !! i = Some c /\ c <> 0%Qc.
Proof.
  unfold last_nonzero_index, last_index.
  destruct (last_index_from _ Q 0) as [j|] eqn:E; [|discriminate].
  intros H. injection H as <-.
  apply last_index_from_Some in E as (_ & c & Hc & Hk).
  rewrite Nat.sub_0_r in Hc. exists c. split; [exact Hc|].
  apply negb_true_iff, Qc_eqb_false in Hk. exact Hk.
Qed.

(** Normalising a normalised point changes nothing. *)
Lemma normalize_coordinates_QQ_idem v Q :
  normalize_coordinates_QQ v = Ok Q -> normalize_coordinates_QQ Q = Ok Q.
Proof.
  unfold normalize_coordinates_QQ, last_index, scale_by_QQ.
  destruct (last_index_from _ v 0) as [i|] eqn:E; [|discriminate].
  destruct (last_index_from_Some _ _ _ _ E) as (_ & c & Hc & Hk).
  rewrite Nat.sub_0_r in Hc. rewrite Hc. cbn [default from_option].
  unfold Datatypes.id.
  apply negb_true_iff, Qc_eqb_false in Hk.
  destruct (Qc_eqb (1 / c) 0%Qc) eqn:E1; [discriminate|].
  apply Qc_eqb_false in E1.
  intros H. injection H as <-.
  rewrite (last_index_from_fmap _ (fun u => (u * (1 / c))%Qc) v).
  - rewrite E. rewrite list_lookup_fmap, Hc. cbn [fmap option_fmap option_map
      default from_option]. unfold Datatypes.id.
    replace (1 / (c * (1 / c)))%Qc with 1%Qc
      by (field; split; [exact Hk|discriminate]).
    change (Qc_eqb 1 0%Qc) with false. cbn iota. f_equal.
    rewrite <- list_fmap_compose.
    apply list_fmap_ext. intros _ u _. cbn. ring.
  - intros x. f_equal. destruct (Qc_eqb x 0%Qc) eqn:Ex.
    + apply Qc_eqb_true in Ex. subst x. apply Qc_eqb_true. ring.
    + apply Qc_eqb_false in Ex. apply Qc_eqb_false. intros H.
      apply Qcmult_integral in H as [H|H]; contradiction.
Qed.

(** The loop of [multiplier] for [n + m] is the loop for [m] started where
    the loop for [n] stops. *)
Lemma multiplier_loop_QQ_app F m n : forall Q index l A Qn indexn,
  last_nonzero_index Q = Ok index ->
  multiplier_loop_QQ F n Q index l = Ok A ->
  orbit_skip (call_QQ F) normalize_coordinates_QQ true true n Q = Ok Qn ->
  last_nonzero_index Qn = Ok indexn ->
  multiplier_loop_QQ F (n + m) Q index l
  = multiplier_loop_QQ F m Qn indexn A.
Proof.
  induction n as [|n IH]; intros Q index l A Qn indexn Hidx HA HQn Hidxn.
  - injection HA as <-. injection HQn as <-.
    assert (index = indexn) by congruence. subst indexn. reflexivity.
  - cbn [multiplier_loop_QQ Nat.add] in *. cbn [orbit_skip] in HQn.
    unfold orbit_step, normalize_if in HQn.
    destruct (call_QQ F Q true) as [R|e]; [|discriminate].
    cbn [rbind] in *.
    destruct (normalize_coordinates_QQ R) as [R'|e]; [|discriminate].
    cbn [rbind] in *.
    destruct (last_nonzero_index R') as [index'|e] eqn:Hidx'; [|discriminate].
    cbn [rbind] in *.
    destruct (jacobian_dehomogenized F index index' Q) as [J|e];
      [|discriminate].
    cbn [rbind] in *.
    apply (IH R' index' _ A Qn indexn Hidx' HA HQn Hidxn).
Qed.

(** On the projective line the Jacobians are single numbers. *)
Lemma jacobian_dehomogenized_line F i j Q J :
  length F = 2%nat -> (i < 2)%nat -> (j < 2)%nat ->
  jacobian_dehomogenized F i j Q = Ok J ->
  exists c, J = [[c]].
Proof.
  intros HF Hi Hj H.
  destruct F as [|f0 [|f1 [|f2 F]]]; try discriminate.
  unfold jacobian_dehomogenized in H. inv_rbind H. inv_rbind H.
  inv_rbind H.
  assert (Hi' : i = 0%nat \/ i = 1%nat) by lia.
  assert (Hj' : j = 0%nat \/ j = 1%nat) by lia.
  destruct Hi' as [-> | ->], Hj' as [-> | ->];
    cbn [delete list_delete seq length result_map] in H;
    inv_rbind H; inv_rbind H; inv_rbind Ha2; inv_rbind Ha2;
    cbn [rbind result_map] in *;
    repeat match goal with
           | E : Ok _ = Ok _ |- _ => injection E as <-
           end;
    eexists; reflexivity.
Qed.

Lemma matrix_mul_QQ_line (a b : Qc) :
  matrix_mul_QQ [[a]] [[b]] = [[(a * b)%Qc]].
Proof.
  unfold matrix_mul_QQ, dot_QQ, column.
  cbn [fmap list_fmap head default from_option]. unfold Datatypes.id.
  cbn [length seq fmap list_fmap lookup list_lookup from_option
       zip zip_with foldr fst snd].
  f_equal. f_equal. ring.
Qed.

(** On the line the loop multiplies the number it starts from by the
    product of the derivatives along the orbit. *)
Lemma multiplier_loop_QQ_line F k : forall Q index x M,
  length F = 2%nat -> length Q = 2%nat -> (index < 2)%nat ->
  multiplier_loop_QQ F k Q index [[x]] = Ok M ->
  exists c, M = [[(c * x)%Qc]] /\
    forall y, multiplier_loop_QQ F k Q index [[y]] = Ok [[(c * y)%Qc]].
Proof.
  induction k as [|k IH]; intros Q index x M HF HQ Hidx H.
  - injection H as <-. exists 1%Qc. rewrite Qcmult_1_l.
    split; [reflexivity|].
    intros y. rewrite Qcmult_1_l. reflexivity.
  - cbn [multiplier_loop_QQ] in *.
    destruct (call_QQ F Q true) as [R|e] eqn:HR; [|discriminate].
    cbn [rbind] in *.
    destruct (normalize_coordinates_QQ R) as [R'|e] eqn:HR'; [|discriminate].
    cbn [rbind] in *.
    destruct (last_nonzero_index R') as [index'|e] eqn:Hidx'; [|discriminate].
    cbn [rbind] in *.
    destruct (jacobian_dehomogenized F index index' Q) as [J|e] eqn:HJ;
      [|discriminate].
    cbn [rbind] in *.
    assert (HlR' : length R' = 2%nat).
    { apply normalize_coordinates_QQ_scale in HR' as (lam & _ & ->).
      unfold scale. rewrite length_fmap.
      destruct (call_QQ_image F Q R HR) as [Hl _]. congruence. }
    assert (Hi' : (index' < 2)%nat).
    { destruct (last_nonzero_index_lt R' index' Hidx') as (c & Hc & _).
      rewrite <- HlR'. eapply lookup_lt_Some; eauto. }
    destruct (jacobian_dehomogenized_line F index index' Q J HF Hidx Hi' HJ)
      as (c0 & ->).
    rewrite matrix_mul_QQ_line in H.
    destruct (IH R' index' _ M HF HlR' Hi' H) as (c & -> & Hall).
    exists (c * c0)%Qc. rewrite <- Qcmult_assoc. split; [reflexivity|].
    intros y. rewrite matrix_mul_QQ_line, Hall, Qcmult_assoc. reflexivity.
Qed.

(** X21.  The chain rule on the projective line: without the check, the
    multiplier for [n + m] steps at [P] is the product of the multiplier
    for [m] steps at the [n]-th normalised image of [P] and the multiplier
    for [n] steps at [P]. *)
Theorem multiplier_chain_rule F P Pn n m A B :
  length F = 2%nat -> length P = 2%nat -> 0 <= n -> 0 <= m ->
  multiplier_QQ F P n false = Ok A ->
  nth_image (call_QQ F) normalize_coordinates_QQ true true (Z.to_nat n) P
  = Ok Pn ->
  multiplier_QQ F Pn m false = Ok B ->
  multiplier_QQ F P (n + m) false = Ok (matrix_mul_QQ B A).
Proof.
  intros HF HP Hn Hm HA HPn HB.
  unfold multiplier_QQ, multiplier_product in *.
  rewrite HF in *. change (2 - 1)%nat with 1%nat in *.
  change (identity_matrix_QQ 1) with [[1%Qc]] in *.
  rewrite nth_image_skip in HPn. cbn [normalize_if] in HPn.
  destruct (normalize_coordinates_QQ P) as [Q|e] eqn:HQ; [|discriminate].
  cbn [rbind] in *.
  destruct (last_nonzero_index Q) as [index|e] eqn:Hidx; [|discriminate].
  cbn [rbind] in *.
  (* the point the second call starts from is already normalised *)
  assert (HPn' : normalize_coordinates_QQ Pn = Ok Pn).
  { destruct (Z.to_nat n) as [|k].
    - injection HPn as <-. eapply normalize_coordinates_QQ_idem; eauto.
    - rewrite orbit_skip_snoc in HPn. inv_rbind HPn.
      unfold orbit_step, normalize_if in HPn. inv_rbind HPn.
      eapply normalize_coordinates_QQ_idem; eauto. }
  rewrite HPn' in HB. cbn [rbind] in HB.
  destruct (last_nonzero_index Pn) as [indexn|e] eqn:Hidxn; [|discriminate].
  cbn [rbind] in HB.
  replace (Z.to_nat (n + m)) with (Z.to_nat n + Z.to_nat m)%nat by lia.
  rewrite (multiplier_loop_QQ_app F (Z.to_nat m) (Z.to_nat n) Q index
             [[1%Qc]] A Pn indexn Hidx HA HPn Hidxn).
  assert (HlQ : length Q = 2%nat).
  { apply normalize_coordinates_QQ_scale in HQ as (lam & _ & ->).
    unfold scale. rewrite length_fmap. exact HP. }
  assert (HlPn : length Pn = 2%nat).
  { destruct (Z.to_nat n) as [|k].
    - injection HPn as <-. exact HlQ.
    - rewrite orbit_skip_snoc in HPn. inv_rbind HPn.
      unfold orbit_step, normalize_if in HPn. inv_rbind HPn.
      apply normalize_coordinates_QQ_scale in HPn as (lam & _ & ->).
      unfold scale. rewrite length_fmap.
      destruct (call_QQ_image F _ _ Ha0) as [Hl _]. congruence. }
  assert (Hin : (indexn < 2)%nat).
  { destruct (last_nonzero_index_lt Pn indexn Hidxn) as (c & Hc & _).
    rewrite <- HlPn. eapply lookup_lt_Some; eauto. }
  assert (Hi : (index < 2)%nat).
  { destruct (last_nonzero_index_lt Q index Hidx) as (c & Hc & _).
    rewrite <- HlQ. eapply lookup_lt_Some; eauto. }
  destruct (multiplier_loop_QQ_line F (Z.to_nat n) Q index 1%Qc A
              HF HlQ Hi HA) as (a & -> & _).
  destruct (multiplier_loop_QQ_line F (Z.to_nat m) Pn indexn 1%Qc B
              HF HlPn Hin HB) as (b & -> & Hall).
  rewrite Hall, matrix_mul_QQ_line, !Qcmult_1_r. reflexivity.
Qed.

Lemma multiplier_chain_rule_witness :
  multiplier_QQ multiplier_example [qz 2; qz 5] (2 + 2) false
  = Ok (matrix_mul_QQ [[qfrac 481 144]] [[qfrac 481 144]]).
Proof.
  apply (multiplier_chain_rule multiplier_example [qz 2; qz 5]
           [qfrac (-2) 5; qz 1] 2 2).
  - reflexivity.
  - reflexivity.
  - lia.
  - lia.
  - by_evaluation.
  - by_evaluation.
  - by_evaluation.
Defined.

(** ** [cyclegraph] on a subscheme *)

Section CyclegraphSubschemeFacts.
Context {Ambient Point : Type}.
Variable X_point : Ambient -> result Point.
Variable call : Point -> result Point.
Variable normalize_coordinates : Point -> result Point.

Abbreviation subscheme_loop :=
  (cyclegraph_subscheme_loop X_point call normalize_coordinates).
Abbreviation on_scheme := (points_on_scheme X_point).
Abbreviation leaves := (image_leaves_scheme call normalize_coordinates).
Abbreviation recorded := (recorded_neighbours call normalize_coordinates).

Lemma cyclegraph_subscheme_loop_spec points : forall V E V' E',
  subscheme_loop points V E = Ok (V', E') ->
  exists E1,
    V' = V ++ on_scheme points /\
    E' = E ++ E1 /\
    Forall2 recorded
      (filter (fun XP => leaves XP = false) (on_scheme points)) E1.
Proof.
  induction points as [|P points IH]; intros V E V' E' H.
  - injection H as <- <-. exists []. rewrite !app_nil_r.
    split; [reflexivity|]. split; [reflexivity|constructor].
  - cbn [cyclegraph_subscheme_loop points_on_scheme] in *.
    destruct (X_point P) as [XP|e] eqn:HP.
    + rewrite filter_cons.
      assert (Hl : leaves XP
                   = match (do Q <- call XP; normalize_coordinates Q) with
                     | Raise (TypeError _) => true
                     | _ => false
                     end) by reflexivity.
      destruct (do Q <- call XP; normalize_coordinates Q) as [Q|e] eqn:HQ.
      * destruct (IH _ _ _ _ H) as (E1 & -> & -> & Hall).
        exists ([Q] :: E1). rewrite <- !app_assoc.
        split; [reflexivity|]. split; [reflexivity|].
        rewrite decide_True by exact Hl.
        constructor; [|exact Hall].
        unfold recorded_neighbours, normalized_image. rewrite HQ. reflexivity.
      * destruct e; try discriminate.
        -- destruct (IH _ _ _ _ H) as (E1 & -> & -> & Hall).
           exists E1. rewrite <- !app_assoc.
           split; [reflexivity|]. split; [reflexivity|].
           rewrite decide_False by (rewrite Hl; discriminate). exact Hall.
        -- destruct (IH _ _ _ _ H) as (E1 & -> & -> & Hall).
           exists ([] :: E1). rewrite <- !app_assoc.
           split; [reflexivity|]. split; [reflexivity|].
           rewrite decide_True by exact Hl.
           constructor; [|exact Hall].
           unfold recorded_neighbours, normalized_image. rewrite HQ.
           reflexivity.
    + destruct e; try discriminate. exact (IH _ _ _ _ H).
Qed.

(** X22.  In the branch of [cyclegraph] for a subscheme, [V] holds the
    points of the scheme in order, and [E] the recorded neighbours of those
    whose image does not raise [TypeError], in order.  So [E] is shorter
    than [V] by the number of points whose image raises [TypeError], and
    each vertex is zipped with its own neighbours when there is no such
    point. *)
Theorem cyclegraph_subscheme_alignment points V E :
  cyclegraph_subscheme_loop X_point call normalize_coordinates points [] []
  = Ok (V, E) ->
  V = points_on_scheme X_point points /\
  Forall2 recorded (filter (fun XP => leaves XP = false) V) E /\
  length V = (length E + length (filter (fun XP => leaves XP = true) V))%nat /\
  ((forall XP, XP ∈ V -> leaves XP = false) -> Forall2 recorded V E).
Proof.
  intros H.
  destruct (cyclegraph_subscheme_loop_spec points [] [] V E H)
    as (E1 & -> & -> & Hall).
  cbn [app] in *. split; [reflexivity|]. split; [exact Hall|].
  split.
  - rewrite <- (Forall2_length _ _ _ Hall).
    generalize (on_scheme points). intros l.
    induction l as [|x l IH]; [reflexivity|].
    rewrite !filter_cons. destruct (leaves x) eqn:Ex.
    + rewrite decide_False, decide_True by congruence.
      cbn [length]. lia.
    + rewrite decide_True, decide_False by congruence.
      cbn [length]. lia.
  - intros Hnone.
    replace (on_scheme points)
      with (filter (fun XP => leaves XP = false) (on_scheme points)) at 1;
      [exact Hall|].
    revert Hnone. generalize (on_scheme points). intros l Hnone.
    induction l as [|x l IH]; [reflexivity|].
    rewrite filter_cons, decide_True by (apply Hnone; left).
    f_equal. apply IH. intros y Hy. apply Hnone. right. exact Hy.
Qed.
End CyclegraphSubschemeFacts.

(** On the curve [x^2 = y^2] over [GF(3)] the image of [(0 : 0 : 1)] is
    off the curve: the point stays in [V] without an entry in [E], and it
    is zipped with [(1 : 2 : 1)], the image of the next point
    [(1 : 1 : 1)]. *)
Lemma cyclegraph_subscheme_alignment_witness :
  let V := [[0; 0; 1]; [1; 1; 1]; [1; 2; 1]; [2; 1; 1]; [2; 2; 1];
            [1; 1; 0]; [2; 1; 0]] in
  let E := [[[1; 2; 1]]; [[1; 2; 1]]; [[1; 2; 1]]; [[1; 2; 1]];
            [[1; 1; 0]]; [[1; 1; 0]]] in
  cyclegraph_subscheme_loop curve_point_example curve_map_example
    (normalize_coordinates_GF 3) (points_of_projective_space 3 2) [] []
  = Ok (V, E) /\
  length V
  = (length E
     + length (filter
                 (fun XP =>
                    image_leaves_scheme curve_map_example
                      (normalize_coordinates_GF 3) XP = true) V))%nat.
Proof.
  intros V E.
  assert (Hrun : cyclegraph_subscheme_loop curve_point_example
                   curve_map_example (normalize_coordinates_GF 3)
                   (points_of_projective_space 3 2) [] [] = Ok (V, E))
    by (vm_compute; reflexivity).
  split; [exact Hrun|].
  exact (proj1 (proj2 (proj2
           (cyclegraph_subscheme_alignment curve_point_example
              curve_map_example (normalize_coordinates_GF 3)
              (points_of_projective_space 3 2) V E Hrun)))).
Defined.

(** ** [nth_iterate_map] *)

Section NthIterateMapFacts.
Context {Map : Type}.
Variable compose : Map -> Map -> Map.
Variable identity : Map.
Variable normalize_coordinates : Map -> Map.

Hypothesis compose_assoc : forall f g h,
  compose (compose f g) h = compose f (compose g h).
Hypothesis compose_identity_l : forall f, compose identity f = f.
Hypothesis compose_identity_r : forall f, compose f identity = f.

Abbreviation power := (map_power compose identity).
Abbreviation loop :=
  (nth_iterate_map_loop compose normalize_coordinates).

Lemma map_power_succ f k : power f (S k) = compose (power f k) f.
Proof. reflexivity. Qed.

Lemma map_power_add f a b :
  power f (a + b) = compose (power f a) (power f b).
Proof.
  induction b as [|b IH].
  - rewrite Nat.add_0_r. symmetry. apply compose_identity_r.
  - rewrite Nat.add_succ_r, !map_power_succ, IH. apply compose_assoc.
Qed.

Lemma map_power_square f k :
  power (compose f f) k = power f (2 * k).
Proof.
  induction k as [|k IH]; [reflexivity|].
  replace (2 * S k)%nat with (S (S (2 * k))) by lia.
  rewrite !map_power_succ, IH. symmetry. apply compose_assoc.
Qed.

Lemma map_power_1 f : power f 1 = f.
Proof. apply compose_identity_l. Qed.

(** The loop keeps [PHI * F^D]. *)
Lemma nth_iterate_map_loop_spec fuel : forall D PHI F,
  0 <= D < 2 ^ Z.of_nat fuel ->
  loop fuel D PHI F false = Some (compose PHI (power F (Z.to_nat D))).
Proof.
  induction fuel as [|fuel IH]; intros D PHI F HD.
  - assert (D = 0) by (change (2 ^ Z.of_nat 0) with 1 in HD; lia).
    subst D. cbn. rewrite compose_identity_r. reflexivity.
  - cbn [nth_iterate_map_loop].
    destruct (D =? 0) eqn:E0.
    + apply Z.eqb_eq in E0. subst D. cbn.
      rewrite compose_identity_r. reflexivity.
    + apply Z.eqb_neq in E0.
      assert (Hhalf : 0 <= Z.shiftr D 1 < 2 ^ Z.of_nat fuel).
      { rewrite Z.shiftr_div_pow2 by lia. change (2 ^ 1) with 2.
        rewrite Nat2Z.inj_succ, Z.pow_succ_r in HD by lia.
        split; [apply Z.div_pos; lia|].
        apply Z.div_lt_upper_bound; lia. }
      rewrite IH by exact Hhalf.
      rewrite Z.shiftr_div_pow2 by lia. change (2 ^ 1) with 2.
      change 1 with (Z.ones 1) at 1. rewrite Z.land_ones by lia.
      change (2 ^ 1) with 2.
      pose proof (Z.div_mod D 2 ltac:(lia)) as Hdm.
      pose proof (Z.mod_pos_bound D 2 ltac:(lia)) as Hm.
      f_equal.
      destruct (D mod 2 =? 1) eqn:Eodd.
      * apply Z.eqb_eq in Eodd.
        destruct (D >? 1) eqn:E1.
        -- rewrite map_power_square, compose_assoc.
           rewrite <- (map_power_1 F) at 1. rewrite <- map_power_add.
           f_equal. f_equal. lia.
        -- rewrite Z.gtb_ltb in E1. apply Z.ltb_ge in E1.
           assert (D = 1) by lia. subst D.
           change (Z.to_nat (1 / 2)) with O. change (Z.to_nat 1) with 1%nat.
           rewrite map_power_1. apply compose_identity_r.
      * apply Z.eqb_neq in Eodd.
        destruct (D >? 1) eqn:E1.
        -- rewrite map_power_square. f_equal. f_equal. lia.
        -- rewrite Z.gtb_ltb in E1. apply Z.ltb_ge in E1. lia.
Qed.

(** X23.  Composition being associative with the coordinate map as its
    unit, [nth_iterate_map(n)] without normalisation is the [n]-fold
    composition of the map with itself for every [n >= 0], reached in at
    most as many passes as [n] has bits; for [n = 0] this is the
    coordinate map, and a negative [n] raises [TypeError]. *)
Theorem nth_iterate_map_is_power fuel self n :
  (n < 0 ->
   nth_iterate_map compose identity normalize_coordinates fuel self n false
   = Some (Raise (TypeError "iterate number must be a positive integer"))) /\
  (0 <= n < 2 ^ Z.of_nat fuel ->
   nth_iterate_map compose identity normalize_coordinates fuel self n false
   = Some (Ok (power self (Z.to_nat n)))).
Proof.
  split.
  - intros Hn. unfold nth_iterate_map.
    destruct (n <? 0) eqn:E; [reflexivity|lia].
  - intros Hn. unfold nth_iterate_map.
    destruct (n <? 0) eqn:E; [lia|].
    destruct (n =? 1) eqn:E1.
    + apply Z.eqb_eq in E1. subst n. change (Z.to_nat 1) with 1%nat.
      rewrite map_power_1. reflexivity.
    + rewrite nth_iterate_map_loop_spec by exact Hn.
      rewrite compose_identity_l. reflexivity.
Qed.
End NthIterateMapFacts.

Lemma nth_iterate_map_is_power_witness :
  nth_iterate_map (fun f g (x : list Qc) => f (g x)) (fun x => x)
    (fun f => f) 3 (map_of_system lift_example_1) 5 false
  = Some (Ok (map_power (fun f g (x : list Qc) => f (g x)) (fun x => x)
                (map_of_system lift_example_1) (Z.to_nat 5))).
Proof.
  apply (nth_iterate_map_is_power (fun f g (x : list Qc) => f (g x))
           (fun x => x) (fun f => f)).
  - reflexivity.
  - reflexivity.
  - reflexivity.
  - change (2 ^ Z.of_nat 3) with 8. lia.
Defined.

(** ** [_is_preperiodic] *)

Section IsPreperiodicFacts.
Context {Point Num : Type}.
Variable point_eq : Point -> Point -> bool.
Variable call : Point -> result Point.
Variable leb : Num -> Num -> bool.
Variable canonical_height : Point -> Num -> result Num.
Variable height_difference_bound : result Num.
Variable global_height : Point -> Num.
Variable codomain_is_projective_space : bool.
Variable is_morphism : bool.
Variable point_in_domain : bool.
Variable base_field_is_number_field_or_QQbar : bool.

Abbreviation img := (plain_image call).
Abbreviation height_loop :=
  (is_preperiodic_loop point_eq call leb global_height).
Abbreviation plain_inv := (structure_inv point_eq call (fun Q => Ok Q)).

Lemma index_of_existsb D x :
  existsb (fun s => point_eq s x) D = true ->
  exists i, index point_eq D x = Some i.
Proof.
  induction D as [|d D IH]; [discriminate|].
  cbn [existsb index]. destruct (point_eq d x); [eexists; reflexivity|].
  cbn [orb]. intros H. destruct (IH H) as [i ->]. eexists. reflexivity.
Qed.

(** The loop keeps the list of the first images of [P], no two of them
    equal; if it stops with a height within the bound, the next image is
    in the list. *)
Lemma is_preperiodic_loop_spec P B fuel : forall orbit n Q H orbit' n' Q' H',
  plain_inv P orbit Q (n + 1) ->
  height_loop fuel orbit n Q H B = Some (Ok (orbit', n', Q', H')) ->
  plain_inv P orbit' Q' (n' + 1) /\
  (leb H' B = true -> existsb (fun s => point_eq s Q') orbit' = true).
Proof.
  induction fuel as [|fuel IH]; intros orbit n Q H orbit' n' Q' H' Hinv Hrun;
    cbn [is_preperiodic_loop] in Hrun;
    destruct (negb (existsb (fun s => point_eq s Q) orbit) && leb H B)
      eqn:Hcond.
  - discriminate.
  - injection Hrun as <- <- <- <-. split; [exact Hinv|].
    intros HB. rewrite HB, andb_true_r in Hcond.
    apply negb_false_iff in Hcond. exact Hcond.
  - destruct (call Q) as [Q1|e] eqn:HQ1; [|discriminate].
    apply andb_true_iff in Hcond as [Hnot _].
    apply negb_true_iff in Hnot.
    apply (IH (orbit ++ [Q]) (n + 1) Q1 (global_height Q1)); [|exact Hrun].
    destruct Hinv as (Himg & HQ & Hidx & Hdist).
    split; [|split; [|split]].
    + intros i d Hd. apply lookup_snoc_Some in Hd as [[_ Hd]|[Hi Hq]];
        [auto|subst i d; exact HQ].
    + rewrite length_app. cbn [length].
      rewrite Nat.add_1_r, structure_image_succ, HQ. cbn [rbind].
      rewrite HQ1. reflexivity.
    + rewrite length_app. cbn [length]. lia.
    + intros i j a b Hij Ha Hb.
      apply lookup_snoc_Some in Hb as [[Hjl Hb]|[Hj Hq]].
      * rewrite lookup_app_l in Ha by lia. eauto.
      * subst j b. rewrite lookup_app_l in Ha by lia.
        apply (in_set_false point_eq orbit Q Hnot).
        eapply list_elem_of_lookup_2; eauto.
  - injection Hrun as <- <- <- <-. split; [exact Hinv|].
    intros HB. rewrite HB, andb_true_r in Hcond.
    apply negb_false_iff in Hcond. exact Hcond.
Qed.

(** X24.  A positive answer of [_is_preperiodic] is right whatever the
    heights computed: when the method returns [True], or a pair other
    than [(0, 0)], the orbit of [P] closes.  There are [m >= 0] and
    [n >= 1], the pair returned when one is, such that [f^(m+n)(P)] is
    equal to [f^m(P)], no two of the first [m + n] points of the orbit are
    equal, and [f^(m+n)(P)] is equal to no point before [f^m(P)]. *)
Theorem is_preperiodic_positive_answer_is_right
    fuel P err return_period ans :
  _is_preperiodic point_eq call leb canonical_height height_difference_bound
    global_height codomain_is_projective_space is_morphism point_in_domain
    base_field_is_number_field_or_QQbar fuel P err return_period
  = Some (Ok ans) ->
  ans <> Periods 0 0 -> ans <> Truth false ->
  exists m n,
    (ans = if return_period then Periods m n else Truth true) /\
    0 <= m /\ 1 <= n /\
    (exists a b, img (Z.to_nat m) P = Ok a /\
                 img (Z.to_nat (m + n)) P = Ok b /\ point_eq a b = true) /\
    (forall i j a b, (i < j)%nat -> (j < Z.to_nat (m + n))%nat ->
       img i P = Ok a -> img j P = Ok b -> point_eq a b = false) /\
    (forall i a b, (i < Z.to_nat m)%nat ->
       img i P = Ok a -> img (Z.to_nat (m + n)) P = Ok b ->
       point_eq a b = false).
Proof.
  intros H Hne1 Hne2. unfold _is_preperiodic in H.
  assert (Hwander : forall X : Prop,
            Some (Ok (if return_period then Periods 0 0 else Truth false))
            = Some (Ok ans) -> X).
  { intros X E. injection E as <-. destruct return_period; contradiction. }
  destruct (negb codomain_is_projective_space); [discriminate|].
  destruct (negb is_morphism); [discriminate|].
  destruct (negb point_in_domain); [discriminate|].
  destruct (negb base_field_is_number_field_or_QQbar); [discriminate|].
  destruct (canonical_height P err) as [h|e]; [|discriminate].
  destruct (leb h err); [|exact (Hwander _ H)].
  destruct (do B <- height_difference_bound; _) as [[B Q]|e] eqn:Hstart;
    [|discriminate].
  inv_rbind Hstart. inv_rbind Hstart. injection Hstart as -> ->.
  destruct (height_loop fuel [P] 1 Q (global_height Q) B)
    as [[[[[orbit n] Q'] H']|e]|] eqn:Hloop; try discriminate.
  destruct (is_preperiodic_loop_spec P B fuel [P] 1 Q (global_height Q)
              orbit n Q' H') as [Hinv Hin]; [|exact Hloop|].
  { split; [|split; [|split]].
    - intros [|i] d Hd; [|discriminate]. injection Hd as <-. reflexivity.
    - unfold structure_image. cbn [length nth_image normalize_if rbind].
      unfold orbit_step. rewrite Ha0. reflexivity.
    - reflexivity.
    - intros [|i] [|j] a b Hij Ha' Hb; try lia; discriminate. }
  destruct (leb H' B) eqn:HB; [|exact (Hwander _ H)].
  destruct (index_of_existsb orbit Q' (Hin eq_refl)) as [I' HI].
  pose proof (orbit_structure_found point_eq call (fun Q => Ok Q)
                P orbit Q' (n + 1) I' Hinv HI) as Hfound.
  cbn zeta in Hfound.
  replace (n + 1 - Z.of_nat I' - 1) with (n - Z.of_nat I') in Hfound by lia.
  exists (Z.of_nat I'), (n - Z.of_nat I').
  split; [|exact Hfound].
  destruct return_period.
  - rewrite HI in H. injection H as <-. reflexivity.
  - injection H as <-. reflexivity.
Qed.
End IsPreperiodicFacts.

(** The point [(-1 : 1)] of the docstring goes to the fixed point
    [(2 : 1)]; with heights within the bounds the answers are [(1, 1)] and
    [True]. *)
Example is_preperiodic_doctest :
  _is_preperiodic point_eq_QQ (fun Q => call_QQ is_preperiodic_example Q true)
    (fun a b : Qc => bool_decide (a <= b)%Qc) (fun _ _ => Ok 0%Qc)
    (Ok (qz 10)) (fun _ => qz 1) true true true true 5 [qz (-1); qz 1]
    (qfrac 1 10) true
  = Some (Ok (Periods 1 1)) /\
  _is_preperiodic point_eq_QQ (fun Q => call_QQ is_preperiodic_example Q true)
    (fun a b : Qc => bool_decide (a <= b)%Qc) (fun _ _ => Ok 0%Qc)
    (Ok (qz 10)) (fun _ => qz 1) true true true true 5 [qz (-1); qz 1]
    (qfrac 1 10) false
  = Some (Ok (Truth true)).
Proof. split; vm_compute; reflexivity. Qed.

Lemma is_preperiodic_positive_answer_is_right_witness :
  exists m n,
    Periods 1 1 = Periods m n /\
    0 <= m /\ 1 <= n /\
    (exists a b,
       plain_image (fun Q => call_QQ is_preperiodic_example Q true)
         (Z.to_nat m) [qz (-1); qz 1] = Ok a /\
       plain_image (fun Q => call_QQ is_preperiodic_example Q true)
         (Z.to_nat (m + n)) [qz (-1); qz 1] = Ok b /\
       point_eq_QQ a b = true) /\
    (forall i j a b, (i < j)%nat -> (j < Z.to_nat (m + n))%nat ->
       plain_image (fun Q => call_QQ is_preperiodic_example Q true) i
         [qz (-1); qz 1] = Ok a ->
       plain_image (fun Q => call_QQ is_preperiodic_example Q true) j
         [qz (-1); qz 1] = Ok b ->
       point_eq_QQ a b = false) /\
    (forall i a b, (i < Z.to_nat m)%nat ->
       plain_image (fun Q => call_QQ is_preperiodic_example Q true) i
         [qz (-1); qz 1] = Ok a ->
       plain_image (fun Q => call_QQ is_preperiodic_example Q true)
         (Z.to_nat (m + n)) [qz (-1); qz 1] = Ok b ->
       point_eq_QQ a b = false).
Proof.
  apply (is_preperiodic_positive_answer_is_right point_eq_QQ
           (fun Q => call_QQ is_preperiodic_example Q true)
           (fun a b : Qc => bool_decide (a <= b)%Qc) (fun _ _ => Ok 0%Qc)
           (Ok (qz 10)) (fun _ => qz 1) true true true true 5
           [qz (-1); qz 1] (qfrac 1 10) true (Periods 1 1)).
  - exact (proj1 is_preperiodic_doctest).
  - discriminate.
  - discriminate.
Defined.
